(** * DIPlib 3.0: a shallow embedding of selected library code

    Each module below embeds one source file (or a part of one) of the
    library as Rocq definitions and proves properties of the embedded
    code.  Integers of a fixed width are modelled as [Z] with the
    wrap-around written out, [dfloat] as Rocq's primitive binary64 floats,
    image buffers as lists addressed through offsets and strides, and
    thrown exceptions as the left injection of a sum. *)

From Stdlib Require Import ZArith Lia Bool List String Floats.
From stdpp Require Import base tactics option list sorting.

(** A decimal literal denotes the nearest binary64 value, as in C++. *)
Set Warnings "-inexact-float".

(** * Saturated arithmetic (include/diplib/saturated_arithmetic.h) *)

Module SaturatedArithmetic.
Local Open Scope Z_scope.

(** The three signed integer sample kinds that have their own template
    specialisations: [sint8], [sint16] and [sint32]. *)
Inductive sint_kind : Set := SINT8 | SINT16 | SINT32.

(** Width in bits of the kind itself. *)
Definition bits (k : sint_kind) : Z :=
  match k with SINT8 => 8 | SINT16 => 16 | SINT32 => 32 end.

(** Width of the wider type each specialisation names: [sint16] for
    [sint8], [sint32] for [sint16], [int64_t] for [sint32]. *)
Definition wide_bits (k : sint_kind) : Z :=
  match k with SINT8 => 16 | SINT16 => 32 | SINT32 => 64 end.

(** Width of [int], to which C++ promotes narrower operands before any
    arithmetic is done. *)
Definition int_bits : Z := 32.

(** [std::numeric_limits<T>::lowest()] and [::max()] of a signed type of
    [w] bits. *)
Definition numeric_limits_lowest (w : Z) : Z := - 2 ^ (w - 1).
Definition numeric_limits_max (w : Z) : Z := 2 ^ (w - 1) - 1.

Definition representable (w : Z) (v : Z) : Prop :=
  numeric_limits_lowest w <= v <= numeric_limits_max w.

(** Conversion of an integer value to a signed type of [w] bits: the value
    is reduced modulo [2^w] into the type's range (two's complement). *)
Definition static_cast (w : Z) (v : Z) : Z :=
  (v + 2 ^ (w - 1)) mod 2 ^ w - 2 ^ (w - 1).

(** A binary arithmetic expression whose operands have a type of [w] bits
    is evaluated at [max w int_bits] bits. *)
Definition promoted (w : Z) : Z := Z.max w int_bits.

(** Modelled from the spec: [dip::clamp] and [dip::clamp_both<T,S>] of
    diplib/library/clamp_cast.h, whose text is not available.  The spec
    says the signed operators compute in the wider type
    and then clamp the result into [min,max] of the original type: the
    bounds of [T] are taken to [S], the value is clamped between them and
    the result is converted to [T]. *)
Definition clamp (v lo hi : Z) : Z := Z.min (Z.max v lo) hi.

Definition clamp_both (k : sint_kind) (v : Z) : Z :=
  static_cast (bits k)
    (clamp v (static_cast (wide_bits k) (numeric_limits_lowest (bits k)))
             (static_cast (wide_bits k) (numeric_limits_max (bits k)))).

(** An operand of kind [k] cast to the wider type [S], the operation done
    at the promoted width, and the result bound to [clamp_both]'s
    parameter of type [S]. *)
Definition widened (k : sint_kind) (op : Z -> Z -> Z) (lhs rhs : Z) : Z :=
  static_cast (wide_bits k)
    (static_cast (promoted (wide_bits k))
       (op (static_cast (wide_bits k) lhs) (static_cast (wide_bits k) rhs))).

(** [saturated_add], [saturated_sub], [saturated_mul]: the specialisations
    for [sint32], [sint16] and [sint8] differ only in the two types they
    name. *)
Definition saturated_add (k : sint_kind) (lhs rhs : Z) : Z :=
  clamp_both k (widened k Z.add lhs rhs).

Definition saturated_sub (k : sint_kind) (lhs rhs : Z) : Z :=
  clamp_both k (widened k Z.sub lhs rhs).

Definition saturated_mul (k : sint_kind) (lhs rhs : Z) : Z :=
  clamp_both k (widened k Z.mul lhs rhs).

(** [saturated_inv]: [v == lowest() ? max() : -v]; the negation is done
    at the promoted width and converted back on return. *)
Definition saturated_inv (k : sint_kind) (v : Z) : Z :=
  if v =? numeric_limits_lowest (bits k)
  then numeric_limits_max (bits k)
  else static_cast (bits k) (static_cast (promoted (bits k)) (- v)).

(** The doctest of the header. *)
Example doctest_add_1 : saturated_add SINT16 250 20 = 270.
Proof. reflexivity. Qed.
Example doctest_add_2 : saturated_add SINT16 30000 10000 = 32767.
Proof. reflexivity. Qed.
Example doctest_sub_1 : saturated_sub SINT16 10 20 = -10.
Proof. reflexivity. Qed.
Example doctest_mul_1 : saturated_mul SINT16 300 100 = 30000.
Proof. reflexivity. Qed.
Example doctest_mul_2 : saturated_mul SINT16 300 (-100) = -30000.
Proof. reflexivity. Qed.
Example doctest_mul_3 : saturated_mul SINT16 300 1000 = 32767.
Proof. reflexivity. Qed.
Example doctest_mul_4 : saturated_mul SINT16 300 (-1000) = -32768.
Proof. reflexivity. Qed.
Example doctest_inv_1 : saturated_inv SINT16 300 = -300.
Proof. reflexivity. Qed.
Example doctest_inv_2 : saturated_inv SINT16 (-32768) = 32767.
Proof. reflexivity. Qed.
Example doctest_inv_3 : saturated_inv SINT16 (-32767) = 32767.
Proof. reflexivity. Qed.
Example doctest_inv_4 : saturated_inv SINT16 (-32766) = 32766.
Proof. reflexivity. Qed.

(** ** Properties *)

Lemma static_cast_representable (w v : Z) :
  0 < w -> representable w v -> static_cast w v = v.
Proof.
  unfold representable, numeric_limits_lowest, numeric_limits_max, static_cast.
  intros Hw [Hlo Hhi].
  assert (Hpow : 2 ^ w = 2 * 2 ^ (w - 1)).
  { replace w with (Z.succ (w - 1)) at 1 by lia. apply Z.pow_succ_r. lia. }
  rewrite Z.mod_small; lia.
Qed.

Lemma representable_mono (w w' v : Z) :
  0 < w <= w' -> representable w v -> representable w' v.
Proof.
  unfold representable, numeric_limits_lowest, numeric_limits_max.
  intros [Hw Hle] [Hlo Hhi].
  assert (2 ^ (w - 1) <= 2 ^ (w' - 1)) by (apply Z.pow_le_mono_r; lia).
  lia.
Qed.

(** The exact sum, difference and product of two values of kind [k] fit
    the wider type, so the widened computation never overflows. *)
Lemma exact_fits_wide (k : sint_kind) (lhs rhs : Z) :
  representable (bits k) lhs -> representable (bits k) rhs ->
  representable (wide_bits k) (lhs + rhs) /\
  representable (wide_bits k) (lhs - rhs) /\
  representable (wide_bits k) (lhs * rhs).
Proof.
  unfold representable, numeric_limits_lowest, numeric_limits_max.
  destruct k; simpl; intros [Hl1 Hl2] [Hr1 Hr2]; repeat split; nia.
Qed.

Lemma widened_exact (k : sint_kind) (op : Z -> Z -> Z) (lhs rhs : Z) :
  representable (bits k) lhs -> representable (bits k) rhs ->
  representable (wide_bits k) (op lhs rhs) ->
  widened k op lhs rhs = op lhs rhs.
Proof.
  intros Hl Hr Hop. unfold widened.
  assert (Hk : 0 < bits k <= wide_bits k) by (destruct k; simpl; lia).
  assert (Hp : 0 < wide_bits k <= promoted (wide_bits k))
    by (unfold promoted, int_bits; lia).
  rewrite (static_cast_representable (wide_bits k) lhs),
          (static_cast_representable (wide_bits k) rhs)
    by (try lia; eapply representable_mono; eauto).
  rewrite (static_cast_representable (promoted (wide_bits k)))
    by (try lia; eapply representable_mono; eauto).
  apply static_cast_representable; [lia | assumption].
Qed.

Lemma clamp_both_exact (k : sint_kind) (v : Z) :
  clamp_both k v =
  clamp v (numeric_limits_lowest (bits k)) (numeric_limits_max (bits k)) /\
  representable (bits k) (clamp_both k v).
Proof.
  assert (Hrep : representable (bits k)
            (clamp v (numeric_limits_lowest (bits k)) (numeric_limits_max (bits k)))).
  { unfold representable, clamp, numeric_limits_lowest, numeric_limits_max.
    destruct k; simpl; lia. }
  unfold clamp_both.
  rewrite !(static_cast_representable (wide_bits k));
    try (destruct k; simpl; unfold representable, numeric_limits_lowest,
           numeric_limits_max; simpl; lia).
  rewrite static_cast_representable; [auto | destruct k; simpl; lia | exact Hrep].
Qed.

(** C1. For two values of one signed integer kind (8, 16 or 32 bits),
    [saturated_add], [saturated_sub] and [saturated_mul] return the exact
    sum, difference and product, which the wider type holds without
    overflow, clamped into [lowest, max] of the kind, so each result is
    representable in the kind; [saturated_inv v] is [- v] unless [v] is
    the kind's lowest value, for which it is the kind's maximum. *)
Theorem saturated_signed_exact_then_clamped (k : sint_kind) (lhs rhs : Z) :
  representable (bits k) lhs -> representable (bits k) rhs ->
  let lo := numeric_limits_lowest (bits k) in
  let hi := numeric_limits_max (bits k) in
  (saturated_add k lhs rhs = clamp (lhs + rhs) lo hi /\
   saturated_sub k lhs rhs = clamp (lhs - rhs) lo hi /\
   saturated_mul k lhs rhs = clamp (lhs * rhs) lo hi) /\
  (representable (wide_bits k) (lhs + rhs) /\
   representable (wide_bits k) (lhs - rhs) /\
   representable (wide_bits k) (lhs * rhs)) /\
  (representable (bits k) (saturated_add k lhs rhs) /\
   representable (bits k) (saturated_sub k lhs rhs) /\
   representable (bits k) (saturated_mul k lhs rhs)) /\
  (lhs <> lo -> saturated_inv k lhs = - lhs) /\
  (lhs = lo -> saturated_inv k lhs = hi).
Proof.
  intros Hl Hr lo hi.
  destruct (exact_fits_wide k lhs rhs Hl Hr) as (Hadd & Hsub & Hmul).
  unfold saturated_add, saturated_sub, saturated_mul.
  rewrite !widened_exact by assumption.
  split; [| split; [| split; [| split]]].
  - split; [| split]; apply clamp_both_exact.
  - auto.
  - split; [| split]; apply clamp_both_exact.
  - intros Hne. unfold saturated_inv.
    destruct (Z.eqb_spec lhs (numeric_limits_lowest (bits k))) as [E | _];
      [exfalso; apply Hne; exact E |].
    assert (Hneg : representable (bits k) (- lhs)).
    { revert Hl Hne. unfold lo, representable, numeric_limits_lowest,
        numeric_limits_max. destruct k; simpl; lia. }
    rewrite (static_cast_representable (promoted (bits k))).
    + apply static_cast_representable; [destruct k; simpl; lia | exact Hneg].
    + unfold promoted, int_bits. lia.
    + eapply representable_mono; [| exact Hneg].
      unfold promoted, int_bits. destruct k; simpl; lia.
  - intros ->. unfold saturated_inv, lo. now rewrite Z.eqb_refl.
Qed.

(** The theorem at the doctest's operands: [sint16] values 300 and 1000. *)
Lemma saturated_signed_exact_then_clamped_witness :
  (saturated_add SINT16 300 1000 = 1300 /\
   saturated_sub SINT16 300 1000 = -700 /\
   saturated_mul SINT16 300 1000 = 32767) /\
  saturated_inv SINT16 300 = -300.
Proof.
  assert (H1 : representable (bits SINT16) 300)
    by (unfold representable, numeric_limits_lowest, numeric_limits_max; simpl; lia).
  assert (H2 : representable (bits SINT16) 1000)
    by (unfold representable, numeric_limits_lowest, numeric_limits_max; simpl; lia).
  destruct (saturated_signed_exact_then_clamped SINT16 300 1000 H1 H2)
    as (Hops & _ & _ & Hinv & _).
  split.
  - exact Hops.
  - apply Hinv. unfold numeric_limits_lowest. simpl. lia.
Defined.

End SaturatedArithmetic.

(** * Outcomes of a call

    A call of the library either returns a value, throws an exception (the
    [DIP_THROW] family of macros, all of which raise an error carrying a
    message), or leaves the behaviour defined by the language (an
    out-of-range conversion, an access outside a buffer). *)

Module Outcome.

(** The messages of diplib/library/error.h that the embedded code names
    through the [E::] constants, and free-form messages. *)
Inductive Error : Set :=
| IMAGE_NOT_FORGED
| IMAGE_NOT_SCALAR
| IMAGE_NOT_BINARY
| DATA_TYPE_NOT_SUPPORTED
| SIZES_DONT_MATCH
| DIMENSIONALITY_NOT_SUPPORTED
| PARAMETER_OUT_OF_RANGE
| KERNEL_NOT_BINARY
| INVALID_FLAG
| Message (what : string).

Inductive outcome (A : Type) : Type :=
| Returns (a : A)
| Throws (e : Error)
| Undefined.

Arguments Returns {A} a.
Arguments Throws {A} e.
Arguments Undefined {A}.

Definition bind {A B : Type} (m : outcome A) (f : A -> outcome B) : outcome B :=
  match m with
  | Returns a => f a
  | Throws e => Throws e
  | Undefined => Undefined
  end.

(** [DIP_THROW_IF( test, error )] *)
Definition DIP_THROW_IF (test : bool) (e : Error) : outcome unit :=
  if test then Throws e else Returns tt.

(** A value that exists only when the language defines it. *)
Definition defined {A : Type} (o : option A) : outcome A :=
  match o with Some a => Returns a | None => Undefined end.

Fixpoint for_each {A B : Type} (f : A -> outcome B) (l : list A) : outcome (list B) :=
  match l with
  | [] => Returns []
  | a :: l' =>
      bind (f a) (fun b => bind (for_each f l') (fun bs => Returns (b :: bs)))
  end.

Definition throws {A : Type} (m : outcome A) : Prop :=
  match m with Throws _ => True | _ => False end.

Definition returns {A : Type} (m : outcome A) : Prop :=
  match m with Returns _ => True | _ => False end.

Lemma for_each_lookup {A B : Type} (f : A -> outcome B) (l : list A) (bs : list B)
    (i : nat) (a : A) :
  for_each f l = Returns bs -> l !! i = Some a ->
  exists b, f a = Returns b /\ bs !! i = Some b.
Proof.
  revert bs i. induction l as [| a' l IH]; intros bs i Hrun Hi.
  - discriminate.
  - simpl in Hrun. destruct (f a') as [b' | |] eqn:Hfa; try discriminate.
    simpl in Hrun. destruct (for_each f l) as [bs' | |] eqn:Hrest; try discriminate.
    simpl in Hrun. injection Hrun as <-.
    destruct i as [| i]; simpl in *.
    + injection Hi as <-. eauto.
    + eapply IH; eauto.
Qed.

Lemma for_each_length {A B : Type} (f : A -> outcome B) (l : list A) (bs : list B) :
  for_each f l = Returns bs -> length bs = length l.
Proof.
  revert bs. induction l as [| a l IH]; intros bs Hrun; simpl in Hrun.
  - injection Hrun as <-. reflexivity.
  - destruct (f a) as [b | |]; try discriminate. simpl in Hrun.
    destruct (for_each f l) as [bs' | |]; try discriminate. simpl in Hrun.
    injection Hrun as <-. simpl. f_equal. auto.
Qed.

End Outcome.

#[global] Instance outcome_ret : MRet Outcome.outcome := @Outcome.Returns.
#[global] Instance outcome_bind : MBind Outcome.outcome :=
  fun A B f m => Outcome.bind m f.
#[global] Instance outcome_fmap : FMap Outcome.outcome :=
  fun A B f m => Outcome.bind m (fun a => Outcome.Returns (f a)).

(** * Double-precision samples and their conversions

    [dfloat] is IEEE 754 binary64, which is what Rocq's primitive floats
    are, so arithmetic on [dfloat] values is embedded as is. *)

Module Dfloat.
Local Open Scope Z_scope.

Definition dfloat : Set := float.

(** The integer part of a finite value (rounding toward zero), as the
    conversion of a floating-point value to an integer type takes it. *)
Definition truncate (x : dfloat) : option Z :=
  match Prim2SF x with
  | S754_zero _ => Some 0
  | S754_finite s m e =>
      Some (cond_Zopp s (if 0 <=? e then Z.pos m * 2 ^ e else Z.pos m / 2 ^ (- e)))
  | S754_infinity _ | S754_nan => None
  end.

(** [static_cast< dip::uint >( x )] and [static_cast< dip::sint >( x )]:
    defined when the truncated value fits the 64-bit target. *)
Definition static_cast_uint (x : dfloat) : option Z :=
  match truncate x with
  | Some z => if (0 <=? z) && (z <? 2 ^ 64) then Some z else None
  | None => None
  end.

Definition static_cast_sint (x : dfloat) : option Z :=
  match truncate x with
  | Some z => if (- 2 ^ 63 <=? z) && (z <? 2 ^ 63) then Some z else None
  | None => None
  end.

(** [static_cast< dfloat >( n )] for an integer [n]: the nearest binary64
    value, ties to even. *)
Definition of_integer (n : Z) : dfloat :=
  SF2Prim (binary_normalize prec emax n 0 false).

(** [std::max( a, b )] is [( a < b ) ? b : a] and [std::min( a, b )] is
    [( b < a ) ? b : a]. *)
Definition std_max (a b : dfloat) : dfloat := if PrimFloat.ltb a b then b else a.
Definition std_min (a b : dfloat) : dfloat := if PrimFloat.ltb b a then b else a.

(** [std::round]: to the nearest integer, halfway cases away from zero. *)
Definition std_round (x : dfloat) : dfloat :=
  match Prim2SF x with
  | S754_finite s m e =>
      if 0 <=? e then x
      else
        let d := 2 ^ (- e) in
        let q := Z.pos m / d in
        let n := if d <=? 2 * (Z.pos m mod d) then q + 1 else q in
        if n =? 0 then (if s then neg_zero else zero)
        else of_integer (cond_Zopp s n)
  | _ => x
  end.

(** [std::floor] followed by the reading of the result as an integer. *)
Definition floor_integer (x : dfloat) : option Z :=
  match Prim2SF x with
  | S754_zero _ => Some 0
  | S754_finite s m e =>
      Some (if 0 <=? e then cond_Zopp s (Z.pos m * 2 ^ e)
            else if s then - ((Z.pos m + 2 ^ (- e) - 1) / 2 ^ (- e))
                 else Z.pos m / 2 ^ (- e))
  | S754_infinity _ | S754_nan => None
  end.

Example truncate_22_2 : truncate 22.2%float = Some 22.
Proof. vm_compute. reflexivity. Qed.
Example truncate_neg : truncate (-4.7)%float = Some (-4).
Proof. vm_compute. reflexivity. Qed.
Example floor_neg : floor_integer (-4.2)%float = Some (-5).
Proof. vm_compute. reflexivity. Qed.
Example round_half : std_round 2.5%float = 3%float /\ std_round (-2.5)%float = (-3)%float.
Proof. vm_compute. split; reflexivity. Qed.
Example round_down : std_round 14.1%float = 14%float /\ std_round (-4.2)%float = (-4)%float.
Proof. vm_compute. split; reflexivity. Qed.
Example of_integer_exact : of_integer 359 = 359%float /\ of_integer (- 7) = (-7)%float.
Proof. vm_compute. split; reflexivity. Qed.

End Dfloat.

(** * Pixel tables (src/library/pixel_table.cpp)

    The constructor [PixelTable( shape, size, procDim )].  The embedding
    covers the argument checks and the computation of [sizes_] and
    [origin_] for the four shapes, which is what [Sizes()] and [Origin()]
    return; the enumeration of the runs, which does not change them
    (except through [ShiftOrigin] for a line), is left out. *)

Module PixelTable.
Import Outcome Dfloat.
Local Open Scope Z_scope.

Record PixelTable : Set := {
  sizes_ : list Z;      (* UnsignedArray *)
  origin_ : list Z;     (* IntegerArray, before any ShiftOrigin *)
  procDim_ : Z
}.

(** Arithmetic on [dip::uint] wraps modulo [2^64]; the conversion of a
    [dip::uint] to [dip::sint] reads the same bits as a signed value. *)
Definition uint (v : Z) : Z := v mod 2 ^ 64.
Definition sint_of_uint (v : Z) : Z := (v + 2 ^ 63) mod 2 ^ 64 - 2 ^ 63.

(** [origin_[ ii ] = -static_cast< dip::sint >( sizes_[ ii ] ) / 2]:
    the negation binds first and the division rounds toward zero. *)
Definition origin_of_size (sz : Z) : Z := Z.quot (- sint_of_uint sz) 2.

(** The extent of a [line] along one dimension. *)
Definition line_size (s : dfloat) : outcome Z :=
  if PrimFloat.ltb s 0 then
    let s' := std_min (std_round s + 1)%float 0%float in
    t ← defined (static_cast_uint (- s')%float); mret (uint (t + 1))
  else
    let s' := std_max (std_round s - 1)%float 0%float in
    t ← defined (static_cast_uint s'); mret (uint (t + 1)).

(** The extent of a [rectangular] neighbourhood along one dimension;
    [s] has been raised to at least 1 already. *)
Definition rectangular_size (s : dfloat) : outcome Z :=
  defined (static_cast_uint s).

(** The extent of an [elliptic] or [diamond] neighbourhood along one
    dimension: [( static_cast< dip::uint >( size[ ii ] ) / 2 ) * 2 + 1]. *)
Definition odd_size (s : dfloat) : outcome Z :=
  t ← defined (static_cast_uint s); mret (uint (uint (t / 2 * 2) + 1)).

Definition make (sizes : list Z) (procDim : Z) : PixelTable :=
  {| sizes_ := sizes; origin_ := map origin_of_size sizes; procDim_ := procDim |}.

Definition PixelTable_ctor (shape : string) (size : list dfloat) (procDim : Z)
  : outcome PixelTable :=
  let nDims := Z.of_nat (length size) in
  DIP_THROW_IF (nDims <? 1) DIMENSIONALITY_NOT_SUPPORTED;;
  DIP_THROW_IF (nDims <=? procDim) PARAMETER_OUT_OF_RANGE;;
  if String.eqb shape "line" then
    sizes ← for_each line_size size; mret (make sizes procDim)
  else
    (* Make sure filter is at least 1px in each dimension *)
    let size := map (fun s => std_max 1%float s) size in
    if String.eqb shape "rectangular" then
      sizes ← for_each rectangular_size size; mret (make sizes procDim)
    else if String.eqb shape "elliptic" then
      sizes ← for_each odd_size size; mret (make sizes procDim)
    else if String.eqb shape "diamond" then
      sizes ← for_each odd_size size; mret (make sizes procDim)
    else
      Throws (Message ("Neighborhood shape name not recognized: " ++ shape)).

(** The sizes and origins checked by the doctest of the file. *)
Example doctest_elliptic :
  PixelTable_ctor "elliptic" [10.1; 12.7; 5.3]%float 1 =
  Returns {| sizes_ := [11; 13; 5]; origin_ := [-5; -6; -2]; procDim_ := 1 |}.
Proof. vm_compute. reflexivity. Qed.

Example doctest_rectangular :
  PixelTable_ctor "rectangular" [22.2; 33.3]%float 0 =
  Returns {| sizes_ := [22; 33]; origin_ := [-11; -16]; procDim_ := 0 |}.
Proof. vm_compute. reflexivity. Qed.

Example doctest_diamond :
  PixelTable_ctor "diamond" [10.1; 12.7; 5.3]%float 2 =
  Returns {| sizes_ := [11; 13; 5]; origin_ := [-5; -6; -2]; procDim_ := 2 |}.
Proof. vm_compute. reflexivity. Qed.

Example doctest_line :
  sizes_ <$> (PixelTable_ctor "line" [14.1; -4.2; 7.9]%float 0) = Returns [14; 4; 8].
Proof. vm_compute. reflexivity. Qed.

(** ** Properties *)

(** A value raised to at least 1 is positive, so its truncation is its
    floor. *)
Lemma floor_of_raised (s : dfloat) (t : Z) :
  static_cast_uint (std_max 1%float s) = Some t ->
  floor_integer (std_max 1%float s) = Some t.
Proof.
  unfold static_cast_uint, std_max.
  destruct (PrimFloat.ltb 1 s) eqn:Hlt.
  - rewrite ltb_spec in Hlt.
    unfold truncate, floor_integer.
    destruct (Prim2SF s) as [sg | sg | | sg m e] eqn:Hs; try discriminate.
    destruct sg.
    + vm_compute in Hlt. discriminate.
    + simpl. intros H. destruct (0 <=? e); destruct (_ && _); congruence.
  - vm_compute. intros H. exact H.
Qed.

Lemma odd_extent (t : Z) : 0 <= t < 2 ^ 64 ->
  uint (uint (t / 2 * 2) + 1) = t / 2 * 2 + 1 /\ Z.odd (t / 2 * 2 + 1) = true.
Proof.
  intros Ht. unfold uint.
  assert (Hle : 0 <= t / 2 * 2 <= t).
  { pose proof (Z.mul_div_le t 2). pose proof (Z.div_pos t 2). lia. }
  assert (Hodd : Z.odd (t / 2 * 2 + 1) = true).
  { rewrite Z.add_comm, Z.mul_comm, Z.odd_add_mul_2. reflexivity. }
  split; [| exact Hodd].
  rewrite (Z.mod_small (t / 2 * 2)) by lia.
  apply Z.mod_small. split; [lia |].
  destruct (Z.eq_dec (t / 2 * 2 + 1) (2 ^ 64)) as [E | NE]; [| lia].
  rewrite E in Hodd. vm_compute in Hodd. discriminate.
Qed.

Lemma static_cast_uint_range (x : dfloat) (t : Z) :
  static_cast_uint x = Some t -> 0 <= t < 2 ^ 64.
Proof.
  unfold static_cast_uint. destruct (truncate x) as [z |]; [| discriminate].
  destruct (0 <=? z) eqn:H0; destruct (z <? 2 ^ 64) eqn:H1; simpl; try discriminate.
  intros [= <-]. lia.
Qed.

(** The extent the claim C3 names: [(floor(size)/2)*2+1]. *)
Definition odd_extent_of_floor (s : dfloat) : option Z :=
  f ← floor_integer s; Some (f / 2 * 2 + 1).

(** C3, as stated, fails for [rectangular]: a rectangle of size
    [{22.2, 33.3}] has the extents [{22, 33}] the doctest checks, and 22 is
    neither [(floor(22.2)/2)*2+1 = 23] nor odd. *)
Lemma rectangular_extent_is_not_made_odd :
  ~ (forall (shape : string) (size : list dfloat) (procDim : Z) (pt : PixelTable)
            (i : nat) (s : dfloat) (t : Z),
        shape = "rectangular"%string \/ shape = "elliptic"%string \/
        shape = "diamond"%string ->
        PixelTable_ctor shape size procDim = Returns pt ->
        size !! i = Some s -> sizes_ pt !! i = Some t ->
        odd_extent_of_floor s = Some t /\ Z.odd t = true).
Proof.
  intros H.
  destruct (H "rectangular"%string [22.2; 33.3]%float 0 _ 0%nat 22.2%float 22
              (or_introl eq_refl) doctest_rectangular eq_refl eq_refl) as [_ Hodd].
  vm_compute in Hodd. discriminate.
Qed.

(** C3, amended.  Every size is first raised to at least 1.  For
    [elliptic] and [diamond] each stored extent is
    [(floor(max(1,size[i]))/2)*2+1], which is odd; for [rectangular] it is
    [floor(max(1,size[i]))], which is not made odd. *)
Theorem extent_of_named_shape (shape : string) (size : list dfloat) (procDim : Z)
    (pt : PixelTable) (i : nat) (s : dfloat) :
  PixelTable_ctor shape size procDim = Returns pt ->
  size !! i = Some s ->
  (shape = "elliptic"%string \/ shape = "diamond"%string ->
     exists f, floor_integer (std_max 1%float s) = Some f /\
               sizes_ pt !! i = Some (f / 2 * 2 + 1) /\
               Z.odd (f / 2 * 2 + 1) = true) /\
  (shape = "rectangular"%string ->
     exists f, floor_integer (std_max 1%float s) = Some f /\
               sizes_ pt !! i = Some f).
Proof.
  intros Hctor Hi. unfold PixelTable_ctor in Hctor.
  destruct (Z.of_nat (length size) <? 1); [discriminate |].
  destruct (Z.of_nat (length size) <=? procDim); [discriminate |].
  simpl in Hctor.
  assert (Hraised : map (fun s => std_max 1%float s) size !! i = Some (std_max 1%float s))
    by (rewrite list_lookup_fmap, Hi; reflexivity).
  split.
  - intros Hshape.
    assert (Hrun : exists sizes,
               for_each odd_size (map (fun s => std_max 1%float s) size) = Returns sizes /\
               sizes_ pt = sizes).
    { destruct Hshape as [-> | ->]; simpl in Hctor;
        destruct (for_each odd_size _) as [sizes | |]; try discriminate;
        simpl in Hctor; injection Hctor as <-; eauto. }
    destruct Hrun as (sizes & Hrun & ->).
    destruct (for_each_lookup _ _ _ _ _ Hrun Hraised) as (b & Hb & Hlook).
    unfold odd_size in Hb.
    destruct (static_cast_uint (std_max 1%float s)) as [t |] eqn:Ht; [| discriminate].
    simpl in Hb. injection Hb as <-.
    destruct (odd_extent t (static_cast_uint_range _ _ Ht)) as [Heq Hodd].
    exists t. rewrite Heq in Hlook. auto using floor_of_raised.
  - intros ->. simpl in Hctor.
    destruct (for_each rectangular_size _) as [sizes | |] eqn:Hrun; try discriminate.
    simpl in Hctor. injection Hctor as <-. simpl.
    destruct (for_each_lookup _ _ _ _ _ Hrun Hraised) as (b & Hb & Hlook).
    unfold rectangular_size in Hb.
    destruct (static_cast_uint (std_max 1%float s)) as [t |] eqn:Ht; [| discriminate].
    simpl in Hb. injection Hb as <-.
    exists t. auto using floor_of_raised.
Qed.

(** The theorem at the doctest's elliptic table, dimension 0 (size 10.1). *)
Lemma extent_of_named_shape_witness :
  exists f, floor_integer (std_max 1%float 10.1%float) = Some f /\
            sizes_ {| sizes_ := [11; 13; 5]; origin_ := [-5; -6; -2]; procDim_ := 1 |}
              !! 0%nat = Some (f / 2 * 2 + 1) /\
            Z.odd (f / 2 * 2 + 1) = true.
Proof.
  exact (proj1 (extent_of_named_shape "elliptic" [10.1; 12.7; 5.3]%float 1 _ 0%nat
                  10.1%float doctest_elliptic eq_refl) (or_introl eq_refl)).
Defined.

End PixelTable.

(** * Percentile filter (src/nonlinear/percentile.cpp)

    [PercentileLineFilter<TPI>::Filter] for an integer sample type, and
    the checks of [PercentileFilter].  The text of [Framework::Full] is not
    available: what it hands to the line filter (the input line
    extended by the boundary condition, the position of the first pixel in
    it, the stride, the line length, and the offsets that iterating the
    [PixelTableOffsets] yields) are arguments here. *)

Module Percentile.
Import Outcome Dfloat.
Local Open Scope Z_scope.

(** [PercentileLineFilter( dfloat percentile ) : fraction_( percentile / 100.0 )] *)
Definition fraction_ (percentile : dfloat) : dfloat := (percentile / 100)%float.

(** [dip::sint rank = static_cast< dip::sint >( static_cast< dfloat >( N ) * fraction_ )] *)
Definition rank (N : Z) (fraction : dfloat) : outcome Z :=
  defined (static_cast_sint (of_integer N * fraction)%float).

(** Reading element [i] of a buffer; there is none outside it. *)
Definition read (buffer : list Z) (i : Z) : option Z :=
  if 0 <=? i then buffer !! Z.to_nat i else None.

(** [for( auto offset : pixelTable ) { *buffer = in[ offset ]; ++buffer; }] *)
Definition gather (inBuffer : list Z) (pos : Z) (pixelTable : list Z) : outcome (list Z) :=
  for_each (fun offset => defined (read inBuffer (pos + offset))) pixelTable.

(** [std::nth_element( first, nth, last )] of the C++ standard library:
    [nth] must lie in [[first, last]], and afterwards the element at [nth]
    is the one a full sort would put there.  Sorting the whole range is one
    of the rearrangements the standard allows, and all of them agree on the
    element at [nth]. *)
Definition nth_element (buffer : list Z) (nth : Z) : outcome (list Z) :=
  if (0 <=? nth) && (nth <=? Z.of_nat (length buffer))
  then Returns (merge_sort Z.le buffer)
  else Undefined.

(** One turn of the loop over the line: the output sample [*out]. *)
Definition Filter_pixel (pixelTable : list Z) (rank : Z) (inBuffer : list Z) (pos : Z)
  : outcome Z :=
  buffer ← gather inBuffer pos pixelTable;
  buffer ← nth_element buffer rank;
  (* *out = *ourGuy, with ourGuy = begin() + rank *)
  defined (read buffer rank).

Fixpoint Filter_line (pixelTable : list Z) (rank : Z) (inBuffer : list Z)
    (pos inStride : Z) (length : nat) : outcome (list Z) :=
  match length with
  | O => Returns []
  | S n =>
      v ← Filter_pixel pixelTable rank inBuffer pos;
      vs ← Filter_line pixelTable rank inBuffer (pos + inStride) inStride n;
      mret (v :: vs)
  end.

Definition Filter (fraction : dfloat) (pixelTable : list Z) (inBuffer : list Z)
    (pos inStride : Z) (bufferLength : nat) : outcome (list Z) :=
  let N := Z.of_nat (length pixelTable) in
  r ← rank N fraction;
  Filter_line pixelTable r inBuffer pos inStride bufferLength.

(** [PercentileFilter], on one image line. *)
Definition PercentileFilter (forged : bool) (percentile : dfloat) (hasWeights : bool)
    (pixelTable : list Z) (inBuffer : list Z) (pos inStride : Z) (bufferLength : nat)
  : outcome (list Z) :=
  DIP_THROW_IF (negb forged) IMAGE_NOT_FORGED;;
  DIP_THROW_IF hasWeights KERNEL_NOT_BINARY;;
  DIP_THROW_IF ((percentile <? 0)%float || (100 <? percentile)%float)
    PARAMETER_OUT_OF_RANGE;;
  Filter (fraction_ percentile) pixelTable inBuffer pos inStride bufferLength.

(** A line [4 1 3 2 5] seen through a 3-pixel kernel (offsets -1, 0, 1),
    extended by one sample on each side by repeating the edge sample. *)
Definition a_line : list Z := [4; 4; 1; 3; 2; 5; 5].
Definition a_kernel : list Z := [-1; 0; 1].

Example percentile_0_is_erosion :
  PercentileFilter true 0%float false a_kernel a_line 1 1 5 = Returns [1; 1; 1; 2; 2].
Proof. vm_compute. reflexivity. Qed.

Example percentile_50_is_median :
  PercentileFilter true 50%float false a_kernel a_line 1 1 5 = Returns [4; 3; 2; 3; 5].
Proof. vm_compute. reflexivity. Qed.

Example percentile_99_is_dilation :
  PercentileFilter true 99%float false a_kernel a_line 1 1 5 = Returns [4; 4; 3; 5; 5].
Proof. vm_compute. reflexivity. Qed.

Example percentile_101_is_refused :
  PercentileFilter true 101%float false a_kernel a_line 1 1 5 = Throws PARAMETER_OUT_OF_RANGE.
Proof. vm_compute. reflexivity. Qed.

(** The rank is computed in binary64: for 100 samples and percentile 29
    it is 28, since [29 / 100.0] rounds below 0.29. *)
Example rank_is_computed_in_binary64 : rank 100 (fraction_ 29%float) = Returns 28.
Proof. vm_compute. reflexivity. Qed.

(** ** Properties *)

(** With a rank inside the buffer the output sample is the order
    statistic of that rank of the gathered samples. *)
Lemma Filter_pixel_order_statistic (pixelTable : list Z) (r : Z) (inBuffer : list Z)
    (pos : Z) (buffer : list Z) :
  gather inBuffer pos pixelTable = Returns buffer ->
  0 <= r < Z.of_nat (length pixelTable) ->
  exists v, Filter_pixel pixelTable r inBuffer pos = Returns v /\
            merge_sort Z.le buffer !! Z.to_nat r = Some v /\
            Sorted Z.le (merge_sort Z.le buffer) /\
            merge_sort Z.le buffer ≡ₚ buffer.
Proof.
  intros Hg Hr. unfold Filter_pixel. rewrite Hg. simpl.
  pose proof (for_each_length _ _ _ Hg) as Hlen.
  unfold nth_element.
  replace ((0 <=? r) && (r <=? Z.of_nat (length buffer))) with true
    by (symmetry; apply andb_true_intro; split; [apply Z.leb_le | apply Z.leb_le]; lia).
  simpl. unfold read.
  replace (0 <=? r) with true by (symmetry; apply Z.leb_le; lia).
  assert (Hperm : merge_sort Z.le buffer ≡ₚ buffer) by apply merge_sort_Permutation.
  destruct (merge_sort Z.le buffer !! Z.to_nat r) as [v |] eqn:Hv.
  - exists v. repeat split; auto. apply Sorted_merge_sort. intros x y. lia.
  - apply lookup_ge_None in Hv. apply Permutation_length in Hperm. lia.
Qed.

(** With the rank equal to the number of samples, [ourGuy] is the end
    iterator of the buffer and the filter does not return a value. *)
Lemma Filter_pixel_rank_N (pixelTable : list Z) (inBuffer : list Z) (pos : Z) :
  ~ returns (Filter_pixel pixelTable (Z.of_nat (length pixelTable)) inBuffer pos).
Proof.
  unfold Filter_pixel.
  destruct (gather inBuffer pos pixelTable) as [buffer | |] eqn:Hg; simpl; auto.
  pose proof (for_each_length _ _ _ Hg) as Hlen.
  unfold nth_element. destruct (_ && _); simpl; auto.
  unfold read. destruct (0 <=? _); simpl; auto.
  rewrite Nat2Z.id.
  assert (Hperm : merge_sort Z.le buffer ≡ₚ buffer) by apply merge_sort_Permutation.
  apply Permutation_length in Hperm.
  rewrite (proj2 (lookup_ge_None (merge_sort Z.le buffer) (length pixelTable)));
    simpl; auto. lia.
Qed.

(** C5 (the code at the failing input).  [PercentileFilter] accepts
    percentile 100, and then the rank computed for [N] samples is [N]
    itself, not an index below [N]: shown for the neighbourhood sizes 1, 3,
    9 and 25. *)
Theorem rank_at_percentile_100 :
  (100 <? 100)%float = false /\
  rank 1 (fraction_ 100%float) = Returns 1 /\
  rank 3 (fraction_ 100%float) = Returns 3 /\
  rank 9 (fraction_ 100%float) = Returns 9 /\
  rank 25 (fraction_ 100%float) = Returns 25.
Proof. vm_compute. repeat split; reflexivity. Qed.

(** C4 (the code at the failing input).  At percentile 100 the filter
    passes its argument checks and then reads the element one past the end
    of the scratch buffer, where the dilation of the line would be
    [4 4 3 5 5]. *)
Theorem percentile_100_reads_past_the_buffer :
  PercentileFilter true 100%float false a_kernel a_line 1 1 5 = Undefined /\
  ~ returns (Filter_pixel a_kernel (Z.of_nat (length a_kernel)) a_line 1).
Proof.
  split.
  - vm_compute. reflexivity.
  - apply Filter_pixel_rank_N.
Qed.

End Percentile.

(** * Polygons and chain codes (include/diplib/chain_code.h) *)

Module ChainCode.
Import Dfloat.
Local Open Scope float_scope.

(** [Vertex< dfloat >] and [Vertex< dip::sint >]. *)
Record VertexFloat : Set := { x : dfloat; y : dfloat }.
Record VertexInteger : Set := { xi : Z; yi : Z }.

(** [CrossProduct( v1, v2 )]: [v1.x * v2.y - v1.y * v2.x]. *)
Definition CrossProduct (v1 v2 : VertexFloat) : dfloat :=
  x v1 * y v2 - y v1 * x v2.

(** [operator/( Vertex< T > v, dfloat n )] *)
Definition Vertex_div (v : VertexFloat) (n : dfloat) : VertexFloat :=
  {| x := x v / n; y := y v / n |}.

Record Polygon : Set := { vertices : list VertexFloat }.

Definition origin_vertex : VertexFloat := {| x := 0; y := 0 |}.

(** [vertices[ 0 ]] and [vertices.back()] of a non-empty vector. *)
Definition front (vs : list VertexFloat) : VertexFloat := hd origin_vertex vs.
Definition back (vs : list VertexFloat) : VertexFloat := List.last vs origin_vertex.

(** The loop [for( ii = 1; ii < vertices.size(); ++ii )] of [Area], which
    visits the pairs [vertices[ ii - 1 ], vertices[ ii ]] in order. *)
Fixpoint Area_loop (sum : dfloat) (vs : list VertexFloat) : dfloat :=
  match vs with
  | v1 :: (v2 :: _) as rest => Area_loop (sum + CrossProduct v1 v2) rest
  | _ => sum
  end.

Definition Polygon_Area (p : Polygon) : dfloat :=
  if (length (vertices p) <? 3)%nat then 0
  else
    let sum := CrossProduct (back (vertices p)) (front (vertices p)) in
    Area_loop sum (vertices p) / 2.

(** The loop of [Centroid]; the state is [(sum, xsum, ysum)]. *)
Fixpoint Centroid_loop (acc : dfloat * dfloat * dfloat) (vs : list VertexFloat)
  : dfloat * dfloat * dfloat :=
  match vs with
  | v1 :: (v2 :: _) as rest =>
      let '(sum, xsum, ysum) := acc in
      let v := CrossProduct v1 v2 in
      Centroid_loop (sum + v, xsum + (x v1 + x v2) * v, ysum + (y v1 + y v2) * v) rest
  | _ => acc
  end.

Definition Polygon_Centroid (p : Polygon) : VertexFloat :=
  if (length (vertices p) <? 3)%nat then {| x := 0; y := 0 |}
  else
    let b := back (vertices p) in
    let f := front (vertices p) in
    let v := CrossProduct b f in
    let '(sum, xsum, ysum) :=
      Centroid_loop (v, (x b + x f) * v, (y b + y f) * v) (vertices p) in
    Vertex_div {| x := xsum; y := ysum |} (3 * sum).

(** [ChainCode::Code] holds the code in bits 0-2 and the border flag in
    bit 3 of a [uint8]. *)
Record ChainCode : Set := {
  codes : list Z;
  start : VertexInteger;
  objectID : Z;
  is8connected : bool
}.

Section WithPolygon.

(** [ChainCode::Polygon()] is only declared in the header; its definition
    is not available. *)
Variable ChainCode_Polygon : ChainCode -> Polygon.

(** [ChainCode::Area()]: [Polygon().Area() + 0.5]. *)
Definition ChainCode_Area (cc : ChainCode) : dfloat :=
  Polygon_Area (ChainCode_Polygon cc) + 0.5.

(** [ChainCode::Centroid()]: [Polygon().Centroid()]. *)
Definition ChainCode_Centroid (cc : ChainCode) : VertexFloat :=
  Polygon_Centroid (ChainCode_Polygon cc).

(** C10. A polygon with fewer than three vertices has area 0 and
    centroid (0,0): both functions are total and return these values
    rather than signalling an error.  Hence the area of a chain code whose
    polygon has fewer than three vertices is 0.5. *)
Theorem degenerate_polygon_measures (p : Polygon) (cc : ChainCode) :
  (length (vertices p) < 3)%nat ->
  (length (vertices (ChainCode_Polygon cc)) < 3)%nat ->
  Polygon_Area p = 0 /\
  Polygon_Centroid p = {| x := 0; y := 0 |} /\
  ChainCode_Area cc = 0.5.
Proof.
  intros Hp Hcc.
  assert (Hsmall : forall q : Polygon,
             (length (vertices q) < 3)%nat -> (length (vertices q) <? 3)%nat = true).
  { intros q Hq. apply Nat.ltb_lt. exact Hq. }
  unfold ChainCode_Area, Polygon_Area, Polygon_Centroid.
  rewrite (Hsmall p Hp), (Hsmall _ Hcc).
  repeat split; reflexivity.
Qed.

End WithPolygon.

(** A triangle with corners (0,0), (4,0), (0,3): area 6, centroid (4/3, 1). *)
Definition a_triangle : Polygon :=
  {| vertices := [ {| x := 0; y := 0 |}; {| x := 4; y := 0 |}; {| x := 0; y := 3 |} ] |}.

Example triangle_area : Polygon_Area a_triangle = 6.
Proof. vm_compute. reflexivity. Qed.

Example triangle_centroid : Polygon_Centroid a_triangle = {| x := 4 / 3; y := 1 |}.
Proof. vm_compute. reflexivity. Qed.

(** The theorem for a two-vertex polygon, and for a chain code whose
    polygon is that segment. *)
Definition a_segment : Polygon :=
  {| vertices := [ {| x := 1; y := 1 |}; {| x := 2; y := 5 |} ] |}.

Definition a_chain : ChainCode :=
  {| codes := [0%Z]; start := {| xi := 1; yi := 1 |}; objectID := 1; is8connected := true |}.

Lemma degenerate_polygon_measures_witness :
  Polygon_Area a_segment = 0 /\
  Polygon_Centroid a_segment = {| x := 0; y := 0 |} /\
  ChainCode_Area (fun _ => a_segment) a_chain = 0.5.
Proof.
  apply (degenerate_polygon_measures (fun _ => a_segment) a_segment a_chain);
    simpl; lia.
Defined.

End ChainCode.

(** * Sample buffers

    A buffer is a list of samples; a pointer into it is an offset from its
    first sample.  Reading or writing outside the buffer is undefined. *)

Module Buffer.
Import Outcome.
Local Open Scope Z_scope.

Definition get {A : Type} (buf : list A) (p : Z) : option A :=
  if 0 <=? p then buf !! Z.to_nat p else None.

Definition load {A : Type} (buf : list A) (p : Z) : outcome A :=
  defined (get buf p).

Definition store {A : Type} (buf : list A) (p : Z) (v : A) : outcome (list A) :=
  if (0 <=? p) && (p <? Z.of_nat (length buf))
  then Returns (<[Z.to_nat p := v]> buf)
  else Undefined.

Lemma store_length {A : Type} (buf buf' : list A) (p : Z) (v : A) :
  store buf p v = Returns buf' -> length buf' = length buf.
Proof.
  unfold store. destruct (_ && _); [| discriminate].
  intros [= <-]. apply length_insert.
Qed.

Lemma get_store_eq {A : Type} (buf buf' : list A) (p : Z) (v : A) :
  store buf p v = Returns buf' -> get buf' p = Some v.
Proof.
  unfold store, get.
  destruct (0 <=? p) eqn:H0; destruct (p <? Z.of_nat (length buf)) eqn:H1;
    simpl; try discriminate.
  intros [= <-]. apply list_lookup_insert_eq.
  apply Z.leb_le in H0. apply Z.ltb_lt in H1. lia.
Qed.

Lemma get_store_ne {A : Type} (buf buf' : list A) (p q : Z) (v : A) :
  store buf p v = Returns buf' -> q <> p -> get buf' q = get buf q.
Proof.
  unfold store, get.
  destruct (0 <=? p) eqn:H0; destruct (p <? Z.of_nat (length buf)) eqn:H1;
    simpl; try discriminate.
  intros [= <-] Hne. destruct (0 <=? q) eqn:Hq; [| reflexivity].
  apply list_lookup_insert_ne.
  apply Z.leb_le in H0. apply Z.leb_le in Hq. lia.
Qed.

Lemma get_in_bounds {A : Type} (buf : list A) (p : Z) :
  0 <= p < Z.of_nat (length buf) -> exists v, get buf p = Some v.
Proof.
  intros Hp. unfold get.
  replace (0 <=? p) with true by (symmetry; apply Z.leb_le; lia).
  apply lookup_lt_is_Some. lia.
Qed.

Lemma store_in_bounds {A : Type} (buf : list A) (p : Z) (v : A) :
  0 <= p < Z.of_nat (length buf) -> exists buf', store buf p v = Returns buf'.
Proof.
  intros Hp. unfold store.
  replace (0 <=? p) with true by (symmetry; apply Z.leb_le; lia).
  replace (p <? Z.of_nat (length buf)) with true by (symmetry; apply Z.ltb_lt; lia).
  simpl. eauto.
Qed.

(** Two buffers of one length with the same sample at every offset are
    the same buffer. *)
Lemma get_ext {A : Type} (buf buf' : list A) :
  length buf' = length buf -> (forall p, get buf' p = get buf p) -> buf' = buf.
Proof.
  intros Hlen Hget. apply list_eq. intros i.
  specialize (Hget (Z.of_nat i)). unfold get in Hget.
  replace (0 <=? Z.of_nat i) with true in Hget by (symmetry; apply Z.leb_le; lia).
  rewrite Nat2Z.id in Hget. exact Hget.
Qed.

End Buffer.

(** * Lookup tables (src/lookup_table/lookup_table.cpp) *)

Module LookupTable.
Import Outcome Buffer.
Local Open Scope Z_scope.

(** [LookupTable::OutOfBoundsMode] *)
Inductive OutOfBoundsMode : Set :=
| USE_OUT_OF_BOUNDS_VALUE
| KEEP_INPUT_VALUE
| CLAMP_TO_RANGE.

(** The line filters [LookupTable::Apply] chooses from, and the sample
    type of the input buffer it asks [Framework::Scan] for. *)
Inductive LineFilter : Set :=
| dip__IndexedLUT_Float
| dip__DirectLUT_Integer
| dip__DirectLUT_Float.

Inductive BufferType : Set := DT_UINT32 | DT_DFLOAT.

(** The choice made by [LookupTable::Apply( in, out, interpolation )] from
    [HasIndex()] and [in.DataType().IsUnsigned()]. *)
Definition Apply_lineFilter (hasIndex inIsUnsigned : bool) : LineFilter * BufferType :=
  if hasIndex then (dip__IndexedLUT_Float, DT_DFLOAT)
  else if inIsUnsigned then (dip__DirectLUT_Integer, DT_UINT32)
  else (dip__DirectLUT_Float, DT_DFLOAT).

Section DirectLUT_Integer.

(** The sample type of the table, and [clamp_cast< TPI >] from an index
    (the text of diplib/library/clamp_cast.h is not available). *)
Variable TPI : Type.
Variable clamp_cast : Z -> TPI.

(** [FillPixel( out, length, stride, value )] *)
Fixpoint FillPixel (out : list TPI) (outp : Z) (length : nat) (stride : Z) (value : TPI)
  : outcome (list TPI) :=
  match length with
  | O => Returns out
  | S n =>
      out ← store out outp value;
      FillPixel out (outp + stride) n stride value
  end.

(** [CopyPixel( in, out, length, inStride, outStride )] *)
Fixpoint CopyPixel (in_ : list TPI) (inp : Z) (out : list TPI) (outp : Z)
    (length : nat) (inStride outStride : Z) : outcome (list TPI) :=
  match length with
  | O => Returns out
  | S n =>
      v ← load in_ inp;
      out ← store out outp v;
      CopyPixel in_ (inp + inStride) out (outp + outStride) n inStride outStride
  end.

(** The members of the filter object and the table image [values_]: its
    samples from [Origin()] on, [Stride( 0 )], [TensorStride()] and
    [Size( 0 )]. *)
Variable values : list TPI.
Variable valuesStride valuesTensorStride : Z.
Variable values_Size0 : Z.
Variable outOfBoundsMode_ : OutOfBoundsMode.
Variable outOfBoundsValue_ : TPI.

(** [dip::uint maxIndex = values_.Size( 0 ) - 1] *)
Definition maxIndex : Z := (values_Size0 - 1) mod 2 ^ 64.

(** The body of the loop of [Filter] for the pixel whose input sample is
    at [inp] and whose output samples start at [outp]. *)
Definition Filter_pixel (inBuffer : list Z) (inp : Z) (out : list TPI) (outp : Z)
    (tensorLength : nat) (outTensorStride : Z) : outcome (list TPI) :=
  index ← load inBuffer inp;
  if maxIndex <? index then
    match outOfBoundsMode_ with
    | USE_OUT_OF_BOUNDS_VALUE =>
        FillPixel out outp tensorLength outTensorStride outOfBoundsValue_
    | KEEP_INPUT_VALUE =>
        FillPixel out outp tensorLength outTensorStride (clamp_cast index)
    | CLAMP_TO_RANGE =>
        CopyPixel values (maxIndex * valuesStride) out outp tensorLength
          valuesTensorStride outTensorStride
    end
  else
    CopyPixel values (index * valuesStride) out outp tensorLength
      valuesTensorStride outTensorStride.

(** [dip__DirectLUT_Integer::Filter]: the loop over the line. *)
Fixpoint Filter (inBuffer : list Z) (inp inStride : Z) (out : list TPI)
    (outp outStride : Z) (tensorLength : nat) (outTensorStride : Z)
    (bufferLength : nat) : outcome (list TPI) :=
  match bufferLength with
  | O => Returns out
  | S n =>
      out ← Filter_pixel inBuffer inp out outp tensorLength outTensorStride;
      Filter inBuffer (inp + inStride) inStride out (outp + outStride) outStride
        tensorLength outTensorStride n
  end.

(** ** What the filter leaves in the output buffer *)

(** The sample the table yields for input value [index] in tensor element
    [jj]: a copy of the entry at position [index] when that is at most the
    last position, and the out-of-bounds policy otherwise. *)
Definition table_sample (index jj : Z) : option TPI :=
  if index <=? maxIndex then
    get values (index * valuesStride + jj * valuesTensorStride)
  else
    match outOfBoundsMode_ with
    | USE_OUT_OF_BOUNDS_VALUE => Some outOfBoundsValue_
    | KEEP_INPUT_VALUE => Some (clamp_cast index)
    | CLAMP_TO_RANGE => get values (maxIndex * valuesStride + jj * valuesTensorStride)
    end.

Lemma FillPixel_spec (n : nat) (stride : Z) (value : TPI) :
  forall (out : list TPI) (outp : Z) (out' : list TPI),
  FillPixel out outp n stride value = Returns out' ->
  (forall q, get out' q = get out q \/
             exists k, 0 <= k < Z.of_nat n /\ q = outp + k * stride) /\
  (forall k, 0 <= k < Z.of_nat n -> get out' (outp + k * stride) = Some value).
Proof.
  induction n as [| n IH]; intros out outp out' Hrun; simpl in Hrun.
  - injection Hrun as <-. split; [auto | intros k Hk; lia].
  - destruct (store out outp value) as [out1 | |] eqn:Hst; try discriminate.
    simpl in Hrun. destruct (IH _ _ _ Hrun) as [Hframe Hset].
    split.
    + intros q. destruct (Hframe q) as [Hq | (k & Hk & ->)].
      * destruct (Z.eq_dec q outp) as [-> | Hne].
        -- right. exists 0. lia.
        -- left. rewrite Hq. eapply get_store_ne; eauto.
      * right. exists (k + 1). lia.
    + intros k Hk. destruct (Z.eq_dec k 0) as [-> | Hk0].
      * replace (outp + 0 * stride) with outp by lia.
        destruct (Hframe outp) as [Hq | (k' & Hk' & Heq)].
        -- rewrite Hq. eapply get_store_eq; eauto.
        -- rewrite Heq at 1. apply Hset. lia.
      * replace (outp + k * stride) with (outp + stride + (k - 1) * stride) by lia.
        apply Hset. lia.
Qed.

Lemma CopyPixel_spec (in_ : list TPI) (n : nat) (inStride outStride : Z) :
  forall (inp : Z) (out : list TPI) (outp : Z) (out' : list TPI),
  CopyPixel in_ inp out outp n inStride outStride = Returns out' ->
  (forall q, get out' q = get out q \/
             exists k, 0 <= k < Z.of_nat n /\ q = outp + k * outStride) /\
  (forall k, 0 <= k < Z.of_nat n ->
     (forall k', 0 <= k' < Z.of_nat n ->
        outp + k' * outStride = outp + k * outStride -> k' = k) ->
     exists v, get in_ (inp + k * inStride) = Some v /\
               get out' (outp + k * outStride) = Some v).
Proof.
  induction n as [| n IH]; intros inp out outp out' Hrun; simpl in Hrun.
  - injection Hrun as <-. split; [auto | intros k Hk; lia].
  - unfold load in Hrun. destruct (get in_ inp) as [v |] eqn:Hv; try discriminate.
    simpl in Hrun.
    destruct (store out outp v) as [out1 | |] eqn:Hst; try discriminate.
    simpl in Hrun. destruct (IH _ _ _ _ Hrun) as [Hframe Hset].
    split.
    + intros q. destruct (Hframe q) as [Hq | (k & Hk & ->)].
      * destruct (Z.eq_dec q outp) as [-> | Hne].
        -- right. exists 0. lia.
        -- left. rewrite Hq. eapply get_store_ne; eauto.
      * right. exists (k + 1). lia.
    + intros k Hk Hinj. destruct (Z.eq_dec k 0) as [-> | Hk0].
      * exists v. replace (inp + 0 * inStride) with inp by lia.
        replace (outp + 0 * outStride) with outp by lia.
        split; [assumption |].
        destruct (Hframe outp) as [Hq | (k' & Hk' & Heq)].
        -- rewrite Hq. eapply get_store_eq; eauto.
        -- exfalso. specialize (Hinj (k' + 1)). lia.
      * replace (inp + k * inStride) with (inp + inStride + (k - 1) * inStride) by lia.
        replace (outp + k * outStride) with (outp + outStride + (k - 1) * outStride)
          by lia.
        apply Hset; [lia |].
        intros k' Hk' Heq. specialize (Hinj (k' + 1)). lia.
Qed.

Lemma Filter_pixel_spec (inBuffer : list Z) (inp : Z) (out : list TPI) (outp : Z)
    (tensorLength : nat) (outTensorStride : Z) (out' : list TPI) :
  Filter_pixel inBuffer inp out outp tensorLength outTensorStride = Returns out' ->
  (forall q, get out' q = get out q \/
             exists jj, 0 <= jj < Z.of_nat tensorLength /\
                        q = outp + jj * outTensorStride) /\
  exists index, get inBuffer inp = Some index /\
    forall jj, 0 <= jj < Z.of_nat tensorLength ->
      (forall jj', 0 <= jj' < Z.of_nat tensorLength ->
         outp + jj' * outTensorStride = outp + jj * outTensorStride -> jj' = jj) ->
      exists v, table_sample index jj = Some v /\
                get out' (outp + jj * outTensorStride) = Some v.
Proof.
  unfold Filter_pixel, load.
  destruct (get inBuffer inp) as [index |] eqn:Hin; [| discriminate].
  simpl.
  destruct (Z.ltb_spec maxIndex index) as [Hgt | Hle].
  - assert (Hcmp : (index <=? maxIndex) = false) by (apply Z.leb_gt; lia).
    destruct outOfBoundsMode_ eqn:Hmode; intros Hrun.
    + destruct (FillPixel_spec _ _ _ _ _ _ Hrun) as [Hframe Hset].
      split; [exact Hframe |]. exists index. split; [reflexivity |].
      intros jj Hjj _. unfold table_sample. rewrite Hcmp, Hmode. eauto.
    + destruct (FillPixel_spec _ _ _ _ _ _ Hrun) as [Hframe Hset].
      split; [exact Hframe |]. exists index. split; [reflexivity |].
      intros jj Hjj _. unfold table_sample. rewrite Hcmp, Hmode. eauto.
    + destruct (CopyPixel_spec _ _ _ _ _ _ _ _ Hrun) as [Hframe Hset].
      split; [exact Hframe |]. exists index. split; [reflexivity |].
      intros jj Hjj Hinj. unfold table_sample. rewrite Hcmp, Hmode. auto.
  - assert (Hcmp : (index <=? maxIndex) = true) by (apply Z.leb_le; lia).
    intros Hrun.
    destruct (CopyPixel_spec _ _ _ _ _ _ _ _ Hrun) as [Hframe Hset].
    split; [exact Hframe |]. exists index. split; [reflexivity |].
    intros jj Hjj Hinj. unfold table_sample. rewrite Hcmp. auto.
Qed.

(** The samples of distinct (pixel, tensor element) pairs of the output
    line do not share an address. *)
Definition separate (outp outStride outTensorStride : Z) (tensorLength bufferLength : nat)
  : Prop :=
  forall ii jj ii' jj',
    0 <= ii < Z.of_nat bufferLength -> 0 <= jj < Z.of_nat tensorLength ->
    0 <= ii' < Z.of_nat bufferLength -> 0 <= jj' < Z.of_nat tensorLength ->
    outp + ii * outStride + jj * outTensorStride =
    outp + ii' * outStride + jj' * outTensorStride ->
    ii = ii' /\ jj = jj'.

Lemma Filter_spec (inBuffer : list Z) (inStride outStride : Z) (tensorLength : nat)
    (outTensorStride : Z) (bufferLength : nat) :
  forall (inp : Z) (out : list TPI) (outp : Z) (out' : list TPI),
  Filter inBuffer inp inStride out outp outStride tensorLength outTensorStride
    bufferLength = Returns out' ->
  (forall q, get out' q = get out q \/
             exists ii jj, 0 <= ii < Z.of_nat bufferLength /\
                           0 <= jj < Z.of_nat tensorLength /\
                           q = outp + ii * outStride + jj * outTensorStride) /\
  (separate outp outStride outTensorStride tensorLength bufferLength ->
   forall ii jj, 0 <= ii < Z.of_nat bufferLength -> 0 <= jj < Z.of_nat tensorLength ->
     exists index v, get inBuffer (inp + ii * inStride) = Some index /\
                     table_sample index jj = Some v /\
                     get out' (outp + ii * outStride + jj * outTensorStride) = Some v).
Proof.
  induction bufferLength as [| n IH]; intros inp out outp out' Hrun; simpl in Hrun.
  - injection Hrun as <-. split; [auto | intros _ ii jj Hii; lia].
  - destruct (Filter_pixel inBuffer inp out outp tensorLength outTensorStride)
      as [out1 | |] eqn:Hpix; try discriminate.
    simpl in Hrun.
    destruct (Filter_pixel_spec _ _ _ _ _ _ _ Hpix) as (Hframe1 & index & Hin & Hset1).
    destruct (IH _ _ _ _ Hrun) as [Hframe Hset].
    split.
    + intros q. destruct (Hframe q) as [Hq | (ii & jj & Hii & Hjj & ->)].
      * destruct (Hframe1 q) as [Hq1 | (jj & Hjj & ->)].
        -- left. congruence.
        -- right. exists 0, jj. lia.
      * right. exists (ii + 1), jj. lia.
    + intros Hsep ii jj Hii Hjj. destruct (Z.eq_dec ii 0) as [-> | Hii0].
      * destruct (Hset1 jj Hjj) as (v & Hv & Hout1).
        { intros jj' Hjj' Heq.
          destruct (Hsep 0 jj' 0 jj) as [_ E]; try lia. }
        exists index, v.
        replace (inp + 0 * inStride) with inp by lia.
        replace (outp + 0 * outStride + jj * outTensorStride)
          with (outp + jj * outTensorStride) by lia.
        repeat split; try assumption.
        destruct (Hframe (outp + jj * outTensorStride))
          as [Hq | (ii' & jj' & Hii' & Hjj' & Heq)].
        -- congruence.
        -- exfalso. destruct (Hsep (ii' + 1) jj' 0 jj) as [E _]; lia.
      * destruct (Hset) with (ii := ii - 1) (jj := jj) as (index' & v & H1 & H2 & H3);
          try lia.
        { intros a b a' b' Ha Hb Ha' Hb' Heq.
          destruct (Hsep (a + 1) b (a' + 1) b'); lia. }
        exists index', v.
        replace (inp + ii * inStride) with (inp + inStride + (ii - 1) * inStride) by lia.
        replace (outp + ii * outStride + jj * outTensorStride)
          with (outp + outStride + (ii - 1) * outStride + jj * outTensorStride) by lia.
        auto.
Qed.

End DirectLUT_Integer.

(** The table of the doctest: 10 entries of 3 tensor elements, entry [i]
    holding [10 + i] in every channel, stored with tensor stride 1 and
    stride 3, and the out-of-bounds value 255 ([SetOutOfBoundsValue]). *)
Definition lut1_values : list Z :=
  flat_map (fun v => [v; v; v]) [10; 11; 12; 13; 14; 15; 16; 17; 18; 19].

Definition lut1_Filter (inBuffer : list Z) (bufferLength : nat) : outcome (list Z) :=
  Filter Z (fun index => Z.min index 255) lut1_values 3 1 10
    USE_OUT_OF_BOUNDS_VALUE 255
    inBuffer 0 1 (replicate (3 * bufferLength) 0) 0 3 3 1 bufferLength.

Example doctest_lut1_ramp :
  lut1_Filter [0; 1; 2; 3; 4; 5; 6; 7; 8; 9; 10; 11; 12; 13; 14] 15 =
  Returns (flat_map (fun v => [v; v; v])
             [10; 11; 12; 13; 14; 15; 16; 17; 18; 19; 255; 255; 255; 255; 255]).
Proof. vm_compute. reflexivity. Qed.

Lemma lut1_in_range (v : Z) :
  0 <= v < 10 -> lut1_Filter [v] 1 = Returns [v + 10; v + 10; v + 10].
Proof.
  intros Hv.
  assert (Hcases : v = 0 \/ v = 1 \/ v = 2 \/ v = 3 \/ v = 4 \/ v = 5 \/ v = 6 \/
                   v = 7 \/ v = 8 \/ v = 9) by lia.
  repeat (destruct Hcases as [-> | Hcases]; [vm_compute; reflexivity |]).
  subst v. vm_compute. reflexivity.
Qed.

Lemma lut1_out_of_range (v : Z) :
  10 <= v -> lut1_Filter [v] 1 = Returns [255; 255; 255].
Proof.
  intros Hv. unfold lut1_Filter. cbn [Filter]. unfold Filter_pixel.
  change (load [v] 0) with (Returns v). cbn [mbind outcome_bind bind].
  change (maxIndex 10) with 9.
  replace (9 <? v) with true by (symmetry; apply Z.ltb_lt; lia).
  vm_compute. reflexivity.
Qed.



End LookupTable.

(** * Images (include/diplib/library/image.h)

    What the embedded binary operations read of a [dip::Image]. *)

Module Images.
Local Open Scope Z_scope.

Inductive DataType : Set :=
| DT_BIN | DT_UINT8 | DT_SINT8 | DT_UINT16 | DT_SINT16 | DT_UINT32 | DT_SINT32
| DT_SFLOAT | DT_DFLOAT | DT_SCOMPLEX | DT_DCOMPLEX.

Definition IsBinary (dt : DataType) : bool :=
  match dt with DT_BIN => true | _ => false end.

Definition IsComplex (dt : DataType) : bool :=
  match dt with DT_SCOMPLEX | DT_DCOMPLEX => true | _ => false end.

(** An image: whether it has a data segment, its sizes, the number of
    tensor elements, the sample type, and the samples in pixel order (of a
    real-valued image; a binary sample is 0 or 1). *)
Record Image : Set := {
  forged : bool;
  sizes : list Z;
  tensorElements : Z;
  dataType : DataType;
  samples : list Z
}.

Definition IsForged (img : Image) : bool := forged img.
Definition IsScalar (img : Image) : bool := tensorElements img =? 1.

End Images.

(** * Hit-or-miss intervals (src/binary/sup_inf_generator.cpp)

    The two constructors of [dip::Interval]. *)

Module Interval.
Import Outcome Images.
Local Open Scope Z_scope.

(** Modelled from the spec: [operator==( Image, constant )], whose
    definition is not available.  The comparison of an image with a
    constant gives the binary image of the pixels equal to it. *)
Definition equal_to (img : Image) (c : Z) : Image :=
  {| forged := true; sizes := sizes img; tensorElements := tensorElements img;
     dataType := DT_BIN;
     samples := map (fun v => if v =? c then 1 else 0) (samples img) |}.

(** Modelled from the spec: [Any( Image )], whose definition is not
    available.  It tells whether any pixel is non-zero. *)
Definition Any (img : Image) : bool :=
  existsb (fun v => negb (v =? 0)) (samples img).

(** Modelled from the spec: [Infimum( Image, Image )], whose definition
    is not available: the elementwise infimum of two images. *)
Definition Infimum (a b : Image) : Image :=
  {| forged := true; sizes := sizes a; tensorElements := tensorElements a;
     dataType := dataType a;
     samples := zip_with Z.min (samples a) (samples b) |}.

(** [Image::Strip()] (image.h) on an image that is not protected, as the
    result of a comparison is: the data segment is released and a raw
    image is left. *)
Definition Strip (img : Image) : Image :=
  {| forged := false; sizes := sizes img; tensorElements := tensorElements img;
     dataType := dataType img; samples := [] |}.

Record Interval : Set := { hit_ : Image; miss_ : Image }.

(** [for( auto& s : sizes ) { DIP_THROW_IF( !( s & 1 ), "..." ); }] *)
Fixpoint check_odd (sizes : list Z) : outcome unit :=
  match sizes with
  | [] => Returns tt
  | s :: rest =>
      DIP_THROW_IF (Z.land s 1 =? 0) (Message "The interval is not odd in size");;
      check_odd rest
  end.

(** [Interval::Interval( Image const& image )] *)
Definition Interval_of_image (image : Image) : outcome Interval :=
  DIP_THROW_IF (negb (IsForged image)) IMAGE_NOT_FORGED;;
  DIP_THROW_IF (negb (IsScalar image)) IMAGE_NOT_SCALAR;;
  DIP_THROW_IF (IsComplex (dataType image)) DATA_TYPE_NOT_SUPPORTED;;
  check_odd (sizes image);;
  let hit := equal_to image 1 in
  DIP_THROW_IF (negb (Any hit))
    (Message "The interval needs at least one foreground pixel");;
  let miss := equal_to image 0 in
  mret {| hit_ := hit; miss_ := if Any miss then miss else Strip miss |}.

(** [Interval::Interval( Image hit, Image miss )] *)
Definition Interval_of_hit_miss (hit miss : Image) : outcome Interval :=
  DIP_THROW_IF (negb (IsForged hit) || negb (IsForged miss)) IMAGE_NOT_FORGED;;
  DIP_THROW_IF (negb (IsScalar hit) || negb (IsScalar miss)) IMAGE_NOT_SCALAR;;
  DIP_THROW_IF (negb (IsBinary (dataType hit)) || negb (IsBinary (dataType miss)))
    IMAGE_NOT_BINARY;;
  DIP_THROW_IF (negb (bool_decide (sizes hit = sizes miss))) SIZES_DONT_MATCH;;
  check_odd (sizes hit);;
  DIP_THROW_IF (negb (Any hit))
    (Message "The interval needs at least one foreground pixel");;
  if negb (Any miss) then
    mret {| hit_ := hit; miss_ := Strip miss |}
  else
    DIP_THROW_IF (Any (Infimum hit miss))
      (Message "The hit and miss images are not disjoint");;
    mret {| hit_ := hit; miss_ := miss |}.

(** The 3x3 templates of the file use 2 for "don't care". *)
Definition image_3x3 (data : list Z) : Image :=
  {| forged := true; sizes := [3; 3]; tensorElements := 1; dataType := DT_UINT8;
     samples := data |}.

Definition binary_image (sz : list Z) (data : list Z) : Image :=
  {| forged := true; sizes := sz; tensorElements := 1; dataType := DT_BIN;
     samples := data |}.

Example BoundaryPixelInterval2D :
  Interval_of_image (image_3x3 [2; 2; 2; 2; 1; 0; 2; 2; 2]) =
  Returns {| hit_ := binary_image [3; 3] [0; 0; 0; 0; 1; 0; 0; 0; 0];
             miss_ := binary_image [3; 3] [0; 0; 0; 0; 0; 1; 0; 0; 0] |}.
Proof. vm_compute. reflexivity. Qed.

Example even_size_is_refused :
  Interval_of_image
    {| forged := true; sizes := [3; 2]; tensorElements := 1; dataType := DT_UINT8;
       samples := [1; 0; 0; 0; 0; 0] |} =
  Throws (Message "The interval is not odd in size").
Proof. vm_compute. reflexivity. Qed.

Example no_foreground_is_refused :
  Interval_of_image (image_3x3 [0; 0; 0; 0; 0; 0; 0; 0; 0]) =
  Throws (Message "The interval needs at least one foreground pixel").
Proof. vm_compute. reflexivity. Qed.

Example overlap_is_refused :
  Interval_of_hit_miss (binary_image [3; 1] [0; 1; 0]) (binary_image [3; 1] [1; 1; 0]) =
  Throws (Message "The hit and miss images are not disjoint").
Proof. vm_compute. reflexivity. Qed.

(** ** Properties *)

(** Pixel [i] of the image is a foreground pixel. *)
Definition foreground (img : Image) (i : nat) : Prop :=
  exists v, samples img !! i = Some v /\ v <> 0.

Definition has_even (szs : list Z) : Prop := Exists (fun s => Z.even s = true) szs.
Definition all_odd (szs : list Z) : Prop := Forall (fun s => Z.odd s = true) szs.

(** The three invariants of an interval. *)
Definition valid (iv : Interval) : Prop :=
  all_odd (sizes (hit_ iv)) /\
  (exists i, foreground (hit_ iv) i) /\
  (forall i, ~ (foreground (hit_ iv) i /\ foreground (miss_ iv) i)).

Definition not_odd : Error := Message "The interval is not odd in size".
Definition no_foreground : Error :=
  Message "The interval needs at least one foreground pixel".
Definition not_disjoint : Error := Message "The hit and miss images are not disjoint".

Lemma land_1_even (s : Z) : (Z.land s 1 =? 0) = Z.even s.
Proof.
  change 1 with (Z.ones 1). rewrite Z.land_ones by lia.
  change (2 ^ 1) with 2. rewrite Zeven_mod. reflexivity.
Qed.

Lemma check_odd_cases (szs : list Z) :
  (all_odd szs /\ check_odd szs = Returns tt) \/
  (has_even szs /\ check_odd szs = Throws not_odd).
Proof.
  induction szs as [| s rest IH]; simpl.
  - left. split; [constructor | reflexivity].
  - rewrite land_1_even. destruct (Z.even s) eqn:Hs; simpl.
    + right. split; [left; exact Hs | reflexivity].
    + destruct IH as [[Hodd ->] | [Heven ->]].
      * left. split; [| reflexivity]. constructor; [| exact Hodd].
        rewrite <- Z.negb_even, Hs. reflexivity.
      * right. split; [right; exact Heven | reflexivity].
Qed.

Lemma even_not_all_odd (szs : list Z) : has_even szs -> all_odd szs -> False.
Proof.
  unfold has_even, all_odd. rewrite Exists_exists, Forall_forall.
  intros (s & Hin & Hev) Hall. specialize (Hall s Hin).
  rewrite <- Z.negb_even, Hev in Hall. discriminate.
Qed.

Lemma Any_foreground (img : Image) : Any img = true <-> exists i, foreground img i.
Proof.
  unfold Any, foreground. rewrite existsb_exists. split.
  - intros (v & Hin & Hv). apply list_elem_of_In, list_elem_of_lookup in Hin.
    destruct Hin as [i Hi]. exists i, v. split; [exact Hi |].
    destruct (Z.eqb_spec v 0); [discriminate | assumption].
  - intros (i & v & Hi & Hv). exists v. split.
    + apply list_elem_of_In, list_elem_of_lookup. eauto.
    + destruct (Z.eqb_spec v 0); [contradiction | reflexivity].
Qed.

Lemma foreground_equal_to (img : Image) (c : Z) (i : nat) :
  foreground (equal_to img c) i <-> samples img !! i = Some c.
Proof.
  unfold foreground, equal_to; simpl. rewrite list_lookup_fmap. split.
  - intros (v & Hv & Hne). destruct (samples img !! i) as [w |]; [| discriminate].
    simpl in Hv. destruct (Z.eqb_spec w c); [congruence |].
    injection Hv as <-. contradiction.
  - intros ->. simpl. rewrite Z.eqb_refl. exists 1. split; [reflexivity | lia].
Qed.

Lemma foreground_Infimum (a b : Image) (i : nat) :
  foreground (Infimum a b) i <->
  exists v w, samples a !! i = Some v /\ samples b !! i = Some w /\ Z.min v w <> 0.
Proof.
  unfold foreground, Infimum; simpl. rewrite lookup_zip_with. split.
  - intros (m & Hm & Hne).
    destruct (samples a !! i) as [v |]; [| discriminate]. simpl in Hm.
    destruct (samples b !! i) as [w |]; [| discriminate]. simpl in Hm.
    injection Hm as <-. eauto.
  - intros (v & w & -> & -> & Hne). simpl. eauto.
Qed.

Lemma foreground_Strip (img : Image) (i : nat) : ~ foreground (Strip img) i.
Proof. intros (v & Hv & _). simpl in Hv. discriminate. Qed.

Lemma Any_false (img : Image) : Any img = false -> forall i, ~ foreground img i.
Proof.
  intros Hany i Hi.
  assert (Any img = true) by (apply Any_foreground; eauto). congruence.
Qed.

Lemma throw_if_bind {A : Type} (b : bool) (e : Error) (k : unit -> outcome A) :
  (DIP_THROW_IF b e ≫= k) = if b then Throws e else k tt.
Proof. destruct b; reflexivity. Qed.

(** The first argument check of a run: either it throws, or the run goes
    on. *)
Ltac check :=
  rewrite throw_if_bind;
  match goal with
  | |- context [if ?b then Throws _ else _] => destruct b eqn:?
  end; cbv beta.

Lemma Interval_of_image_valid (image : Image) (iv : Interval) :
  Interval_of_image image = Returns iv -> valid iv.
Proof.
  unfold Interval_of_image. do 3 (check; try discriminate).
  destruct (check_odd_cases (sizes image)) as [[Hodd ->] | [_ ->]];
    simpl; [| discriminate].
  destruct (Any (equal_to image 1)) eqn:Hhit; simpl; [| discriminate].
  intros [= <-]. split; [exact Hodd | split].
  - apply Any_foreground. exact Hhit.
  - intros i [Hh Hm]. simpl in Hh. apply foreground_equal_to in Hh.
    destruct (Any (equal_to image 0)).
    + apply foreground_equal_to in Hm. congruence.
    + exact (foreground_Strip _ _ Hm).
Qed.

Lemma Interval_of_hit_miss_valid (hit miss : Image) (iv : Interval) :
  Interval_of_hit_miss hit miss = Returns iv -> valid iv.
Proof.
  unfold Interval_of_hit_miss. do 4 (check; try discriminate).
  destruct (check_odd_cases (sizes hit)) as [[Hodd ->] | [_ ->]];
    simpl; [| discriminate].
  destruct (Any hit) eqn:Hhit; simpl; [| discriminate].
  destruct (Any miss) eqn:Hmiss; simpl.
  - destruct (Any (Infimum hit miss)) eqn:Hinf; simpl; [discriminate |].
    intros [= <-]. split; [exact Hodd | split].
    + apply Any_foreground. exact Hhit.
    + intros i [(v & Hv & Hv0) (w & Hw & Hw0)]. simpl in *.
      apply (Any_false _ Hinf i). apply foreground_Infimum.
      exists v, w. repeat split; try assumption. lia.
  - intros [= <-]. split; [exact Hodd | split].
    + apply Any_foreground. exact Hhit.
    + intros i [_ Hm]. exact (foreground_Strip _ _ Hm).
Qed.

Lemma no_hit_no_foreground (image : Image) :
  (forall i, samples image !! i <> Some 1) -> Any (equal_to image 1) = false.
Proof.
  intros Hnone. destruct (Any (equal_to image 1)) eqn:Hany; [| reflexivity].
  apply Any_foreground in Hany. destruct Hany as [i Hi].
  apply foreground_equal_to in Hi. destruct (Hnone i Hi).
Qed.

Lemma overlap_Infimum (hit miss : Image) (i : nat) :
  foreground hit i -> foreground miss i -> Any (Infimum hit miss) = true.
Proof.
  intros (v & Hv & Hv0) (w & Hw & Hw0). apply Any_foreground. exists i.
  apply foreground_Infimum. exists v, w. repeat split; try assumption. lia.
Qed.

Lemma Interval_of_image_message (image : Image) :
  IsForged image = true -> IsScalar image = true ->
  IsComplex (dataType image) = false ->
  (has_even (sizes image) -> Interval_of_image image = Throws not_odd) /\
  (all_odd (sizes image) -> (forall i, samples image !! i <> Some 1) ->
   Interval_of_image image = Throws no_foreground).
Proof.
  intros Hf Hs Hc. unfold Interval_of_image. rewrite Hf, Hs, Hc. simpl.
  destruct (check_odd_cases (sizes image)) as [[Hodd ->] | [Heven ->]]; simpl.
  - split.
    + intros Heven. destruct (even_not_all_odd _ Heven Hodd).
    + intros _ Hnone. rewrite (no_hit_no_foreground _ Hnone). reflexivity.
  - split; [reflexivity |].
    intros Hodd. destruct (even_not_all_odd _ Heven Hodd).
Qed.

Lemma Interval_of_hit_miss_message (hit miss : Image) :
  IsForged hit = true -> IsForged miss = true ->
  IsScalar hit = true -> IsScalar miss = true ->
  IsBinary (dataType hit) = true -> IsBinary (dataType miss) = true ->
  sizes hit = sizes miss ->
  (has_even (sizes hit) -> Interval_of_hit_miss hit miss = Throws not_odd) /\
  (all_odd (sizes hit) -> (forall i, ~ foreground hit i) ->
   Interval_of_hit_miss hit miss = Throws no_foreground) /\
  (all_odd (sizes hit) ->
   forall i, foreground hit i -> foreground miss i ->
   Interval_of_hit_miss hit miss = Throws not_disjoint).
Proof.
  intros Hf1 Hf2 Hs1 Hs2 Hb1 Hb2 Hsz. unfold Interval_of_hit_miss.
  rewrite Hf1, Hf2, Hs1, Hs2, Hb1, Hb2, (bool_decide_eq_true_2 _ Hsz). simpl.
  destruct (check_odd_cases (sizes hit)) as [[Hodd ->] | [Heven ->]]; simpl.
  - split; [| split].
    + intros Heven. destruct (even_not_all_odd _ Heven Hodd).
    + intros _ Hnone. destruct (Any hit) eqn:Hany; [| reflexivity].
      apply Any_foreground in Hany. destruct Hany as [i Hi]. destruct (Hnone i Hi).
    + intros _ i Hh Hm.
      replace (Any hit) with true by (symmetry; apply Any_foreground; eauto).
      replace (Any miss) with true by (symmetry; apply Any_foreground; eauto).
      simpl. rewrite (overlap_Infimum _ _ _ Hh Hm). reflexivity.
  - split; [reflexivity | split]; intros Hodd; destruct (even_not_all_odd _ Heven Hodd).
Qed.

Lemma Interval_of_image_refuses (image : Image) :
  has_even (sizes image) \/ (forall i, samples image !! i <> Some 1) ->
  throws (Interval_of_image image).
Proof.
  intros Hbad. unfold Interval_of_image. do 3 (check; [exact I |]).
  destruct (check_odd_cases (sizes image)) as [[Hodd ->] | [Heven ->]];
    simpl; [| exact I].
  destruct Hbad as [Heven | Hnone].
  - destruct (even_not_all_odd _ Heven Hodd).
  - rewrite (no_hit_no_foreground _ Hnone). exact I.
Qed.

Lemma Interval_of_hit_miss_refuses (hit miss : Image) :
  has_even (sizes hit) \/ has_even (sizes miss) \/
  (forall i, ~ foreground hit i) \/
  (exists i, foreground hit i /\ foreground miss i) ->
  throws (Interval_of_hit_miss hit miss).
Proof.
  intros Hbad. unfold Interval_of_hit_miss. do 3 (check; [exact I |]).
  rewrite throw_if_bind.
  destruct (bool_decide (sizes hit = sizes miss)) eqn:Hsz; simpl; [| exact I].
  apply bool_decide_eq_true_1 in Hsz.
  destruct (check_odd_cases (sizes hit)) as [[Hodd ->] | [Heven ->]];
    simpl; [| exact I].
  destruct (Any hit) eqn:Hhit; simpl; [| exact I].
  destruct Hbad as [Heven | [Heven | [Hnone | (i & Hh & Hm)]]].
  - destruct (even_not_all_odd _ Heven Hodd).
  - rewrite <- Hsz in Heven. destruct (even_not_all_odd _ Heven Hodd).
  - apply Any_foreground in Hhit. destruct Hhit as [i Hi]. destruct (Hnone i Hi).
  - replace (Any miss) with true by (symmetry; apply Any_foreground; eauto).
    simpl. rewrite (overlap_Infimum _ _ _ Hh Hm). exact I.
Qed.

(** C8. Both constructors throw when a dimension of an input has an even
    size, when the hit set is empty, and (for a hit/miss pair) when a pixel
    is foreground in both images; when the other argument checks pass, the
    messages are the three the claim names.  An interval that a
    constructor returns has sizes that are all odd, a hit image with a
    foreground pixel, and no pixel that is foreground in both hit and
    miss. *)
Theorem interval_construction_invariants :
  (forall image,
     has_even (sizes image) \/ (forall i, samples image !! i <> Some 1) ->
     throws (Interval_of_image image)) /\
  (forall hit miss,
     has_even (sizes hit) \/ has_even (sizes miss) \/
     (forall i, ~ foreground hit i) \/
     (exists i, foreground hit i /\ foreground miss i) ->
     throws (Interval_of_hit_miss hit miss)) /\
  (forall image,
     IsForged image = true -> IsScalar image = true ->
     IsComplex (dataType image) = false ->
     (has_even (sizes image) -> Interval_of_image image = Throws not_odd) /\
     (all_odd (sizes image) -> (forall i, samples image !! i <> Some 1) ->
      Interval_of_image image = Throws no_foreground)) /\
  (forall hit miss,
     IsForged hit = true -> IsForged miss = true ->
     IsScalar hit = true -> IsScalar miss = true ->
     IsBinary (dataType hit) = true -> IsBinary (dataType miss) = true ->
     sizes hit = sizes miss ->
     (has_even (sizes hit) -> Interval_of_hit_miss hit miss = Throws not_odd) /\
     (all_odd (sizes hit) -> (forall i, ~ foreground hit i) ->
      Interval_of_hit_miss hit miss = Throws no_foreground) /\
     (all_odd (sizes hit) ->
      forall i, foreground hit i -> foreground miss i ->
      Interval_of_hit_miss hit miss = Throws not_disjoint)) /\
  (forall image iv, Interval_of_image image = Returns iv -> valid iv) /\
  (forall hit miss iv, Interval_of_hit_miss hit miss = Returns iv -> valid iv).
Proof.
  split; [exact Interval_of_image_refuses |].
  split; [exact Interval_of_hit_miss_refuses |].
  split; [exact Interval_of_image_message |].
  split; [exact Interval_of_hit_miss_message |].
  split; [exact Interval_of_image_valid | exact Interval_of_hit_miss_valid].
Qed.

(** The theorem at a 3x2 image, at an overlapping hit/miss pair, and at the
    template of [BoundaryPixelInterval2D]. *)
Lemma interval_construction_invariants_witness :
  throws (Interval_of_image
            {| forged := true; sizes := [3; 2]; tensorElements := 1;
               dataType := DT_UINT8; samples := [1; 0; 0; 0; 0; 0] |}) /\
  Interval_of_hit_miss (binary_image [3; 1] [0; 1; 0]) (binary_image [3; 1] [1; 1; 0]) =
    Throws not_disjoint /\
  valid {| hit_ := binary_image [3; 3] [0; 0; 0; 0; 1; 0; 0; 0; 0];
           miss_ := binary_image [3; 3] [0; 0; 0; 0; 0; 1; 0; 0; 0] |}.
Proof.
  destruct interval_construction_invariants as (H1 & _ & _ & H4 & H5 & _).
  split; [| split].
  - apply H1. left. right. left. reflexivity.
  - refine (proj2 (proj2 (H4 (binary_image [3; 1] [0; 1; 0])
                            (binary_image [3; 1] [1; 1; 0])
                            eq_refl eq_refl eq_refl eq_refl eq_refl eq_refl
                            eq_refl)) _ 1%nat _ _).
    + repeat constructor.
    + exists 1. split; [reflexivity | lia].
    + exists 1. split; [reflexivity | lia].
  - exact (H5 _ _ BoundaryPixelInterval2D).
Defined.

End Interval.

(** * Rotation of an interval by 45 degrees (src/binary/sup_inf_generator.cpp)

    [RotateBy45Degrees], the helper of [Interval::GenerateRotatedVersions].
    The image is a 2-D binary image: its two sizes, its two strides, the
    offset of its origin in the data segment and the samples of the
    segment.  A pointer is an offset into the segment. *)

Module Rotate45.
Import Outcome Buffer.
Local Open Scope Z_scope.

Record Image2D : Set := {
  size0 : Z; size1 : Z;
  stride0 : Z; stride1 : Z;
  origin : Z;
  data : list bool
}.

Definition with_data (img : Image2D) (d : list bool) : Image2D :=
  {| size0 := size0 img; size1 := size1 img;
     stride0 := stride0 img; stride1 := stride1 img;
     origin := origin img; data := d |}.

(** [*ptr1 = *ptr2] *)
Definition assign (m : list bool) (ptr1 ptr2 : Z) : outcome (list bool) :=
  v ← load m ptr2; store m ptr1 v.

(** The body of the loop over [ii]: eight samples of the shell change
    places. *)
Definition rotate_samples (stepX stepY ptr n ii : Z) (m : list bool)
  : outcome (list bool) :=
  let nStepX := n * stepX in
  let nStepY := n * stepY in
  let nEndX := 2 * nStepX in
  let nEndY := 2 * nStepY in
  let iX := ii * stepX in
  let iY := ii * stepY in
  let ptr1 := ptr + iX in
  let ptr2 := ptr + nStepY - iY in
  value ← load m ptr1;
  m ← assign m ptr1 ptr2;
  let ptr1 := ptr2 in let ptr2 := ptr2 + nStepY in
  m ← assign m ptr1 ptr2;
  let ptr1 := ptr2 in let ptr2 := ptr + nStepX - iX + nEndY in
  m ← assign m ptr1 ptr2;
  let ptr1 := ptr2 in let ptr2 := ptr2 + nStepX in
  m ← assign m ptr1 ptr2;
  let ptr1 := ptr2 in let ptr2 := ptr + nEndX + iY + nStepY in
  m ← assign m ptr1 ptr2;
  let ptr1 := ptr2 in let ptr2 := ptr2 - nStepY in
  m ← assign m ptr1 ptr2;
  let ptr1 := ptr2 in let ptr2 := ptr + nStepX + iX in
  m ← assign m ptr1 ptr2;
  store m ptr2 value.

(** [for( dip::sint ii = 0; ii < n; ++ii )]; [count] turns are left. *)
Fixpoint rotate_shell (count : nat) (stepX stepY ptr n ii : Z) (m : list bool)
  : outcome (list bool) :=
  match count with
  | O => Returns m
  | S count =>
      m ← rotate_samples stepX stepY ptr n ii m;
      rotate_shell count stepX stepY ptr n (ii + 1) m
  end.

(** [for( dip::uint shell = 0; shell < len / 2; ++shell )]; [count] turns
    are left. *)
Fixpoint rotate_shells (count : nat) (stepX stepY len ptr shell : Z) (m : list bool)
  : outcome (list bool) :=
  match count with
  | O => Returns m
  | S count =>
      let n := len / 2 - shell in
      m ← rotate_shell (Z.to_nat n) stepX stepY ptr n 0 m;
      rotate_shells count stepX stepY len (ptr + (stepX + stepY)) (shell + 1) m
  end.

(** Modelled from the spec: [Image::Copy()], whose definition is not
    available.  It is a deep copy: a new image with its own data segment
    and the sizes and samples of the source; here it has the strides of
    the source as well. *)
Definition Copy (img : Image2D) : Image2D :=
  {| size0 := size0 img; size1 := size1 img;
     stride0 := stride0 img; stride1 := stride1 img;
     origin := origin img; data := data img |}.

Section WithPad.

(** [Image::Pad( sizes )] is declared in image.h and its definition is not
    available: the image extended with zeros to a square of the given
    side. *)
Variable Pad : Image2D -> Z -> Image2D.

(** [RotateBy45Degrees] *)
Definition RotateBy45Degrees (input : Image2D) : outcome Image2D :=
  let len := size0 input in
  let '(len, output) :=
    if size1 input =? len then (len, Copy input)
    else let len := Z.max len (size1 input) in (len, Pad input len) in
  let stepX := stride0 output in
  let stepY := stride1 output in
  m ← rotate_shells (Z.to_nat (len / 2)) stepX stepY len (origin output) 0 (data output);
  mret (with_data output m).

(** Eight applications in a row, as in the doctest. *)
Definition eight_times (input : Image2D) : outcome Image2D :=
  out ← RotateBy45Degrees input;
  out ← RotateBy45Degrees out;
  out ← RotateBy45Degrees out;
  out ← RotateBy45Degrees out;
  out ← RotateBy45Degrees out;
  out ← RotateBy45Degrees out;
  out ← RotateBy45Degrees out;
  RotateBy45Degrees out.

End WithPad.

(** A forged square image with normal strides, given by its rows; 1 is a
    set pixel. *)
Definition square_image (len : Z) (rows : list (list Z)) : Image2D :=
  {| size0 := len; size1 := len; stride0 := 1; stride1 := len; origin := 0;
     data := map (fun v => negb (v =? 0)) (concat rows) |}.

Definition no_Pad (img : Image2D) (len : Z) : Image2D := img.

(** The image of the doctest: 7x7 with the pixels (0,1), (2,1), (2,2) and
    (3,3) set. *)
Definition doctest_image : Image2D :=
  square_image 7
    [ [0; 0; 0; 0; 0; 0; 0];
      [1; 0; 1; 0; 0; 0; 0];
      [0; 0; 1; 0; 0; 0; 0];
      [0; 0; 0; 1; 0; 0; 0];
      [0; 0; 0; 0; 0; 0; 0];
      [0; 0; 0; 0; 0; 0; 0];
      [0; 0; 0; 0; 0; 0; 0] ].

Example doctest_rotated_once :
  RotateBy45Degrees no_Pad doctest_image =
  Returns (square_image 7
    [ [0; 0; 1; 0; 0; 0; 0];
      [0; 0; 0; 0; 1; 0; 0];
      [0; 0; 0; 1; 0; 0; 0];
      [0; 0; 0; 1; 0; 0; 0];
      [0; 0; 0; 0; 0; 0; 0];
      [0; 0; 0; 0; 0; 0; 0];
      [0; 0; 0; 0; 0; 0; 0] ]).
Proof. vm_compute. reflexivity. Qed.

Example doctest_eight_times :
  eight_times no_Pad doctest_image = Returns doctest_image.
Proof. vm_compute. reflexivity. Qed.

(** A square of even side: the first turn of the loop reads the sample
    [ptr + 2 * nStepY], which is below the last row of the image. *)
Example even_side_leaves_the_image :
  RotateBy45Degrees no_Pad (square_image 2 [ [1; 0]; [0; 0] ]) = Undefined.
Proof. vm_compute. reflexivity. Qed.

(** ** The rotation of a square of odd side

    The side is [2 * h + 1].  Shell [s] (for [0 <= s < h]) has
    [n = h - s] samples in half an edge, and turn [i] of its loop (for
    [0 <= i < n]) moves the samples at eight places of the shell, one in
    each half edge. *)

Inductive place : Set := P0 | P1 | P2 | P3 | P4 | P5 | P6 | P7.

(** The place whose sample a place receives. *)
Definition next (k : place) : place :=
  match k with
  | P0 => P1 | P1 => P2 | P2 => P3 | P3 => P4
  | P4 => P5 | P5 => P6 | P6 => P7 | P7 => P0
  end.

Section Shells.

Variables stepX stepY ptr0 h : Z.
Variable size : nat.

(** The offset of the pixel at coordinates [(x, y)]. *)
Definition at_ (x y : Z) : Z := ptr0 + x * stepX + y * stepY.

Hypothesis h_nonneg : 0 <= h.
Hypothesis in_segment : forall x y,
  0 <= x <= 2 * h -> 0 <= y <= 2 * h -> 0 <= at_ x y < Z.of_nat size.
Hypothesis one_pixel_per_offset : forall x y x' y',
  0 <= x <= 2 * h -> 0 <= y <= 2 * h -> 0 <= x' <= 2 * h -> 0 <= y' <= 2 * h ->
  at_ x y = at_ x' y' -> x = x' /\ y = y'.

Definition turn (s i : Z) : Prop := 0 <= s < h /\ 0 <= i < h - s.

(** The coordinates of place [k] in turn [i] of shell [s]. *)
Definition coord (s i : Z) (k : place) : Z * Z :=
  let n := h - s in
  match k with
  | P0 => (s + i, s)
  | P1 => (s, s + n - i)
  | P2 => (s, s + 2 * n - i)
  | P3 => (s + n - i, s + 2 * n)
  | P4 => (s + 2 * n - i, s + 2 * n)
  | P5 => (s + 2 * n, s + n + i)
  | P6 => (s + 2 * n, s + i)
  | P7 => (s + n + i, s)
  end.

Definition pos (s i : Z) (k : place) : Z :=
  at_ (fst (coord s i k)) (snd (coord s i k)).

Lemma coord_in_image (s i : Z) (k : place) :
  turn s i ->
  0 <= fst (coord s i k) <= 2 * h /\ 0 <= snd (coord s i k) <= 2 * h.
Proof. unfold turn. intros Ht. destruct k; simpl; lia. Qed.

Lemma coord_inj (s i s' i' : Z) (k k' : place) :
  turn s i -> turn s' i' -> coord s i k = coord s' i' k' ->
  s = s' /\ i = i' /\ k = k'.
Proof.
  unfold turn. intros Ht Ht' Heq.
  destruct k, k'; simpl in Heq; injection Heq as Hx Hy;
    first [exfalso; lia | repeat split; first [lia | reflexivity]].
Qed.

Lemma pos_in_segment (s i : Z) (k : place) :
  turn s i -> 0 <= pos s i k < Z.of_nat size.
Proof.
  intros Ht. destruct (coord_in_image s i k Ht). apply in_segment; assumption.
Qed.

Lemma pos_inj (s i s' i' : Z) (k k' : place) :
  turn s i -> turn s' i' -> pos s i k = pos s' i' k' ->
  s = s' /\ i = i' /\ k = k'.
Proof.
  intros Ht Ht' Heq.
  destruct (coord_in_image s i k Ht) as [Hx1 Hy1].
  destruct (coord_in_image s' i' k' Ht') as [Hx2 Hy2].
  apply coord_inj; try assumption.
  destruct (one_pixel_per_offset _ _ _ _ Hx1 Hy1 Hx2 Hy2 Heq) as [Hx Hy].
  destruct (coord s i k), (coord s' i' k'). simpl in *. congruence.
Qed.

Lemma pos_distinct (s i : Z) (k k' : place) :
  turn s i -> k <> k' -> pos s i k <> pos s i k'.
Proof.
  intros Ht Hne Heq. destruct (pos_inj _ _ _ _ _ _ Ht Ht Heq) as (_ & _ & E).
  contradiction.
Qed.

Lemma assign_spec (m : list bool) (ptr1 ptr2 : Z) :
  0 <= ptr1 < Z.of_nat (length m) -> 0 <= ptr2 < Z.of_nat (length m) ->
  exists m', assign m ptr1 ptr2 = Returns m' /\
             length m' = length m /\
             get m' ptr1 = get m ptr2 /\
             forall q, q <> ptr1 -> get m' q = get m q.
Proof.
  intros H1 H2. unfold assign, load.
  destruct (get_in_bounds m ptr2 H2) as [v Hv]. rewrite Hv. simpl.
  destruct (store_in_bounds m ptr1 v H1) as [m' Hm']. exists m'.
  split; [exact Hm' | split; [| split]].
  - eapply store_length; eauto.
  - eapply get_store_eq; eauto.
  - intros q Hq. eapply get_store_ne; eauto.
Qed.

(** [rotated T m m']: buffer [m'] is buffer [m] after the turns in [T]:
    every place of such a turn holds the sample its next place held, and
    no other sample has changed. *)
Definition rotated (T : Z -> Z -> Prop) (m m' : list bool) : Prop :=
  length m' = length m /\
  (forall s i k, T s i -> turn s i -> get m' (pos s i k) = get m (pos s i (next k))) /\
  (forall q, get m' q = get m q \/
             exists s i k, T s i /\ turn s i /\ q = pos s i k).

Lemma rotated_none (m : list bool) : rotated (fun _ _ => False) m m.
Proof. split; [reflexivity | split]; [intros s i k [] | auto]. Qed.

Lemma rotated_ext (T T' : Z -> Z -> Prop) (m m' : list bool) :
  (forall s i, turn s i -> (T s i <-> T' s i)) ->
  rotated T m m' -> rotated T' m m'.
Proof.
  intros Hiff (Hlen & Hset & Hframe). split; [exact Hlen | split].
  - intros s i k HT Ht. apply Hset; [apply Hiff |]; assumption.
  - intros q. destruct (Hframe q) as [Hq | (s & i & k & HT & Ht & ->)]; [auto |].
    right. exists s, i, k. split; [apply Hiff |]; auto.
Qed.

Lemma rotated_then (T U : Z -> Z -> Prop) (m m1 m2 : list bool) :
  (forall s i, T s i -> U s i -> False) ->
  rotated T m m1 -> rotated U m1 m2 ->
  rotated (fun s i => T s i \/ U s i) m m2.
Proof.
  intros Hdisj (Hlen1 & Hset1 & Hframe1) (Hlen2 & Hset2 & Hframe2).
  split; [congruence | split].
  - intros s i k [HT | HU] Ht.
    + destruct (Hframe2 (pos s i k)) as [Hq | (s' & i' & k' & HU & Ht' & Heq)].
      * rewrite Hq. apply Hset1; assumption.
      * destruct (pos_inj _ _ _ _ _ _ Ht Ht' Heq) as (-> & -> & _).
        destruct (Hdisj _ _ HT HU).
    + rewrite Hset2 by assumption.
      destruct (Hframe1 (pos s i (next k))) as [Hq | (s' & i' & k' & HT & Ht' & Heq)].
      * exact Hq.
      * destruct (pos_inj _ _ _ _ _ _ Ht Ht' Heq) as (-> & -> & _).
        destruct (Hdisj _ _ HT HU).
  - intros q. destruct (Hframe2 q) as [Hq2 | (s & i & k & HU & Ht & ->)].
    + destruct (Hframe1 q) as [Hq1 | (s & i & k & HT & Ht & ->)].
      * left. congruence.
      * right. exists s, i, k. auto.
    + right. exists s, i, k. auto.
Qed.

(** One turn of the loop over [ii]. *)
Lemma rotate_samples_spec (s i : Z) (m : list bool) :
  turn s i -> length m = size ->
  exists m',
    rotate_samples stepX stepY (ptr0 + s * (stepX + stepY)) (h - s) i m = Returns m' /\
    rotated (fun s' i' => s' = s /\ i' = i) m m'.
Proof.
  intros Ht Hlen.
  pose proof (fun k => pos_in_segment s i k Ht) as Hin.
  assert (Hdist : forall k k', k <> k' -> pos s i k <> pos s i k')
    by (intros k k'; apply pos_distinct; exact Ht).
  unfold rotate_samples. cbv zeta.
  replace (ptr0 + s * (stepX + stepY) + (h - s) * stepY - i * stepY + (h - s) * stepY)
    with (pos s i P2) by (unfold pos, at_; simpl; lia).
  replace (ptr0 + s * (stepX + stepY) + (h - s) * stepY - i * stepY)
    with (pos s i P1) by (unfold pos, at_; simpl; lia).
  replace (ptr0 + s * (stepX + stepY) + (h - s) * stepX - i * stepX
           + 2 * ((h - s) * stepY) + (h - s) * stepX)
    with (pos s i P4) by (unfold pos, at_; simpl; lia).
  replace (ptr0 + s * (stepX + stepY) + (h - s) * stepX - i * stepX
           + 2 * ((h - s) * stepY))
    with (pos s i P3) by (unfold pos, at_; simpl; lia).
  replace (ptr0 + s * (stepX + stepY) + 2 * ((h - s) * stepX) + i * stepY
           + (h - s) * stepY - (h - s) * stepY)
    with (pos s i P6) by (unfold pos, at_; simpl; lia).
  replace (ptr0 + s * (stepX + stepY) + 2 * ((h - s) * stepX) + i * stepY
           + (h - s) * stepY)
    with (pos s i P5) by (unfold pos, at_; simpl; lia).
  replace (ptr0 + s * (stepX + stepY) + (h - s) * stepX + i * stepX)
    with (pos s i P7) by (unfold pos, at_; simpl; lia).
  replace (ptr0 + s * (stepX + stepY) + i * stepX)
    with (pos s i P0) by (unfold pos, at_; simpl; lia).
  rewrite <- Hlen in Hin.
  destruct (get_in_bounds m _ (Hin P0)) as [value Hvalue].
  unfold load at 1. rewrite Hvalue. cbn [mbind outcome_bind bind defined].
  destruct (assign_spec m _ _ (Hin P0) (Hin P1)) as (m1 & -> & L1 & E1 & F1).
  cbn [mbind outcome_bind bind]. rewrite <- L1 in Hin.
  destruct (assign_spec m1 _ _ (Hin P1) (Hin P2)) as (m2 & -> & L2 & E2 & F2).
  cbn [mbind outcome_bind bind]. rewrite <- L2 in Hin.
  destruct (assign_spec m2 _ _ (Hin P2) (Hin P3)) as (m3 & -> & L3 & E3 & F3).
  cbn [mbind outcome_bind bind]. rewrite <- L3 in Hin.
  destruct (assign_spec m3 _ _ (Hin P3) (Hin P4)) as (m4 & -> & L4 & E4 & F4).
  cbn [mbind outcome_bind bind]. rewrite <- L4 in Hin.
  destruct (assign_spec m4 _ _ (Hin P4) (Hin P5)) as (m5 & -> & L5 & E5 & F5).
  cbn [mbind outcome_bind bind]. rewrite <- L5 in Hin.
  destruct (assign_spec m5 _ _ (Hin P5) (Hin P6)) as (m6 & -> & L6 & E6 & F6).
  cbn [mbind outcome_bind bind]. rewrite <- L6 in Hin.
  destruct (assign_spec m6 _ _ (Hin P6) (Hin P7)) as (m7 & -> & L7 & E7 & F7).
  cbn [mbind outcome_bind bind]. rewrite <- L7 in Hin.
  destruct (store_in_bounds m7 _ value (Hin P7)) as [m8 Hm8].
  pose proof (store_length _ _ _ _ Hm8) as L8.
  pose proof (get_store_eq _ _ _ _ Hm8) as E8.
  assert (F8 : forall q, q <> pos s i P7 -> get m8 q = get m7 q)
    by (intros q Hq; eapply get_store_ne; eauto).
  exists m8. split; [exact Hm8 |].
  split; [congruence | split].
  - intros s' i' k [-> ->] _.
    destruct k; simpl next;
      repeat first [ rewrite F8 by (apply Hdist; discriminate)
                   | rewrite F7 by (apply Hdist; discriminate)
                   | rewrite F6 by (apply Hdist; discriminate)
                   | rewrite F5 by (apply Hdist; discriminate)
                   | rewrite F4 by (apply Hdist; discriminate)
                   | rewrite F3 by (apply Hdist; discriminate)
                   | rewrite F2 by (apply Hdist; discriminate)
                   | rewrite F1 by (apply Hdist; discriminate) ];
      first [ rewrite E8 | rewrite E7 | rewrite E6 | rewrite E5
            | rewrite E4 | rewrite E3 | rewrite E2 | rewrite E1 ];
      repeat first [ rewrite F7 by (apply Hdist; discriminate)
                   | rewrite F6 by (apply Hdist; discriminate)
                   | rewrite F5 by (apply Hdist; discriminate)
                   | rewrite F4 by (apply Hdist; discriminate)
                   | rewrite F3 by (apply Hdist; discriminate)
                   | rewrite F2 by (apply Hdist; discriminate)
                   | rewrite F1 by (apply Hdist; discriminate) ];
      first [ reflexivity | symmetry; exact Hvalue ].
  - intros q.
    destruct (Z.eq_dec q (pos s i P0)) as [-> | N0]; [right; exists s, i, P0; auto |].
    destruct (Z.eq_dec q (pos s i P1)) as [-> | N1]; [right; exists s, i, P1; auto |].
    destruct (Z.eq_dec q (pos s i P2)) as [-> | N2]; [right; exists s, i, P2; auto |].
    destruct (Z.eq_dec q (pos s i P3)) as [-> | N3]; [right; exists s, i, P3; auto |].
    destruct (Z.eq_dec q (pos s i P4)) as [-> | N4]; [right; exists s, i, P4; auto |].
    destruct (Z.eq_dec q (pos s i P5)) as [-> | N5]; [right; exists s, i, P5; auto |].
    destruct (Z.eq_dec q (pos s i P6)) as [-> | N6]; [right; exists s, i, P6; auto |].
    destruct (Z.eq_dec q (pos s i P7)) as [-> | N7]; [right; exists s, i, P7; auto |].
    left. rewrite F8, F7, F6, F5, F4, F3, F2, F1 by assumption. reflexivity.
Qed.

(** The loop over [ii], from turn [i0] on. *)
Lemma rotate_shell_spec (s : Z) (count : nat) :
  0 <= s < h ->
  forall (i0 : Z) (m : list bool),
  0 <= i0 -> i0 + Z.of_nat count = h - s -> length m = size ->
  exists m',
    rotate_shell count stepX stepY (ptr0 + s * (stepX + stepY)) (h - s) i0 m
      = Returns m' /\
    rotated (fun s' i' => s' = s /\ i0 <= i') m m'.
Proof.
  intros Hs. induction count as [| count IH]; intros i0 m Hi0 Hcount Hlen.
  - exists m. split; [reflexivity |].
    apply rotated_ext with (T := fun _ _ => False); [| apply rotated_none].
    unfold turn. intros s' i' Ht. split; [intros [] | lia].
  - simpl.
    destruct (rotate_samples_spec s i0 m) as (m1 & -> & Hrot1);
      [unfold turn; lia | exact Hlen |].
    cbn [mbind outcome_bind bind].
    destruct (IH (i0 + 1) m1) as (m' & -> & Hrot2);
      [lia | lia | destruct Hrot1 as [L _]; congruence |].
    exists m'. split; [reflexivity |].
    eapply rotated_ext; [| eapply rotated_then; [| exact Hrot1 | exact Hrot2]].
    + intros s' i' _. simpl. lia.
    + simpl. lia.
Qed.

(** The loop over the shells, from shell [s0] on. *)
Lemma rotate_shells_spec (len : Z) (count : nat) :
  len / 2 = h ->
  forall (s0 : Z) (m : list bool),
  0 <= s0 -> s0 + Z.of_nat count = h -> length m = size ->
  exists m',
    rotate_shells count stepX stepY len (ptr0 + s0 * (stepX + stepY)) s0 m
      = Returns m' /\
    rotated (fun s' _ => s0 <= s') m m'.
Proof.
  intros Hhalf. induction count as [| count IH]; intros s0 m Hs0 Hcount Hlen.
  - exists m. split; [reflexivity |].
    apply rotated_ext with (T := fun _ _ => False); [| apply rotated_none].
    unfold turn. intros s' i' Ht. split; [intros [] | lia].
  - simpl. rewrite Hhalf.
    destruct (rotate_shell_spec s0 (Z.to_nat (h - s0)) ltac:(lia) 0 m)
      as (m1 & -> & Hrot1); [lia | lia | exact Hlen |].
    cbn [mbind outcome_bind bind].
    replace (ptr0 + s0 * (stepX + stepY) + (stepX + stepY))
      with (ptr0 + (s0 + 1) * (stepX + stepY)) by lia.
    destruct (IH (s0 + 1) m1) as (m' & -> & Hrot2);
      [lia | lia | destruct Hrot1 as [L _]; congruence |].
    exists m'. split; [reflexivity |].
    eapply rotated_ext; [| eapply rotated_then; [| exact Hrot1 | exact Hrot2]].
    + unfold turn. intros s' i' Ht. simpl. lia.
    + simpl. lia.
Qed.

(** [turned j m m']: every place of every turn holds in [m'] the sample
    that the place [j] steps further held in [m]. *)
Definition turned (j : nat) (m m' : list bool) : Prop :=
  length m' = length m /\
  (forall s i k, turn s i -> get m' (pos s i k) = get m (pos s i (Nat.iter j next k))) /\
  (forall q, get m' q = get m q \/ exists s i k, turn s i /\ q = pos s i k).

Lemma turned_0 (m : list bool) : turned 0 m m.
Proof. split; [reflexivity | split]; [reflexivity | auto]. Qed.

Lemma turned_S (j : nat) (m m1 m2 : list bool) :
  rotated (fun _ _ => True) m m1 -> turned j m1 m2 -> turned (S j) m m2.
Proof.
  intros (L1 & S1 & F1) (L2 & S2 & F2). split; [congruence | split].
  - intros s i k Ht. rewrite S2 by exact Ht. simpl. apply S1; [exact I | exact Ht].
  - intros q. destruct (F2 q) as [Hq2 | (s & i & k & Ht & ->)].
    + destruct (F1 q) as [Hq1 | (s & i & k & _ & Ht & ->)].
      * left. congruence.
      * right. eauto.
    + right. eauto.
Qed.

Lemma turned_8 (m m' : list bool) : turned 8 m m' -> m' = m.
Proof.
  intros (L & S & F). apply get_ext; [exact L |].
  intros q. destruct (F q) as [Hq | (s & i & k & Ht & ->)]; [exact Hq |].
  rewrite S by exact Ht. destruct k; reflexivity.
Qed.

End Shells.

(** The offset of pixel [(x, y)] of an image, and what being forged means
    for the layout: every pixel has a sample in the segment, and no two
    pixels share one. *)
Definition offset (img : Image2D) (x y : Z) : Z :=
  origin img + x * stride0 img + y * stride1 img.

Definition forged (img : Image2D) : Prop :=
  (forall x y, 0 <= x < size0 img -> 0 <= y < size1 img ->
     0 <= offset img x y < Z.of_nat (length (data img))) /\
  (forall x y x' y',
     0 <= x < size0 img -> 0 <= y < size1 img ->
     0 <= x' < size0 img -> 0 <= y' < size1 img ->
     offset img x y = offset img x' y' -> x = x' /\ y = y').

Section Rotations.

Variable Pad : Image2D -> Z -> Image2D.

(** [n] applications in a row. *)
Fixpoint times (n : nat) (input : Image2D) : outcome Image2D :=
  match n with
  | O => Returns input
  | S n => out ← RotateBy45Degrees Pad input; times n out
  end.

Lemma eight_times_eq (input : Image2D) : eight_times Pad input = times 8 input.
Proof.
  unfold eight_times. simpl.
  repeat (match goal with
          | |- context [RotateBy45Degrees Pad ?i] =>
              destruct (RotateBy45Degrees Pad i); simpl; try reflexivity
          end).
Qed.

Lemma RotateBy45Degrees_odd_square (input : Image2D) (h : Z) :
  0 <= h -> size0 input = 2 * h + 1 -> size1 input = 2 * h + 1 -> forged input ->
  exists m',
    RotateBy45Degrees Pad input = Returns (with_data input m') /\
    rotated (stride0 input) (stride1 input) (origin input) h (fun _ _ => True)
      (data input) m'.
Proof.
  intros Hh H0 H1 [Hin Hinj]. unfold RotateBy45Degrees.
  rewrite H1, H0, Z.eqb_refl. cbn [Copy stride0 stride1 origin data].
  assert (Hhalf : (2 * h + 1) / 2 = h)
    by (symmetry; apply (Z.div_unique (2 * h + 1) 2 h 1); lia).
  rewrite Hhalf.
  destruct (rotate_shells_spec (stride0 input) (stride1 input) (origin input) h
              (length (data input))) with (len := 2 * h + 1) (count := Z.to_nat h)
              (s0 := 0) (m := data input) as (m' & Hrun & Hrot);
    try lia; try reflexivity.
  - intros x y Hx Hy. apply Hin; lia.
  - intros x y x' y' Hx Hy Hx' Hy'. apply Hinj; lia.
  - replace (origin input + 0 * (stride0 input + stride1 input))
      with (origin input) in Hrun by lia.
    rewrite Hrun. exists m'. split; [reflexivity |].
    eapply rotated_ext; [| exact Hrot]. unfold turn. intros s i Ht. simpl. lia.
Qed.

Lemma times_turned (n : nat) (h : Z) :
  0 <= h ->
  forall input : Image2D,
  size0 input = 2 * h + 1 -> size1 input = 2 * h + 1 -> forged input ->
  exists m',
    times n input = Returns (with_data input m') /\
    turned (stride0 input) (stride1 input) (origin input) h n (data input) m'.
Proof.
  intros Hh. induction n as [| n IH]; intros input H0 H1 Hf.
  - exists (data input). split; [destruct input; reflexivity | apply turned_0].
  - destruct (RotateBy45Degrees_odd_square input h Hh H0 H1 Hf) as (m1 & Hrun & Hrot).
    simpl. rewrite Hrun. cbn [mbind outcome_bind bind].
    destruct (IH (with_data input m1)) as (m' & Hrest & Hturned); try assumption.
    { destruct Hf as [Hin Hinj]. destruct Hrot as [L _].
      split; simpl; [rewrite L; exact Hin | exact Hinj]. }
    exists m'. split; [exact Hrest |].
    eapply turned_S; [exact Hrot | exact Hturned].
Qed.

End Rotations.

Lemma square_image_forged (len : Z) (rows : list (list Z)) :
  0 < len -> Z.of_nat (length (concat rows)) = len * len ->
  forged (square_image len rows).
Proof.
  intros Hlen Hsize. unfold forged, offset, square_image; simpl.
  rewrite length_map, Hsize. split.
  - intros x y Hx Hy. nia.
  - intros x y x' y' Hx Hy Hx' Hy' Heq.
    assert (y = y') by nia. subst y'. lia.
Qed.

(** C9, as stated, fails for a square of even side: on the 2x2 image the
    helper reads and writes samples outside the image, so nothing is
    reproduced. *)
Lemma even_square_is_not_rotated :
  ~ (forall (Pad : Image2D -> Z -> Image2D) (input : Image2D),
       size1 input = size0 input -> 0 < size0 input -> forged input ->
       eight_times Pad input = Returns input).
Proof.
  intros H.
  specialize (H no_Pad (square_image 2 [ [1; 0]; [0; 0] ]) eq_refl eq_refl
                (square_image_forged 2 [ [1; 0]; [0; 0] ] eq_refl eq_refl)).
  vm_compute in H. discriminate.
Qed.

(** C9, amended.  Eight applications of [RotateBy45Degrees] in a row to a
    forged square 2-D binary image of odd side return the image they
    started from: same sizes, same strides, same samples. *)
Theorem eight_rotations_of_odd_square (Pad : Image2D -> Z -> Image2D)
    (input : Image2D) :
  size1 input = size0 input -> Z.odd (size0 input) = true -> 0 < size0 input ->
  forged input ->
  eight_times Pad input = Returns input.
Proof.
  intros Hsquare Hodd Hpos Hf.
  assert (Hh : size0 input = 2 * (size0 input / 2) + 1).
  { rewrite (Z.div_mod (size0 input) 2) at 1 by lia.
    rewrite Zmod_odd, Hodd. reflexivity. }
  assert (Hh0 : 0 <= size0 input / 2) by (apply Z.div_pos; lia).
  rewrite eight_times_eq.
  destruct (times_turned Pad 8 (size0 input / 2) Hh0 input Hh
              ltac:(congruence) Hf) as (m' & -> & Hturned).
  rewrite (turned_8 _ _ _ _ _ _ Hturned). destruct input; reflexivity.
Qed.

(** The theorem at the image of the doctest. *)
Lemma eight_rotations_of_odd_square_witness :
  eight_times no_Pad doctest_image = Returns doctest_image.
Proof.
  apply eight_rotations_of_odd_square.
  - reflexivity.
  - reflexivity.
  - reflexivity.
  - apply square_image_forged; reflexivity.
Defined.

End Rotate45.

(** * Binary propagation (src/binary/binary_propagation.cpp)

    The output image holds one byte per pixel; [BinaryPropagation] keeps
    its bookkeeping in bits of that byte: bit 0 is the data (and seed) bit,
    bit 2 marks the pixels on the image border, bit 3 the pixels of the
    mask.  A pixel pointer is the offset of the pixel's byte; the queue of
    edge pixels is a list of such offsets, front first.  The samples of the
    seed and mask images are listed in the order of the offsets of the
    output image. *)

Module BinaryPropagation.
Import Outcome Buffer Images.
Local Open Scope Z_scope.

Definition dataBitmask : Z := 1.
Definition maskPlane : Z := 3.
Definition maskBitmask : Z := Z.shiftl 1 maskPlane mod 2 ^ 8.
Definition borderPlane : Z := 2.
Definition borderBitmask : Z := Z.shiftl 1 borderPlane mod 2 ^ 8.
Definition seedPlane : Z := 0.
Definition seedBitmask : Z := Z.shiftl 1 seedPlane mod 2 ^ 8.
Definition maskOrSeedBitmask : Z := Z.lor seedBitmask maskBitmask.

(** [std::numeric_limits< dip::uint >::max()] *)
Definition uint_max : Z := 2 ^ 64 - 1.

(** Modelled from the spec: [BooleanFromString( s_edgeCondition,
    S::OBJECT, S::BACKGROUND )], whose definition is not available.  The
    binary edge condition is one of the two strings, and an unrecognized
    string is refused as invalid input. *)
Definition BooleanFromString (s trueString falseString : string) : outcome bool :=
  if String.eqb s trueString then Returns true
  else if String.eqb s falseString then Returns false
  else Throws INVALID_FLAG.

(** The pixel at [p] is tested and, when it carries the mask bit but not
    the seed bit, gets the seed bit; the flag tells whether it did (the
    pointer is then pushed on the queue). *)
Definition seed_if_open (st : list Z) (p : Z) : outcome (list Z * bool) :=
  b ← load st p;
  if Z.land b maskOrSeedBitmask =? maskBitmask then
    st ← store st p (Z.lor b seedBitmask); mret (st, true)
  else mret (st, false).

Definition push_if (hit : bool) (queue : list Z) (p : Z) : list Z :=
  if hit then queue ++ [p] else queue.

(** The first iteration: every pixel that was in the queue is popped, and
    pushed again when it was seeded now. *)
Fixpoint first_iteration (queue : list Z) (st : list Z) (pushed : list Z)
  : outcome (list Z * list Z) :=
  match queue with
  | [] => Returns (st, pushed)
  | pPixel :: queue =>
      '(st, hit) ← seed_if_open st pPixel;
      first_iteration queue st (push_if hit pushed pPixel)
  end.

(** ** The status bits of a byte *)

Definition seeded (b : Z) : bool := Z.testbit b seedPlane.
Definition masked (b : Z) : bool := Z.testbit b maskPlane.
Definition border (b : Z) : bool := Z.testbit b borderPlane.

(** A pixel the propagation may still reach: in the mask, not seeded. *)
Definition open (b : Z) : bool := Z.land b maskOrSeedBitmask =? maskBitmask.

(** Only the low four bits of a byte matter to the masks in use. *)
Lemma land_low4 (b c : Z) : Z.land (Z.ones 4) c = c -> Z.land b c = Z.land (b mod 2 ^ 4) c.
Proof.
  intros Hc. rewrite <- Z.land_ones by lia. rewrite <- Z.land_assoc, Hc. reflexivity.
Qed.

Lemma testbit_low4 (b k : Z) : 0 <= k < 4 -> Z.testbit b k = Z.testbit (b mod 2 ^ 4) k.
Proof. intros Hk. symmetry. apply Z.mod_pow2_bits_low. lia. Qed.

Lemma low4_cases (r : Z) :
  0 <= r < 16 ->
  r = 0 \/ r = 1 \/ r = 2 \/ r = 3 \/ r = 4 \/ r = 5 \/ r = 6 \/ r = 7 \/
  r = 8 \/ r = 9 \/ r = 10 \/ r = 11 \/ r = 12 \/ r = 13 \/ r = 14 \/ r = 15.
Proof. lia. Qed.

(** A statement about the low four bits holds when it holds for the
    sixteen values they take. *)
Ltac by_low4 b :=
  let r := fresh "r" in
  let Hr := fresh "Hr" in
  pose proof (Z.mod_pos_bound b (2 ^ 4) eq_refl) as Hr;
  generalize dependent (b mod 2 ^ 4); intros r Hr;
  change (2 ^ 4) with 16 in Hr;
  destruct (low4_cases r Hr)
    as [-> | [-> | [-> | [-> | [-> | [-> | [-> | [-> |
       [-> | [-> | [-> | [-> | [-> | [-> | [-> | ->]]]]]]]]]]]]]]];
  reflexivity.

Lemma open_bits (b : Z) : open b = masked b && negb (seeded b).
Proof.
  unfold open, masked, seeded.
  rewrite (land_low4 b maskOrSeedBitmask eq_refl),
    (testbit_low4 b maskPlane ltac:(unfold maskPlane; lia)),
    (testbit_low4 b seedPlane ltac:(unfold seedPlane; lia)).
  by_low4 b.
Qed.

Lemma final_bits (b : Z) :
  (Z.land b maskOrSeedBitmask =? maskOrSeedBitmask) = masked b && seeded b.
Proof.
  unfold masked, seeded.
  rewrite (land_low4 b maskOrSeedBitmask eq_refl),
    (testbit_low4 b maskPlane ltac:(unfold maskPlane; lia)),
    (testbit_low4 b seedPlane ltac:(unfold seedPlane; lia)).
  by_low4 b.
Qed.

Lemma border_bits (b : Z) : negb (Z.land b borderBitmask =? 0) = border b.
Proof.
  unfold border.
  rewrite (land_low4 b borderBitmask eq_refl),
    (testbit_low4 b borderPlane ltac:(unfold borderPlane; lia)).
  by_low4 b.
Qed.

Lemma bits_after_seeding (b : Z) :
  seeded (Z.lor b seedBitmask) = true /\
  masked (Z.lor b seedBitmask) = masked b /\
  border (Z.lor b seedBitmask) = border b.
Proof.
  unfold seeded, masked, border. rewrite !Z.lor_spec.
  change (Z.testbit seedBitmask seedPlane) with true.
  change (Z.testbit seedBitmask maskPlane) with false.
  change (Z.testbit seedBitmask borderPlane) with false.
  rewrite !orb_false_r, orb_true_r. auto.
Qed.

(** The number of pixels the propagation may still reach. *)
Fixpoint count_open (st : list Z) : nat :=
  match st with
  | [] => O
  | b :: st => ((if open b then 1 else 0) + count_open st)%nat
  end.

Lemma count_open_le (st : list Z) : (count_open st <= length st)%nat.
Proof. induction st as [| b st IH]; simpl; [lia | destruct (open b); lia]. Qed.

Lemma count_open_insert (st : list Z) (i : nat) (b b' : Z) :
  st !! i = Some b ->
  (count_open (<[i := b']> st) + (if open b then 1 else 0) =
   count_open st + (if open b' then 1 else 0))%nat.
Proof.
  revert i. induction st as [| a st IH]; intros i Hi; [discriminate |].
  destruct i as [| i]; simpl in *.
  - injection Hi as ->. lia.
  - specialize (IH i Hi). lia.
Qed.

(** The bits of a byte that the propagation never changes. *)
Definition fixed_bits (b : Z) : bool * bool := (border b, masked b).

Definition in_buffer (st : list Z) (p : Z) : Prop := 0 <= p < Z.of_nat (length st).

(** [stepped st pushed st' pushed']: some pixels of [st] that were open
    got the seed bit, and just these were appended to the queue. *)
Definition stepped (st pushed st' pushed' : list Z) : Prop :=
  length st' = length st /\
  map fixed_bits st' = map fixed_bits st /\
  (count_open st' + length pushed' = count_open st + length pushed)%nat /\
  (Forall (in_buffer st) pushed -> Forall (in_buffer st') pushed').

Lemma stepped_refl (st pushed : list Z) : stepped st pushed st pushed.
Proof. repeat split; auto. Qed.

Lemma stepped_trans (st0 q0 st1 q1 st2 q2 : list Z) :
  stepped st0 q0 st1 q1 -> stepped st1 q1 st2 q2 -> stepped st0 q0 st2 q2.
Proof.
  intros (L1 & B1 & C1 & F1) (L2 & B2 & C2 & F2).
  repeat split; [congruence | congruence | lia | auto].
Qed.

Lemma seed_if_open_spec (st : list Z) (p : Z) (pushed : list Z) :
  in_buffer st p ->
  exists st' hit,
    seed_if_open st p = Returns (st', hit) /\
    stepped st pushed st' (push_if hit pushed p).
Proof.
  intros Hp. unfold seed_if_open, load.
  destruct (get_in_bounds st p Hp) as [b Hb]. rewrite Hb. simpl.
  fold (open b). destruct (open b) eqn:Hopen.
  - destruct (store_in_bounds st p (Z.lor b seedBitmask) Hp) as [st' Hst].
    rewrite Hst. simpl. exists st', true. split; [reflexivity |].
    pose proof (store_length _ _ _ _ Hst) as Hlen.
    unfold store in Hst. destruct (_ && _); [| discriminate]. injection Hst as <-.
    unfold get in Hb. destruct (0 <=? p); [| discriminate].
    destruct (bits_after_seeding b) as (Hs & Hm & Hbo).
    split; [exact Hlen | split; [| split]].
    + rewrite list_fmap_insert. apply list_insert_id.
      rewrite list_lookup_fmap, Hb. simpl. unfold fixed_bits. congruence.
    + pose proof (count_open_insert st (Z.to_nat p) b (Z.lor b seedBitmask) Hb) as Hc.
      rewrite Hopen in Hc.
      replace (open (Z.lor b seedBitmask)) with false in Hc
        by (rewrite open_bits, Hs, andb_false_r; reflexivity).
      simpl. rewrite length_app. simpl. lia.
    + intros Hall. simpl. apply Forall_app. split.
      * eapply Forall_impl; [exact Hall |]. unfold in_buffer. intros q Hq.
        rewrite length_insert. exact Hq.
      * constructor; [| constructor]. unfold in_buffer in *.
        rewrite length_insert. exact Hp.
  - exists st, false. split; [reflexivity | apply stepped_refl].
Qed.

Lemma first_iteration_spec (queue : list Z) :
  forall st pushed,
  Forall (in_buffer st) queue ->
  exists st' pushed',
    first_iteration queue st pushed = Returns (st', pushed') /\
    stepped st pushed st' pushed'.
Proof.
  induction queue as [| p queue IH]; intros st pushed Hq; simpl.
  - exists st, pushed. split; [reflexivity | apply stepped_refl].
  - inversion Hq as [| ? ? Hp Hrest]; subst.
    destruct (seed_if_open_spec st p pushed Hp) as (st1 & hit & -> & Hstep1).
    simpl.
    destruct (IH st1 (push_if hit pushed p)) as (st' & pushed' & -> & Hstep2).
    { destruct Hstep1 as (L & _). eapply Forall_impl; [exact Hrest |].
      unfold in_buffer. intros q Hq'. rewrite L. exact Hq'. }
    exists st', pushed'. split; [reflexivity |].
    eapply stepped_trans; eauto.
Qed.

Section Propagation.

(** What the absent helpers contribute, for the sizes and the connectivity
    of one call: the offsets of the neighbour lists used in even and odd
    iterations ([NeighborList::ComputeOffsets]), whether neighbour number
    [k] of the pixel at an offset lies in the image
    ([NeighborList::Iterator::IsInImage]), and which pixels are on the
    image border ([ApplyBinaryBorderMask]). *)
Variable neighborOffsetsOut : bool -> list Z.
Variable IsInImage : bool -> nat -> Z -> bool.
Variable onBorder : Z -> bool.

(** The loop over the neighbours of the pixel at [pPixel]; [k] counts
    them. *)
Fixpoint propagate_to_neighbors (odd : bool) (offsets : list Z) (k : nat)
    (isBorderPixel : bool) (pPixel : Z) (st : list Z) (pushed : list Z)
  : outcome (list Z * list Z) :=
  match offsets with
  | [] => Returns (st, pushed)
  | offset :: offsets =>
      '(st, pushed) ←
        (if negb isBorderPixel || IsInImage odd k pPixel then
           let pNeighbor := pPixel + offset in
           '(st, hit) ← seed_if_open st pNeighbor;
           mret (st, push_if hit pushed pNeighbor)
         else mret (st, pushed));
      propagate_to_neighbors odd offsets (S k) isBorderPixel pPixel st pushed
  end.

(** One iteration of the dilation: the pixels that were in the queue are
    processed and popped; [pushed] collects the pixels pushed meanwhile. *)
Fixpoint dilation_round (odd : bool) (queue : list Z) (st : list Z) (pushed : list Z)
  : outcome (list Z * list Z) :=
  match queue with
  | [] => Returns (st, pushed)
  | pPixel :: queue =>
      pixelByte ← load st pPixel;
      let isBorderPixel := negb (Z.land pixelByte borderBitmask =? 0) in
      '(st, pushed) ←
        propagate_to_neighbors odd (neighborOffsetsOut odd) 0 isBorderPixel pPixel
          st pushed;
      dilation_round odd queue st pushed
  end.

(** [for( iDilIter = 1; iDilIter < iterations; ++iDilIter )], leaving when
    the queue is empty after an iteration.  [fuel] bounds the number of
    iterations the embedding follows; [None] means it was too small. *)
Fixpoint dilation_loop (fuel : nat) (iDilIter iterations : Z) (st : list Z)
    (queue : list Z) : option (outcome (list Z * list Z)) :=
  if iDilIter <? iterations then
    match fuel with
    | O => None
    | S fuel =>
        match dilation_round (Z.odd iDilIter) queue st [] with
        | Returns (st, queue) =>
            match queue with
            | [] => Some (Returns (st, []))
            | _ => dilation_loop fuel (iDilIter + 1) iterations st queue
            end
        | Throws e => Some (Throws e)
        | Undefined => Some Undefined
        end
    end
  else Some (Returns (st, queue)).

(** [FindBinaryEdgePixels] with [findObjectPixels == false]
    (binary_support.h): the initial queue, from the output bytes and the
    edge condition. *)
Variable FindBinaryEdgePixels : list Z -> bool -> list Z.

(** [ApplyBinaryBorderMask( out, borderBitmask )] *)
Definition ApplyBinaryBorderMask (out : list Z) : list Z :=
  imap (fun i b => if onBorder (Z.of_nat i) then Z.lor b borderBitmask else b) out.

(** [if( itInMaskOut.In() ) itInMaskOut.Out() |= maskBitmask] *)
Definition add_mask_plane (inMask out : list Z) : list Z :=
  zip_with (fun m b => if m =? 0 then b else Z.lor b maskBitmask) inMask out.

(** The final step: [pixelByte = ( pixelByte & maskOrSeedBitmask ) == maskOrSeedBitmask] *)
Definition final_sample (pixelByte : Z) : Z :=
  if Z.land pixelByte maskOrSeedBitmask =? maskOrSeedBitmask then 1 else 0.

(** The argument checks and the preparation of the output bytes. *)
Definition prepare (c_inSeed c_inMask : Image) (connectivity : Z)
    (s_edgeCondition : string) : outcome (list Z * bool) :=
  DIP_THROW_IF (negb (IsForged c_inMask)) IMAGE_NOT_FORGED;;
  DIP_THROW_IF (negb (IsBinary (dataType c_inMask))) IMAGE_NOT_BINARY;;
  DIP_THROW_IF (negb (IsScalar c_inMask)) IMAGE_NOT_SCALAR;;
  (if IsForged c_inSeed then
     DIP_THROW_IF (negb (IsBinary (dataType c_inSeed))) IMAGE_NOT_BINARY;;
     DIP_THROW_IF (negb (IsScalar c_inSeed)) IMAGE_NOT_SCALAR;;
     DIP_THROW_IF (negb (bool_decide (sizes c_inMask = sizes c_inSeed))) SIZES_DONT_MATCH
   else mret tt);;
  let nDims := Z.of_nat (length (sizes c_inMask)) in
  DIP_THROW_IF (nDims <? connectivity) PARAMETER_OUT_OF_RANGE;;
  outsideImageIsObject ← BooleanFromString s_edgeCondition "object" "background";
  let out :=
    if IsForged c_inSeed then samples c_inSeed
    else replicate (length (samples c_inMask)) 0 in
  let out := ApplyBinaryBorderMask out in
  let out := add_mask_plane (samples c_inMask) out in
  mret (out, outsideImageIsObject).

(** The run up to the final step: the status bytes and the queue it ends
    with. *)
Definition propagate (fuel : nat) (c_inSeed c_inMask : Image) (connectivity : Z)
    (iterations : Z) (s_edgeCondition : string)
  : option (outcome (list Z * list Z)) :=
  match prepare c_inSeed c_inMask connectivity s_edgeCondition with
  | Returns (out, outsideImageIsObject) =>
      (* Zero iterations means: continue until propagation is done *)
      let iterations := if iterations =? 0 then uint_max else iterations in
      let edgePixels := FindBinaryEdgePixels out outsideImageIsObject in
      match (if 0 <? iterations then first_iteration edgePixels out []
             else Returns (out, edgePixels)) with
      | Returns (out, edgePixels) => dilation_loop fuel 1 iterations out edgePixels
      | Throws e => Some (Throws e)
      | Undefined => Some Undefined
      end
  | Throws e => Some (Throws e)
  | Undefined => Some Undefined
  end.

(** [BinaryPropagation]: the samples of [out]. *)
Definition BinaryPropagation (fuel : nat) (c_inSeed c_inMask : Image) (connectivity : Z)
    (iterations : Z) (s_edgeCondition : string) : option (outcome (list Z)) :=
  match propagate fuel c_inSeed c_inMask connectivity iterations s_edgeCondition with
  | Some (Returns (st, _)) => Some (Returns (map final_sample st))
  | Some (Throws e) => Some (Throws e)
  | Some Undefined => Some Undefined
  | None => None
  end.

(** ** Termination of the dilation

    The image has [n] pixels.  A neighbour that the loop visits lies in
    the image: for a pixel that is not on the border every neighbour does,
    and for a border pixel those that [IsInImage] accepts. *)

Variable n : nat.

Hypothesis neighbors_in_image : forall odd p k offset,
  0 <= p < Z.of_nat n ->
  neighborOffsetsOut odd !! k = Some offset ->
  negb (onBorder p) || IsInImage odd k p = true ->
  0 <= p + offset < Z.of_nat n.

(** The status bytes of the [n] pixels, with the border bit where
    [ApplyBinaryBorderMask] put it. *)
Definition status (st : list Z) : Prop :=
  length st = n /\
  forall i b, st !! i = Some b -> border b = onBorder (Z.of_nat i).

Lemma status_stepped (st pushed st' pushed' : list Z) :
  status st -> stepped st pushed st' pushed' -> status st'.
Proof.
  intros [Hlen Hborder] (L & B & _). split; [congruence |].
  intros i b' Hb'.
  assert (Hfix : map fixed_bits st' !! i = Some (fixed_bits b'))
    by (rewrite list_lookup_fmap, Hb'; reflexivity).
  rewrite B, list_lookup_fmap in Hfix.
  destruct (st !! i) as [b |] eqn:Hb; [| discriminate].
  simpl in Hfix. injection Hfix as Hbo _. rewrite <- Hbo. apply (Hborder i b Hb).
Qed.

Lemma in_buffer_stepped (st pushed st' pushed' : list Z) (queue : list Z) :
  stepped st pushed st' pushed' ->
  Forall (in_buffer st) queue -> Forall (in_buffer st') queue.
Proof.
  intros (L & _) Hq. eapply Forall_impl; [exact Hq |].
  unfold in_buffer. intros q Hq'. rewrite L. exact Hq'.
Qed.

Lemma propagate_to_neighbors_spec (odd : bool) (p : Z) (offsets : list Z) :
  forall (k : nat) (st pushed : list Z),
  (forall j o, offsets !! j = Some o -> neighborOffsetsOut odd !! (k + j)%nat = Some o) ->
  length st = n -> 0 <= p < Z.of_nat n ->
  exists st' pushed',
    propagate_to_neighbors odd offsets k (onBorder p) p st pushed
      = Returns (st', pushed') /\
    stepped st pushed st' pushed'.
Proof.
  induction offsets as [| o offsets IH]; intros k st pushed Hoffs Hlen Hp; simpl.
  - exists st, pushed. split; [reflexivity | apply stepped_refl].
  - assert (Hk : neighborOffsetsOut odd !! k = Some o)
      by (rewrite <- (Nat.add_0_r k); apply Hoffs; reflexivity).
    assert (Hrest : forall j o', offsets !! j = Some o' ->
                      neighborOffsetsOut odd !! (S k + j)%nat = Some o').
    { intros j o' Hj. replace (S k + j)%nat with (k + S j)%nat by lia.
      apply Hoffs. exact Hj. }
    destruct (negb (onBorder p) || IsInImage odd k p) eqn:Hvisit.
    + assert (Hq : in_buffer st (p + o))
        by (unfold in_buffer; rewrite Hlen; eapply neighbors_in_image; eauto).
      destruct (seed_if_open_spec st (p + o) pushed Hq) as (st1 & hit & -> & Hstep1).
      simpl.
      destruct (IH (S k) st1 (push_if hit pushed (p + o)) Hrest)
        as (st' & pushed' & -> & Hstep2);
        [destruct Hstep1 as (L & _); congruence | exact Hp |].
      exists st', pushed'. split; [reflexivity | eapply stepped_trans; eauto].
    + simpl. apply IH; assumption.
Qed.

Lemma dilation_round_spec (odd : bool) (queue : list Z) :
  forall st pushed,
  status st -> Forall (in_buffer st) queue ->
  exists st' pushed',
    dilation_round odd queue st pushed = Returns (st', pushed') /\
    stepped st pushed st' pushed'.
Proof.
  induction queue as [| p queue IH]; intros st pushed Hst Hq; simpl.
  - exists st, pushed. split; [reflexivity | apply stepped_refl].
  - inversion Hq as [| ? ? Hp Hrest]; subst.
    destruct (get_in_bounds st p Hp) as [b Hb].
    unfold load. rewrite Hb. simpl. rewrite border_bits.
    assert (Hborder : border b = onBorder p).
    { destruct Hst as [_ Hborder]. unfold get in Hb.
      destruct (Z.leb_spec 0 p) as [H0 |]; [| discriminate].
      rewrite (Hborder _ _ Hb), Z2Nat.id by exact H0. reflexivity. }
    rewrite Hborder.
    destruct (propagate_to_neighbors_spec odd p (neighborOffsetsOut odd) 0 st pushed)
      as (st1 & pushed1 & -> & Hstep1).
    { intros j o Hj. exact Hj. }
    { destruct Hst as [L _]. exact L. }
    { destruct Hst as [L _]. unfold in_buffer in Hp. rewrite L in Hp. exact Hp. }
    simpl.
    destruct (IH st1 pushed1) as (st' & pushed' & -> & Hstep2).
    { eapply status_stepped; eauto. }
    { eapply in_buffer_stepped; eauto. }
    exists st', pushed'. split; [reflexivity | eapply stepped_trans; eauto].
Qed.

(** With more fuel than open pixels, and an iteration count that the
    open pixels cannot exhaust, the loop ends through the empty queue. *)
Lemma dilation_loop_converges (iterations : Z) (fuel : nat) :
  forall (iDilIter : Z) (st queue : list Z),
  status st -> Forall (in_buffer st) queue ->
  (count_open st < fuel)%nat ->
  iDilIter + Z.of_nat (count_open st) < iterations ->
  exists st',
    dilation_loop fuel iDilIter iterations st queue = Some (Returns (st', [])) /\
    status st' /\ map fixed_bits st' = map fixed_bits st.
Proof.
  induction fuel as [| fuel IH]; intros iDilIter st queue Hst Hq Hfuel Hiter;
    [lia |].
  simpl.
  replace (iDilIter <? iterations) with true by (symmetry; apply Z.ltb_lt; lia).
  destruct (dilation_round_spec (Z.odd iDilIter) queue st [] Hst Hq)
    as (st1 & queue1 & -> & Hstep).
  pose proof (status_stepped _ _ _ _ Hst Hstep) as Hst1.
  destruct Hstep as (L & B & C & F).
  destruct queue1 as [| p queue1].
  - exists st1. auto.
  - simpl in C.
    destruct (IH (iDilIter + 1) st1 (p :: queue1)) as (st' & -> & Hst' & B');
      [exact Hst1 | apply F; constructor | lia | lia |].
    exists st'. split; [reflexivity | split; [exact Hst' | congruence]].
Qed.

End Propagation.

(** ** The prepared status bytes and the whole run *)

Definition binary_samples (l : list Z) : Prop := Forall (fun v => v = 0 \/ v = 1) l.

Lemma prepared_byte (onBorder : Z -> bool) (seedS maskS : list Z) (i : nat) (b : Z) :
  binary_samples seedS ->
  add_mask_plane maskS (ApplyBinaryBorderMask onBorder seedS) !! i = Some b ->
  exists m, maskS !! i = Some m /\
            border b = onBorder (Z.of_nat i) /\
            masked b = negb (m =? 0).
Proof.
  intros Hbin Hb. unfold add_mask_plane, ApplyBinaryBorderMask in Hb.
  apply lookup_zip_with_Some in Hb. destruct Hb as (m & x & -> & Hm & Hx).
  rewrite list_lookup_imap in Hx.
  destruct (seedS !! i) as [v |] eqn:Hv; [| discriminate].
  simpl in Hx. injection Hx as <-.
  assert (Hv01 : v = 0 \/ v = 1).
  { unfold binary_samples in Hbin. rewrite Forall_forall in Hbin.
    apply Hbin. apply list_elem_of_lookup. eauto. }
  exists m. split; [exact Hm |].
  destruct (onBorder (Z.of_nat i)), (m =? 0), Hv01 as [-> | ->];
    split; reflexivity.
Qed.

(** The inputs the claim is about: a forged scalar binary mask, and a
    seed that is absent or a binary scalar image of the same sizes. *)
Definition valid_mask (c_inMask : Image) : Prop :=
  IsForged c_inMask = true /\ IsBinary (dataType c_inMask) = true /\
  IsScalar c_inMask = true.

Definition valid_seed (c_inSeed c_inMask : Image) : Prop :=
  IsForged c_inSeed = false \/
  (IsForged c_inSeed = true /\ IsBinary (dataType c_inSeed) = true /\
   IsScalar c_inSeed = true /\ sizes c_inMask = sizes c_inSeed /\
   length (samples c_inSeed) = length (samples c_inMask) /\
   binary_samples (samples c_inSeed)).

Lemma prepare_returns (onBorder : Z -> bool) (c_inSeed c_inMask : Image)
    (connectivity : Z) (s_edgeCondition : string) :
  valid_mask c_inMask -> valid_seed c_inSeed c_inMask ->
  connectivity <= Z.of_nat (length (sizes c_inMask)) ->
  s_edgeCondition = "object"%string \/ s_edgeCondition = "background"%string ->
  exists out outsideImageIsObject,
    prepare onBorder c_inSeed c_inMask connectivity s_edgeCondition
      = Returns (out, outsideImageIsObject) /\
    status onBorder (length (samples c_inMask)) out /\
    (forall i b, out !! i = Some b ->
       exists m, samples c_inMask !! i = Some m /\ masked b = negb (m =? 0)).
Proof.
  intros (Hf & Hb & Hs) Hseed Hconn Hedge. unfold prepare.
  rewrite Hf, Hb, Hs. simpl.
  replace (Z.of_nat (length (sizes c_inMask)) <? connectivity) with false
    by (symmetry; apply Z.ltb_ge; lia).
  set (seedS := if IsForged c_inSeed then samples c_inSeed
                else replicate (length (samples c_inMask)) 0).
  assert (Hlen : length seedS = length (samples c_inMask)).
  { unfold seedS. destruct Hseed as [-> | (-> & _ & _ & _ & L & _)];
      [apply length_replicate | exact L]. }
  assert (Hbin : binary_samples seedS).
  { unfold seedS. destruct Hseed as [-> | (-> & _ & _ & _ & _ & B)]; [| exact B].
    unfold binary_samples. apply Forall_forall. intros v Hv.
    apply elem_of_replicate in Hv. tauto. }
  assert (Hrun : exists outside,
             BooleanFromString s_edgeCondition "object" "background" = Returns outside)
    by (destruct Hedge as [-> | ->]; simpl; eauto).
  destruct Hrun as [outside Hrun].
  exists (add_mask_plane (samples c_inMask) (ApplyBinaryBorderMask onBorder seedS)), outside.
  split; [| split].
  - destruct Hseed as [Hraw | (Hfs & Hbs & Hss & Hsz & _)].
    + rewrite Hraw. simpl. rewrite Hrun. reflexivity.
    + rewrite Hfs, Hbs, Hss, (bool_decide_eq_true_2 _ Hsz). simpl.
      rewrite Hrun. reflexivity.
  - split.
    + unfold add_mask_plane, ApplyBinaryBorderMask.
      rewrite length_zip_with, length_imap. lia.
    + intros i b Hi. destruct (prepared_byte _ _ _ _ _ Hbin Hi) as (m & _ & Hbo & _).
      exact Hbo.
  - intros i b Hi. destruct (prepared_byte _ _ _ _ _ Hbin Hi) as (m & Hm & _ & Hma).
    eauto.
Qed.

Lemma fixed_bits_masked (st st' : list Z) (i : nat) (b' : Z) :
  map fixed_bits st' = map fixed_bits st -> st' !! i = Some b' ->
  exists b, st !! i = Some b /\ masked b' = masked b.
Proof.
  intros Hfix Hb'.
  assert (H : map fixed_bits st' !! i = Some (fixed_bits b'))
    by (rewrite list_lookup_fmap, Hb'; reflexivity).
  rewrite Hfix, list_lookup_fmap in H.
  destruct (st !! i) as [b |]; [| discriminate].
  simpl in H. injection H as _ Hm. eauto.
Qed.

(** ** What the run reaches

    A pixel gets the seed bit in the first iteration when it is an edge
    pixel found at the start, and in a later iteration when it is a
    neighbour visited from a pixel that got the seed bit in the
    iteration before; and it must be open.  When the queue is empty,
    every pixel that got the seed bit has been taken from the queue, in
    the iteration after the one that gave it the seed bit, and its
    visited neighbours are no longer open. *)

Definition is_open (st : list Z) (p : Z) : bool :=
  match get st p with Some b => open b | None => false end.

Definition is_seeded (st : list Z) (p : Z) : bool :=
  match get st p with Some b => seeded b | None => false end.

(** [later st st']: the bytes of [st'] are those of [st], but for open
    pixels that got the seed bit. *)
Definition later (st st' : list Z) : Prop :=
  length st' = length st /\
  forall p b, get st p = Some b ->
    get st' p = Some b \/ (open b = true /\ get st' p = Some (Z.lor b seedBitmask)).

Lemma get_bounds {A : Type} (buf : list A) (p : Z) (v : A) :
  get buf p = Some v -> 0 <= p < Z.of_nat (length buf).
Proof.
  unfold get. destruct (Z.leb_spec 0 p) as [H0 |]; [| discriminate].
  intros H. apply lookup_lt_Some in H. lia.
Qed.

Lemma get_of_nat {A : Type} (buf : list A) (i : nat) : get buf (Z.of_nat i) = buf !! i.
Proof.
  unfold get. replace (0 <=? Z.of_nat i) with true by (symmetry; apply Z.leb_le; lia).
  rewrite Nat2Z.id. reflexivity.
Qed.

Lemma seeded_not_open (b : Z) : open (Z.lor b seedBitmask) = false.
Proof.
  rewrite open_bits. destruct (bits_after_seeding b) as (-> & _).
  apply andb_false_r.
Qed.

Lemma later_refl (st : list Z) : later st st.
Proof. split; auto. Qed.

Lemma later_trans (st0 st1 st2 : list Z) : later st0 st1 -> later st1 st2 -> later st0 st2.
Proof.
  intros [L1 H1] [L2 H2]. split; [congruence |]. intros p b Hb.
  destruct (H1 p b Hb) as [Hb1 | [Ho Hb1]].
  - apply (H2 p b Hb1).
  - destruct (H2 p _ Hb1) as [Hb2 | [Ho2 _]]; [auto |].
    rewrite seeded_not_open in Ho2. discriminate.
Qed.

Lemma later_get (st st' : list Z) (p : Z) (b' : Z) :
  later st st' -> get st' p = Some b' ->
  exists b, get st p = Some b /\
            (b' = b \/ (open b = true /\ b' = Z.lor b seedBitmask)).
Proof.
  intros [L H] Hb'. pose proof (get_bounds _ _ _ Hb') as Hp. rewrite L in Hp.
  destruct (get_in_bounds st p Hp) as [b Hb]. exists b. split; [exact Hb |].
  destruct (H p b Hb) as [Hsame | [Ho Hset]]; [left | right; split; [exact Ho |]];
    congruence.
Qed.

Lemma later_open (st st' : list Z) (p : Z) :
  later st st' -> is_open st' p = true -> is_open st p = true.
Proof.
  intros Hl. unfold is_open. destruct (get st' p) as [b' |] eqn:Hb'; [| discriminate].
  destruct (later_get _ _ _ _ Hl Hb') as (b & -> & [-> | [_ ->]]); [auto |].
  rewrite seeded_not_open. discriminate.
Qed.

Lemma later_closed (st st' : list Z) (p : Z) :
  later st st' -> is_open st p = false -> is_open st' p = false.
Proof.
  intros Hl Hp. destruct (is_open st' p) eqn:Hp'; [| reflexivity].
  rewrite (later_open _ _ _ Hl Hp') in Hp. discriminate.
Qed.

Lemma later_seeded (st st' : list Z) (p : Z) :
  later st st' -> is_seeded st p = true -> is_seeded st' p = true.
Proof.
  intros [_ H]. unfold is_seeded. destruct (get st p) as [b |] eqn:Hb; [| discriminate].
  intros Hs. destruct (H p b Hb) as [-> | [_ ->]]; [exact Hs |].
  apply bits_after_seeding.
Qed.

(** A pixel that got the seed bit was open, and is no longer. *)
Lemma later_fresh (st st' : list Z) (p : Z) :
  later st st' -> is_seeded st p = false -> is_seeded st' p = true ->
  is_open st p = true /\ is_open st' p = false.
Proof.
  intros Hl. unfold is_seeded, is_open.
  destruct (get st' p) as [b' |] eqn:Hb'; [| discriminate].
  destruct (later_get _ _ _ _ Hl Hb') as (b & -> & [-> | [Ho ->]]).
  - intros -> ?. discriminate.
  - intros _ _. split; [exact Ho | apply seeded_not_open].
Qed.

Lemma seed_if_open_later (st : list Z) (q : Z) (st' : list Z) (hit : bool) :
  seed_if_open st q = Returns (st', hit) ->
  later st st' /\ is_open st' q = false /\
  (hit = true -> is_open st q = true) /\
  (hit = false -> st' = st) /\
  forall x, x <> q -> get st' x = get st x.
Proof.
  unfold seed_if_open, load. destruct (get st q) as [b |] eqn:Hb; [| discriminate].
  simpl. fold (open b). destruct (open b) eqn:Ho.
  - destruct (store st q (Z.lor b seedBitmask)) as [st1 | |] eqn:Hs; try discriminate.
    simpl. intros [= <- <-]. split; [| split; [| split; [| split]]].
    + split; [eapply store_length; eauto |]. intros p b0 Hb0.
      destruct (Z.eq_dec p q) as [-> | Hne].
      * right. assert (b0 = b) by congruence. subst b0.
        split; [exact Ho | eapply get_store_eq; eauto].
      * left. rewrite (get_store_ne _ _ _ _ _ Hs Hne). exact Hb0.
    + unfold is_open. rewrite (get_store_eq _ _ _ _ Hs). apply seeded_not_open.
    + intros _. unfold is_open. rewrite Hb. exact Ho.
    + discriminate.
    + intros x Hne. eapply get_store_ne; eauto.
  - intros [= <- <-]. split; [apply later_refl | split; [| split; [| split]]]; auto.
    + unfold is_open. rewrite Hb. exact Ho.
    + discriminate.
Qed.

Lemma status_later (onBorder : Z -> bool) (n : nat) (st st' : list Z) :
  status onBorder n st -> later st st' -> status onBorder n st'.
Proof.
  intros [Hlen Hborder] Hl. split; [destruct Hl as [L _]; congruence |].
  intros i b' Hb'. rewrite <- get_of_nat in Hb'.
  destruct (later_get _ _ _ _ Hl Hb') as (b & Hb & [-> | [_ ->]]);
    rewrite get_of_nat in Hb.
  - eapply Hborder; eauto.
  - destruct (bits_after_seeding b) as (_ & _ & ->). eapply Hborder; eauto.
Qed.

Section Reach.

Variable neighborOffsetsOut : bool -> list Z.
Variable IsInImage : bool -> nat -> Z -> bool.
Variable onBorder : Z -> bool.

(** The status bytes before the first iteration, and the edge pixels
    found in them. *)
Variable st0 : list Z.
Variable edgePixels : list Z.

(** [q] is a neighbour that the loop over the neighbours of [p] visits,
    with the neighbour list of odd or even iterations. *)
Definition visits (odd : bool) (p q : Z) : Prop :=
  exists k offset,
    neighborOffsetsOut odd !! k = Some offset /\
    negb (onBorder p) || IsInImage odd k p = true /\
    q = p + offset.

(** [reached it p]: the propagation can give pixel [p] the seed bit in
    iteration [it]; the first iteration is iteration 0, and iteration
    [iDilIter] uses the neighbour list [iDilIter & 1] selects. *)
Inductive reached : Z -> Z -> Prop :=
| reached_edge (p : Z) :
    p ∈ edgePixels -> is_open st0 p = true -> reached 0 p
| reached_neighbor (iDilIter p q : Z) :
    1 <= iDilIter -> reached (iDilIter - 1) p -> visits (Z.odd iDilIter) p q ->
    is_open st0 q = true -> reached iDilIter q.

(** No neighbour of [p] that iteration [it + 1] visits is open. *)
Definition closed_around (st : list Z) (it p : Z) : Prop :=
  forall q, visits (Z.odd (it + 1)) p q -> is_open st q = false.

(** The pixel got the seed bit since the start. *)
Definition fresh (st : list Z) (p : Z) : Prop :=
  is_open st0 p = true /\ is_open st p = false.

(** In iteration [it]: every pixel that got the seed bit is in the
    queue, reached in the iteration before; or was pushed in this
    iteration; or was reached in some iteration and has the neighbours
    of the next one closed. *)
Definition inv (it : Z) (st queue pushed : list Z) : Prop :=
  later st0 st /\ Forall (reached it) pushed /\
  forall p, fresh st p ->
    (p ∈ queue /\ reached (it - 1) p) \/ (p ∈ pushed /\ reached it p) \/
    exists j, reached j p /\ closed_around st j p.

Lemma closed_around_later (st st' : list Z) (it p : Z) :
  later st st' -> closed_around st it p -> closed_around st' it p.
Proof.
  intros Hl H q Hq. eapply later_closed; eauto.
Qed.

Lemma seed_if_open_inv (it : Z) (st : list Z) (q : Z) (st' : list Z) (hit : bool)
    (queue pushed : list Z) :
  inv it st queue pushed -> seed_if_open st q = Returns (st', hit) ->
  (is_open st0 q = true -> reached it q) ->
  inv it st' queue (push_if hit pushed q) /\ later st st' /\ is_open st' q = false.
Proof.
  intros (L0 & Fr & P) Hrun Hreach.
  destruct (seed_if_open_later _ _ _ _ Hrun) as (Hl & Hq & Hhit & Hno & Hne).
  split; [| auto]. split; [eapply later_trans; eauto | split].
  - destruct hit; simpl; [| exact Fr]. apply Forall_app. split; [exact Fr |].
    constructor; [| constructor]. apply Hreach. eapply later_open; eauto.
  - intros x [Hx0 Hx]. destruct (Z.eq_dec x q) as [-> | Hxq].
    + destruct hit.
      * right. left. split; [| auto]. simpl. apply elem_of_app. right.
        apply list_elem_of_here.
      * rewrite (Hno eq_refl) in *. apply P. split; assumption.
    + assert (Hsame : is_open st x = is_open st' x)
        by (unfold is_open; rewrite (Hne x Hxq); reflexivity).
      destruct (P x) as [Hin | [[Hin Hr] | (j & Hr & Hc)]];
        [split; [exact Hx0 | congruence] | auto | |].
      * right. left. split; [| exact Hr].
        destruct hit; simpl; [apply elem_of_app; auto | exact Hin].
      * right. right. exists j. split; [exact Hr |].
        eapply closed_around_later; eauto.
Qed.

Lemma first_iteration_inv (queue : list Z) :
  forall st pushed st' pushed',
  Forall (fun p => p ∈ edgePixels) queue ->
  inv 0 st [] pushed -> first_iteration queue st pushed = Returns (st', pushed') ->
  inv 0 st' [] pushed' /\ later st st' /\ Forall (fun p => is_open st' p = false) queue.
Proof.
  induction queue as [| p queue IH]; intros st pushed st' pushed' Hedge Hinv; simpl.
  - intros [= <- <-]. split; [exact Hinv | split; [apply later_refl | constructor]].
  - destruct (seed_if_open st p) as [[st1 hit] | |] eqn:Hseed; try discriminate.
    simpl. intros Hrest. inversion Hedge as [| ? ? Hp Hq]; subst.
    destruct (seed_if_open_inv _ _ _ _ _ _ _ Hinv Hseed) as (Hinv1 & Hl1 & Hp1).
    { intros Ho. apply reached_edge; assumption. }
    destruct (IH _ _ _ _ Hq Hinv1 Hrest) as (Hinv' & Hl' & Hall).
    split; [exact Hinv' | split; [eapply later_trans; eauto |]].
    constructor; [eapply later_closed; eauto | exact Hall].
Qed.

Lemma propagate_to_neighbors_inv (iDilIter p : Z) (queue : list Z) (offsets : list Z) :
  forall (k : nat) (st pushed st' pushed' : list Z),
  (forall j o, offsets !! j = Some o ->
     neighborOffsetsOut (Z.odd iDilIter) !! (k + j)%nat = Some o) ->
  1 <= iDilIter -> reached (iDilIter - 1) p -> inv iDilIter st queue pushed ->
  propagate_to_neighbors IsInImage (Z.odd iDilIter) offsets k (onBorder p) p st pushed
    = Returns (st', pushed') ->
  inv iDilIter st' queue pushed' /\ later st st' /\
  forall j o, offsets !! j = Some o ->
    negb (onBorder p) || IsInImage (Z.odd iDilIter) (k + j)%nat p = true ->
    is_open st' (p + o) = false.
Proof.
  induction offsets as [| o offsets IH];
    intros k st pushed st' pushed' Hoffs Hit Hp Hinv; simpl.
  - intros [= <- <-]. split; [exact Hinv | split; [apply later_refl |]].
    intros j o Hj. discriminate.
  - assert (Hk : neighborOffsetsOut (Z.odd iDilIter) !! k = Some o)
      by (rewrite <- (Nat.add_0_r k); apply Hoffs; reflexivity).
    assert (Hrest : forall j o', offsets !! j = Some o' ->
                      neighborOffsetsOut (Z.odd iDilIter) !! (S k + j)%nat = Some o').
    { intros j o' Hj. replace (S k + j)%nat with (k + S j)%nat by lia.
      apply Hoffs. exact Hj. }
    destruct (negb (onBorder p) || IsInImage (Z.odd iDilIter) k p) eqn:Hvisit.
    + destruct (seed_if_open st (p + o)) as [[st1 hit] | |] eqn:Hseed; try discriminate.
      simpl. intros Hrun.
      destruct (seed_if_open_inv _ _ _ _ _ _ _ Hinv Hseed) as (Hinv1 & Hl1 & Hq1).
      { intros Ho. apply (reached_neighbor iDilIter p); [exact Hit | exact Hp | | exact Ho].
        exists k, o. auto. }
      destruct (IH _ _ _ _ _ Hrest Hit Hp Hinv1 Hrun) as (Hinv' & Hl' & Hall).
      split; [exact Hinv' | split; [eapply later_trans; eauto |]].
      intros [| j] o' Hj Hv; simpl in Hj.
      * injection Hj as <-. eapply later_closed; eauto.
      * apply (Hall j o' Hj). replace (S k + j)%nat with (k + S j)%nat by lia. exact Hv.
    + simpl. intros Hrun.
      destruct (IH _ _ _ _ _ Hrest Hit Hp Hinv Hrun) as (Hinv' & Hl' & Hall).
      split; [exact Hinv' | split; [exact Hl' |]].
      intros [| j] o' Hj Hv; simpl in Hj.
      * rewrite Nat.add_0_r in Hv. congruence.
      * apply (Hall j o' Hj). replace (S k + j)%nat with (k + S j)%nat by lia. exact Hv.
Qed.

Variable n : nat.

Lemma dilation_round_inv (iDilIter : Z) (queue : list Z) :
  forall st pushed st' pushed',
  1 <= iDilIter -> status onBorder n st -> Forall (reached (iDilIter - 1)) queue ->
  inv iDilIter st queue pushed ->
  dilation_round neighborOffsetsOut IsInImage (Z.odd iDilIter) queue st pushed
    = Returns (st', pushed') ->
  inv iDilIter st' [] pushed' /\ later st st'.
Proof.
  induction queue as [| p queue IH]; intros st pushed st' pushed' Hit Hst Hq Hinv; simpl.
  - intros [= <- <-]. split; [exact Hinv | apply later_refl].
  - unfold load. destruct (get st p) as [b |] eqn:Hb; [| discriminate]. simpl.
    rewrite border_bits.
    assert (Hborder : border b = onBorder p).
    { destruct Hst as [_ Hborder]. pose proof (get_bounds _ _ _ Hb) as Hp.
      unfold get in Hb. destruct (0 <=? p); [| discriminate].
      rewrite (Hborder _ _ Hb), Z2Nat.id by lia. reflexivity. }
    rewrite Hborder.
    destruct (propagate_to_neighbors _ _ _ _ _ _ _ _) as [[st1 pushed1] | |] eqn:Hn;
      try discriminate.
    simpl. intros Hrest. inversion Hq as [| ? ? Hp Hq']; subst.
    destruct (propagate_to_neighbors_inv iDilIter p (p :: queue)
                (neighborOffsetsOut (Z.odd iDilIter)) 0 st pushed st1 pushed1)
      as ((L1 & F1 & P1) & Hl1 & Hall); auto.
    assert (Hclosed : closed_around st1 (iDilIter - 1) p).
    { intros q. replace (iDilIter - 1 + 1) with iDilIter by lia.
      intros (k & o & Hk & Hv & ->). apply (Hall k o Hk Hv). }
    destruct (IH st1 pushed1 st' pushed') as (Hinv' & Hl'); auto.
    + eapply status_later; eauto.
    + split; [exact L1 | split; [exact F1 |]]. intros x Hx.
      destruct (P1 x Hx) as [[Hin Hr] | [Hin | Hc]]; auto.
      apply elem_of_cons in Hin. destruct Hin as [-> | Hin]; [| auto].
      right. right. exists (iDilIter - 1). auto.
    + split; [exact Hinv' | eapply later_trans; eauto].
Qed.

Lemma dilation_loop_inv (iterations : Z) (fuel : nat) :
  forall iDilIter st queue st',
  1 <= iDilIter -> status onBorder n st -> Forall (reached (iDilIter - 1)) queue ->
  inv iDilIter st queue [] ->
  dilation_loop neighborOffsetsOut IsInImage fuel iDilIter iterations st queue
    = Some (Returns (st', [])) ->
  (exists it, inv it st' [] []) /\ later st st'.
Proof.
  assert (Hdone : forall it st queue st', inv it st queue [] ->
            Some (Returns (st, queue)) = Some (Returns (st', @nil Z)) ->
            (exists it', inv it' st' [] []) /\ later st st').
  { intros it st queue st' Hinv [= <- ->]. split; [eauto | apply later_refl]. }
  induction fuel as [| fuel IH]; intros iDilIter st queue st' Hit Hst Hq Hinv; simpl.
  - destruct (iDilIter <? iterations); [discriminate | eapply Hdone; exact Hinv].
  - destruct (iDilIter <? iterations); [| eapply Hdone; exact Hinv].
    destruct (dilation_round _ _ _ _ _ _) as [[st1 queue1] | |] eqn:Hround;
      try discriminate.
    destruct (dilation_round_inv _ _ _ _ _ _ Hit Hst Hq Hinv Hround)
      as ((L1 & F1 & P1) & Hl1).
    destruct queue1 as [| q queue1].
    + intros [= <-]. split; [| exact Hl1]. exists iDilIter.
      split; [exact L1 | split; [exact F1 | exact P1]].
    + intros Hrest.
      replace iDilIter with (iDilIter + 1 - 1) in F1, P1 by lia.
      destruct (IH (iDilIter + 1) st1 (q :: queue1) st') as (Hinv' & Hl'); auto;
        [lia | eapply status_later; eauto | |].
      * split; [exact L1 | split; [constructor |]]. intros x Hx.
        destruct (P1 x Hx) as [[Hin _] | [Hin | Hc]]; auto.
        apply elem_of_nil in Hin. contradiction.
      * split; [exact Hinv' | eapply later_trans; eauto].
Qed.

End Reach.

(** The seed bit of a prepared status byte is the sample of the seed
    image. *)
Lemma prepared_seed_bit (onBorder : Z -> bool) (seedS maskS : list Z) (i : nat) (b : Z) :
  binary_samples seedS ->
  add_mask_plane maskS (ApplyBinaryBorderMask onBorder seedS) !! i = Some b ->
  exists s, seedS !! i = Some s /\ seeded b = negb (s =? 0).
Proof.
  intros Hbin Hb. unfold add_mask_plane, ApplyBinaryBorderMask in Hb.
  apply lookup_zip_with_Some in Hb. destruct Hb as (m & x & -> & Hm & Hx).
  rewrite list_lookup_imap in Hx.
  destruct (seedS !! i) as [v |] eqn:Hv; [| discriminate].
  simpl in Hx. injection Hx as <-.
  assert (Hv01 : v = 0 \/ v = 1).
  { unfold binary_samples in Hbin. rewrite Forall_forall in Hbin.
    apply Hbin. apply list_elem_of_lookup. eauto. }
  exists v. split; [reflexivity |].
  destruct (onBorder (Z.of_nat i)), (m =? 0), Hv01 as [-> | ->]; reflexivity.
Qed.

Lemma prepare_seed_bit (onBorder : Z -> bool) (c_inSeed c_inMask : Image)
    (connectivity : Z) (s_edgeCondition : string) (out : list Z) (outside : bool) :
  prepare onBorder c_inSeed c_inMask connectivity s_edgeCondition
    = Returns (out, outside) ->
  valid_seed c_inSeed c_inMask ->
  forall i b, out !! i = Some b ->
    (IsForged c_inSeed = false -> seeded b = false) /\
    (forall s, IsForged c_inSeed = true -> samples c_inSeed !! i = Some s ->
       seeded b = negb (s =? 0)).
Proof.
  unfold prepare. intros Hrun Hseed i b Hb.
  destruct (DIP_THROW_IF (negb (IsForged c_inMask)) _); try discriminate.
  destruct (DIP_THROW_IF (negb (IsBinary (dataType c_inMask))) _); try discriminate.
  destruct (DIP_THROW_IF (negb (IsScalar c_inMask)) _); try discriminate.
  simpl in Hrun.
  destruct (if IsForged c_inSeed then _ else mret tt) as [[] | |]; try discriminate.
  simpl in Hrun.
  destruct (DIP_THROW_IF _ PARAMETER_OUT_OF_RANGE); try discriminate.
  simpl in Hrun.
  destruct (BooleanFromString _ _ _) as [o | |]; try discriminate.
  simpl in Hrun. injection Hrun as <- _.
  destruct Hseed as [Hraw | (Hf & _ & _ & _ & _ & Hbin)].
  - rewrite Hraw in Hb.
    assert (Hbin : binary_samples (replicate (length (samples c_inMask)) 0)).
    { unfold binary_samples. apply Forall_forall. intros v Hv.
      apply elem_of_replicate in Hv. tauto. }
    destruct (prepared_seed_bit _ _ _ _ _ Hbin Hb) as (s & Hs & ->).
    apply lookup_replicate in Hs. destruct Hs as [-> _].
    split; [reflexivity | congruence].
  - rewrite Hf in Hb. destruct (prepared_seed_bit _ _ _ _ _ Hbin Hb) as (s & Hs & ->).
    split; [congruence |]. intros s' _ Hs'. congruence.
Qed.

(** C2. For a forged scalar binary mask and a seed that is absent or a
    binary scalar image of the same sizes, [BinaryPropagation] with
    [iterations == 0] takes [uint_max] for the iteration count, and its
    loop ends because the queue of edge pixels is empty, not because the
    count is reached.  Every output sample is 1 if the pixel's status
    byte then carries the mask bit and the seed bit, and 0 otherwise; the
    mask bit is set for the pixels of the mask.

    The seed bit is, before the first iteration, the sample of the seed
    image (clear when there is none), and it is never cleared.  A pixel
    got the seed bit during the run only if the propagation reached it
    in some iteration: it was an edge pixel found at the start, or a
    neighbour visited from a pixel reached in the iteration before, with
    the neighbour list of its iteration.  At the end no pixel is left to
    change: every edge pixel found at the start, and every neighbour
    that the next iteration visits from a pixel reached in an
    iteration, has the seed bit if it is in the mask.

    (The image has fewer than [2^64 - 2] pixels, and the embedding is given
    more fuel than the image has pixels.) *)
Theorem propagation_runs_until_done
    (neighborOffsetsOut : bool -> list Z) (IsInImage : bool -> nat -> Z -> bool)
    (onBorder : Z -> bool) (FindBinaryEdgePixels : list Z -> bool -> list Z)
    (fuel : nat) (c_inSeed c_inMask : Image) (connectivity : Z)
    (s_edgeCondition : string) :
  (forall odd p k offset,
     0 <= p < Z.of_nat (length (samples c_inMask)) ->
     neighborOffsetsOut odd !! k = Some offset ->
     negb (onBorder p) || IsInImage odd k p = true ->
     0 <= p + offset < Z.of_nat (length (samples c_inMask))) ->
  (forall out outside, Forall (in_buffer out) (FindBinaryEdgePixels out outside)) ->
  valid_mask c_inMask -> valid_seed c_inSeed c_inMask ->
  connectivity <= Z.of_nat (length (sizes c_inMask)) ->
  s_edgeCondition = "object"%string \/ s_edgeCondition = "background"%string ->
  Z.of_nat (length (samples c_inMask)) + 1 < uint_max ->
  (length (samples c_inMask) < fuel)%nat ->
  exists st,
    propagate neighborOffsetsOut IsInImage onBorder FindBinaryEdgePixels fuel
      c_inSeed c_inMask connectivity 0 s_edgeCondition = Some (Returns (st, [])) /\
    BinaryPropagation neighborOffsetsOut IsInImage onBorder FindBinaryEdgePixels fuel
      c_inSeed c_inMask connectivity 0 s_edgeCondition
      = Some (Returns (map final_sample st)) /\
    length st = length (samples c_inMask) /\
    (forall i b, st !! i = Some b ->
      final_sample b = (if masked b && seeded b then 1 else 0) /\
      exists m, samples c_inMask !! i = Some m /\ masked b = negb (m =? 0)) /\
    exists out0 outside,
      prepare onBorder c_inSeed c_inMask connectivity s_edgeCondition
        = Returns (out0, outside) /\
      (forall i b0, out0 !! i = Some b0 ->
         (IsForged c_inSeed = false -> seeded b0 = false) /\
         (forall s, IsForged c_inSeed = true -> samples c_inSeed !! i = Some s ->
            seeded b0 = negb (s =? 0))) /\
      (forall p, p ∈ FindBinaryEdgePixels out0 outside ->
         exists b, get st p = Some b /\ (masked b = true -> seeded b = true)) /\
      (forall p b0, get out0 p = Some b0 ->
         exists b, get st p = Some b /\
           (seeded b0 = true -> seeded b = true) /\
           (seeded b0 = false -> seeded b = true ->
              exists it,
                reached neighborOffsetsOut IsInImage onBorder out0
                  (FindBinaryEdgePixels out0 outside) it p /\
                forall k offset,
                  neighborOffsetsOut (Z.odd (it + 1)) !! k = Some offset ->
                  negb (onBorder p) || IsInImage (Z.odd (it + 1)) k p = true ->
                  exists bn, get st (p + offset) = Some bn /\
                             (masked bn = true -> seeded bn = true))).
Proof.
  intros Hgeom Hedge Hmask Hseed Hconn Hcond Hsize Hfuel.
  destruct (prepare_returns onBorder c_inSeed c_inMask connectivity s_edgeCondition
              Hmask Hseed Hconn Hcond) as (out & outside & Hprep & Hst & Hmasked).
  destruct (first_iteration_spec (FindBinaryEdgePixels out outside) out [] (Hedge _ _))
    as (st1 & queue1 & Hfirst & Hstep1).
  pose proof (status_stepped _ _ _ _ _ _ Hst Hstep1) as Hst1.
  pose proof (count_open_le st1) as Hcount.
  destruct Hstep1 as (L1 & B1 & _ & F1).
  destruct (dilation_loop_converges neighborOffsetsOut IsInImage onBorder
              (length (samples c_inMask)) Hgeom uint_max fuel 1 st1 queue1 Hst1
              (F1 (List.Forall_nil _)))
    as (st & Hloop & [Lst _] & B);
    [destruct Hst1 as [L _]; lia | destruct Hst1 as [L _]; lia |].
  assert (Hrun : propagate neighborOffsetsOut IsInImage onBorder FindBinaryEdgePixels
                   fuel c_inSeed c_inMask connectivity 0 s_edgeCondition
                 = Some (Returns (st, []))).
  { unfold propagate. rewrite Hprep. simpl. rewrite Hfirst. exact Hloop. }
  (* what the two loops reach *)
  set (edge := FindBinaryEdgePixels out outside) in *.
  destruct (first_iteration_inv neighborOffsetsOut IsInImage onBorder out edge
              edge out [] st1 queue1) as ((K1 & R1 & P1) & _ & Hedge1).
  { apply Forall_forall. auto. }
  { split; [apply later_refl | split; [constructor |]].
    intros p [Ho Hc]. congruence. }
  { exact Hfirst. }
  destruct (dilation_loop_inv neighborOffsetsOut IsInImage onBorder out edge
              (length (samples c_inMask)) uint_max fuel 1 st1 queue1 st
              ltac:(lia) Hst1 R1)
    as ((it' & K & _ & P) & K').
  { split; [exact K1 | split; [constructor |]]. intros x Hx.
    destruct (P1 x Hx) as [[Hin _] | [[Hin Hr] | Hc]]; auto.
    apply elem_of_nil in Hin. contradiction. }
  { exact Hloop. }
  assert (Hclosed : forall q, 0 <= q < Z.of_nat (length (samples c_inMask)) ->
            is_open st q = false ->
            exists bn, get st q = Some bn /\ (masked bn = true -> seeded bn = true)).
  { intros q Hq Ho. rewrite <- Lst in Hq. destruct (get_in_bounds st q Hq) as [bn Hbn].
    exists bn. split; [exact Hbn |]. unfold is_open in Ho. rewrite Hbn, open_bits in Ho.
    intros Hm. rewrite Hm in Ho. destruct (seeded bn); [reflexivity | discriminate]. }
  exists st. split; [exact Hrun | split; [| split; [| split]]].
  - unfold BinaryPropagation. rewrite Hrun. reflexivity.
  - exact Lst.
  - intros i b Hb. split.
    + unfold final_sample. rewrite final_bits. reflexivity.
    + destruct (fixed_bits_masked st1 st i b B Hb) as (b1 & Hb1 & ->).
      destruct (fixed_bits_masked out st1 i b1 B1 Hb1) as (b0 & Hb0 & ->).
      apply (Hmasked i b0 Hb0).
  - exists out, outside. split; [exact Hprep | split; [| split]].
    + intros i b0 Hb0. eapply prepare_seed_bit; eauto.
    + intros p Hp. apply Hclosed.
      * pose proof (Hedge out outside) as Hin. rewrite Forall_forall in Hin.
        specialize (Hin p Hp). unfold in_buffer in Hin. destruct Hst as [L _]. lia.
      * rewrite Forall_forall in Hedge1. eapply later_closed; eauto.
    + intros p b0 Hb0.
      pose proof (get_bounds _ _ _ Hb0) as Hp.
      assert (Hp' : 0 <= p < Z.of_nat (length (samples c_inMask)))
        by (destruct Hst as [L _]; lia).
      destruct (get_in_bounds st p ltac:(lia)) as [b Hb]. exists b.
      split; [exact Hb | split].
      * intros Hs. pose proof (later_seeded out st p K) as Hk.
        unfold is_seeded in Hk. rewrite Hb0, Hb in Hk. auto.
      * intros Hs0 Hs.
        destruct (later_fresh out st p K) as [Ho Hc];
          [unfold is_seeded; rewrite Hb0; exact Hs0
          | unfold is_seeded; rewrite Hb; exact Hs |].
        destruct (P p (conj Ho Hc)) as [[Hin _] | [[Hin _] | (it & Hr & Hit)]];
          [apply elem_of_nil in Hin; contradiction
          | apply elem_of_nil in Hin; contradiction |].
        exists it. split; [exact Hr |]. intros k offset Hk Hv.
        apply Hclosed; [eapply Hgeom; eauto |].
        apply Hit. exists k, offset. auto.
Qed.

(** ** A one-dimensional instance

    For an image of [n] pixels in a row and connectivity 1 the neighbours
    are the pixels before and after, in all iterations. *)

Definition line_offsets (odd : bool) : list Z := [-1; 1].

Definition line_IsInImage (n : Z) (odd : bool) (k : nat) (p : Z) : bool :=
  match nth_error (line_offsets odd) k with
  | Some o => (0 <=? p + o) && (p + o <? n)
  | None => false
  end.

Definition line_onBorder (n : Z) (p : Z) : bool := (p =? 0) || (p =? n - 1).

(** The background pixels with an object pixel (or, if the outside counts
    as object, the outside of the image) next to them. *)
Definition line_FindBinaryEdgePixels (out : list Z) (outsideImageIsObject : bool)
  : list Z :=
  let n := Z.of_nat (length out) in
  let object p := match get out p with
                  | Some b => negb (Z.land b dataBitmask =? 0)
                  | None => outsideImageIsObject
                  end in
  filter (fun p => negb (object p) && (object (p - 1) || object (p + 1)))
         (map Z.of_nat (seq 0 (length out))).

Definition binary_line (data : list Z) : Image :=
  {| forged := true; sizes := [Z.of_nat (length data)]; tensorElements := 1;
     dataType := DT_BIN; samples := data |}.

Definition no_image : Image :=
  {| forged := false; sizes := []; tensorElements := 1; dataType := DT_BIN;
     samples := [] |}.

Definition line_BinaryPropagation (fuel : nat) (c_inSeed c_inMask : Image)
    (iterations : Z) (s_edgeCondition : string) : option (outcome (list Z)) :=
  let n := Z.of_nat (length (samples c_inMask)) in
  BinaryPropagation line_offsets (line_IsInImage n) (line_onBorder n)
    line_FindBinaryEdgePixels fuel c_inSeed c_inMask 1 iterations s_edgeCondition.

Example propagation_fills_the_seeded_part :
  line_BinaryPropagation 10 (binary_line [0; 1; 0; 0; 0; 0; 0; 0])
    (binary_line [1; 1; 1; 1; 0; 1; 1; 0]) 0 "background" =
  Some (Returns [1; 1; 1; 1; 0; 0; 0; 0]).
Proof. vm_compute. reflexivity. Qed.

Example propagation_two_iterations :
  line_BinaryPropagation 10 (binary_line [1; 0; 0; 0; 0; 0; 0; 0])
    (binary_line [1; 1; 1; 1; 0; 1; 1; 0]) 2 "background" =
  Some (Returns [1; 1; 1; 0; 0; 0; 0; 0]).
Proof. vm_compute. reflexivity. Qed.

Example propagation_from_the_edge :
  line_BinaryPropagation 10 no_image (binary_line [1; 1; 0; 1; 0; 0; 1; 1]) 0 "object" =
  Some (Returns [1; 1; 0; 0; 0; 0; 1; 1]).
Proof. vm_compute. reflexivity. Qed.

Example propagation_needs_fuel :
  line_BinaryPropagation 1 (binary_line [0; 1; 0; 0; 0; 0; 0; 0])
    (binary_line [1; 1; 1; 1; 0; 1; 1; 0]) 0 "background" = None.
Proof. vm_compute. reflexivity. Qed.

Example propagation_refuses_edge_condition :
  line_BinaryPropagation 10 no_image (binary_line [1; 1; 0]) 0 "foreground" =
  Some (Throws INVALID_FLAG).
Proof. vm_compute. reflexivity. Qed.

Lemma line_neighbors_in_image (n : Z) (odd : bool) (p : Z) (k : nat) (offset : Z) :
  0 <= p < n ->
  line_offsets odd !! k = Some offset ->
  negb (line_onBorder n p) || line_IsInImage n odd k p = true ->
  0 <= p + offset < n.
Proof.
  intros Hp Hk Hvisit. unfold line_IsInImage, line_onBorder in Hvisit.
  destruct k as [| [| k]]; simpl in Hk; try discriminate;
    injection Hk as <-; simpl in Hvisit;
    destruct (Z.eqb_spec p 0), (Z.eqb_spec p (n - 1)); simpl in Hvisit; try lia;
    apply andb_prop in Hvisit; destruct Hvisit as [H1 H2];
    apply Z.leb_le in H1; apply Z.ltb_lt in H2; lia.
Qed.

Lemma line_edge_pixels_in_image (out : list Z) (outside : bool) :
  Forall (in_buffer out) (line_FindBinaryEdgePixels out outside).
Proof.
  unfold line_FindBinaryEdgePixels. apply Forall_forall. intros p Hp.
  apply list_elem_of_filter in Hp. destruct Hp as [_ Hp].
  apply list_elem_of_fmap in Hp. destruct Hp as (i & -> & Hi).
  apply elem_of_seq in Hi. unfold in_buffer. lia.
Qed.

(** The theorem for a seed of one pixel in a mask of eight. *)
Lemma propagation_runs_until_done_witness :
  exists st,
    propagate line_offsets (line_IsInImage 8) (line_onBorder 8)
      line_FindBinaryEdgePixels 10 (binary_line [0; 1; 0; 0; 0; 0; 0; 0])
      (binary_line [1; 1; 1; 1; 0; 1; 1; 0]) 1 0 "background"
      = Some (Returns (st, [])) /\
    BinaryPropagation line_offsets (line_IsInImage 8) (line_onBorder 8)
      line_FindBinaryEdgePixels 10 (binary_line [0; 1; 0; 0; 0; 0; 0; 0])
      (binary_line [1; 1; 1; 1; 0; 1; 1; 0]) 1 0 "background"
      = Some (Returns (map final_sample st)) /\
    length st = 8%nat /\
    (forall i b, st !! i = Some b ->
      final_sample b = (if masked b && seeded b then 1 else 0) /\
      exists m, [1; 1; 1; 1; 0; 1; 1; 0] !! i = Some m /\ masked b = negb (m =? 0)) /\
    exists out0 outside,
      prepare (line_onBorder 8) (binary_line [0; 1; 0; 0; 0; 0; 0; 0])
        (binary_line [1; 1; 1; 1; 0; 1; 1; 0]) 1 "background"
        = Returns (out0, outside) /\
      (forall i b0, out0 !! i = Some b0 ->
         (true = false -> seeded b0 = false) /\
         (forall s, true = true -> [0; 1; 0; 0; 0; 0; 0; 0] !! i = Some s ->
            seeded b0 = negb (s =? 0))) /\
      (forall p, p ∈ line_FindBinaryEdgePixels out0 outside ->
         exists b, get st p = Some b /\ (masked b = true -> seeded b = true)) /\
      (forall p b0, get out0 p = Some b0 ->
         exists b, get st p = Some b /\
           (seeded b0 = true -> seeded b = true) /\
           (seeded b0 = false -> seeded b = true ->
              exists it,
                reached line_offsets (line_IsInImage 8) (line_onBorder 8) out0
                  (line_FindBinaryEdgePixels out0 outside) it p /\
                forall k offset,
                  line_offsets (Z.odd (it + 1)) !! k = Some offset ->
                  negb (line_onBorder 8 p)
                    || line_IsInImage 8 (Z.odd (it + 1)) k p = true ->
                  exists bn, get st (p + offset) = Some bn /\
                             (masked bn = true -> seeded bn = true))).
Proof.
  apply (propagation_runs_until_done line_offsets (line_IsInImage 8) (line_onBorder 8)
           line_FindBinaryEdgePixels 10 (binary_line [0; 1; 0; 0; 0; 0; 0; 0])
           (binary_line [1; 1; 1; 1; 0; 1; 1; 0]) 1 "background").
  - intros odd p k offset. apply line_neighbors_in_image.
  - apply line_edge_pixels_in_image.
  - repeat split.
  - right. repeat split. unfold binary_samples. simpl. repeat constructor; lia.
  - simpl. lia.
  - right. reflexivity.
  - simpl. unfold uint_max. lia.
  - simpl. lia.
Defined.

End BinaryPropagation.

(** * Saturated arithmetic on the other integer kinds
    (include/diplib/saturated_arithmetic.h)

    The specialisations for [uint8], [uint16] and [uint32]. *)

Module SaturatedUnsigned.
Local Open Scope Z_scope.

Inductive uint_kind : Set := UINT8 | UINT16 | UINT32.

Definition ubits (k : uint_kind) : Z :=
  match k with UINT8 => 8 | UINT16 => 16 | UINT32 => 32 end.

(** [std::numeric_limits<T>::max()] of an unsigned type of [w] bits. *)
Definition unsigned_max (w : Z) : Z := 2 ^ w - 1.

Definition in_range (w v : Z) : Prop := 0 <= v <= unsigned_max w.

(** Conversion of an integer value to an unsigned type of [w] bits. *)
Definition to_unsigned (w v : Z) : Z := v mod 2 ^ w.

(** [lhs op rhs] for two operands of an unsigned type of [w] bits.
    Operands narrower than [int] are promoted to [int] and the operation is
    done there; [uint32] operands stay unsigned, and the result is reduced
    modulo [2^32]. *)
Definition arith (w : Z) (op : Z -> Z -> Z) (lhs rhs : Z) : Z :=
  if w <? SaturatedArithmetic.int_bits
  then SaturatedArithmetic.static_cast SaturatedArithmetic.int_bits (op lhs rhs)
  else to_unsigned w (op lhs rhs).

(** [T res = lhs + rhs; return res < lhs ? max() : res;] *)
Definition saturated_add (k : uint_kind) (lhs rhs : Z) : Z :=
  let res := to_unsigned (ubits k) (arith (ubits k) Z.add lhs rhs) in
  if res <? lhs then unsigned_max (ubits k) else res.

(** [T res = lhs - rhs; return res > lhs ? T( 0 ) : res;] *)
Definition saturated_sub (k : uint_kind) (lhs rhs : Z) : Z :=
  let res := to_unsigned (ubits k) (arith (ubits k) Z.sub lhs rhs) in
  if lhs <? res then 0 else res.

(** The product in the type the specialisation names: [uint64_t] for
    [uint32], [uint32] for [uint16], and [uint16] for [uint8], whose
    operands are promoted to [int] again before they are multiplied. *)
Definition wide_product (k : uint_kind) (lhs rhs : Z) : Z :=
  match k with
  | UINT32 => to_unsigned 64 (to_unsigned 64 lhs * to_unsigned 64 rhs)
  | UINT16 => to_unsigned 32 (to_unsigned 32 lhs * to_unsigned 32 rhs)
  | UINT8 =>
      SaturatedArithmetic.static_cast SaturatedArithmetic.int_bits
        (to_unsigned 16 lhs * to_unsigned 16 rhs)
  end.

(** Modelled from the spec: [dip::clamp_upper<T>] of
    diplib/library/clamp_cast.h, whose text is not available.  The spec
    says the unsigned multiplication widens to double width and then clamps
    to the maximum of the type. *)
Definition clamp_upper (w v : Z) : Z := to_unsigned w (Z.min v (unsigned_max w)).

Definition saturated_mul (k : uint_kind) (lhs rhs : Z) : Z :=
  clamp_upper (ubits k) (wide_product k lhs rhs).

(** [return std::numeric_limits< T >::max() - v;] *)
Definition saturated_inv (k : uint_kind) (v : Z) : Z :=
  to_unsigned (ubits k) (arith (ubits k) Z.sub (unsigned_max (ubits k)) v).

(** The doctest of the header. *)
Example doctest_uint8_add : saturated_add UINT8 50 20 = 70 /\ saturated_add UINT8 250 20 = 255.
Proof. split; reflexivity. Qed.
Example doctest_uint16_sub : saturated_sub UINT16 20 10 = 10 /\ saturated_sub UINT16 10 20 = 0.
Proof. split; reflexivity. Qed.
Example doctest_uint8_sub : saturated_sub UINT8 10 20 = 0.
Proof. reflexivity. Qed.
Example doctest_uint32_sub :
  saturated_sub UINT32 10000 5000 = 5000 /\ saturated_sub UINT32 10000 10000 = 0 /\
  saturated_sub UINT32 10000 20000 = 0.
Proof. repeat split; reflexivity. Qed.
Example doctest_uint16_mul : saturated_mul UINT16 300 1000 = 65535.
Proof. reflexivity. Qed.
Example doctest_uint16_inv : saturated_inv UINT16 300 = 65235.
Proof. reflexivity. Qed.

(** ** Properties *)

(** X1. For two values of one unsigned kind, the wrapped sum is below
    the left operand exactly when the exact sum does not fit, and the
    wrapped difference is above it exactly when the exact difference is
    negative: [saturated_add] is the exact sum cut off at the maximum of
    the kind and [saturated_sub] the exact difference cut off at zero. *)
Theorem unsigned_add_sub_saturate (k : uint_kind) (lhs rhs : Z) :
  in_range (ubits k) lhs -> in_range (ubits k) rhs ->
  saturated_add k lhs rhs = Z.min (lhs + rhs) (unsigned_max (ubits k)) /\
  saturated_sub k lhs rhs = Z.max (lhs - rhs) 0 /\
  in_range (ubits k) (saturated_add k lhs rhs) /\
  in_range (ubits k) (saturated_sub k lhs rhs).
Proof.
  unfold in_range, saturated_add, saturated_sub, arith, to_unsigned, unsigned_max,
    SaturatedArithmetic.static_cast, SaturatedArithmetic.int_bits.
  intros Hl Hr.
  destruct k; cbn [ubits] in *;
    change (8 <? 32) with true; change (16 <? 32) with true;
    change (32 <? 32) with false; cbv iota zeta;
    change (2 ^ 8) with 256 in *; change (2 ^ 16) with 65536 in *;
    change (2 ^ 32) with 4294967296 in *; change (2 ^ (32 - 1)) with 2147483648 in *;
    repeat match goal with
           | |- context [if ?a <? ?b then _ else _] => destruct (Z.ltb_spec a b)
           end;
    Z.div_mod_to_equations; lia.
Qed.

(** The theorem at the doctest's [uint8] operands 250 and 20. *)
Lemma unsigned_add_sub_saturate_witness :
  saturated_add UINT8 250 20 = Z.min (250 + 20) (unsigned_max 8) /\
  saturated_sub UINT8 250 20 = Z.max (250 - 20) 0 /\
  in_range 8 (saturated_add UINT8 250 20) /\
  in_range 8 (saturated_sub UINT8 250 20).
Proof.
  apply (unsigned_add_sub_saturate UINT8); unfold in_range, unsigned_max; simpl; lia.
Defined.

(** X2. The product of two values of one unsigned kind fits the type the
    specialisation computes it in, and [saturated_mul] is the exact product
    cut off at the maximum of the kind. *)
Theorem unsigned_mul_saturates (k : uint_kind) (lhs rhs : Z) :
  in_range (ubits k) lhs -> in_range (ubits k) rhs ->
  wide_product k lhs rhs = lhs * rhs /\
  saturated_mul k lhs rhs = Z.min (lhs * rhs) (unsigned_max (ubits k)) /\
  in_range (ubits k) (saturated_mul k lhs rhs).
Proof.
  intros Hl Hr.
  assert (Hwide : wide_product k lhs rhs = lhs * rhs).
  { revert Hl Hr.
    unfold in_range, wide_product, to_unsigned, unsigned_max,
      SaturatedArithmetic.static_cast, SaturatedArithmetic.int_bits.
    intros Hl Hr.
    assert (Hprod : 0 <= lhs * rhs <= (2 ^ ubits k - 1) * (2 ^ ubits k - 1)) by nia.
    destruct k; cbn [ubits] in *;
      change (2 ^ 8) with 256 in *; change (2 ^ 16) with 65536 in *;
      change (2 ^ 32) with 4294967296 in *; change (2 ^ (32 - 1)) with 2147483648 in *;
      change (2 ^ 64) with 18446744073709551616 in *;
      rewrite !(Z.mod_small lhs), !(Z.mod_small rhs) by lia.
    - rewrite (Z.mod_small (lhs * rhs + 2147483648)) by lia. lia.
    - apply Z.mod_small. lia.
    - apply Z.mod_small. lia. }
  split; [exact Hwide |].
  unfold saturated_mul, clamp_upper, to_unsigned. rewrite Hwide.
  assert (Hpos : 0 < 2 ^ ubits k) by (destruct k; simpl; lia).
  assert (Hmin : 0 <= Z.min (lhs * rhs) (unsigned_max (ubits k)) <= unsigned_max (ubits k)).
  { unfold in_range, unsigned_max in *. split; [| lia].
    apply Z.min_glb; nia. }
  rewrite Z.mod_small by (unfold unsigned_max in *; lia).
  split; [reflexivity | exact Hmin].
Qed.

(** The theorem at the doctest's [uint16] operands 300 and 1000. *)
Lemma unsigned_mul_saturates_witness :
  wide_product UINT16 300 1000 = 300 * 1000 /\
  saturated_mul UINT16 300 1000 = Z.min (300 * 1000) (unsigned_max 16) /\
  in_range 16 (saturated_mul UINT16 300 1000).
Proof.
  apply (unsigned_mul_saturates UINT16); unfold in_range, unsigned_max; simpl; lia.
Defined.

(** X3. Inverting an unsigned value twice gives the value back, and two
    unsigned values are never inverted to the same value: [saturated_inv]
    mirrors the range of the kind. *)
Theorem unsigned_inv_mirrors (k : uint_kind) (v : Z) :
  in_range (ubits k) v ->
  saturated_inv k v = unsigned_max (ubits k) - v /\
  in_range (ubits k) (saturated_inv k v) /\
  saturated_inv k (saturated_inv k v) = v.
Proof.
  intros Hv.
  assert (Hinv : forall u, in_range (ubits k) u ->
                   saturated_inv k u = unsigned_max (ubits k) - u).
  { unfold in_range, saturated_inv, arith, to_unsigned, unsigned_max,
      SaturatedArithmetic.static_cast, SaturatedArithmetic.int_bits.
    intros u Hu.
    destruct k; cbn [ubits] in *;
      change (8 <? 32) with true; change (16 <? 32) with true;
      change (32 <? 32) with false; cbv iota;
      change (2 ^ 8) with 256 in *; change (2 ^ 16) with 65536 in *;
      change (2 ^ 32) with 4294967296 in *;
      change (2 ^ (32 - 1)) with 2147483648 in *;
      Z.div_mod_to_equations; lia. }
  assert (Hr : in_range (ubits k) (unsigned_max (ubits k) - v))
    by (unfold in_range in *; lia).
  rewrite (Hinv v Hv). split; [reflexivity | split; [exact Hr |]].
  rewrite (Hinv _ Hr). lia.
Qed.

(** The theorem at the doctest's [uint16] value 300. *)
Lemma unsigned_inv_mirrors_witness :
  saturated_inv UINT16 300 = unsigned_max 16 - 300 /\
  in_range 16 (saturated_inv UINT16 300) /\
  saturated_inv UINT16 (saturated_inv UINT16 300) = 300.
Proof.
  apply (unsigned_inv_mirrors UINT16); unfold in_range, unsigned_max; simpl; lia.
Defined.

End SaturatedUnsigned.

(** * Division and double inversion of signed values
    (include/diplib/saturated_arithmetic.h) *)

Module SaturatedSigned.
Import Outcome SaturatedArithmetic.
Local Open Scope Z_scope.

(** The base template [saturated_div] at a signed kind: [lhs / rhs].  The
    operands are promoted to [int]; the quotient rounds toward zero and is
    defined when the divisor is not zero and the quotient is a value of
    [int]; it is then converted to the kind on return. *)
Definition saturated_div (k : sint_kind) (lhs rhs : Z) : outcome Z :=
  if rhs =? 0 then Undefined
  else
    let q := Z.quot lhs rhs in
    let w := promoted (bits k) in
    if (numeric_limits_lowest w <=? q) && (q <=? numeric_limits_max w)
    then Returns (static_cast (bits k) q)
    else Undefined.

Example doctest_div : saturated_div SINT16 300 10 = Returns 30.
Proof. reflexivity. Qed.

(** The quotient of the lowest value and -1 is one more than the maximum:
    it wraps around for the two narrow kinds and is not defined for
    [sint32]. *)
Example lowest_by_minus_one :
  saturated_div SINT8 (-128) (-1) = Returns (-128) /\
  saturated_div SINT16 (-32768) (-1) = Returns (-32768) /\
  saturated_div SINT32 (- 2 ^ 31) (-1) = Undefined.
Proof. repeat split; reflexivity. Qed.

(** ** Properties *)

Lemma quot_small (lhs rhs : Z) : rhs <> 0 -> Z.abs (Z.quot lhs rhs) <= Z.abs lhs.
Proof.
  intros Hne. rewrite <- Z.quot_abs by exact Hne.
  apply Z.quot_le_upper_bound; [lia |].
  pose proof (Z.abs_nonneg lhs). nia.
Qed.

Lemma quot_half (lhs rhs : Z) : 2 <= Z.abs rhs -> 2 * Z.abs (Z.quot lhs rhs) <= Z.abs lhs.
Proof.
  intros H2. rewrite <- Z.quot_abs by lia.
  pose proof (Z.abs_nonneg lhs).
  pose proof (Z.mul_quot_le (Z.abs lhs) (Z.abs rhs) ltac:(lia) ltac:(lia)).
  assert (0 <= Z.quot (Z.abs lhs) (Z.abs rhs)) by (apply Z.quot_pos; lia).
  nia.
Qed.

Lemma quot_minus_one (lhs : Z) : Z.quot lhs (-1) = - lhs.
Proof.
  change (-1) with (- (1)). rewrite Z.quot_opp_r by lia. rewrite Z.quot_1_r. reflexivity.
Qed.

(** X4. The division of two values of one signed kind is the exact
    quotient, rounded toward zero, and a value of the kind, for every
    divisor other than zero, except for the lowest value divided by -1:
    that quotient is not clamped to the maximum but returned as the lowest
    value again for [sint8] and [sint16], and not defined for [sint32].
    A division by zero is not defined. *)
Theorem signed_div_exact_but_for_lowest (k : sint_kind) (lhs rhs : Z) :
  representable (bits k) lhs -> representable (bits k) rhs ->
  (rhs = 0 -> saturated_div k lhs rhs = Undefined) /\
  (rhs <> 0 -> ~ (lhs = numeric_limits_lowest (bits k) /\ rhs = -1) ->
     saturated_div k lhs rhs = Returns (Z.quot lhs rhs) /\
     representable (bits k) (Z.quot lhs rhs)) /\
  (lhs = numeric_limits_lowest (bits k) -> rhs = -1 ->
     saturated_div k lhs rhs =
       match k with SINT32 => Undefined | _ => Returns (numeric_limits_lowest (bits k)) end).
Proof.
  intros Hl Hr. split; [| split].
  - intros ->. reflexivity.
  - intros Hne Hedge. unfold saturated_div.
    destruct (Z.eqb_spec rhs 0) as [E | _]; [contradiction |].
    assert (Hq : representable (bits k) (Z.quot lhs rhs)).
    { pose proof (quot_small lhs rhs Hne) as Habs.
      revert Hl Hr Hedge Habs.
      unfold representable, numeric_limits_lowest, numeric_limits_max.
      intros Hl Hr Hedge Habs.
      destruct (Z.eq_dec rhs (-1)) as [-> | Hm1].
      - rewrite quot_minus_one. destruct k; simpl in *; lia.
      - destruct (Z.eq_dec rhs 1) as [-> | H1].
        + rewrite Z.quot_1_r. lia.
        + pose proof (quot_half lhs rhs ltac:(lia)) as Hhalf.
          destruct k; simpl in *; lia. }
    replace ((numeric_limits_lowest (promoted (bits k)) <=? Z.quot lhs rhs) &&
             (Z.quot lhs rhs <=? numeric_limits_max (promoted (bits k)))) with true.
    + rewrite static_cast_representable; [auto | destruct k; simpl; lia | exact Hq].
    + symmetry. apply andb_true_intro.
      assert (Hw : representable (promoted (bits k)) (Z.quot lhs rhs)).
      { eapply representable_mono; [| exact Hq].
        unfold promoted, int_bits. destruct k; simpl; lia. }
      destruct Hw. split; apply Z.leb_le; assumption.
  - intros -> ->. destruct k; reflexivity.
Qed.

(** The theorem at the doctest's [sint16] operands 300 and 10. *)
Lemma signed_div_exact_but_for_lowest_witness :
  saturated_div SINT16 300 10 = Returns (Z.quot 300 10) /\
  representable (bits SINT16) (Z.quot 300 10).
Proof.
  assert (H1 : representable (bits SINT16) 300)
    by (unfold representable, numeric_limits_lowest, numeric_limits_max; simpl; lia).
  assert (H2 : representable (bits SINT16) 10)
    by (unfold representable, numeric_limits_lowest, numeric_limits_max; simpl; lia).
  apply (proj1 (proj2 (signed_div_exact_but_for_lowest SINT16 300 10 H1 H2))).
  - lia.
  - intros [E _]. revert E. unfold numeric_limits_lowest. simpl. lia.
Defined.

(** X5. Inverting a signed value twice gives the value back, except for
    the lowest value of the kind: it is inverted to the maximum, and the
    maximum to one more than the lowest value. *)
Theorem signed_inv_twice (k : sint_kind) (v : Z) :
  representable (bits k) v ->
  representable (bits k) (saturated_inv k v) /\
  (v <> numeric_limits_lowest (bits k) -> saturated_inv k (saturated_inv k v) = v) /\
  (v = numeric_limits_lowest (bits k) ->
     saturated_inv k (saturated_inv k v) = numeric_limits_lowest (bits k) + 1).
Proof.
  intros Hv.
  assert (Hinv : forall u, representable (bits k) u -> u <> numeric_limits_lowest (bits k) ->
                   saturated_inv k u = - u /\ representable (bits k) (- u) /\
                   - u <> numeric_limits_lowest (bits k)).
  { intros u Hu Hne. unfold saturated_inv.
    destruct (Z.eqb_spec u (numeric_limits_lowest (bits k))) as [E | _]; [contradiction |].
    assert (Hneg : representable (bits k) (- u) /\ - u <> numeric_limits_lowest (bits k)).
    { revert Hu Hne. unfold representable, numeric_limits_lowest, numeric_limits_max.
      destruct k; simpl; lia. }
    destruct Hneg as [Hneg Hne'].
    rewrite (static_cast_representable (promoted (bits k))).
    - rewrite static_cast_representable; [auto | destruct k; simpl; lia | exact Hneg].
    - unfold promoted, int_bits. lia.
    - eapply representable_mono; [| exact Hneg].
      unfold promoted, int_bits. destruct k; simpl; lia. }
  assert (Hlow : saturated_inv k (numeric_limits_lowest (bits k)) =
                 numeric_limits_max (bits k))
    by (unfold saturated_inv; rewrite Z.eqb_refl; reflexivity).
  assert (Hmax : representable (bits k) (numeric_limits_max (bits k)) /\
                 numeric_limits_max (bits k) <> numeric_limits_lowest (bits k) /\
                 - numeric_limits_max (bits k) = numeric_limits_lowest (bits k) + 1).
  { unfold representable, numeric_limits_lowest, numeric_limits_max.
    destruct k; simpl; lia. }
  destruct Hmax as (Hmax1 & Hmax2 & Hmax3).
  destruct (Z.eq_dec v (numeric_limits_lowest (bits k))) as [-> | Hne].
  - rewrite Hlow. split; [exact Hmax1 | split; [intros []; reflexivity |]].
    intros _. destruct (Hinv _ Hmax1 Hmax2) as (-> & _ & _). exact Hmax3.
  - destruct (Hinv v Hv Hne) as (E & Hneg & Hne').
    rewrite E. split; [exact Hneg | split; [| intros; contradiction]].
    intros _. destruct (Hinv _ Hneg Hne') as (-> & _ & _). lia.
Qed.

(** The theorem at the doctest's [sint16] value 300. *)
Lemma signed_inv_twice_witness :
  saturated_inv SINT16 (saturated_inv SINT16 300) = 300.
Proof.
  assert (H : representable (bits SINT16) 300)
    by (unfold representable, numeric_limits_lowest, numeric_limits_max; simpl; lia).
  apply (proj1 (proj2 (signed_inv_twice SINT16 300 H))).
  unfold numeric_limits_lowest. simpl. lia.
Defined.

End SaturatedSigned.

(** * Chain codes (include/diplib/chain_code.h)

    [ChainCode::Code], the element of a chain code: a [uint8] holding the
    code in its bits 0 to 2 and the border flag in its bit 3. *)

Module Codes.
Local Open Scope Z_scope.

(** Conversion of an integer value to [dip::uint8]. *)
Definition uint8 (v : Z) : Z := v mod 2 ^ 8.

(** [Code( int code, bool border = false )]:
    [value = static_cast< dip::uint8 >( code & 7 ) |
             (( static_cast< dip::uint8 >( border )) << 3 )] *)
Definition Code (code : Z) (border : bool) : Z :=
  uint8 (Z.lor (uint8 (Z.land code 7)) (Z.shiftl (uint8 (Z.b2z border)) 3)).

(** [Code()] *)
Definition Code_default : Z := 0.

(** [IsBorder()]: [static_cast< bool >( value & 8 )] *)
Definition IsBorder (value : Z) : bool := negb (Z.land value 8 =? 0).

(** [operator int()]: [value & 7] *)
Definition to_int (value : Z) : Z := Z.land value 7.

(** [IsEven()]: [!( value & 1 )], and [IsOdd()]: [!IsEven()] *)
Definition IsEven (value : Z) : bool := Z.land value 1 =? 0.
Definition IsOdd (value : Z) : bool := negb (IsEven value).

(** [operator==]: [( value & 7 ) == ( c2.value & 7 )], and [operator!=] *)
Definition equal (value c2 : Z) : bool := Z.land value 7 =? Z.land c2 7.
Definition not_equal (value c2 : Z) : bool := negb (equal value c2).

Example code_5_on_border :
  Code 5 true = 13 /\ to_int 13 = 5 /\ IsBorder 13 = true /\ IsOdd 13 = true.
Proof. repeat split; reflexivity. Qed.

(** ** Properties *)

Lemma land_7 (code : Z) : Z.land code 7 = code mod 8.
Proof. change 7 with (Z.ones 3). rewrite Z.land_ones by lia. reflexivity. Qed.

Lemma even_mod_8 (code : Z) : Z.even (code mod 8) = Z.even code.
Proof.
  rewrite (Z.div_mod code 8) at 2 by lia.
  rewrite Z.even_add, Z.even_mul. simpl. destruct (Z.even (code mod 8)); reflexivity.
Qed.

Lemma octal_cases (r : Z) :
  0 <= r < 8 -> r = 0 \/ r = 1 \/ r = 2 \/ r = 3 \/ r = 4 \/ r = 5 \/ r = 6 \/ r = 7.
Proof. lia. Qed.

(** The value built from a code whose three low bits are [r]. *)
Lemma Code_value (code : Z) (border : bool) :
  Code code border = code mod 8 + (if border then 8 else 0).
Proof.
  unfold Code. rewrite land_7.
  pose proof (Z.mod_pos_bound code 8 eq_refl) as Hr.
  destruct (octal_cases _ Hr) as [-> | [-> | [-> | [-> | [-> | [-> | [-> | ->]]]]]]];
    destruct border; reflexivity.
Qed.

(** X6. A code element built from any [int] and a border flag gives back
    the three low bits of the integer (the integer itself for the chain
    codes 0 to 7) and the flag; it is even exactly when the integer is; it
    fits four bits; and two elements compare equal exactly when their codes
    agree, whatever their border flags. *)
Theorem code_keeps_code_and_flag (code : Z) (border : bool) :
  to_int (Code code border) = code mod 8 /\
  (0 <= code < 8 -> to_int (Code code border) = code) /\
  IsBorder (Code code border) = border /\
  IsEven (Code code border) = Z.even code /\
  IsOdd (Code code border) = Z.odd code /\
  0 <= Code code border < 16 /\
  forall code' border',
    equal (Code code border) (Code code' border') = (code mod 8 =? code' mod 8).
Proof.
  assert (Hint : forall c b, to_int (Code c b) = c mod 8).
  { intros c b. rewrite Code_value. unfold to_int.
    pose proof (Z.mod_pos_bound c 8 eq_refl) as Hr.
    destruct (octal_cases _ Hr) as [-> | [-> | [-> | [-> | [-> | [-> | [-> | ->]]]]]]];
      destruct b; reflexivity. }
  assert (Heven : IsEven (Code code border) = Z.even code).
  { rewrite <- even_mod_8, Code_value. unfold IsEven.
    pose proof (Z.mod_pos_bound code 8 eq_refl) as Hr.
    destruct (octal_cases _ Hr) as [-> | [-> | [-> | [-> | [-> | [-> | [-> | ->]]]]]]];
      destruct border; reflexivity. }
  split; [apply Hint | split; [| split; [| split; [| split; [| split]]]]].
  - intros Hc. rewrite Hint. apply Z.mod_small. exact Hc.
  - rewrite Code_value. unfold IsBorder.
    pose proof (Z.mod_pos_bound code 8 eq_refl) as Hr.
    destruct (octal_cases _ Hr) as [-> | [-> | [-> | [-> | [-> | [-> | [-> | ->]]]]]]];
      destruct border; reflexivity.
  - exact Heven.
  - unfold IsOdd. rewrite Heven. apply Z.negb_even.
  - rewrite Code_value. pose proof (Z.mod_pos_bound code 8 eq_refl).
    destruct border; lia.
  - intros code' border'. unfold equal.
    change (Z.land (Code code border) 7) with (to_int (Code code border)).
    change (Z.land (Code code' border') 7) with (to_int (Code code' border')).
    rewrite !Hint. reflexivity.
Qed.

End Codes.

(** * The origin shifts of the Fourier transform (src/transform/fourier.cpp)

    [DFTLineFilter::fftshift] and [DFTLineFilter::ifftshift], which move
    the origin of a line between its first sample and its middle, in
    place.  The line is the first [length] samples of a buffer. *)

Module FourierShift.
Import Outcome Buffer.
Local Open Scope Z_scope.

(** Case analysis on the integer comparisons of a goal. *)
Ltac by_comparisons :=
  repeat (match goal with
          | |- context [?a <=? ?b] => destruct (Z.leb_spec a b)
          | |- context [?a <? ?b] => destruct (Z.ltb_spec a b)
          | |- context [?a =? ?b] => destruct (Z.eqb_spec a b)
          | H : context [?a <=? ?b] |- _ => destruct (Z.leb_spec a b)
          | H : context [?a <? ?b] |- _ => destruct (Z.ltb_spec a b)
          | H : context [?a =? ?b] |- _ => destruct (Z.eqb_spec a b)
          end; cbn [andb orb negb] in *);
  try lia.

Section Shift.

Variable TPI : Type.

(** The loop of [fftshift] for an odd length:
    [data[ ii ] = data[ jj + ii + 1 ]; data[ jj + ii + 1 ] = data[ ii + 1 ];] *)
Fixpoint fftshift_odd (count : nat) (jj ii : Z) (data : list TPI) : outcome (list TPI) :=
  match count with
  | O => Returns data
  | S count =>
      v ← load data (jj + ii + 1);
      data ← store data ii v;
      v ← load data (ii + 1);
      data ← store data (jj + ii + 1) v;
      fftshift_odd count jj (ii + 1) data
  end.

(** [std::swap( data[ ii ], data[ ii + jj ] )] *)
Definition swap (data : list TPI) (p q : Z) : outcome (list TPI) :=
  a ← load data p;
  b ← load data q;
  data ← store data p b;
  store data q a.

(** The loop for an even length, the same in both functions. *)
Fixpoint swap_halves (count : nat) (jj ii : Z) (data : list TPI) : outcome (list TPI) :=
  match count with
  | O => Returns data
  | S count =>
      data ← swap data ii (ii + jj);
      swap_halves count jj (ii + 1) data
  end.

Definition fftshift (data : list TPI) (length : Z) : outcome (list TPI) :=
  let jj := length / 2 in
  if negb (Z.land length 1 =? 0) then
    tmp ← load data 0;
    data ← fftshift_odd (Z.to_nat jj) jj 0 data;
    store data jj tmp
  else
    swap_halves (Z.to_nat jj) jj 0 data.

(** The loop of [ifftshift] for an odd length, which counts down:
    [--ii; data[ jj + ii + 1 ] = data[ ii ]; data[ ii ] = data[ jj + ii ];] *)
Fixpoint ifftshift_odd (count : nat) (jj ii : Z) (data : list TPI) : outcome (list TPI) :=
  match count with
  | O => Returns data
  | S count =>
      let ii := ii - 1 in
      v ← load data ii;
      data ← store data (jj + ii + 1) v;
      v ← load data (jj + ii);
      data ← store data ii v;
      ifftshift_odd count jj ii data
  end.

Definition ifftshift (data : list TPI) (length : Z) : outcome (list TPI) :=
  let jj := length / 2 in
  if negb (Z.land length 1 =? 0) then
    tmp ← load data (length - 1);
    data ← ifftshift_odd (Z.to_nat jj) jj jj data;
    store data jj tmp
  else
    swap_halves (Z.to_nat jj) jj 0 data.

(** ** Where each sample comes from *)

(** [moved src data data']: the sample at every offset [p] of [data'] is
    the sample that [data] has at [src p]. *)
Definition moved (src : Z -> Z) (data data' : list TPI) : Prop :=
  length data' = length data /\ forall p, get data' p = get data (src p).

Lemma store_get (data data' : list TPI) (p : Z) (v : TPI) :
  store data p v = Returns data' ->
  forall q, get data' q = if q =? p then Some v else get data q.
Proof.
  intros Hst q. destruct (Z.eqb_spec q p) as [-> | Hne].
  - eapply get_store_eq; eauto.
  - eapply get_store_ne; eauto.
Qed.

(** [data[ p ] = data[ q ]] inside the buffer. *)
Lemma copy_sample (data : list TPI) (p q : Z) :
  0 <= p < Z.of_nat (length data) -> 0 <= q < Z.of_nat (length data) ->
  exists data',
    (v ← load data q; store data p v) = Returns data' /\
    length data' = length data /\
    forall r, get data' r = get data (if r =? p then q else r).
Proof.
  intros Hp Hq. unfold load.
  destruct (get_in_bounds data q Hq) as [v Hv]. rewrite Hv. simpl.
  destruct (store_in_bounds data p v Hp) as [data' Hst]. exists data'.
  split; [exact Hst | split; [eapply store_length; eauto |]].
  intros r. rewrite (store_get _ _ _ _ Hst). destruct (r =? p); congruence.
Qed.

Lemma fftshift_odd_spec (jj : Z) (count : nat) :
  forall (ii : Z) (data : list TPI),
  0 <= ii -> ii + Z.of_nat count = jj -> 2 * jj + 1 <= Z.of_nat (length data) ->
  exists data',
    fftshift_odd count jj ii data = Returns data' /\
    moved (fun p => if (ii <=? p) && (p <? jj) then p + jj + 1
                    else if (jj + 1 + ii <=? p) && (p <? 2 * jj + 1) then p - jj
                    else p) data data'.
Proof.
  induction count as [| count IH]; intros ii data Hii Hcount Hlen.
  - exists data. split; [reflexivity | split; [reflexivity |]].
    intros p. f_equal. by_comparisons.
  - cbn [fftshift_odd].
    destruct (copy_sample data ii (jj + ii + 1)) as (d1 & H1 & L1 & G1); [lia | lia |].
    destruct (copy_sample d1 (jj + ii + 1) (ii + 1)) as (d2 & H2 & L2 & G2);
      [lia | lia |].
    destruct (IH (ii + 1) d2) as (data' & Hrun & L & G); [lia | lia | lia |].
    exists data'. split.
    + revert H1 H2. unfold load.
      destruct (get data (jj + ii + 1)) as [v |]; [| discriminate]. simpl.
      intros ->. simpl. destruct (get d1 (ii + 1)) as [w |]; [| discriminate]. simpl.
      intros ->. simpl. exact Hrun.
    + split; [congruence |]. intros p. rewrite G, G2, G1. f_equal.
      clear IH H1 H2 Hrun G G1 G2. by_comparisons.
Qed.

Lemma swap_spec (data : list TPI) (p q : Z) :
  0 <= p < Z.of_nat (length data) -> 0 <= q < Z.of_nat (length data) ->
  exists data',
    swap data p q = Returns data' /\
    length data' = length data /\
    forall r, get data' r = get data (if r =? p then q else if r =? q then p else r).
Proof.
  intros Hp Hq. unfold swap, load.
  destruct (get_in_bounds data p Hp) as [a Ha].
  destruct (get_in_bounds data q Hq) as [b Hb].
  rewrite Ha, Hb. simpl.
  destruct (store_in_bounds data p b Hp) as [d1 H1]. rewrite H1. simpl.
  pose proof (store_length _ _ _ _ H1) as L1.
  destruct (store_in_bounds d1 q a ltac:(lia)) as [d2 H2]. exists d2.
  split; [exact H2 | split; [rewrite <- L1; eapply store_length; eauto |]].
  intros r. rewrite (store_get _ _ _ _ H2), (store_get _ _ _ _ H1).
  destruct (Z.eqb_spec r q) as [Eq | Nq]; destruct (Z.eqb_spec r p) as [Ep | Np];
    subst; congruence.
Qed.

Lemma swap_halves_spec (jj : Z) (count : nat) :
  forall (ii : Z) (data : list TPI),
  0 <= ii -> ii + Z.of_nat count = jj -> 2 * jj <= Z.of_nat (length data) ->
  exists data',
    swap_halves count jj ii data = Returns data' /\
    moved (fun p => if (ii <=? p) && (p <? jj) then p + jj
                    else if (jj + ii <=? p) && (p <? 2 * jj) then p - jj
                    else p) data data'.
Proof.
  induction count as [| count IH]; intros ii data Hii Hcount Hlen.
  - exists data. split; [reflexivity | split; [reflexivity |]].
    intros p. f_equal. by_comparisons.
  - cbn [swap_halves].
    destruct (swap_spec data ii (ii + jj)) as (d1 & -> & L1 & G1); [lia | lia |].
    cbn [mbind outcome_bind bind].
    destruct (IH (ii + 1) d1) as (data' & -> & L & G); [lia | lia | lia |].
    exists data'. split; [reflexivity | split; [congruence |]].
    intros p. rewrite G, G1. f_equal. clear IH G G1. by_comparisons.
Qed.

Lemma ifftshift_odd_spec (jj : Z) (count : nat) :
  forall (ii : Z) (data : list TPI),
  Z.of_nat count = ii -> ii <= jj -> 2 * jj + 1 <= Z.of_nat (length data) ->
  exists data',
    ifftshift_odd count jj ii data = Returns data' /\
    moved (fun p => if (0 <=? p) && (p <? ii) then p + jj
                    else if (jj + 1 <=? p) && (p <? jj + 1 + ii) then p - jj - 1
                    else p) data data'.
Proof.
  induction count as [| count IH]; intros ii data Hcount Hii Hlen.
  - exists data. split; [reflexivity | split; [reflexivity |]].
    intros p. f_equal. by_comparisons.
  - cbn [ifftshift_odd]. cbv zeta.
    destruct (copy_sample data (jj + (ii - 1) + 1) (ii - 1)) as (d1 & H1 & L1 & G1);
      [lia | lia |].
    destruct (copy_sample d1 (ii - 1) (jj + (ii - 1))) as (d2 & H2 & L2 & G2);
      [lia | lia |].
    destruct (IH (ii - 1) d2) as (data' & Hrun & L & G); [lia | lia | lia |].
    exists data'. split.
    + revert H1 H2. unfold load.
      destruct (get data (ii - 1)) as [v |]; [| discriminate]. simpl.
      intros ->. simpl. destruct (get d1 (jj + (ii - 1))) as [w |]; [| discriminate].
      simpl. intros ->. simpl. exact Hrun.
    + split; [congruence |]. intros p. rewrite G, G2, G1. f_equal.
      clear IH H1 H2 Hrun G G1 G2. by_comparisons.
Qed.

(** The remainder of a sum of two offsets of a line of [n] samples. *)
Lemma wrapped (a n : Z) : 0 <= a < 2 * n -> a mod n = if a <? n then a else a - n.
Proof.
  intros Ha. destruct (Z.ltb_spec a n).
  - apply Z.mod_small. lia.
  - replace a with (a - n + 1 * n) at 1 by lia.
    rewrite Z.mod_add by lia. apply Z.mod_small. lia.
Qed.

Lemma halves (n : Z) :
  0 <= n ->
  (Z.land n 1 =? 0) = true /\ n = 2 * (n / 2) /\ (n + 1) / 2 = n / 2 \/
  (Z.land n 1 =? 0) = false /\ n = 2 * (n / 2) + 1 /\ (n + 1) / 2 = n / 2 + 1.
Proof.
  intros Hn. change 1 with (Z.ones 1) at 1 3. rewrite Z.land_ones by lia.
  change (2 ^ 1) with 2.
  pose proof (Z.div_mod n 2 ltac:(lia)) as Hdm.
  pose proof (Z.mod_pos_bound n 2 ltac:(lia)) as Hm.
  assert (Hcases : n mod 2 = 0 \/ n mod 2 = 1) by lia.
  destruct Hcases as [E | E]; rewrite E in *; [left | right];
    (split; [reflexivity | split; [lia |]]).
  - symmetry. apply (Z.div_unique (n + 1) 2 (n / 2) 1); lia.
  - symmetry. apply (Z.div_unique (n + 1) 2 (n / 2 + 1) 0); lia.
Qed.

(** The source of offset [p] after a shift by [k] of a line of [n]
    samples: the line is rotated, the rest of the buffer stays. *)
Definition shifted (k n : Z) (p : Z) : Z :=
  if (0 <=? p) && (p <? n) then (p + k) mod n else p.

Lemma fftshift_spec (data : list TPI) (n : Z) :
  0 <= n <= Z.of_nat (length data) ->
  exists data', fftshift data n = Returns data' /\ moved (shifted ((n + 1) / 2) n) data data'.
Proof.
  intros Hn. unfold fftshift. cbv zeta.
  assert (Hjj : 0 <= n / 2) by (apply Z.div_pos; lia).
  destruct (halves n ltac:(lia)) as [(-> & Heven & Hk) | (-> & Hodd & Hk)]; simpl negb; cbv iota.
  - destruct (swap_halves_spec (n / 2) (Z.to_nat (n / 2)) 0 data) as (data' & -> & L & G);
      [lia | lia | lia |].
    exists data'. split; [reflexivity | split; [exact L |]].
    intros p. rewrite G. f_equal. unfold shifted. rewrite Hk.
    destruct ((0 <=? p) && (p <? n)) eqn:Hp.
    + apply andb_prop in Hp. destruct Hp as [H0 H1].
      apply Z.leb_le in H0. apply Z.ltb_lt in H1.
      rewrite wrapped by lia. by_comparisons.
    + apply andb_false_iff in Hp. rewrite Z.leb_gt, Z.ltb_ge in Hp. by_comparisons.
  - unfold load at 1.
    destruct (get_in_bounds data 0 ltac:(lia)) as [tmp Htmp]. rewrite Htmp.
    cbn [defined mbind outcome_bind bind].
    destruct (fftshift_odd_spec (n / 2) (Z.to_nat (n / 2)) 0 data) as (d1 & -> & L & G);
      [lia | lia | lia |].
    cbn [mbind outcome_bind bind].
    destruct (store_in_bounds d1 (n / 2) tmp ltac:(lia)) as [data' Hst]. exists data'.
    split; [exact Hst | split; [rewrite <- L; eapply store_length; eauto |]].
    intros p. rewrite (store_get _ _ _ _ Hst). unfold shifted. rewrite Hk.
    destruct ((0 <=? p) && (p <? n)) eqn:Hp.
    + apply andb_prop in Hp. destruct Hp as [H0 H1].
      apply Z.leb_le in H0. apply Z.ltb_lt in H1.
      rewrite wrapped by lia.
      destruct (Z.eqb_spec p (n / 2)) as [-> | Hne].
      * rewrite <- Htmp. f_equal. by_comparisons.
      * rewrite G. f_equal. by_comparisons.
    + apply andb_false_iff in Hp. rewrite Z.leb_gt, Z.ltb_ge in Hp.
      destruct (Z.eqb_spec p (n / 2)) as [-> | Hne]; [lia |].
      rewrite G. f_equal. by_comparisons.
Qed.

Lemma ifftshift_spec (data : list TPI) (n : Z) :
  0 <= n <= Z.of_nat (length data) ->
  exists data', ifftshift data n = Returns data' /\ moved (shifted (n / 2) n) data data'.
Proof.
  intros Hn. unfold ifftshift. cbv zeta.
  assert (Hjj : 0 <= n / 2) by (apply Z.div_pos; lia).
  destruct (halves n ltac:(lia)) as [(-> & Heven & Hk) | (-> & Hodd & Hk)]; simpl negb; cbv iota.
  - destruct (swap_halves_spec (n / 2) (Z.to_nat (n / 2)) 0 data) as (data' & -> & L & G);
      [lia | lia | lia |].
    exists data'. split; [reflexivity | split; [exact L |]].
    intros p. rewrite G. f_equal. unfold shifted.
    destruct ((0 <=? p) && (p <? n)) eqn:Hp.
    + apply andb_prop in Hp. destruct Hp as [H0 H1].
      apply Z.leb_le in H0. apply Z.ltb_lt in H1.
      rewrite wrapped by lia. by_comparisons.
    + apply andb_false_iff in Hp. rewrite Z.leb_gt, Z.ltb_ge in Hp. by_comparisons.
  - unfold load at 1.
    destruct (get_in_bounds data (n - 1) ltac:(lia)) as [tmp Htmp]. rewrite Htmp.
    cbn [defined mbind outcome_bind bind].
    destruct (ifftshift_odd_spec (n / 2) (Z.to_nat (n / 2)) (n / 2) data)
      as (d1 & -> & L & G); [lia | lia | lia |].
    cbn [mbind outcome_bind bind].
    destruct (store_in_bounds d1 (n / 2) tmp ltac:(lia)) as [data' Hst]. exists data'.
    split; [exact Hst | split; [rewrite <- L; eapply store_length; eauto |]].
    intros p. rewrite (store_get _ _ _ _ Hst). unfold shifted.
    destruct ((0 <=? p) && (p <? n)) eqn:Hp.
    + apply andb_prop in Hp. destruct Hp as [H0 H1].
      apply Z.leb_le in H0. apply Z.ltb_lt in H1.
      rewrite wrapped by lia.
      destruct (Z.eqb_spec p (n / 2)) as [-> | Hne].
      * rewrite <- Htmp. f_equal. by_comparisons.
      * rewrite G. f_equal. by_comparisons.
    + apply andb_false_iff in Hp. rewrite Z.leb_gt, Z.ltb_ge in Hp.
      destruct (Z.eqb_spec p (n / 2)) as [-> | Hne]; [lia |].
      rewrite G. f_equal. by_comparisons.
Qed.

End Shift.

Arguments fftshift {TPI} data length.
Arguments ifftshift {TPI} data length.

Example fftshift_odd_line : fftshift [0; 1; 2; 3; 4] 5 = Returns [3; 4; 0; 1; 2].
Proof. reflexivity. Qed.

Example ifftshift_odd_line : ifftshift [0; 1; 2; 3; 4] 5 = Returns [2; 3; 4; 0; 1].
Proof. reflexivity. Qed.

Example fftshift_even_line : fftshift [0; 1; 2; 3] 4 = Returns [2; 3; 0; 1].
Proof. reflexivity. Qed.

(** A line longer than the buffer is not shifted. *)
Example fftshift_past_the_buffer : fftshift [0; 1; 2] 5 = Undefined.
Proof. reflexivity. Qed.

Lemma moved_rotate {TPI : Type} (k : nat) (data data' : list TPI) :
  moved TPI (shifted (Z.of_nat k) (Z.of_nat (length data))) data data' ->
  data' = rotate k data.
Proof.
  intros [L G]. apply list_eq. intros i.
  destruct (Nat.lt_ge_cases i (length data)) as [Hi | Hi].
  - rewrite lookup_rotate_r by exact Hi.
    specialize (G (Z.of_nat i)). unfold get, shifted in G.
    replace (0 <=? Z.of_nat i) with true in G by (symmetry; apply Z.leb_le; lia).
    replace (Z.of_nat i <? Z.of_nat (length data)) with true in G
      by (symmetry; apply Z.ltb_lt; lia).
    simpl in G. rewrite Nat2Z.id in G. rewrite G.
    pose proof (Z.mod_pos_bound (Z.of_nat i + Z.of_nat k) (Z.of_nat (length data))
                  ltac:(lia)) as Hm.
    replace (0 <=? (Z.of_nat i + Z.of_nat k) mod Z.of_nat (length data)) with true
      by (symmetry; apply Z.leb_le; lia).
    unfold rotate_nat_add. rewrite (Z.add_comm (Z.of_nat k)). reflexivity.
  - rewrite (proj2 (lookup_ge_None data' i)) by lia.
    symmetry. apply lookup_ge_None. rewrite length_rotate. exact Hi.
Qed.

(** X7. On a whole line [fftshift] is the rotation that brings the first
    sample to the middle (offset [n / 2] of [n] samples) and [ifftshift]
    the rotation that brings the middle sample to the front, for odd and
    even lengths alike. *)
Theorem shifts_rotate_the_line {TPI : Type} (data : list TPI) :
  fftshift data (Z.of_nat (length data)) =
    Returns (rotate ((length data + 1) / 2) data) /\
  ifftshift data (Z.of_nat (length data)) = Returns (rotate (length data / 2) data).
Proof.
  split.
  - destruct (fftshift_spec TPI data (Z.of_nat (length data)) ltac:(lia))
      as (data' & -> & Hmoved).
    f_equal. apply moved_rotate.
    rewrite Nat2Z.inj_div, Nat2Z.inj_add. exact Hmoved.
  - destruct (ifftshift_spec TPI data (Z.of_nat (length data)) ltac:(lia))
      as (data' & -> & Hmoved).
    f_equal. apply moved_rotate. rewrite Nat2Z.inj_div. exact Hmoved.
Qed.

Lemma shifted_back (k k' n p : Z) :
  0 <= k < n \/ k = n -> 0 <= k' -> k + k' = n -> shifted k n (shifted k' n p) = p.
Proof.
  intros Hk Hk' Hsum. unfold shifted.
  destruct ((0 <=? p) && (p <? n)) eqn:Hp.
  - apply andb_prop in Hp. destruct Hp as [H0 H1].
    apply Z.leb_le in H0. apply Z.ltb_lt in H1.
    pose proof (Z.mod_pos_bound (p + k') n ltac:(lia)) as Hm.
    replace ((0 <=? (p + k') mod n) && ((p + k') mod n <? n)) with true
      by (symmetry; apply andb_true_intro; split; [apply Z.leb_le | apply Z.ltb_lt]; lia).
    rewrite Zplus_mod_idemp_l.
    replace (p + k' + k) with (p + 1 * n) by lia.
    rewrite Z.mod_add by lia. apply Z.mod_small. lia.
  - rewrite Hp. reflexivity.
Qed.

(** X8. [ifftshift] undoes [fftshift] and [fftshift] undoes
    [ifftshift], in place, for a line of any length inside the buffer;
    the samples of the buffer after the line are not touched. *)
Theorem shift_round_trip {TPI : Type} (data : list TPI) (length : Z) :
  0 <= length <= Z.of_nat (List.length data) ->
  (fftshift data length ≫= fun d => ifftshift d length) = Returns data /\
  (ifftshift data length ≫= fun d => fftshift d length) = Returns data.
Proof.
  intros Hn.
  assert (Hjj : 0 <= length / 2) by (apply Z.div_pos; lia).
  assert (Hhalves : length = 2 * (length / 2) /\ (length + 1) / 2 = length / 2 \/
                    length = 2 * (length / 2) + 1 /\ (length + 1) / 2 = length / 2 + 1)
    by (destruct (halves length ltac:(lia)) as [(_ & H1 & H2) | (_ & H1 & H2)]; auto).
  split.
  - destruct (fftshift_spec TPI data length Hn) as (d1 & -> & L1 & G1).
    cbn [mbind outcome_bind bind].
    destruct (ifftshift_spec TPI d1 length ltac:(lia)) as (d2 & -> & L2 & G2).
    f_equal. apply get_ext; [congruence |].
    intros p. rewrite G2, G1. f_equal.
    destruct (Z.eq_dec length 0) as [E | NE].
    + unfold shifted. rewrite E.
      replace ((0 <=? p) && (p <? 0)) with false
        by (symmetry; apply andb_false_iff; rewrite Z.leb_gt, Z.ltb_ge; lia).
      replace ((0 <=? p) && (p <? 0)) with false
        by (symmetry; apply andb_false_iff; rewrite Z.leb_gt, Z.ltb_ge; lia).
      reflexivity.
    + apply shifted_back; lia.
  - destruct (ifftshift_spec TPI data length Hn) as (d1 & -> & L1 & G1).
    cbn [mbind outcome_bind bind].
    destruct (fftshift_spec TPI d1 length ltac:(lia)) as (d2 & -> & L2 & G2).
    f_equal. apply get_ext; [congruence |].
    intros p. rewrite G2, G1. f_equal.
    destruct (Z.eq_dec length 0) as [E | NE].
    + unfold shifted. rewrite E.
      replace ((0 <=? p) && (p <? 0)) with false
        by (symmetry; apply andb_false_iff; rewrite Z.leb_gt, Z.ltb_ge; lia).
      replace ((0 <=? p) && (p <? 0)) with false
        by (symmetry; apply andb_false_iff; rewrite Z.leb_gt, Z.ltb_ge; lia).
      reflexivity.
    + apply shifted_back; lia.
Qed.

(** The theorem for a line of five samples at the start of a buffer of
    seven. *)
Lemma shift_round_trip_witness :
  (fftshift [0; 1; 2; 3; 4; 5; 6] 5 ≫= fun d => ifftshift d 5)
    = Returns [0; 1; 2; 3; 4; 5; 6] /\
  (ifftshift [0; 1; 2; 3; 4; 5; 6] 5 ≫= fun d => fftshift d 5)
    = Returns [0; 1; 2; 3; 4; 5; 6].
Proof. apply (shift_round_trip [0; 1; 2; 3; 4; 5; 6] 5). simpl. lia. Defined.

End FourierShift.

(** * Offsets and linear indices of pixels (include/diplib/library/image.h)

    [Image::Offset], [Image::Index], [Image::Pointer] and [Image::At] for
    coordinates, as functions of what they read of the image: whether it
    is forged, its sizes and its strides.  A pointer is an offset from the
    origin, in samples. *)

Module ImageIndexing.
Import Outcome.
Local Open Scope Z_scope.

(** Modelled from the spec: the error constants of diplib/library/error.h
    that the functions below name; each stands for its name. *)
Definition INDEX_OUT_OF_RANGE : Error := Message "E::INDEX_OUT_OF_RANGE".
Definition ARRAY_ILLEGAL_SIZE : Error := Message "E::ARRAY_ILLEGAL_SIZE".
Definition ILLEGAL_DIMENSIONALITY : Error := Message "E::ILLEGAL_DIMENSIONALITY".

(** What the functions read of an image: [IsForged()], [sizes_] and
    [strides_]. *)
Record Layout : Set := {
  forged : bool;
  sizes_ : list Z;      (* UnsignedArray *)
  strides_ : list Z     (* IntegerArray *)
}.

(** Arithmetic on [dip::uint] is modulo [2^64]. *)
Definition uint (v : Z) : Z := v mod 2 ^ 64.

(** [sizes_.product()], the value of [NumberOfPixels()]. *)
Definition product (sizes : list Z) : Z := fold_right Z.mul 1 sizes.
Definition NumberOfPixels (img : Layout) : Z := uint (product (sizes_ img)).

(** Arithmetic on [dip::sint]: a result that does not fit 64 bits is
    not defined. *)
Definition sint (v : Z) : outcome Z :=
  if (- 2 ^ 63 <=? v) && (v <? 2 ^ 63) then Returns v else Undefined.

(** [static_cast< dip::sint >] of a [dip::uint]. *)
Definition to_sint (v : Z) : Z := if v <? 2 ^ 63 then v else v - 2 ^ 64.

(** The loop of [Offset( UnsignedArray const& coords )]:
    [DIP_THROW_IF( coords[ ii ] >= sizes_[ ii ], E::INDEX_OUT_OF_RANGE );
     offset += static_cast< dip::sint >( coords[ ii ] ) * strides_[ ii ];]
    An element that an array does not have is not defined. *)
Fixpoint Offset_loop (sizes strides coords : list Z) (offset : Z) : outcome Z :=
  match sizes with
  | [] => Returns offset
  | s :: sizes =>
      match coords, strides with
      | c :: coords, st :: strides =>
          DIP_THROW_IF (s <=? c) INDEX_OUT_OF_RANGE;;
          step ← sint (to_sint c * st);
          offset ← sint (offset + step);
          Offset_loop sizes strides coords offset
      | _, _ => Undefined
      end
  end.

Definition Offset (img : Layout) (coords : list Z) : outcome Z :=
  DIP_THROW_IF (negb (forged img)) IMAGE_NOT_FORGED;;
  DIP_THROW_IF (negb (length coords =? length (sizes_ img))%nat) ARRAY_ILLEGAL_SIZE;;
  Offset_loop (sizes_ img) (strides_ img) coords 0.

(** The loop of [Offset( IntegerArray const& coords )], which has no
    test of the coordinates:
    [offset += coords[ ii ] * strides_[ ii ];] *)
Fixpoint Offset_signed_loop (sizes strides coords : list Z) (offset : Z) : outcome Z :=
  match sizes with
  | [] => Returns offset
  | _ :: sizes =>
      match coords, strides with
      | c :: coords, st :: strides =>
          step ← sint (c * st);
          offset ← sint (offset + step);
          Offset_signed_loop sizes strides coords offset
      | _, _ => Undefined
      end
  end.

Definition Offset_signed (img : Layout) (coords : list Z) : outcome Z :=
  DIP_THROW_IF (negb (forged img)) IMAGE_NOT_FORGED;;
  DIP_THROW_IF (negb (length coords =? length (sizes_ img))%nat) ARRAY_ILLEGAL_SIZE;;
  Offset_signed_loop (sizes_ img) (strides_ img) coords 0.

(** [Pointer( dip::sint offset )] *)
Definition Pointer (img : Layout) (offset : Z) : outcome Z :=
  DIP_THROW_IF (negb (forged img)) IMAGE_NOT_FORGED;;
  mret offset.

(** [Pointer( UnsignedArray const& coords )]: [Pointer( Offset( coords ))] *)
Definition Pointer_at (img : Layout) (coords : list Z) : outcome Z :=
  offset ← Offset img coords; Pointer img offset.

(** [At( UnsignedArray const& coords )]: the pointer of the pixel. *)
Definition At (img : Layout) (coords : list Z) : outcome Z :=
  DIP_THROW_IF (negb (length coords =? length (sizes_ img))%nat) ARRAY_ILLEGAL_SIZE;;
  Pointer_at img coords.

(** [At( dip::uint x_index, dip::uint y_index )] *)
Definition At_xy (img : Layout) (x_index y_index : Z) : outcome Z :=
  DIP_THROW_IF (negb (length (sizes_ img) =? 2)%nat) ILLEGAL_DIMENSIONALITY;;
  s0 ← defined (sizes_ img !! 0%nat);
  DIP_THROW_IF (s0 <=? x_index) INDEX_OUT_OF_RANGE;;
  s1 ← defined (sizes_ img !! 1%nat);
  DIP_THROW_IF (s1 <=? y_index) INDEX_OUT_OF_RANGE;;
  st0 ← defined (strides_ img !! 0%nat);
  st1 ← defined (strides_ img !! 1%nat);
  x_step ← sint (to_sint x_index * st0);
  y_step ← sint (to_sint y_index * st1);
  offset ← sint (x_step + y_step);
  Pointer img offset.

(** [At( dip::uint x_index, dip::uint y_index, dip::uint z_index )] *)
Definition At_xyz (img : Layout) (x_index y_index z_index : Z) : outcome Z :=
  DIP_THROW_IF (negb (length (sizes_ img) =? 3)%nat) ILLEGAL_DIMENSIONALITY;;
  s0 ← defined (sizes_ img !! 0%nat);
  DIP_THROW_IF (s0 <=? x_index) INDEX_OUT_OF_RANGE;;
  s1 ← defined (sizes_ img !! 1%nat);
  DIP_THROW_IF (s1 <=? y_index) INDEX_OUT_OF_RANGE;;
  s2 ← defined (sizes_ img !! 2%nat);
  DIP_THROW_IF (s2 <=? z_index) INDEX_OUT_OF_RANGE;;
  st0 ← defined (strides_ img !! 0%nat);
  st1 ← defined (strides_ img !! 1%nat);
  st2 ← defined (strides_ img !! 2%nat);
  x_step ← sint (to_sint x_index * st0);
  y_step ← sint (to_sint y_index * st1);
  xy_offset ← sint (x_step + y_step);
  z_step ← sint (to_sint z_index * st2);
  offset ← sint (xy_offset + z_step);
  Pointer img offset.

(** The loop of [Index( UnsignedArray const& coords )] visits the
    dimensions from the last to the first, so the turn for a dimension
    comes after the turns for the dimensions behind it:
    [DIP_THROW_IF( coords[ ii ] >= sizes_[ ii ], E::INDEX_OUT_OF_RANGE );
     index *= sizes_[ ii ]; index += coords[ ii ];] *)
Fixpoint Index_loop (sizes coords : list Z) : outcome Z :=
  match sizes with
  | [] => Returns 0
  | s :: sizes =>
      match coords with
      | c :: coords =>
          index ← Index_loop sizes coords;
          DIP_THROW_IF (s <=? c) INDEX_OUT_OF_RANGE;;
          mret (uint (uint (index * s) + c))
      | [] => Undefined
      end
  end.

Definition Index (img : Layout) (coords : list Z) : outcome Z :=
  DIP_THROW_IF (negb (forged img)) IMAGE_NOT_FORGED;;
  DIP_THROW_IF (negb (length coords =? length (sizes_ img))%nat) ARRAY_ILLEGAL_SIZE;;
  Index_loop (sizes_ img) coords.

(** A 5x3 image with normal strides, as in the doctest of the lookup
    table. *)
Definition image_5x3 : Layout := {| forged := true; sizes_ := [5; 3]; strides_ := [1; 5] |}.

Example index_of_pixel : Index image_5x3 [2; 1] = Returns 7.
Proof. reflexivity. Qed.
Example offset_of_pixel : Offset image_5x3 [2; 1] = Returns 7.
Proof. reflexivity. Qed.
Example index_outside : Index image_5x3 [5; 1] = Throws INDEX_OUT_OF_RANGE.
Proof. reflexivity. Qed.
Example index_wrong_length : Index image_5x3 [2; 1; 0] = Throws ARRAY_ILLEGAL_SIZE.
Proof. reflexivity. Qed.
Example offset_signed_outside : Offset_signed image_5x3 [-1; 3] = Returns 14.
Proof. reflexivity. Qed.

(** ** Properties *)

(** The coordinates of a pixel of the image. *)
Definition inside (sizes coords : list Z) : Prop :=
  Forall2 (fun s c => 0 <= c < s) sizes coords.

(** The position of a pixel when the pixels are counted with the first
    coordinate running fastest. *)
Fixpoint linear (sizes coords : list Z) : Z :=
  match sizes, coords with
  | s :: sizes, c :: coords => c + s * linear sizes coords
  | _, _ => 0
  end.

(** The sum of the products of coordinates and strides. *)
Fixpoint dot (coords strides : list Z) : Z :=
  match coords, strides with
  | c :: coords, st :: strides => c * st + dot coords strides
  | _, _ => 0
  end.

Lemma inside_length (sizes coords : list Z) :
  inside sizes coords -> length coords = length sizes.
Proof. intros H. symmetry. eapply Forall2_length; eauto. Qed.

Lemma product_pos (sizes coords : list Z) : inside sizes coords -> 0 < product sizes.
Proof.
  induction 1 as [| s c sizes coords Hc _ IH]; simpl; [lia | nia].
Qed.

Lemma linear_range (sizes coords : list Z) :
  inside sizes coords -> 0 <= linear sizes coords < product sizes.
Proof.
  induction 1 as [| s c sizes coords Hc _ IH]; simpl; [lia | nia].
Qed.

Lemma linear_inj (sizes coords coords' : list Z) :
  inside sizes coords -> inside sizes coords' ->
  linear sizes coords = linear sizes coords' -> coords = coords'.
Proof.
  intros H. revert coords'.
  induction H as [| s c sizes coords Hc Hin IH]; intros coords' H' Heq.
  - inversion H'. reflexivity.
  - inversion H' as [| ? c' ? coords'' Hc' Hin']; subst. simpl in Heq.
    assert (Hr : linear sizes coords = linear sizes coords'') by nia.
    assert (c = c') by nia. subst c'. f_equal. apply IH; assumption.
Qed.

Lemma linear_onto (sizes : list Z) :
  Forall (fun s => 0 < s) sizes ->
  forall k, 0 <= k < product sizes ->
  exists coords, inside sizes coords /\ linear sizes coords = k.
Proof.
  induction 1 as [| s sizes Hs _ IH]; intros k Hk; simpl in *.
  - exists []. split; [constructor | lia].
  - destruct (IH (k / s)) as (coords & Hin & Hlin).
    { split; [apply Z.div_pos; lia |].
      apply Z.div_lt_upper_bound; lia. }
    exists (k mod s :: coords). split.
    + constructor; [apply Z.mod_pos_bound; lia | exact Hin].
    + simpl. rewrite Hlin. symmetry. rewrite Z.add_comm. apply Z.div_mod. lia.
Qed.

(** Some coordinate is not below the size of its dimension. *)
Definition outside (sizes coords : list Z) : Prop :=
  exists i s c, sizes !! i = Some s /\ coords !! i = Some c /\ s <= c.

Lemma Index_loop_inside (sizes coords : list Z) :
  inside sizes coords -> product sizes <= 2 ^ 64 ->
  Index_loop sizes coords = Returns (linear sizes coords).
Proof.
  induction 1 as [| s c sizes coords Hc Hin IH]; intros Hfit; [reflexivity |].
  pose proof (product_pos _ _ Hin) as Hpos.
  pose proof (linear_range _ _ Hin) as Hlin.
  simpl in *. rewrite IH by nia. cbn [mbind outcome_bind bind].
  replace (s <=? c) with false by (symmetry; apply Z.leb_gt; lia).
  cbn [DIP_THROW_IF mbind outcome_bind bind mret outcome_ret]. f_equal.
  unfold uint. rewrite (Z.mod_small (linear sizes coords * s)) by nia.
  rewrite Z.mod_small by nia. lia.
Qed.

Lemma Index_loop_cases (sizes coords : list Z) :
  length coords = length sizes ->
  (exists index, Index_loop sizes coords = Returns index) \/
  Index_loop sizes coords = Throws INDEX_OUT_OF_RANGE.
Proof.
  revert coords. induction sizes as [| s sizes IH]; intros coords Hlen.
  - left. exists 0. reflexivity.
  - destruct coords as [| c coords]; [discriminate |]. simpl.
    destruct (IH coords) as [[index ->] | ->]; [simpl in Hlen; lia | | auto].
    cbn [mbind outcome_bind bind]. destruct (s <=? c); simpl; eauto.
Qed.

Lemma Index_loop_outside (sizes coords : list Z) :
  length coords = length sizes -> outside sizes coords ->
  Index_loop sizes coords = Throws INDEX_OUT_OF_RANGE.
Proof.
  revert coords. induction sizes as [| s sizes IH]; intros coords Hlen Hout.
  - destruct Hout as (i & s & c & Hs & _). destruct i; discriminate.
  - destruct coords as [| c coords]; [discriminate |]. simpl.
    destruct Hout as (i & s' & c' & Hs & Hc & Hle).
    destruct i as [| i]; simpl in Hs, Hc.
    + injection Hs as <-. injection Hc as <-.
      destruct (Index_loop_cases sizes coords) as [[index ->] | ->];
        [simpl in Hlen; lia | | reflexivity].
      cbn [mbind outcome_bind bind].
      replace (s <=? c) with true by (symmetry; apply Z.leb_le; lia). reflexivity.
    + rewrite IH; [reflexivity | simpl in Hlen; lia |]. exists i, s', c'. auto.
Qed.

Lemma Index_checks (img : Layout) (coords : list Z) :
  forged img = true -> length coords = length (sizes_ img) ->
  Index img coords = Index_loop (sizes_ img) coords.
Proof.
  intros Hf Hlen. unfold Index. rewrite Hf, Hlen, Nat.eqb_refl. reflexivity.
Qed.

(** X9. On a forged image whose number of pixels fits [dip::uint], the
    linear index of a pixel counts the pixels before it when the first
    coordinate runs fastest: it is below [NumberOfPixels()], two pixels
    never share an index, and every number below [NumberOfPixels()] is the
    index of a pixel.  When a coordinate is not below the size of its
    dimension, [Index] throws [E::INDEX_OUT_OF_RANGE]. *)
Theorem linear_index_counts_the_pixels (img : Layout) :
  forged img = true -> product (sizes_ img) <= 2 ^ 64 ->
  (forall coords, inside (sizes_ img) coords ->
     Index img coords = Returns (linear (sizes_ img) coords) /\
     0 <= linear (sizes_ img) coords < product (sizes_ img)) /\
  (forall coords coords', inside (sizes_ img) coords -> inside (sizes_ img) coords' ->
     Index img coords = Index img coords' -> coords = coords') /\
  (Forall (fun s => 0 < s) (sizes_ img) ->
   forall k, 0 <= k < product (sizes_ img) ->
     exists coords, inside (sizes_ img) coords /\ Index img coords = Returns k) /\
  (forall coords, length coords = length (sizes_ img) -> outside (sizes_ img) coords ->
     Index img coords = Throws INDEX_OUT_OF_RANGE).
Proof.
  intros Hf Hfit.
  assert (Hin : forall coords, inside (sizes_ img) coords ->
                  Index img coords = Returns (linear (sizes_ img) coords)).
  { intros coords Hc. rewrite Index_checks by auto using inside_length.
    apply Index_loop_inside; assumption. }
  split; [| split; [| split]].
  - intros coords Hc. split; [apply Hin | apply linear_range]; exact Hc.
  - intros coords coords' Hc Hc'. rewrite (Hin _ Hc), (Hin _ Hc'). intros [= Heq].
    eapply linear_inj; eauto.
  - intros Hpos k Hk. destruct (linear_onto _ Hpos k Hk) as (coords & Hc & <-).
    exists coords. auto.
  - intros coords Hlen Hout. rewrite Index_checks by assumption.
    apply Index_loop_outside; assumption.
Qed.

(** The theorem at the 5x3 image. *)
Lemma linear_index_counts_the_pixels_witness :
  Index image_5x3 [2; 1] = Returns (linear [5; 3] [2; 1]) /\
  0 <= linear [5; 3] [2; 1] < product [5; 3].
Proof.
  apply (proj1 (linear_index_counts_the_pixels image_5x3 eq_refl ltac:(simpl; lia))).
  repeat constructor; lia.
Defined.

(** The largest distance from the origin to a sample of the image, when
    every stride counts with its absolute value. *)
Fixpoint extent (sizes strides : list Z) : Z :=
  match sizes, strides with
  | s :: sizes, st :: strides => (s - 1) * Z.abs st + extent sizes strides
  | _, _ => 0
  end.

(** The distance that signed coordinates can reach. *)
Fixpoint reach (coords strides : list Z) : Z :=
  match coords, strides with
  | c :: coords, st :: strides => Z.abs (c * st) + reach coords strides
  | _, _ => 0
  end.

(** The pixels of the image can be addressed with [dip::sint] offsets:
    no dimension is empty, and the extent fits. *)
Definition addressable (img : Layout) : Prop :=
  Forall (fun s => 0 < s <= 2 ^ 63) (sizes_ img) /\
  extent (sizes_ img) (strides_ img) < 2 ^ 63.

Lemma sint_fits (v : Z) : - 2 ^ 63 <= v < 2 ^ 63 -> sint v = Returns v.
Proof.
  intros H. unfold sint.
  replace (- 2 ^ 63 <=? v) with true by (symmetry; apply Z.leb_le; lia).
  replace (v <? 2 ^ 63) with true by (symmetry; apply Z.ltb_lt; lia).
  reflexivity.
Qed.

Lemma to_sint_small (v : Z) : v < 2 ^ 63 -> to_sint v = v.
Proof.
  intros H. unfold to_sint.
  replace (v <? 2 ^ 63) with true by (symmetry; apply Z.ltb_lt; lia). reflexivity.
Qed.

Lemma reach_nonneg (coords strides : list Z) : 0 <= reach coords strides.
Proof.
  revert strides. induction coords as [| c coords IH]; intros [| st strides]; simpl;
    try lia.
  specialize (IH strides). lia.
Qed.

Lemma extent_nonneg (sizes strides : list Z) :
  Forall (fun s => 0 < s <= 2 ^ 63) sizes -> 0 <= extent sizes strides.
Proof.
  intros H. revert strides. induction H as [| s sizes Hs _ IH]; intros [| st strides];
    simpl; try lia.
  specialize (IH strides). nia.
Qed.

Lemma reach_inside (sizes coords : list Z) :
  inside sizes coords -> forall strides, reach coords strides <= extent sizes strides.
Proof.
  induction 1 as [| s c sizes coords Hc _ IH]; intros [| st strides]; simpl; try lia.
  specialize (IH strides). rewrite Z.abs_mul, (Z.abs_eq c) by lia. nia.
Qed.

Lemma Offset_signed_loop_reach (sizes : list Z) :
  forall (strides coords : list Z) (offset : Z),
  length coords = length sizes -> length strides = length sizes ->
  Z.abs offset + reach coords strides < 2 ^ 63 ->
  Offset_signed_loop sizes strides coords offset = Returns (offset + dot coords strides).
Proof.
  induction sizes as [| s sizes IH]; intros strides coords offset Hc Hs Hfit.
  - destruct coords; [| discriminate]. simpl. f_equal. lia.
  - destruct coords as [| c coords]; [discriminate |].
    destruct strides as [| st strides]; [discriminate |]. simpl in *.
    pose proof (reach_nonneg coords strides) as Hr.
    rewrite sint_fits by lia. cbn [mbind outcome_bind bind].
    rewrite sint_fits by lia. cbn [mbind outcome_bind bind].
    rewrite IH by lia. f_equal. lia.
Qed.

Lemma Offset_loop_inside (sizes : list Z) :
  forall (strides coords : list Z) (offset : Z),
  inside sizes coords -> Forall (fun s => 0 < s <= 2 ^ 63) sizes ->
  Offset_loop sizes strides coords offset =
  Offset_signed_loop sizes strides coords offset.
Proof.
  induction sizes as [| s sizes IH]; intros strides coords offset Hin Hs.
  - reflexivity.
  - inversion Hin as [| ? c ? coords' Hc Hin']; subst.
    inversion Hs as [| ? ? Hs0 Hs']; subst.
    destruct strides as [| st strides]; [reflexivity |]. simpl.
    replace (s <=? c) with false by (symmetry; apply Z.leb_gt; lia).
    cbn [DIP_THROW_IF mbind outcome_bind bind].
    rewrite to_sint_small by lia.
    destruct (sint (c * st)) as [step | |]; try reflexivity.
    cbn [mbind outcome_bind bind].
    destruct (sint (offset + step)) as [offset' | |]; try reflexivity.
    cbn [mbind outcome_bind bind]. apply IH; assumption.
Qed.

Lemma Offset_loop_outside (sizes : list Z) :
  forall (strides coords : list Z) (offset : Z),
  length coords = length sizes -> length strides = length sizes ->
  Forall (fun s => 0 < s <= 2 ^ 63) sizes ->
  Z.abs offset + extent sizes strides < 2 ^ 63 ->
  Forall (fun c => 0 <= c) coords -> outside sizes coords ->
  Offset_loop sizes strides coords offset = Throws INDEX_OUT_OF_RANGE.
Proof.
  induction sizes as [| s sizes IH]; intros strides coords offset Hc Hs Hsz Hfit Hpos Hout.
  - destruct Hout as (i & s & c & Hi & _). destruct i; discriminate.
  - destruct coords as [| c coords]; [discriminate |].
    destruct strides as [| st strides]; [discriminate |]. simpl.
    destruct (Z.leb_spec s c) as [Hle | Hlt]; [reflexivity |].
    cbn [DIP_THROW_IF mbind outcome_bind bind].
    inversion Hsz as [| ? ? Hs0 Hsz']; subst.
    inversion Hpos as [| ? ? Hc0 Hpos']; subst.
    pose proof (extent_nonneg sizes strides Hsz') as He. simpl in Hfit.
    assert (Hstep : Z.abs (c * st) <= (s - 1) * Z.abs st).
    { rewrite Z.abs_mul, (Z.abs_eq c) by lia. nia. }
    rewrite to_sint_small by lia.
    rewrite sint_fits by lia. cbn [mbind outcome_bind bind].
    rewrite sint_fits by lia. cbn [mbind outcome_bind bind].
    apply IH; [simpl in *; lia | simpl in *; lia | assumption | lia | assumption |].
    destruct Hout as (i & s' & c' & Hi & Hj & Hle).
    destruct i as [| i]; simpl in Hi, Hj.
    + injection Hi as <-. injection Hj as <-. lia.
    + exists i, s', c'. auto.
Qed.

(** X10. On a forged image whose pixels can be addressed with
    [dip::sint] offsets, [Offset] of the unsigned coordinates of a pixel
    is the sum of the products of coordinates and strides, and so is
    [Offset] of the same coordinates as signed numbers; when a coordinate
    is not below the size of its dimension, the unsigned [Offset] throws
    [E::INDEX_OUT_OF_RANGE], while the signed [Offset] has no such test
    and returns the sum for any coordinates it can reach. *)
Theorem offset_is_the_stride_sum (img : Layout) :
  forged img = true -> length (strides_ img) = length (sizes_ img) ->
  addressable img ->
  (forall coords, inside (sizes_ img) coords ->
     Offset img coords = Returns (dot coords (strides_ img)) /\
     Offset_signed img coords = Returns (dot coords (strides_ img))) /\
  (forall coords, length coords = length (sizes_ img) ->
     Forall (fun c => 0 <= c) coords -> outside (sizes_ img) coords ->
     Offset img coords = Throws INDEX_OUT_OF_RANGE) /\
  (forall coords, length coords = length (sizes_ img) ->
     reach coords (strides_ img) < 2 ^ 63 ->
     Offset_signed img coords = Returns (dot coords (strides_ img))).
Proof.
  intros Hf Hlen [Hsz Hext].
  assert (Hsigned : forall coords, length coords = length (sizes_ img) ->
            reach coords (strides_ img) < 2 ^ 63 ->
            Offset_signed img coords = Returns (dot coords (strides_ img))).
  { intros coords Hc Hr. unfold Offset_signed. rewrite Hf, Hc, Nat.eqb_refl.
    cbn [negb DIP_THROW_IF mbind outcome_bind bind].
    apply (Offset_signed_loop_reach _ _ _ 0 Hc Hlen). simpl. lia. }
  split; [| split]; [| | exact Hsigned].
  - intros coords Hin.
    pose proof (reach_inside _ _ Hin (strides_ img)) as Hr.
    pose proof (inside_length _ _ Hin) as Hc.
    split; [| apply Hsigned; [assumption | lia]].
    rewrite <- (Hsigned coords Hc) by lia. unfold Offset, Offset_signed.
    rewrite Hf, Hc, Nat.eqb_refl. cbn [negb DIP_THROW_IF mbind outcome_bind bind].
    apply Offset_loop_inside; assumption.
  - intros coords Hc Hpos Hout. unfold Offset. rewrite Hf, Hc, Nat.eqb_refl.
    cbn [negb DIP_THROW_IF mbind outcome_bind bind].
    apply Offset_loop_outside; auto; simpl; lia.
Qed.

Lemma image_5x3_addressable : addressable image_5x3.
Proof. split; [repeat constructor; simpl; lia | simpl; lia]. Qed.

(** The theorem at the 5x3 image. *)
Lemma offset_is_the_stride_sum_witness :
  Offset image_5x3 [2; 1] = Returns (dot [2; 1] [1; 5]) /\
  Offset_signed image_5x3 [2; 1] = Returns (dot [2; 1] [1; 5]).
Proof.
  apply (proj1 (offset_is_the_stride_sum image_5x3 eq_refl eq_refl image_5x3_addressable)).
  repeat constructor; lia.
Defined.

(** X11. On a forged image whose pixels can be addressed with
    [dip::sint] offsets, the access with separate indices is the access
    with a coordinate array: [At( x, y )] on a 2-D image is
    [At( { x, y } )], and [At( x, y, z )] on a 3-D image is
    [At( { x, y, z } )]; they return the same pointer or throw the same
    error. *)
Theorem at_indices_is_at_coordinates (img : Layout) :
  forged img = true -> length (strides_ img) = length (sizes_ img) ->
  addressable img ->
  (length (sizes_ img) = 2%nat ->
   forall x y, 0 <= x -> 0 <= y -> At_xy img x y = At img [x; y]) /\
  (length (sizes_ img) = 3%nat ->
   forall x y z, 0 <= x -> 0 <= y -> 0 <= z -> At_xyz img x y z = At img [x; y; z]).
Proof.
  intros Hf Hlen [Hsz Hext].
  destruct img as [f sizes strides]. simpl in *. subst f.
  assert (Hstep : forall c s st, 0 <= c < s -> Z.abs (c * st) <= (s - 1) * Z.abs st).
  { intros c s st Hc. rewrite Z.abs_mul, (Z.abs_eq c) by lia. nia. }
  split.
  - intros H2 x y Hx Hy. unfold At_xy, At, Pointer_at, Offset, Pointer.
    destruct sizes as [| s0 [| s1 [| ? ?]]]; try discriminate.
    destruct strides as [| st0 [| st1 [| ? ?]]]; try discriminate.
    inversion Hsz as [| ? ? H0 Hsz1]; subst. inversion Hsz1 as [| ? ? H1 _]; subst.
    simpl in Hext. simpl.
    destruct (Z.leb_spec s0 x); [reflexivity |]. simpl.
    pose proof (Hstep x s0 st0 ltac:(lia)).
    rewrite (to_sint_small x) by lia.
    rewrite (sint_fits (x * st0)) by nia. simpl.
    rewrite (sint_fits (0 + x * st0)) by nia. simpl.
    destruct (Z.leb_spec s1 y); [reflexivity |]. simpl.
    pose proof (Hstep y s1 st1 ltac:(lia)).
    rewrite (to_sint_small y) by lia.
    rewrite (sint_fits (y * st1)) by nia. simpl.
    replace (0 + x * st0 + y * st1) with (x * st0 + y * st1) by lia.
    rewrite sint_fits by lia. reflexivity.
  - intros H3 x y z Hx Hy Hz. unfold At_xyz, At, Pointer_at, Offset, Pointer.
    destruct sizes as [| s0 [| s1 [| s2 [| ? ?]]]]; try discriminate.
    destruct strides as [| st0 [| st1 [| st2 [| ? ?]]]]; try discriminate.
    inversion Hsz as [| ? ? H0 Hsz1]; subst. inversion Hsz1 as [| ? ? H1 Hsz2]; subst.
    inversion Hsz2 as [| ? ? H2 _]; subst.
    assert (0 <= (s0 - 1) * Z.abs st0) by nia.
    assert (0 <= (s1 - 1) * Z.abs st1) by nia.
    assert (0 <= (s2 - 1) * Z.abs st2) by nia.
    simpl in Hext. simpl.
    destruct (Z.leb_spec s0 x); [reflexivity |]. simpl.
    pose proof (Hstep x s0 st0 ltac:(lia)).
    rewrite (to_sint_small x) by lia.
    rewrite (sint_fits (x * st0)) by nia. simpl.
    rewrite (sint_fits (0 + x * st0)) by nia. simpl.
    destruct (Z.leb_spec s1 y); [reflexivity |]. simpl.
    pose proof (Hstep y s1 st1 ltac:(lia)).
    rewrite (to_sint_small y) by lia.
    rewrite (sint_fits (y * st1)) by nia. simpl.
    replace (0 + x * st0 + y * st1) with (x * st0 + y * st1) by lia.
    rewrite (sint_fits (x * st0 + y * st1)) by lia. simpl.
    destruct (Z.leb_spec s2 z); [reflexivity |]. simpl.
    pose proof (Hstep z s2 st2 ltac:(lia)).
    rewrite (to_sint_small z) by lia.
    rewrite (sint_fits (z * st2)) by nia. simpl.
    rewrite sint_fits by lia. reflexivity.
Qed.

(** The theorem at the 5x3 image. *)
Lemma at_indices_is_at_coordinates_witness : At_xy image_5x3 2 1 = At image_5x3 [2; 1].
Proof.
  apply (proj1 (at_indices_is_at_coordinates image_5x3 eq_refl eq_refl
                  image_5x3_addressable) eq_refl 2 1); lia.
Defined.

End ImageIndexing.


(** * Repeated rotation by 45 degrees (src/binary/sup_inf_generator.cpp)

    What [RotateBy45Degrees] does to the pixels of a square of odd side
    when it is applied two and four times, as
    [Interval::GenerateRotatedVersions] does for the rotations by 90 and
    by 180 degrees that it builds from steps of 45 degrees. *)

Module QuarterTurns.
Import Outcome Buffer Rotate45.
Local Open Scope Z_scope.

(** Every pixel of the square but its centre is at one place of one turn
    of one shell. *)
Lemma on_a_shell (h x y : Z) :
  0 <= x <= 2 * h -> 0 <= y <= 2 * h -> (x, y) <> (h, h) ->
  exists s i k, turn h s i /\ coord h s i k = (x, y).
Proof.
  intros Hx Hy Hc.
  assert (Hne : x <> h \/ y <> h).
  { destruct (Z.eq_dec x h) as [-> |]; [| auto].
    destruct (Z.eq_dec y h) as [-> |]; [| auto]. contradiction. }
  set (s := Z.min (Z.min x y) (Z.min (2 * h - x) (2 * h - y))).
  assert (Hs : 0 <= s < h) by lia.
  assert (Hshell : s <= x <= 2 * h - s /\ s <= y <= 2 * h - s) by lia.
  assert (Hedge : y = s \/ x = s \/ y = 2 * h - s \/ x = 2 * h - s) by lia.
  clearbody s.
  destruct (Z.eq_dec y s) as [Ey | Ny].
  - destruct (Z_lt_dec x h).
    + exists s, (x - s), P0. unfold turn, coord. split; [lia | f_equal; lia].
    + destruct (Z_lt_dec x (2 * h - s)).
      * exists s, (x - h), P7. unfold turn, coord. split; [lia | f_equal; lia].
      * exists s, 0, P6. unfold turn, coord. split; [lia | f_equal; lia].
  - destruct (Z.eq_dec x s) as [Ex | Nx].
    + destruct (Z_le_dec y h).
      * exists s, (h - y), P1. unfold turn, coord. split; [lia | f_equal; lia].
      * exists s, (2 * h - s - y), P2. unfold turn, coord. split; [lia | f_equal; lia].
    + destruct (Z.eq_dec y (2 * h - s)) as [Ey' | Ny'].
      * destruct (Z_le_dec x h).
        -- exists s, (h - x), P3. unfold turn, coord. split; [lia | f_equal; lia].
        -- exists s, (2 * h - s - x), P4. unfold turn, coord. split; [lia | f_equal; lia].
      * destruct (Z_le_dec h y).
        -- exists s, (y - h), P5. unfold turn, coord. split; [lia | f_equal; lia].
        -- exists s, (y - s), P6. unfold turn, coord. split; [lia | f_equal; lia].
Qed.

(** No place of a turn is the centre. *)
Lemma centre_on_no_shell (h s i : Z) (k : place) :
  turn h s i -> coord h s i k <> (h, h).
Proof. unfold turn, coord. intros Ht. destruct k; intros [= Hx Hy]; lia. Qed.

(** After [j] applications a pixel holds the sample of the pixel that a
    map of the coordinates names, when the map sends every place to the
    place [j] steps further and keeps the centre. *)
Lemma turned_pixel (input : Image2D) (h : Z) (j : nat) (m' : list bool)
    (from : Z * Z -> Z * Z) :
  size0 input = 2 * h + 1 -> size1 input = 2 * h + 1 -> forged input ->
  turned (stride0 input) (stride1 input) (origin input) h j (data input) m' ->
  from (h, h) = (h, h) ->
  (forall s i k, turn h s i -> from (coord h s i k) = coord h s i (Nat.iter j next k)) ->
  forall x y, 0 <= x <= 2 * h -> 0 <= y <= 2 * h ->
  get m' (offset input x y) =
  get (data input) (offset input (fst (from (x, y))) (snd (from (x, y)))).
Proof.
  intros H0 H1 [Hin Hinj] (L & Hmoved & Hrest) Hcentre Hfrom x y Hx Hy.
  destruct (Z.eq_dec x h) as [Ex | Nx]; [destruct (Z.eq_dec y h) as [Ey | Ny] |].
  - subst x y. rewrite Hcentre. cbn [fst snd].
    destruct (Hrest (offset input h h)) as [Hsame | (s & i & k & Ht & Heq)];
      [exact Hsame | exfalso].
    destruct (coord_in_image h s i k Ht) as [Hcx Hcy].
    unfold pos, at_ in Heq.
    destruct (Hinj h h (fst (coord h s i k)) (snd (coord h s i k))) as [Hx' Hy'];
      try lia; [exact Heq |].
    apply (centre_on_no_shell h s i k Ht).
    destruct (coord h s i k). simpl in *. congruence.
  - destruct (on_a_shell h x y Hx Hy) as (s & i & k & Ht & Hk); [congruence |].
    rewrite <- Hk, Hfrom by exact Ht.
    replace x with (fst (coord h s i k)) by (rewrite Hk; reflexivity).
    replace y with (snd (coord h s i k)) by (rewrite Hk; reflexivity).
    apply (Hmoved s i k Ht).
  - destruct (on_a_shell h x y Hx Hy) as (s & i & k & Ht & Hk); [congruence |].
    rewrite <- Hk, Hfrom by exact Ht.
    replace x with (fst (coord h s i k)) by (rewrite Hk; reflexivity).
    replace y with (snd (coord h s i k)) by (rewrite Hk; reflexivity).
    apply (Hmoved s i k Ht).
Qed.

(** X12. On a forged square 2-D binary image of side [2 * h + 1], two
    applications of [RotateBy45Degrees] in a row are a quarter turn of
    the image about its centre, and four are a half turn: pixel [(x, y)]
    of the result is pixel [(y, 2 * h - x)] of the input after two
    applications and pixel [(2 * h - x, 2 * h - y)] after four.  Sizes,
    strides and origin stay as they are. *)
Theorem two_rotations_are_a_quarter_turn (Pad : Image2D -> Z -> Image2D)
    (input : Image2D) (h : Z) :
  0 <= h -> size0 input = 2 * h + 1 -> size1 input = 2 * h + 1 -> forged input ->
  exists m2 m4,
    times Pad 2 input = Returns (with_data input m2) /\
    times Pad 4 input = Returns (with_data input m4) /\
    forall x y, 0 <= x <= 2 * h -> 0 <= y <= 2 * h ->
      get m2 (offset input x y) = get (data input) (offset input y (2 * h - x)) /\
      get m4 (offset input x y) =
      get (data input) (offset input (2 * h - x) (2 * h - y)).
Proof.
  intros Hh H0 H1 Hf.
  destruct (times_turned Pad 2 h Hh input H0 H1 Hf) as (m2 & Hrun2 & Hturned2).
  destruct (times_turned Pad 4 h Hh input H0 H1 Hf) as (m4 & Hrun4 & Hturned4).
  exists m2, m4. split; [exact Hrun2 | split; [exact Hrun4 |]].
  intros x y Hx Hy. split.
  - apply (turned_pixel input h 2 m2 (fun p => (snd p, 2 * h - fst p)));
      try assumption.
    + cbn [fst snd]. f_equal. lia.
    + unfold turn, coord. intros s i k Ht. destruct k; cbn; f_equal; lia.
  - apply (turned_pixel input h 4 m4 (fun p => (2 * h - fst p, 2 * h - snd p)));
      try assumption.
    + cbn [fst snd]. f_equal; lia.
    + unfold turn, coord. intros s i k Ht. destruct k; cbn; f_equal; lia.
Qed.

(** The theorem at the image of the doctest. *)
Lemma two_rotations_are_a_quarter_turn_witness :
  exists m2 m4,
    times no_Pad 2 doctest_image = Returns (with_data doctest_image m2) /\
    times no_Pad 4 doctest_image = Returns (with_data doctest_image m4) /\
    forall x y, 0 <= x <= 2 * 3 -> 0 <= y <= 2 * 3 ->
      get m2 (offset doctest_image x y) =
      get (data doctest_image) (offset doctest_image y (2 * 3 - x)) /\
      get m4 (offset doctest_image x y) =
      get (data doctest_image) (offset doctest_image (2 * 3 - x) (2 * 3 - y)).
Proof.
  apply (two_rotations_are_a_quarter_turn no_Pad doctest_image 3).
  - lia.
  - reflexivity.
  - reflexivity.
  - apply square_image_forged; reflexivity.
Defined.

End QuarterTurns.


(** * What the propagation reaches (src/binary/binary_propagation.cpp)

    [BinaryPropagation] for any number of iterations, and
    [EdgeObjectsRemove], which is built on it. *)

Module PropagationBounds.
Import Outcome Buffer Images BinaryPropagation.
Local Open Scope Z_scope.

(** ** [EdgeObjectsRemove] *)

(** Modelled from the spec: [out ^= in] on two binary images of the same
    sizes, the exclusive or of their samples. *)
Definition xor_assign (out in_ : list Z) : list Z := zip_with Z.lxor out in_.

Section EdgeObjects.

Variable neighborOffsetsOut : bool -> list Z.
Variable IsInImage : bool -> nat -> Z -> bool.
Variable onBorder : Z -> bool.
Variable FindBinaryEdgePixels : list Z -> bool -> list Z.

(** [EdgeObjectsRemove], for an output image that is not the input image:
    the samples of [out]. *)
Definition EdgeObjectsRemove (fuel : nat) (in_ : Image) (connectivity : Z)
  : option (outcome (list Z)) :=
  match BinaryPropagation neighborOffsetsOut IsInImage onBorder FindBinaryEdgePixels
          fuel no_image in_ (SaturatedArithmetic.static_cast 64 connectivity) 0 "object" with
  | Some (Returns out) => Some (Returns (xor_assign out (samples in_)))
  | Some (Throws e) => Some (Throws e)
  | Some Undefined => Some Undefined
  | None => None
  end.

End EdgeObjects.

Definition line_EdgeObjectsRemove (fuel : nat) (in_ : Image) : option (outcome (list Z)) :=
  let n := Z.of_nat (length (samples in_)) in
  EdgeObjectsRemove line_offsets (line_IsInImage n) (line_onBorder n)
    line_FindBinaryEdgePixels fuel in_ 1.

Example edge_objects_of_a_line :
  line_EdgeObjectsRemove 10 (binary_line [1; 1; 0; 1; 0; 0; 1; 1]) =
  Some (Returns [0; 0; 0; 1; 0; 0; 0; 0]).
Proof. vm_compute. reflexivity. Qed.

Example edge_objects_of_a_raw_image :
  line_EdgeObjectsRemove 10 no_image = Some (Throws IMAGE_NOT_FORGED).
Proof. vm_compute. reflexivity. Qed.

(** ** The seed bit is never cleared *)

(** [grown st st']: every pixel that carries the seed bit in [st] carries
    it in [st']. *)
Definition grown (st st' : list Z) : Prop :=
  forall i b, st !! i = Some b -> seeded b = true ->
  exists b', st' !! i = Some b' /\ seeded b' = true.

Lemma grown_refl (st : list Z) : grown st st.
Proof. intros i b Hb Hs. eauto. Qed.

Lemma grown_trans (st0 st1 st2 : list Z) : grown st0 st1 -> grown st1 st2 -> grown st0 st2.
Proof.
  intros H1 H2 i b Hb Hs. destruct (H1 i b Hb Hs) as (b1 & Hb1 & Hs1). eauto.
Qed.

Lemma seed_if_open_grows (st : list Z) (p : Z) (st' : list Z) (hit : bool) :
  seed_if_open st p = Returns (st', hit) -> grown st st'.
Proof.
  unfold seed_if_open, load. destruct (get st p) as [b |]; [| discriminate]. simpl.
  destruct (_ =? _).
  - unfold store. destruct (_ && _); [| discriminate]. simpl. intros [= <- _].
    intros i c Hc Hs. destruct (Nat.eq_dec i (Z.to_nat p)) as [-> | Hne].
    + exists (Z.lor b seedBitmask). split.
      * apply list_lookup_insert_eq. eapply lookup_lt_Some; eauto.
      * apply bits_after_seeding.
    + exists c. split; [| exact Hs]. rewrite list_lookup_insert_ne by auto. exact Hc.
  - intros [= <- _]. apply grown_refl.
Qed.

Lemma first_iteration_grows (queue : list Z) :
  forall st pushed st' pushed',
  first_iteration queue st pushed = Returns (st', pushed') -> grown st st'.
Proof.
  induction queue as [| p queue IH]; intros st pushed st' pushed'; simpl.
  - intros [= <- _]. apply grown_refl.
  - destruct (seed_if_open st p) as [[st1 hit] | |] eqn:Hseed; try discriminate.
    simpl. intros Hrest. eapply grown_trans.
    + eapply seed_if_open_grows; eauto.
    + eapply IH; eauto.
Qed.

Section Dilation.

Variable neighborOffsetsOut : bool -> list Z.
Variable IsInImage : bool -> nat -> Z -> bool.

Lemma propagate_to_neighbors_grows (odd : bool) (offsets : list Z) :
  forall k isBorderPixel pPixel st pushed st' pushed',
  propagate_to_neighbors IsInImage odd offsets k isBorderPixel pPixel st pushed
    = Returns (st', pushed') ->
  grown st st'.
Proof.
  induction offsets as [| o offsets IH];
    intros k isBorderPixel pPixel st pushed st' pushed'; simpl.
  - intros [= <- _]. apply grown_refl.
  - destruct (negb isBorderPixel || IsInImage odd k pPixel).
    + destruct (seed_if_open st (pPixel + o)) as [[st1 hit] | |] eqn:Hseed;
        try discriminate.
      simpl. intros Hrest. eapply grown_trans.
      * eapply seed_if_open_grows; eauto.
      * eapply IH; eauto.
    + simpl. apply IH.
Qed.

Lemma dilation_round_grows (odd : bool) (queue : list Z) :
  forall st pushed st' pushed',
  dilation_round neighborOffsetsOut IsInImage odd queue st pushed
    = Returns (st', pushed') ->
  grown st st'.
Proof.
  induction queue as [| p queue IH]; intros st pushed st' pushed'; simpl.
  - intros [= <- _]. apply grown_refl.
  - destruct (load st p) as [b | |]; try discriminate. simpl.
    destruct (propagate_to_neighbors _ _ _ _ _ _ _ _) as [[st1 pushed1] | |] eqn:Hn;
      try discriminate.
    simpl. intros Hrest. eapply grown_trans.
    + eapply propagate_to_neighbors_grows; eauto.
    + eapply IH; eauto.
Qed.

Lemma dilation_loop_grows (iterations : Z) (fuel : nat) :
  forall iDilIter st queue st' queue',
  dilation_loop neighborOffsetsOut IsInImage fuel iDilIter iterations st queue
    = Some (Returns (st', queue')) ->
  grown st st'.
Proof.
  induction fuel as [| fuel IH]; intros iDilIter st queue st' queue'; simpl.
  - destruct (iDilIter <? iterations); [discriminate |].
    intros [= <- _]. apply grown_refl.
  - destruct (iDilIter <? iterations); [| intros [= <- _]; apply grown_refl].
    destruct (dilation_round _ _ _ _ _ _) as [[st1 queue1] | |] eqn:Hround;
      try discriminate.
    pose proof (dilation_round_grows _ _ _ _ _ _ Hround) as Hg.
    destruct queue1 as [| q queue1].
    + intros [= <- _]. exact Hg.
    + intros Hrest. eapply grown_trans; [exact Hg | eapply IH; eauto].
Qed.

(** ** The loop ends for any number of iterations *)

Variable onBorder : Z -> bool.
Variable n : nat.

Hypothesis neighbors_in_image : forall odd p k offset,
  0 <= p < Z.of_nat n ->
  neighborOffsetsOut odd !! k = Some offset ->
  negb (onBorder p) || IsInImage odd k p = true ->
  0 <= p + offset < Z.of_nat n.

Lemma dilation_loop_returns (iterations : Z) (fuel : nat) :
  forall (iDilIter : Z) (st queue : list Z),
  status onBorder n st -> Forall (in_buffer st) queue ->
  (count_open st < fuel)%nat ->
  exists st' queue',
    dilation_loop neighborOffsetsOut IsInImage fuel iDilIter iterations st queue
      = Some (Returns (st', queue')) /\
    length st' = n /\ map fixed_bits st' = map fixed_bits st.
Proof.
  induction fuel as [| fuel IH]; intros iDilIter st queue Hst Hq Hfuel; [lia |].
  simpl. destruct (iDilIter <? iterations).
  - destruct (dilation_round_spec neighborOffsetsOut IsInImage onBorder n
                neighbors_in_image (Z.odd iDilIter) queue st [] Hst Hq)
      as (st1 & queue1 & -> & Hstep).
    pose proof (status_stepped _ _ _ _ _ _ Hst Hstep) as Hst1.
    destruct Hstep as (L & B & C & F).
    destruct queue1 as [| p queue1].
    + exists st1, []. destruct Hst1 as [L1 _]. auto.
    + simpl in C.
      destruct (IH (iDilIter + 1) st1 (p :: queue1)) as (st' & queue' & -> & L' & B');
        [exact Hst1 | apply F; constructor | lia |].
      exists st', queue'. split; [reflexivity | split; [exact L' | congruence]].
  - exists st, queue. destruct Hst as [L _]. auto.
Qed.

End Dilation.

(** ** The prepared seed bit *)

Lemma prepared_seed (onBorder : Z -> bool) (seedS maskS : list Z) (i : nat) (b v : Z) :
  binary_samples seedS ->
  add_mask_plane maskS (ApplyBinaryBorderMask onBorder seedS) !! i = Some b ->
  seedS !! i = Some v ->
  seeded b = negb (v =? 0).
Proof.
  intros Hbin Hb Hv. unfold add_mask_plane, ApplyBinaryBorderMask in Hb.
  apply lookup_zip_with_Some in Hb. destruct Hb as (m & x & -> & Hm & Hx).
  rewrite list_lookup_imap, Hv in Hx. simpl in Hx. injection Hx as <-.
  assert (Hv01 : v = 0 \/ v = 1).
  { unfold binary_samples in Hbin. rewrite Forall_forall in Hbin.
    apply Hbin. apply list_elem_of_lookup. eauto. }
  destruct (onBorder (Z.of_nat i)), (m =? 0), Hv01 as [-> | ->]; reflexivity.
Qed.

Lemma prepare_seed (onBorder : Z -> bool) (c_inSeed c_inMask : Image)
    (connectivity : Z) (s_edgeCondition : string) (out : list Z) (outside : bool) :
  prepare onBorder c_inSeed c_inMask connectivity s_edgeCondition
    = Returns (out, outside) ->
  IsForged c_inSeed = true -> binary_samples (samples c_inSeed) ->
  forall i b v, out !! i = Some b -> samples c_inSeed !! i = Some v ->
  seeded b = negb (v =? 0).
Proof.
  unfold prepare. intros Hrun Hf Hbin i b v Hb Hv. rewrite Hf in Hrun.
  repeat match type of Hrun with
         | context [DIP_THROW_IF ?c _] => destruct c; simpl in Hrun; try discriminate
         end.
  destruct (BooleanFromString _ _ _) as [o | |]; try discriminate.
  simpl in Hrun. injection Hrun as <- _.
  eapply prepared_seed; eauto.
Qed.

(** The status bytes a run ends with, for any number of iterations: a
    byte carries the mask bit where the mask is set, and the seed bit
    where the seed was set. *)
Lemma propagation_bytes
    (neighborOffsetsOut : bool -> list Z) (IsInImage : bool -> nat -> Z -> bool)
    (onBorder : Z -> bool) (FindBinaryEdgePixels : list Z -> bool -> list Z)
    (fuel : nat) (c_inSeed c_inMask : Image) (connectivity iterations : Z)
    (s_edgeCondition : string) :
  (forall odd p k offset,
     0 <= p < Z.of_nat (length (samples c_inMask)) ->
     neighborOffsetsOut odd !! k = Some offset ->
     negb (onBorder p) || IsInImage odd k p = true ->
     0 <= p + offset < Z.of_nat (length (samples c_inMask))) ->
  (forall out outside, Forall (in_buffer out) (FindBinaryEdgePixels out outside)) ->
  valid_mask c_inMask -> valid_seed c_inSeed c_inMask ->
  connectivity <= Z.of_nat (length (sizes c_inMask)) ->
  s_edgeCondition = "object"%string \/ s_edgeCondition = "background"%string ->
  (length (samples c_inMask) < fuel)%nat ->
  exists st,
    BinaryPropagation neighborOffsetsOut IsInImage onBorder FindBinaryEdgePixels fuel
      c_inSeed c_inMask connectivity iterations s_edgeCondition
      = Some (Returns (map final_sample st)) /\
    length st = length (samples c_inMask) /\
    forall i b, st !! i = Some b ->
      exists m, samples c_inMask !! i = Some m /\ masked b = negb (m =? 0) /\
        (forall s, IsForged c_inSeed = true -> samples c_inSeed !! i = Some s ->
           s <> 0 -> seeded b = true).
Proof.
  intros Hgeom Hedge Hmask Hseed Hconn Hcond Hfuel.
  destruct (prepare_returns onBorder c_inSeed c_inMask connectivity s_edgeCondition
              Hmask Hseed Hconn Hcond) as (out0 & outside & Hprep & Hst & Hmasked).
  set (its := if iterations =? 0 then uint_max else iterations).
  assert (Hfirst : exists st1 queue1,
            (if 0 <? its then first_iteration (FindBinaryEdgePixels out0 outside) out0 []
             else Returns (out0, FindBinaryEdgePixels out0 outside))
              = Returns (st1, queue1) /\
            status onBorder (length (samples c_inMask)) st1 /\
            Forall (in_buffer st1) queue1 /\
            map fixed_bits st1 = map fixed_bits out0 /\ grown out0 st1).
  { destruct (0 <? its).
    - destruct (first_iteration_spec (FindBinaryEdgePixels out0 outside) out0 []
                  (Hedge _ _)) as (st1 & queue1 & Hrun & Hstep).
      exists st1, queue1. split; [exact Hrun |].
      pose proof (status_stepped _ _ _ _ _ _ Hst Hstep) as Hst1.
      pose proof (first_iteration_grows _ _ _ _ _ Hrun) as Hg.
      destruct Hstep as (_ & B & _ & F).
      split; [exact Hst1 | split; [apply F; constructor | split; [exact B | exact Hg]]].
    - exists out0, (FindBinaryEdgePixels out0 outside).
      split; [reflexivity | split; [exact Hst | split; [apply Hedge | split]]];
        [reflexivity | apply grown_refl]. }
  destruct Hfirst as (st1 & queue1 & Hfirst & Hst1 & Hq1 & B1 & G1).
  pose proof (count_open_le st1) as Hcount.
  destruct (dilation_loop_returns neighborOffsetsOut IsInImage onBorder
              (length (samples c_inMask)) Hgeom its fuel 1 st1 queue1 Hst1 Hq1)
    as (st & queue & Hloop & Lst & B);
    [destruct Hst1 as [L _]; lia |].
  pose proof (dilation_loop_grows _ _ _ _ _ _ _ _ _ Hloop) as G.
  exists st. split; [| split].
  - unfold BinaryPropagation, propagate. rewrite Hprep. fold its.
    rewrite Hfirst, Hloop. reflexivity.
  - exact Lst.
  - intros i b Hb.
    destruct (fixed_bits_masked st1 st i b B Hb) as (b1 & Hb1 & Hm1).
    destruct (fixed_bits_masked out0 st1 i b1 B1 Hb1) as (b0 & Hb0 & Hm0).
    destruct (Hmasked i b0 Hb0) as (m & Hm & Hmb).
    exists m. split; [exact Hm | split; [congruence |]].
    intros s Hf Hs Hs0.
    assert (Hbin : binary_samples (samples c_inSeed)).
    { destruct Hseed as [Hraw | (_ & _ & _ & _ & _ & Hbin)]; [| exact Hbin].
      congruence. }
    pose proof (prepare_seed _ _ _ _ _ _ _ Hprep Hf Hbin i b0 s Hb0 Hs) as Hseeded.
    assert (Hs0' : seeded b0 = true).
    { rewrite Hseeded. destruct (Z.eqb_spec s 0); [contradiction | reflexivity]. }
    destruct (G1 i b0 Hb0 Hs0') as (b1' & Hb1' & Hs1).
    assert (b1' = b1) by congruence. subst b1'.
    destruct (G i b1 Hb1 Hs1) as (b' & Hb' & Hs').
    congruence.
Qed.

(** X13. For a forged scalar binary mask and a seed that is absent or a
    binary scalar image of the same sizes, [BinaryPropagation] returns
    for any number of iterations, with an output sample of 0 or 1 for
    every pixel of the mask image.  The result stays in the mask: a
    pixel is set only where the mask is set.  And it holds the seed: a
    pixel that is set in the seed and in the mask is set in the result.
    (The embedding is given more fuel than the image has pixels.) *)
Theorem propagation_stays_in_the_mask
    (neighborOffsetsOut : bool -> list Z) (IsInImage : bool -> nat -> Z -> bool)
    (onBorder : Z -> bool) (FindBinaryEdgePixels : list Z -> bool -> list Z)
    (fuel : nat) (c_inSeed c_inMask : Image) (connectivity iterations : Z)
    (s_edgeCondition : string) :
  (forall odd p k offset,
     0 <= p < Z.of_nat (length (samples c_inMask)) ->
     neighborOffsetsOut odd !! k = Some offset ->
     negb (onBorder p) || IsInImage odd k p = true ->
     0 <= p + offset < Z.of_nat (length (samples c_inMask))) ->
  (forall out outside, Forall (in_buffer out) (FindBinaryEdgePixels out outside)) ->
  valid_mask c_inMask -> valid_seed c_inSeed c_inMask ->
  connectivity <= Z.of_nat (length (sizes c_inMask)) ->
  s_edgeCondition = "object"%string \/ s_edgeCondition = "background"%string ->
  (length (samples c_inMask) < fuel)%nat ->
  exists out,
    BinaryPropagation neighborOffsetsOut IsInImage onBorder FindBinaryEdgePixels fuel
      c_inSeed c_inMask connectivity iterations s_edgeCondition = Some (Returns out) /\
    length out = length (samples c_inMask) /\
    forall i v, out !! i = Some v ->
      (v = 0 \/ v = 1) /\
      exists m, samples c_inMask !! i = Some m /\
        (v = 1 -> m <> 0) /\
        (forall s, IsForged c_inSeed = true -> samples c_inSeed !! i = Some s ->
           s <> 0 -> m <> 0 -> v = 1).
Proof.
  intros Hgeom Hedge Hmask Hseed Hconn Hcond Hfuel.
  destruct (propagation_bytes neighborOffsetsOut IsInImage onBorder FindBinaryEdgePixels
              fuel c_inSeed c_inMask connectivity iterations s_edgeCondition
              Hgeom Hedge Hmask Hseed Hconn Hcond Hfuel) as (st & Hrun & Hlen & Hbytes).
  exists (map final_sample st). split; [exact Hrun | split].
  - rewrite length_map. exact Hlen.
  - intros i v Hv. rewrite list_lookup_fmap in Hv.
    destruct (st !! i) as [b |] eqn:Hb; [| discriminate].
    simpl in Hv. injection Hv as <-.
    destruct (Hbytes i b Hb) as (m & Hm & Hmb & Hsb).
    unfold final_sample. rewrite final_bits, Hmb.
    split; [destruct (negb (m =? 0) && seeded b); auto |].
    exists m. split; [exact Hm | split].
    + destruct (Z.eqb_spec m 0); [simpl; discriminate | auto].
    + intros s Hf Hs Hs0 Hm0. rewrite (Hsb s Hf Hs Hs0).
      destruct (Z.eqb_spec m 0); [contradiction | reflexivity].
Qed.

(** The theorem for two iterations from a seed of one pixel in a mask of
    eight. *)
Lemma propagation_stays_in_the_mask_witness :
  exists out,
    BinaryPropagation line_offsets (line_IsInImage 8) (line_onBorder 8)
      line_FindBinaryEdgePixels 10 (binary_line [1; 0; 0; 0; 0; 0; 0; 0])
      (binary_line [1; 1; 1; 1; 0; 1; 1; 0]) 1 2 "background" = Some (Returns out) /\
    length out = 8%nat /\
    forall i v, out !! i = Some v ->
      (v = 0 \/ v = 1) /\
      exists m, [1; 1; 1; 1; 0; 1; 1; 0] !! i = Some m /\
        (v = 1 -> m <> 0) /\
        (forall s, true = true -> [1; 0; 0; 0; 0; 0; 0; 0] !! i = Some s ->
           s <> 0 -> m <> 0 -> v = 1).
Proof.
  apply (propagation_stays_in_the_mask line_offsets (line_IsInImage 8) (line_onBorder 8)
           line_FindBinaryEdgePixels 10 (binary_line [1; 0; 0; 0; 0; 0; 0; 0])
           (binary_line [1; 1; 1; 1; 0; 1; 1; 0]) 1 2 "background").
  - intros odd p k offset. apply line_neighbors_in_image.
  - apply line_edge_pixels_in_image.
  - repeat split.
  - right. repeat split. unfold binary_samples. simpl. repeat constructor; lia.
  - simpl. lia.
  - right. reflexivity.
  - simpl. lia.
Defined.

(** X14. For a forged scalar binary image with samples 0 and 1 and a
    connectivity that is not above its dimensionality,
    [EdgeObjectsRemove] (with an output image that is not the input
    image) returns an image of the same number of pixels whose samples
    are 0 or 1, and it only removes: a pixel is set in the result only
    where it is set in the input.  (The embedding is given more fuel
    than the image has pixels.) *)
Theorem edge_objects_remove_only_removes
    (neighborOffsetsOut : bool -> list Z) (IsInImage : bool -> nat -> Z -> bool)
    (onBorder : Z -> bool) (FindBinaryEdgePixels : list Z -> bool -> list Z)
    (fuel : nat) (in_ : Image) (connectivity : Z) :
  (forall odd p k offset,
     0 <= p < Z.of_nat (length (samples in_)) ->
     neighborOffsetsOut odd !! k = Some offset ->
     negb (onBorder p) || IsInImage odd k p = true ->
     0 <= p + offset < Z.of_nat (length (samples in_))) ->
  (forall out outside, Forall (in_buffer out) (FindBinaryEdgePixels out outside)) ->
  valid_mask in_ -> binary_samples (samples in_) ->
  0 <= connectivity <= Z.of_nat (length (sizes in_)) ->
  Z.of_nat (length (sizes in_)) < 2 ^ 63 ->
  (length (samples in_) < fuel)%nat ->
  exists out,
    EdgeObjectsRemove neighborOffsetsOut IsInImage onBorder FindBinaryEdgePixels fuel
      in_ connectivity = Some (Returns out) /\
    length out = length (samples in_) /\
    forall i v, out !! i = Some v ->
      (v = 0 \/ v = 1) /\
      exists m, samples in_ !! i = Some m /\ (v = 1 -> m = 1).
Proof.
  intros Hgeom Hedge Hmask Hbin Hconn Hdims Hfuel.
  assert (Hcast : SaturatedArithmetic.static_cast 64 connectivity = connectivity).
  { apply SaturatedArithmetic.static_cast_representable; [lia |].
    unfold SaturatedArithmetic.representable, SaturatedArithmetic.numeric_limits_lowest,
      SaturatedArithmetic.numeric_limits_max. simpl. lia. }
  destruct (propagation_bytes neighborOffsetsOut IsInImage onBorder FindBinaryEdgePixels
              fuel no_image in_ connectivity 0 "object" Hgeom Hedge Hmask)
    as (st & Hrun & Hlen & Hbytes);
    [left; reflexivity | lia | left; reflexivity | exact Hfuel |].
  exists (xor_assign (map final_sample st) (samples in_)). split; [| split].
  - unfold EdgeObjectsRemove. rewrite Hcast, Hrun. reflexivity.
  - unfold xor_assign. rewrite length_zip_with, length_map. lia.
  - intros i v Hv. unfold xor_assign in Hv.
    apply lookup_zip_with_Some in Hv. destruct Hv as (r & m & -> & Hr & Hm).
    rewrite list_lookup_fmap in Hr.
    destruct (st !! i) as [b |] eqn:Hb; [| discriminate].
    simpl in Hr. injection Hr as <-.
    destruct (Hbytes i b Hb) as (m' & Hm' & Hmb & _).
    assert (m' = m) by congruence. subst m'.
    assert (Hm01 : m = 0 \/ m = 1).
    { unfold binary_samples in Hbin. rewrite Forall_forall in Hbin.
      apply Hbin. apply list_elem_of_lookup. eauto. }
    unfold final_sample. rewrite final_bits, Hmb.
    split; [| exists m; split; [exact Hm |]];
      destruct Hm01 as [-> | ->], (seeded b); simpl; auto; discriminate.
Qed.

(** The theorem for a line of eight pixels. *)
Lemma edge_objects_remove_only_removes_witness :
  exists out,
    EdgeObjectsRemove line_offsets (line_IsInImage 8) (line_onBorder 8)
      line_FindBinaryEdgePixels 10 (binary_line [1; 1; 0; 1; 0; 0; 1; 1]) 1
      = Some (Returns out) /\
    length out = 8%nat /\
    forall i v, out !! i = Some v ->
      (v = 0 \/ v = 1) /\
      exists m, [1; 1; 0; 1; 0; 0; 1; 1] !! i = Some m /\ (v = 1 -> m = 1).
Proof.
  apply (edge_objects_remove_only_removes line_offsets (line_IsInImage 8)
           (line_onBorder 8) line_FindBinaryEdgePixels 10
           (binary_line [1; 1; 0; 1; 0; 0; 1; 1]) 1).
  - intros odd p k offset. apply line_neighbors_in_image.
  - apply line_edge_pixels_in_image.
  - repeat split.
  - unfold binary_samples. simpl. repeat constructor; lia.
  - simpl. lia.
  - simpl. lia.
  - simpl. lia.
Defined.

End PropagationBounds.


(** * The sample the percentile filter writes (src/nonlinear/percentile.cpp)

    The loop of [PercentileLineFilter<TPI>::Filter] over a line, for a
    rank below the number of pixels of the neighbourhood. *)

Module OrderStatistics.
Import Outcome Percentile.
Local Open Scope Z_scope.

(** The numbers of samples of a buffer below and above a value. *)
Definition below (v : Z) (buffer : list Z) : nat := length (filter (fun x => x < v) buffer).
Definition above (v : Z) (buffer : list Z) : nat := length (filter (fun x => v < x) buffer).

(** The samples at the offsets of the pixel table lie in the input
    buffer, for every pixel of the line. *)
Definition in_the_buffer (pixelTable inBuffer : list Z) (pos inStride : Z) (length : nat)
  : Prop :=
  forall (j : nat) (offset : Z), (j < length)%nat -> offset ∈ pixelTable ->
  0 <= pos + Z.of_nat j * inStride + offset < Z.of_nat (List.length inBuffer).

Lemma filter_none {A : Type} (P : A -> Prop) `{forall x, Decision (P x)} (l : list A) :
  Forall (fun x => ~ P x) l -> filter P l = [].
Proof.
  induction 1 as [| x l Hx _ IH]; [reflexivity |].
  rewrite filter_cons_False by exact Hx. exact IH.
Qed.

(** In a sorted buffer, fewer than [r + 1] samples are below the sample
    at [r], and the samples above it come after it. *)
Lemma sorted_counts (sorted : list Z) (r : nat) (v : Z) :
  Sorted Z.le sorted -> sorted !! r = Some v ->
  (below v sorted <= r)%nat /\ (above v sorted + r < length sorted)%nat.
Proof.
  intros Hs Hv.
  assert (Hr : (r < length sorted)%nat) by (eapply lookup_lt_Some; eauto).
  apply Sorted_StronglySorted in Hs; [| intros x y z; lia].
  unfold below, above.
  rewrite <- (take_drop_middle sorted r v Hv) in Hs |- *.
  assert (Hbefore : Forall (fun x => x <= v) (take r sorted)).
  { apply Forall_forall. intros x Hx.
    apply (StronglySorted_app_1_elem_of Z.le _ _ x v Hs Hx). left. }
  assert (Hafter : Forall (fun x => v <= x) (drop (S r) sorted)).
  { apply StronglySorted_app_1_r in Hs. inversion Hs; assumption. }
  rewrite !filter_app, !filter_cons_False by lia.
  rewrite (filter_none (fun x => x < v) (drop (S r) sorted))
    by (eapply Forall_impl; [exact Hafter | simpl; intros; lia]).
  rewrite (filter_none (fun x => v < x) (take r sorted))
    by (eapply Forall_impl; [exact Hbefore | simpl; intros; lia]).
  rewrite app_nil_r, app_nil_l, length_app. simpl.
  pose proof (length_filter (fun x => x < v) (take r sorted)) as H1.
  pose proof (length_filter (fun x => v < x) (drop (S r) sorted)) as H2.
  rewrite length_take in *. rewrite length_drop in *. lia.
Qed.

Lemma gather_returns (pixelTable inBuffer : list Z) (pos : Z) :
  (forall offset, offset ∈ pixelTable ->
     0 <= pos + offset < Z.of_nat (length inBuffer)) ->
  exists buffer, gather inBuffer pos pixelTable = Returns buffer.
Proof.
  unfold gather. induction pixelTable as [| o pixelTable IH]; intros Hin; simpl.
  - eauto.
  - destruct IH as [buffer Hb]; [intros; apply Hin; right; assumption |].
    assert (Ho : 0 <= pos + o < Z.of_nat (length inBuffer)) by (apply Hin; left).
    unfold read at 1.
    replace (0 <=? pos + o) with true by (symmetry; apply Z.leb_le; lia).
    destruct (lookup_lt_is_Some_2 inBuffer (Z.to_nat (pos + o)) ltac:(lia)) as [v Hv].
    rewrite Hv. simpl. rewrite Hb. simpl. eauto.
Qed.

(** The loop over the line, pixel by pixel. *)
Lemma Filter_line_pixels (pixelTable : list Z) (r : Z) (inBuffer : list Z)
    (inStride : Z) (length : nat) :
  forall (pos : Z) (out : list Z),
  Filter_line pixelTable r inBuffer pos inStride length = Returns out ->
  List.length out = length /\
  forall (j : nat) (v : Z), out !! j = Some v ->
  Filter_pixel pixelTable r inBuffer (pos + Z.of_nat j * inStride) = Returns v.
Proof.
  induction length as [| n IH]; intros pos out; simpl.
  - intros [= <-]. split; [reflexivity | intros j v Hj; discriminate].
  - destruct (Filter_pixel pixelTable r inBuffer pos) as [v0 | |] eqn:H0;
      try discriminate.
    simpl.
    destruct (Filter_line pixelTable r inBuffer (pos + inStride) inStride n)
      as [vs | |] eqn:Hrest; try discriminate.
    simpl. intros [= <-]. destruct (IH _ _ Hrest) as [Hlen Hpix].
    split; [simpl; congruence |].
    intros [| j] v Hj; simpl in Hj.
    + injection Hj as <-. rewrite <- H0. f_equal. lia.
    + rewrite <- (Hpix j v Hj). f_equal. lia.
Qed.

Lemma Filter_line_returns (pixelTable : list Z) (r : Z) (inBuffer : list Z)
    (inStride : Z) (length : nat) :
  0 <= r < Z.of_nat (List.length pixelTable) ->
  forall pos : Z,
  in_the_buffer pixelTable inBuffer pos inStride length ->
  exists out, Filter_line pixelTable r inBuffer pos inStride length = Returns out.
Proof.
  intros Hr. induction length as [| n IH]; intros pos Hin; simpl; [eauto |].
  destruct (gather_returns pixelTable inBuffer pos) as [buffer Hb].
  { intros offset Ho. specialize (Hin O offset ltac:(lia) Ho). lia. }
  destruct (Filter_pixel_order_statistic _ _ _ _ _ Hb Hr) as (v & -> & _).
  simpl. destruct (IH (pos + inStride)) as [vs ->]; [| simpl; eauto].
  intros j offset Hj Ho. specialize (Hin (S j) offset ltac:(lia) Ho). lia.
Qed.

(** X15. When the rank is below the number of pixels of the
    neighbourhood and the neighbourhood of every pixel of the line lies
    in the input buffer, the line filter returns one sample for every
    pixel of the line, and that sample is the order statistic of the
    rank among the samples of the pixel's neighbourhood: it is one of
    them, at most [rank] of them are below it, and fewer than
    [N - rank] of them are above it. *)
Theorem line_filter_writes_order_statistics (pixelTable : list Z) (r : Z)
    (inBuffer : list Z) (pos inStride : Z) (length : nat) :
  0 <= r < Z.of_nat (List.length pixelTable) ->
  in_the_buffer pixelTable inBuffer pos inStride length ->
  exists out,
    Filter_line pixelTable r inBuffer pos inStride length = Returns out /\
    List.length out = length /\
    forall (j : nat) (v : Z), out !! j = Some v ->
    exists buffer,
      gather inBuffer (pos + Z.of_nat j * inStride) pixelTable = Returns buffer /\
      v ∈ buffer /\
      (below v buffer <= Z.to_nat r)%nat /\
      (above v buffer + Z.to_nat r < List.length pixelTable)%nat.
Proof.
  intros Hr Hin.
  destruct (Filter_line_returns pixelTable r inBuffer inStride length Hr pos Hin)
    as [out Hrun].
  destruct (Filter_line_pixels _ _ _ _ _ _ _ Hrun) as [Hlen Hpix].
  exists out. split; [exact Hrun | split; [exact Hlen |]].
  intros j v Hj. specialize (Hpix j v Hj).
  assert (Hjl : (j < length)%nat) by (rewrite <- Hlen; eapply lookup_lt_Some; eauto).
  destruct (gather_returns pixelTable inBuffer (pos + Z.of_nat j * inStride))
    as [buffer Hb].
  { intros offset Ho. apply Hin; assumption. }
  exists buffer. split; [exact Hb |].
  destruct (Filter_pixel_order_statistic _ _ _ _ _ Hb Hr)
    as (v' & Hv' & Hlook & Hsorted & Hperm).
  assert (v' = v) by congruence. subst v'.
  destruct (sorted_counts _ _ _ Hsorted Hlook) as [Hbelow Habove].
  pose proof (for_each_length _ _ _ Hb) as Hblen.
  split; [| split].
  - rewrite <- Hperm. apply list_elem_of_lookup. eauto.
  - unfold below in *. rewrite <- Hperm. exact Hbelow.
  - unfold above in *. rewrite <- Hblen.
    rewrite <- Hperm at 1. rewrite <- (Permutation_length Hperm). exact Habove.
Qed.

(** The theorem at the line of the examples, for the median. *)
Lemma line_filter_writes_order_statistics_witness :
  exists out,
    Filter_line a_kernel 1 a_line 1 1 5 = Returns out /\
    List.length out = 5%nat /\
    forall (j : nat) (v : Z), out !! j = Some v ->
    exists buffer,
      gather a_line (1 + Z.of_nat j * 1) a_kernel = Returns buffer /\
      v ∈ buffer /\
      (below v buffer <= Z.to_nat 1)%nat /\
      (above v buffer + Z.to_nat 1 < List.length a_kernel)%nat.
Proof.
  apply line_filter_writes_order_statistics.
  - simpl. lia.
  - intros j offset Hj Ho. unfold a_kernel in Ho. simpl.
    assert (Hcases : offset = -1 \/ offset = 0 \/ offset = 1).
    { repeat (apply elem_of_cons in Ho; destruct Ho as [-> | Ho]; [tauto |]).
      apply elem_of_nil in Ho. contradiction. }
    lia.
Defined.

End OrderStatistics.


(** * The runs of a rectangular pixel table (src/library/pixel_table.cpp)

    The part of [PixelTable( shape, size, procDim )] for the shape
    [rectangular] that fills [runs_] and [nPixels_], after [sizes_] and
    [origin_] have been computed. *)

Module RectangularRuns.
Import Outcome Dfloat PixelTable.
Local Open Scope Z_scope.

(** [PixelTable::PixelRun] *)
Record PixelRun : Set := {
  coordinates : list Z;   (* IntegerArray *)
  length : Z              (* dip::uint *)
}.

(** [for( dip::uint ii = 0; ii < nDims; ++ii ) { if( ii != procDim ) { nRuns *= sizes_[ ii ]; }}];
    [ii] counts the dimensions that came before. *)
Fixpoint nRuns_loop (procDim ii : Z) (sizes : list Z) (nRuns : Z) : Z :=
  match sizes with
  | [] => nRuns
  | s :: sizes =>
      nRuns_loop procDim (ii + 1) sizes (if ii =? procDim then nRuns else uint (nRuns * s))
  end.

(** The bookkeeping at the end of a turn of the loop over the runs:
    [for( ; ii < nDims; ++ii ) {
       if( ii == procDim ) { continue; }
       ++cor[ ii ];
       if( cor[ ii ] >= origin_[ ii ] + static_cast< dip::sint >( sizes_[ ii ] )) {
          cor[ ii ] = origin_[ ii ]; continue; }
       break; }]
    The result is the next value of [cor], or nothing when the loop over
    [ii] reached [nDims], which ends the loop over the runs. *)
Fixpoint bookkeeping (procDim ii : Z) (origin sizes cor : list Z) : option (list Z) :=
  match cor, origin, sizes with
  | c :: cor, o :: origin, s :: sizes =>
      if ii =? procDim then
        cons c <$> bookkeeping procDim (ii + 1) origin sizes cor
      else if o + sint_of_uint s <=? c + 1 then
        cons o <$> bookkeeping procDim (ii + 1) origin sizes cor
      else Some (c + 1 :: cor)
  | _, _, _ => None
  end.

(** [for( ;; ) { runs_.emplace_back( cor, length ); ... }]; [fuel] bounds
    the number of turns the embedding follows, and nothing is returned
    when it was too small. *)
Fixpoint fill (fuel : nat) (procDim : Z) (origin sizes : list Z) (len : Z) (cor : list Z)
  : option (list PixelRun) :=
  match fuel with
  | O => None
  | S fuel =>
      let run := {| coordinates := cor; length := len |} in
      match bookkeeping procDim 0 origin sizes cor with
      | Some cor => cons run <$> fill fuel procDim origin sizes len cor
      | None => Some [run]
      end
  end.

(** The runs and the number of pixels of the table with the given
    [sizes_] and [origin_]. *)
Definition rectangular_runs (fuel : nat) (pt : PixelTable.PixelTable)
  : option (outcome (list PixelRun * Z)) :=
  let nRuns := nRuns_loop (procDim_ pt) 0 (sizes_ pt) 1 in
  match (if 0 <=? procDim_ pt then sizes_ pt !! Z.to_nat (procDim_ pt) else None) with
  | None => Some Undefined
  | Some len =>
      let nPixels_ := uint (nRuns * len) in
      runs ← fill fuel (procDim_ pt) (origin_ pt) (sizes_ pt) len (origin_ pt);
      Some (Returns (runs, nPixels_))
  end.

(** The whole constructor for a rectangle. *)
Definition rectangular_table (fuel : nat) (size : list dfloat) (procDim : Z)
  : option (outcome (list PixelRun * Z)) :=
  match PixelTable_ctor "rectangular" size procDim with
  | Returns pt => rectangular_runs fuel pt
  | Throws e => Some (Throws e)
  | Undefined => Some Undefined
  end.

(** The doctest of the file: 33 runs and 22 * 33 pixels. *)
Example doctest_rectangular_runs :
  (fun r => (Z.of_nat (List.length (fst r)), snd r)) <$>
    default Undefined (rectangular_table 40 [22.2; 33.3]%float 0)
  = Returns (33, 22 * 33).
Proof. vm_compute. reflexivity. Qed.

Example rectangle_3x2_runs :
  rectangular_table 10 [3; 2]%float 0 =
  Some (Returns ([ {| coordinates := [-1; -1]; length := 3 |};
                   {| coordinates := [-1; 0]; length := 3 |} ], 6)).
Proof. vm_compute. reflexivity. Qed.

(** ** Properties *)

(** The start of a line of the rectangle: at the origin along the
    processing dimension, within the sizes along the others. *)
Fixpoint on_line (procDim ii : Z) (origin sizes cor : list Z) : Prop :=
  match cor, origin, sizes with
  | c :: cor, o :: origin, s :: sizes =>
      (if ii =? procDim then c = o else o <= c < o + s) /\
      on_line procDim (ii + 1) origin sizes cor
  | [], [], [] => True
  | _, _, _ => False
  end.

(** The number of the line, when the first dimension runs fastest. *)
Fixpoint rank (procDim ii : Z) (origin sizes cor : list Z) : Z :=
  match cor, origin, sizes with
  | c :: cor, o :: origin, s :: sizes =>
      if ii =? procDim then rank procDim (ii + 1) origin sizes cor
      else (c - o) + s * rank procDim (ii + 1) origin sizes cor
  | _, _, _ => 0
  end.

(** The number of lines: the product of the sizes but the one along the
    processing dimension. *)
Fixpoint lines (procDim ii : Z) (sizes : list Z) : Z :=
  match sizes with
  | [] => 1
  | s :: sizes => (if ii =? procDim then 1 else s) * lines procDim (ii + 1) sizes
  end.

Definition product (sizes : list Z) : Z := fold_right Z.mul 1 sizes.

Definition extents (sizes : list Z) : Prop := Forall (fun s => 1 <= s < 2 ^ 63) sizes.

Lemma sint_of_uint_small (s : Z) : 0 <= s < 2 ^ 63 -> sint_of_uint s = s.
Proof. intros H. unfold sint_of_uint. rewrite Z.mod_small; lia. Qed.

Lemma lines_pos (procDim : Z) (sizes : list Z) :
  extents sizes -> forall ii, 1 <= lines procDim ii sizes.
Proof.
  induction 1 as [| s sizes Hs _ IH]; intros ii; simpl; [lia |].
  specialize (IH (ii + 1)). destruct (ii =? procDim); nia.
Qed.

Lemma rank_range (procDim : Z) (sizes : list Z) :
  extents sizes -> forall ii origin cor,
  on_line procDim ii origin sizes cor ->
  0 <= rank procDim ii origin sizes cor < lines procDim ii sizes.
Proof.
  induction 1 as [| s sizes Hs _ IH]; intros ii origin cor Hon.
  - destruct cor, origin; simpl in *; try contradiction; lia.
  - destruct cor as [| c cor], origin as [| o origin]; simpl in *; try contradiction.
    destruct Hon as [Hc Hon]. specialize (IH _ _ _ Hon).
    destruct (ii =? procDim); nia.
Qed.

Lemma rank_inj (procDim : Z) (sizes : list Z) :
  extents sizes -> forall ii origin cor cor',
  on_line procDim ii origin sizes cor -> on_line procDim ii origin sizes cor' ->
  rank procDim ii origin sizes cor = rank procDim ii origin sizes cor' -> cor = cor'.
Proof.
  induction 1 as [| s sizes Hs Hext IH]; intros ii origin cor cor' Hon Hon' Heq.
  - destruct cor, cor', origin; simpl in *; try contradiction; reflexivity.
  - destruct cor as [| c cor], cor' as [| c' cor'], origin as [| o origin];
      simpl in *; try contradiction.
    destruct Hon as [Hc Hon], Hon' as [Hc' Hon'].
    pose proof (rank_range procDim sizes Hext _ _ _ Hon) as Hr.
    pose proof (rank_range procDim sizes Hext _ _ _ Hon') as Hr'.
    destruct (ii =? procDim).
    + f_equal; [congruence | eapply IH; eauto].
    + assert (rank procDim (ii + 1) origin sizes cor
              = rank procDim (ii + 1) origin sizes cor') by nia.
      f_equal; [nia | eapply IH; eauto].
Qed.

Lemma on_line_origin (procDim : Z) (sizes : list Z) :
  extents sizes -> forall ii,
  on_line procDim ii (map origin_of_size sizes) sizes (map origin_of_size sizes) /\
  rank procDim ii (map origin_of_size sizes) sizes (map origin_of_size sizes) = 0.
Proof.
  induction 1 as [| s sizes Hs _ IH]; intros ii; simpl; [auto |].
  destruct (IH (ii + 1)) as [Hon Hr]. rewrite Hr.
  destruct (ii =? procDim); (split; [split; [lia | exact Hon] | lia]).
Qed.

(** The bookkeeping moves to the next line, and ends after the last. *)
Lemma bookkeeping_next (procDim : Z) (sizes : list Z) :
  extents sizes -> forall ii origin cor,
  on_line procDim ii origin sizes cor ->
  match bookkeeping procDim ii origin sizes cor with
  | Some cor' =>
      on_line procDim ii origin sizes cor' /\
      rank procDim ii origin sizes cor' = rank procDim ii origin sizes cor + 1
  | None =>
      rank procDim ii origin sizes cor = lines procDim ii sizes - 1 /\
      rank procDim ii origin sizes origin = 0
  end.
Proof.
  induction 1 as [| s sizes Hs Hext IH]; intros ii origin cor Hon.
  - destruct cor, origin; simpl in *; try contradiction. lia.
  - destruct cor as [| c cor], origin as [| o origin]; simpl in *; try contradiction.
    destruct Hon as [Hc Hon]. specialize (IH _ _ _ Hon).
    pose proof (lines_pos procDim sizes Hext (ii + 1)) as Hl.
    rewrite sint_of_uint_small by lia.
    destruct (ii =? procDim).
    + destruct (bookkeeping procDim (ii + 1) origin sizes cor) as [cor' |]; simpl.
      * destruct IH as [Hon' Hr]. auto.
      * destruct IH as [Hr H0]. split; [lia | exact H0].
    + destruct (Z.leb_spec (o + s) (c + 1)).
      * destruct (bookkeeping procDim (ii + 1) origin sizes cor) as [cor' |]; simpl.
        -- destruct IH as [Hon' Hr]. split; [split; [lia | exact Hon'] | nia].
        -- destruct IH as [Hr H0]. split; [nia | nia].
      * simpl. split; [split; [lia | exact Hon] | lia].
Qed.

(** From the line [cor] on, the loop emits one run for every line that
    is left, in the order of their numbers. *)
Lemma fill_spec (procDim : Z) (origin sizes : list Z) (len : Z) (fuel : nat) :
  extents sizes -> forall cor,
  on_line procDim 0 origin sizes cor ->
  lines procDim 0 sizes - rank procDim 0 origin sizes cor <= Z.of_nat fuel ->
  exists runs,
    fill fuel procDim origin sizes len cor = Some runs /\
    Forall (fun r => length r = len /\
                     on_line procDim 0 origin sizes (coordinates r)) runs /\
    map (fun r => rank procDim 0 origin sizes (coordinates r)) runs =
    seqZ (rank procDim 0 origin sizes cor)
         (lines procDim 0 sizes - rank procDim 0 origin sizes cor).
Proof.
  intros Hext. induction fuel as [| fuel IH]; intros cor Hon Hfuel.
  - pose proof (rank_range procDim sizes Hext _ _ _ Hon). lia.
  - pose proof (rank_range procDim sizes Hext _ _ _ Hon) as Hr.
    pose proof (bookkeeping_next procDim sizes Hext 0 origin cor Hon) as Hnext.
    simpl. destruct (bookkeeping procDim 0 origin sizes cor) as [cor' |].
    + destruct Hnext as [Hon' Hr'].
      destruct (IH cor' Hon') as (runs & -> & Hall & Hranks); [lia |].
      eexists. split; [reflexivity |]. split.
      * constructor; [split; [reflexivity | exact Hon] | exact Hall].
      * simpl. rewrite Hranks, Hr'.
        rewrite (seqZ_cons (rank procDim 0 origin sizes cor)) by lia.
        f_equal. f_equal; lia.
    + destruct Hnext as [Hlast _].
      eexists. split; [reflexivity |]. split.
      * constructor; [split; [reflexivity | exact Hon] | constructor].
      * simpl. rewrite Hlast.
        replace (lines procDim 0 sizes - (lines procDim 0 sizes - 1)) with 1 by lia.
        reflexivity.
Qed.

Lemma nRuns_loop_lines (procDim : Z) (sizes : list Z) :
  extents sizes -> forall ii nRuns,
  0 <= nRuns -> nRuns * lines procDim ii sizes < 2 ^ 64 ->
  nRuns_loop procDim ii sizes nRuns = nRuns * lines procDim ii sizes.
Proof.
  induction 1 as [| s sizes Hs Hext IH]; intros ii nRuns H0 Hfit; simpl in *; [lia |].
  pose proof (lines_pos procDim sizes Hext (ii + 1)) as Hl.
  destruct (ii =? procDim).
  - rewrite IH; [lia | lia | nia].
  - unfold uint. rewrite Z.mod_small by nia. rewrite IH; [lia | nia | nia].
Qed.

Lemma lines_product (sizes : list Z) :
  forall (procDim ii len : Z), ii <= procDim ->
  sizes !! Z.to_nat (procDim - ii) = Some len ->
  lines procDim ii sizes * len = product sizes.
Proof.
  induction sizes as [| s sizes IH]; intros procDim ii len Hii Hlen; [discriminate |].
  simpl. destruct (Z.eqb_spec ii procDim) as [-> | Hne].
  - rewrite Z.sub_diag in Hlen. simpl in Hlen. injection Hlen as ->.
    assert (Hrest : forall jj, procDim < jj -> lines procDim jj sizes = product sizes).
    { clear. induction sizes as [| s sizes IH]; intros jj Hjj; simpl; [reflexivity |].
      destruct (Z.eqb_spec jj procDim); [lia |]. rewrite IH by lia. reflexivity. }
    rewrite Hrest by lia. lia.
  - replace (Z.to_nat (procDim - ii)) with (S (Z.to_nat (procDim - (ii + 1)))) in Hlen
      by lia.
    simpl in Hlen. rewrite <- (IH procDim (ii + 1) len) by (try lia; exact Hlen). lia.
Qed.

(** X16. For sizes of at least 1 whose product fits [dip::uint] and a
    processing dimension among them, the constructor of a rectangular
    pixel table emits exactly one run for every line of the rectangle:
    every run has the length [sizes_[ procDim ]] and starts on a line of
    the rectangle, no two runs start at the same coordinates, every line
    has its run, and [nPixels_], the number of runs times that length, is
    the product of the sizes.  (The embedding is given as much fuel as
    there are lines.) *)
Theorem rectangular_runs_cover_the_rectangle (fuel : nat) (sizes : list Z)
    (procDim len : Z) :
  extents sizes -> 0 <= procDim -> sizes !! Z.to_nat procDim = Some len ->
  product sizes < 2 ^ 64 ->
  lines procDim 0 sizes <= Z.of_nat fuel ->
  exists runs,
    rectangular_runs fuel (make sizes procDim) = Some (Returns (runs, product sizes)) /\
    Z.of_nat (List.length runs) * len = product sizes /\
    Forall (fun r => length r = len) runs /\
    NoDup (map coordinates runs) /\
    forall cor, cor ∈ map coordinates runs <->
                on_line procDim 0 (map origin_of_size sizes) sizes cor.
Proof.
  intros Hext Hproc Hlen Hfit Hfuel.
  pose proof (lines_pos procDim sizes Hext 0) as Hl.
  pose proof (lines_product sizes procDim 0 len Hproc
                ltac:(rewrite Z.sub_0_r; exact Hlen)) as Hprod.
  destruct (on_line_origin procDim sizes Hext 0) as [Hon H0].
  destruct (fill_spec procDim (map origin_of_size sizes) sizes len fuel Hext _ Hon)
    as (runs & Hrun & Hall & Hranks); [lia |].
  rewrite H0, Z.sub_0_r in Hranks.
  assert (Hlen1 : 1 <= len).
  { unfold extents in Hext. rewrite Forall_forall in Hext.
    apply (Hext len). apply list_elem_of_lookup. eauto. }
  exists runs. split; [| split; [| split; [| split]]].
  - unfold rectangular_runs, make. cbn [procDim_ sizes_ origin_].
    replace (0 <=? procDim) with true by (symmetry; apply Z.leb_le; lia).
    rewrite Hlen, Hrun. cbn [mbind option_bind].
    rewrite nRuns_loop_lines by (try assumption; nia).
    unfold uint. rewrite Z.mod_small by nia. do 3 f_equal. lia.
  - assert (Hcount : List.length runs = Z.to_nat (lines procDim 0 sizes)).
    { rewrite <- (length_map (fun r => rank procDim 0 (map origin_of_size sizes) sizes
                                            (coordinates r)) runs), Hranks.
      apply length_seqZ. }
    rewrite Hcount, Z2Nat.id by lia. exact Hprod.
  - eapply Forall_impl; [exact Hall |]. simpl. tauto.
  - apply (NoDup_fmap_1 (rank procDim 0 (map origin_of_size sizes) sizes)).
    rewrite <- list_fmap_compose. unfold compose.
    change (NoDup (map (fun r => rank procDim 0 (map origin_of_size sizes) sizes
                                   (coordinates r)) runs)).
    rewrite Hranks. apply NoDup_seqZ.
  - intros cor. split.
    + intros Hin. apply list_elem_of_fmap in Hin. destruct Hin as (r & -> & Hr).
      rewrite Forall_forall in Hall. apply (Hall r Hr).
    + intros Hcor.
      pose proof (rank_range procDim sizes Hext _ _ _ Hcor) as Hrange.
      assert (Hin : rank procDim 0 (map origin_of_size sizes) sizes cor ∈
                    map (fun r => rank procDim 0 (map origin_of_size sizes) sizes
                                    (coordinates r)) runs).
      { rewrite Hranks. apply elem_of_seqZ. lia. }
      apply list_elem_of_fmap in Hin. destruct Hin as (r & Heq & Hr).
      apply list_elem_of_fmap. exists r. split; [| exact Hr].
      rewrite Forall_forall in Hall. destruct (Hall r Hr) as [_ Hon'].
      eapply rank_inj; eauto.
Qed.

(** The theorem at the sizes of the doctest. *)
Lemma rectangular_runs_cover_the_rectangle_witness :
  exists runs,
    rectangular_runs 40 (make [22; 33] 0) = Some (Returns (runs, product [22; 33])) /\
    Z.of_nat (List.length runs) * 22 = product [22; 33] /\
    Forall (fun r => length r = 22) runs /\
    NoDup (map coordinates runs) /\
    forall cor, cor ∈ map coordinates runs <->
                on_line 0 0 (map origin_of_size [22; 33]) [22; 33] cor.
Proof.
  apply (rectangular_runs_cover_the_rectangle 40 [22; 33] 0 22).
  - repeat constructor; lia.
  - lia.
  - reflexivity.
  - simpl. lia.
  - simpl. lia.
Defined.

End RectangularRuns.


(** * Saturated arithmetic on binary samples (include/diplib/saturated_arithmetic.h)

    The specialisations of the operators for [dip::bin], a sample that is
    true or false. *)

Module SaturatedBinary.

Definition bin : Set := bool.

(** [return lhs | rhs;] *)
Definition saturated_add (lhs rhs : bin) : bin := lhs || rhs.

(** [return lhs & !rhs;] *)
Definition saturated_sub (lhs rhs : bin) : bin := lhs && negb rhs.

(** [return lhs & rhs;] *)
Definition saturated_mul (lhs rhs : bin) : bin := lhs && rhs.

(** [return lhs ^ rhs;] *)
Definition saturated_div (lhs rhs : bin) : bin := xorb lhs rhs.

(** [return !v;] *)
Definition saturated_inv (v : bin) : bin := negb v.

(** X17. On binary samples the operators are those of sets: what a
    subtraction leaves and what a multiplication keeps add up to the
    left operand and have nothing in common, the division is the sum of
    the two differences, the inversion undoes itself and turns a sum
    into the product of the inversions, and a subtraction is the product
    with the inversion. *)
Theorem binary_operators_are_set_operations (lhs rhs : bin) :
  saturated_add (saturated_sub lhs rhs) (saturated_mul lhs rhs) = lhs /\
  saturated_mul (saturated_sub lhs rhs) (saturated_mul lhs rhs) = false /\
  saturated_div lhs rhs =
    saturated_add (saturated_sub lhs rhs) (saturated_sub rhs lhs) /\
  saturated_inv (saturated_inv lhs) = lhs /\
  saturated_inv (saturated_add lhs rhs) =
    saturated_mul (saturated_inv lhs) (saturated_inv rhs) /\
  saturated_sub lhs rhs = saturated_mul lhs (saturated_inv rhs).
Proof. destruct lhs, rhs; repeat split. Qed.

End SaturatedBinary.


(** * Sup-generating operator, thickening and thinning
      (src/binary/sup_inf_generator.cpp)

    [SupGenerating] and [ThickeningThinning], from which [Thickening] and
    [Thinning] are made.  An image is what the functions read of it; a
    binary sample is set when it is not 0. *)

Module HitAndMiss.
Import Outcome Images Interval SaturatedBinary.
Local Open Scope Z_scope.

(** Modelled from the spec: the constant of diplib/library/error.h that
    the functions below name; it stands for its name. *)
Definition ARRAY_PARAMETER_WRONG_LENGTH : Error := Message "E::ARRAY_PARAMETER_WRONG_LENGTH".

Definition to_bin (v : Z) : bin := negb (v =? 0).
Definition of_bin (b : bin) : Z := if b then 1 else 0.

(** Modelled from the spec: the compound assignments [lhs += rhs],
    [lhs -= rhs] and [lhs &= rhs] of two binary images of the same sizes.
    They apply the saturated addition, the saturated subtraction and the
    conjunction to each pair of samples, and leave the result in
    [lhs]. *)
Definition assign (op : bin -> bin -> bin) (lhs rhs : Image) : Image :=
  {| forged := forged lhs; sizes := sizes lhs; tensorElements := tensorElements lhs;
     dataType := dataType lhs;
     samples := zip_with (fun l r => of_bin (op (to_bin l) (to_bin r)))
                  (samples lhs) (samples rhs) |}.

Definition add_assign : Image -> Image -> Image := assign saturated_add.
Definition sub_assign : Image -> Image -> Image := assign saturated_sub.
Definition and_assign : Image -> Image -> Image := assign andb.

(** Modelled from the spec: [Interval::HatMissSamples()].  The
    constructors strip the miss image when it has no sample set, so the
    interval has miss samples when that image is forged. *)
Definition HatMissSamples (interval : Interval) : bool := IsForged (miss_ interval).

Section Morphology.

(** [Erosion( in, out, se )] and [Dilation( in, out, se )] of
    diplib/morphology.h, with the structuring element made from an
    image. *)
Variable Erosion : Image -> Image -> outcome Image.
Variable Dilation : Image -> Image -> outcome Image.

(** [SupGenerating( c_in, out, interval )], for an output image that is
    not the input image: the value of [out]. *)
Definition SupGenerating (c_in : Image) (interval : Interval) : outcome Image :=
  DIP_THROW_IF (negb (IsForged c_in)) IMAGE_NOT_FORGED;;
  DIP_THROW_IF (negb (IsScalar c_in)) IMAGE_NOT_SCALAR;;
  DIP_THROW_IF (negb (IsBinary (dataType c_in))) DATA_TYPE_NOT_SUPPORTED;;
  out ← Erosion c_in (hit_ interval);
  if HatMissSamples interval then
    dilated ← Dilation c_in (miss_ interval);
    mret (sub_assign out dilated)
  else mret out.

(** [for( auto const& in : intervals ) { ... }] in [ThickeningThinning];
    the state is [out] and [change]. *)
Fixpoint intervals_loop (mask : Image) (thickening untilConvergence : bool)
    (intervals : list Interval) (out : Image) (change : bool)
  : outcome (Image * bool) :=
  match intervals with
  | [] => Returns (out, change)
  | interval :: intervals =>
      tmp ← SupGenerating out interval;
      let tmp := if IsForged mask then and_assign tmp mask else tmp in
      let out := if thickening then add_assign out tmp else sub_assign out tmp in
      let change := if untilConvergence && Any tmp then true else change in
      intervals_loop mask thickening untilConvergence intervals out change
  end.

(** [while( true ) { ... }] in [ThickeningThinning]; [fuel] bounds the
    number of turns the embedding follows, and nothing is returned when
    it was too small. *)
Fixpoint while_loop (fuel : nat) (mask : Image) (thickening untilConvergence : bool)
    (intervals : list Interval) (iterations : Z) (out : Image)
  : option (outcome Image) :=
  match fuel with
  | O => None
  | S fuel =>
      match intervals_loop mask thickening untilConvergence intervals out false with
      | Returns (out, change) =>
          if untilConvergence then
            if negb change then Some (Returns out)
            else while_loop fuel mask thickening untilConvergence intervals iterations out
          else
            let iterations := (iterations - 1) mod 2 ^ 64 in
            if iterations =? 0 then Some (Returns out)
            else while_loop fuel mask thickening untilConvergence intervals iterations out
      | Throws e => Some (Throws e)
      | Undefined => Some Undefined
      end
  end.

(** [ThickeningThinning], for an output image that is not the input
    image: the value of [out]. *)
Definition ThickeningThinning (fuel : nat) (c_in mask : Image) (intervals : list Interval)
    (iterations : Z) (thickening : bool) : option (outcome Image) :=
  match
    (DIP_THROW_IF (negb (IsForged c_in)) IMAGE_NOT_FORGED;;
     DIP_THROW_IF (negb (IsScalar c_in)) IMAGE_NOT_SCALAR;;
     DIP_THROW_IF (negb (IsBinary (dataType c_in))) DATA_TYPE_NOT_SUPPORTED;;
     DIP_THROW_IF (bool_decide (intervals = [])) ARRAY_PARAMETER_WRONG_LENGTH)
  with
  | Returns _ =>
      let untilConvergence := iterations =? 0 in
      (* out.Copy( in ) *)
      while_loop fuel mask thickening untilConvergence intervals iterations c_in
  | Throws e => Some (Throws e)
  | Undefined => Some Undefined
  end.

Definition Thickening (fuel : nat) (in_ mask : Image) (intervals : list Interval)
    (iterations : Z) : option (outcome Image) :=
  ThickeningThinning fuel in_ mask intervals iterations true.

Definition Thinning (fuel : nat) (in_ mask : Image) (intervals : list Interval)
    (iterations : Z) : option (outcome Image) :=
  ThickeningThinning fuel in_ mask intervals iterations false.

(** ** Properties *)

(** [changed thickening mask a b]: image [b] has the header of [a] and a
    sample for each of its samples; a thickening has only set samples, a
    thinning has only cleared samples, and where a forged mask is not set
    the sample is set in both or in neither. *)
Definition changed (thickening : bool) (mask a b : Image) : Prop :=
  forged b = forged a /\ sizes b = sizes a /\ tensorElements b = tensorElements a /\
  dataType b = dataType a /\ length (samples b) = length (samples a) /\
  forall i v, samples a !! i = Some v ->
  exists w, samples b !! i = Some w /\
    (if thickening then to_bin v = true -> to_bin w = true
     else to_bin w = true -> to_bin v = true) /\
    (IsForged mask = true -> (exists m, samples mask !! i = Some m /\ to_bin m = false) ->
     to_bin w = to_bin v).

Lemma changed_refl (thickening : bool) (mask a : Image) : changed thickening mask a a.
Proof.
  repeat split; auto. intros i v Hv. exists v. destruct thickening; auto.
Qed.

Lemma changed_trans (thickening : bool) (mask a b c : Image) :
  changed thickening mask a b -> changed thickening mask b c ->
  changed thickening mask a c.
Proof.
  intros (F1 & S1 & T1 & D1 & L1 & P1) (F2 & S2 & T2 & D2 & L2 & P2).
  repeat split; try congruence.
  intros i v Hv. destruct (P1 i v Hv) as (w & Hw & Hdir1 & Hmask1).
  destruct (P2 i w Hw) as (u & Hu & Hdir2 & Hmask2).
  exists u. split; [exact Hu | split].
  - destruct thickening; auto.
  - intros Hf Hm. rewrite Hmask2, Hmask1 by assumption. reflexivity.
Qed.

Lemma to_bin_of_bin (b : bin) : to_bin (of_bin b) = b.
Proof. destruct b; reflexivity. Qed.

Definition binary_scalar (img : Image) : Prop :=
  IsForged img = true /\ IsScalar img = true /\ IsBinary (dataType img) = true.

(** [alike img like]: the image has the sizes and the number of samples
    of [like]. *)
Definition alike (img like : Image) : Prop :=
  sizes img = sizes like /\ length (samples img) = length (samples like).

(** [op] accepts the structuring element [se] on the images like
    [like]: for a forged scalar binary image of those sizes it returns
    an image with a sample for each sample.  Nothing is asked of [op]
    on other images, which it may refuse. *)
Definition accepts (op : Image -> Image -> outcome Image) (like se : Image) : Prop :=
  forall img, binary_scalar img -> alike img like ->
  exists r, op img se = Returns r /\ length (samples r) = length (samples img).

(** The calls that [SupGenerating] makes for an interval are accepted:
    the erosion by the hit image and, if there are miss samples, the
    dilation by the miss image. *)
Definition operators_accept (like : Image) (interval : Interval) : Prop :=
  accepts Erosion like (hit_ interval) /\
  (HatMissSamples interval = true -> accepts Dilation like (miss_ interval)).

Lemma SupGenerating_returns (like c_in : Image) (interval : Interval) :
  binary_scalar c_in -> alike c_in like -> operators_accept like interval ->
  exists out, SupGenerating c_in interval = Returns out /\
              length (samples out) = length (samples c_in).
Proof.
  intros Hin Hlike [Hero Hdil]. pose proof Hin as (Hf & Hs & Hb).
  unfold SupGenerating. rewrite Hf, Hs, Hb. simpl.
  destruct (Hero c_in Hin Hlike) as (e & -> & He). simpl.
  destruct (HatMissSamples interval); [| eauto].
  destruct (Hdil eq_refl c_in Hin Hlike) as (d & -> & Hd). simpl.
  eexists. split; [reflexivity |]. simpl. rewrite length_zip_with. lia.
Qed.

(** One turn of the loop over the intervals. *)
Lemma update_changed (thickening : bool) (mask out tmp : Image) :
  length (samples tmp) = length (samples out) ->
  (IsForged mask = true -> length (samples mask) = length (samples out)) ->
  changed thickening mask out
    (let tmp := if IsForged mask then and_assign tmp mask else tmp in
     if thickening then add_assign out tmp else sub_assign out tmp).
Proof.
  intros Htmp Hmask.
  set (tmp' := if IsForged mask then and_assign tmp mask else tmp).
  assert (Hlen : length (samples tmp') = length (samples out)).
  { unfold tmp'. destruct (IsForged mask); [| exact Htmp].
    simpl. rewrite length_zip_with. specialize (Hmask eq_refl). lia. }
  assert (Hmasked : forall i t, samples tmp' !! i = Some t -> IsForged mask = true ->
            (exists m, samples mask !! i = Some m /\ to_bin m = false) ->
            to_bin t = false).
  { intros i t Ht Hf (m & Hm & Hm0). unfold tmp' in Ht. rewrite Hf in Ht.
    simpl in Ht. apply lookup_zip_with_Some in Ht.
    destruct Ht as (x & m' & -> & _ & Hm').
    assert (m' = m) by congruence. subst m'.
    rewrite to_bin_of_bin, Hm0. apply andb_false_r. }
  cbv zeta. fold tmp'.
  assert (Hpix : forall i v, samples out !! i = Some v ->
            exists t, samples tmp' !! i = Some t).
  { intros i v Hv. apply lookup_lt_is_Some. rewrite Hlen.
    eapply lookup_lt_Some; eauto. }
  destruct thickening; unfold changed, add_assign, sub_assign, assign;
    cbn [forged sizes tensorElements dataType samples];
    (do 4 (split; [reflexivity |])); (split; [rewrite length_zip_with; lia |]).
  - intros i v Hv. destruct (Hpix i v Hv) as [t Ht].
    eexists. split; [apply lookup_zip_with_Some; eauto |].
    rewrite to_bin_of_bin. unfold saturated_add. split.
    + intros ->. reflexivity.
    + intros Hf Hm. rewrite (Hmasked i t Ht Hf Hm). apply orb_false_r.
  - intros i v Hv. destruct (Hpix i v Hv) as [t Ht].
    eexists. split; [apply lookup_zip_with_Some; eauto |].
    rewrite to_bin_of_bin. unfold saturated_sub. split.
    + intros H. apply andb_prop in H. tauto.
    + intros Hf Hm. rewrite (Hmasked i t Ht Hf Hm). apply andb_true_r.
Qed.

Lemma binary_scalar_changed (thickening : bool) (mask a b : Image) :
  binary_scalar a -> changed thickening mask a b -> binary_scalar b.
Proof.
  unfold binary_scalar, IsForged, IsScalar.
  intros (Hf & Hs & Hb) (F & _ & T & D & _). rewrite F, T, D. auto.
Qed.

Lemma alike_changed (thickening : bool) (mask a b like : Image) :
  alike a like -> changed thickening mask a b -> alike b like.
Proof.
  intros [Hs Hl] (_ & S & _ & _ & L & _). split; congruence.
Qed.

Lemma intervals_loop_spec (like mask : Image) (thickening untilConvergence : bool)
    (intervals : list Interval) :
  forall (out : Image) (change : bool),
  Forall (operators_accept like) intervals ->
  binary_scalar out -> alike out like ->
  (IsForged mask = true -> length (samples mask) = length (samples out)) ->
  exists out' change',
    intervals_loop mask thickening untilConvergence intervals out change
      = Returns (out', change') /\
    changed thickening mask out out'.
Proof.
  induction intervals as [| interval intervals IH];
    intros out change Hacc Hout Hlike Hmask; simpl.
  - exists out, change. split; [reflexivity | apply changed_refl].
  - inversion Hacc as [| ? ? Hfirst Hrest]; subst.
    destruct (SupGenerating_returns like out interval Hout Hlike Hfirst)
      as (tmp & -> & Htmp).
    simpl.
    pose proof (update_changed thickening mask out tmp Htmp Hmask) as Hstep.
    cbv zeta in Hstep.
    set (out1 := if thickening then _ else _) in *.
    destruct (IH out1 (if untilConvergence &&
                          Any (if IsForged mask then and_assign tmp mask else tmp)
                       then true else change) Hrest)
      as (out' & change' & Hrun & Hnext).
    + eapply binary_scalar_changed; eauto.
    + eapply alike_changed; eauto.
    + intros Hf. destruct Hstep as (_ & _ & _ & _ & L & _). rewrite L. auto.
    + exists out', change'. split; [exact Hrun |].
      eapply changed_trans; eauto.
Qed.

(** Whenever the loop returns, its result is a thickening or a thinning
    of what it started from. *)
Lemma while_loop_changed (like mask : Image) (thickening untilConvergence : bool)
    (intervals : list Interval) (fuel : nat) :
  Forall (operators_accept like) intervals ->
  forall (iterations : Z) (out result : Image),
  binary_scalar out -> alike out like ->
  (IsForged mask = true -> length (samples mask) = length (samples out)) ->
  while_loop fuel mask thickening untilConvergence intervals iterations out
    = Some (Returns result) ->
  changed thickening mask out result.
Proof.
  intros Hacc.
  induction fuel as [| fuel IH]; intros iterations out result Hout Hlike Hmask; simpl;
    [discriminate |].
  destruct (intervals_loop_spec like mask thickening untilConvergence intervals out false
              Hacc Hout Hlike Hmask) as (out1 & change & -> & Hstep).
  assert (Hnext : forall its,
            while_loop fuel mask thickening untilConvergence intervals its out1
              = Some (Returns result) -> changed thickening mask out result).
  { intros its Hrun. eapply changed_trans; [exact Hstep |].
    eapply IH; [| | | exact Hrun].
    - eapply binary_scalar_changed; eauto.
    - eapply alike_changed; eauto.
    - intros Hf. destruct Hstep as (_ & _ & _ & _ & L & _). rewrite L. auto. }
  destruct untilConvergence.
  - destruct change; simpl; [apply Hnext |]. intros [= <-]. exact Hstep.
  - destruct (_ =? 0); [| apply Hnext]. intros [= <-]. exact Hstep.
Qed.

(** With a number of iterations and as much fuel, the loop returns. *)
Lemma while_loop_returns (like mask : Image) (thickening : bool)
    (intervals : list Interval) (fuel : nat) :
  Forall (operators_accept like) intervals ->
  forall (iterations : Z) (out : Image),
  binary_scalar out -> alike out like ->
  (IsForged mask = true -> length (samples mask) = length (samples out)) ->
  0 < iterations < 2 ^ 64 -> iterations <= Z.of_nat fuel ->
  exists result,
    while_loop fuel mask thickening false intervals iterations out
      = Some (Returns result).
Proof.
  intros Hacc.
  induction fuel as [| fuel IH]; intros iterations out Hout Hlike Hmask Hits Hfuel;
    [lia |].
  simpl.
  destruct (intervals_loop_spec like mask thickening false intervals out false
              Hacc Hout Hlike Hmask) as (out1 & change & -> & Hstep).
  rewrite Z.mod_small by lia.
  destruct (Z.eqb_spec (iterations - 1) 0); [eauto |].
  apply IH; try lia.
  - eapply binary_scalar_changed; eauto.
  - eapply alike_changed; eauto.
  - intros Hf. destruct Hstep as (_ & _ & _ & _ & L & _). rewrite L. auto.
Qed.

Lemma ThickeningThinning_checks (fuel : nat) (c_in mask : Image)
    (intervals : list Interval) (iterations : Z) (thickening : bool) :
  binary_scalar c_in -> intervals <> [] ->
  ThickeningThinning fuel c_in mask intervals iterations thickening =
  while_loop fuel mask thickening (iterations =? 0) intervals iterations c_in.
Proof.
  intros (Hf & Hs & Hb) Hne. unfold ThickeningThinning.
  rewrite Hf, Hs, Hb, bool_decide_eq_false_2 by exact Hne. reflexivity.
Qed.


End Morphology.

(** ** An instance on a line of pixels

    The flat binary erosion and dilation of a line by a structuring
    element given as a line of samples, with its origin at the middle
    sample.  As the operators of the library do, they refuse a raw image
    and a raw structuring element.  Outside the line the erosion reads
    set pixels and the dilation reads cleared pixels.  Both read the
    pixel at [i + j - origin] for sample [j] of the structuring element,
    which makes [SupGenerating] the hit-or-miss transform. *)
Definition line_pixel (outside : bool) (img : Image) (p : Z) : bool :=
  match Buffer.get (samples img) p with Some v => to_bin v | None => outside end.

Definition line_origin (se : Image) : Z := Z.of_nat (length (samples se)) / 2.

Definition with_samples (img : Image) (data : list Z) : Image :=
  {| forged := true; sizes := sizes img; tensorElements := tensorElements img;
     dataType := dataType img; samples := data |}.

Definition line_Erosion (img se : Image) : outcome Image :=
  DIP_THROW_IF (negb (IsForged img)) IMAGE_NOT_FORGED;;
  DIP_THROW_IF (negb (IsForged se)) IMAGE_NOT_FORGED;;
  let fits (i : nat) (j : nat) (s : Z) :=
    implb (to_bin s) (line_pixel true img (Z.of_nat i + Z.of_nat j - line_origin se)) in
  mret (with_samples img
          (imap (fun i _ => of_bin (forallb id (imap (fits i) (samples se))))
                (samples img))).

Definition line_Dilation (img se : Image) : outcome Image :=
  DIP_THROW_IF (negb (IsForged img)) IMAGE_NOT_FORGED;;
  DIP_THROW_IF (negb (IsForged se)) IMAGE_NOT_FORGED;;
  let hits (i : nat) (j : nat) (s : Z) :=
    to_bin s && line_pixel false img (Z.of_nat i + Z.of_nat j - line_origin se) in
  mret (with_samples img
          (imap (fun i _ => of_bin (existsb id (imap (hits i) (samples se))))
                (samples img))).

Definition a_line : Image := binary_image [5] [0; 1; 1; 0; 1].
Definition a_mask : Image := binary_image [5] [1; 1; 0; 0; 1].
Definition centre_pixel : Interval.Interval :=
  {| hit_ := binary_image [1] [1]; miss_ := Strip (binary_image [1] [0]) |}.

(** A set pixel with a cleared pixel before it. *)
Definition left_end : Interval.Interval :=
  {| hit_ := binary_image [3] [0; 1; 0]; miss_ := binary_image [3] [1; 0; 0] |}.

Example thinning_by_the_centre_pixel :
  Thinning line_Erosion line_Dilation 3 a_line a_mask [centre_pixel] 2 =
  Some (Returns (binary_image [5] [0; 0; 1; 0; 0])).
Proof. vm_compute. reflexivity. Qed.

Example thinning_by_the_left_end :
  Thinning line_Erosion line_Dilation 3 a_line a_mask [left_end] 1 =
  Some (Returns (binary_image [5] [0; 0; 1; 0; 0])).
Proof. vm_compute. reflexivity. Qed.

Example thickening_needs_an_interval :
  Thickening line_Erosion line_Dilation 3 a_line a_mask [] 2 =
  Some (Throws ARRAY_PARAMETER_WRONG_LENGTH).
Proof. vm_compute. reflexivity. Qed.

Example erosion_refuses_a_raw_image :
  line_Erosion (Strip a_line) (hit_ left_end) = Throws IMAGE_NOT_FORGED /\
  line_Dilation a_line (miss_ centre_pixel) = Throws IMAGE_NOT_FORGED.
Proof. split; reflexivity. Qed.

Lemma line_operators_accept (like : Image) (interval : Interval.Interval) :
  IsForged (hit_ interval) = true ->
  operators_accept line_Erosion line_Dilation like interval.
Proof.
  intros Hhit. split.
  - intros img (Hf & _) _. unfold line_Erosion. rewrite Hf, Hhit. simpl.
    eexists. split; [reflexivity |]. simpl. apply length_imap.
  - unfold HatMissSamples. intros Hmiss img (Hf & _) _.
    unfold line_Dilation. rewrite Hf, Hmiss. simpl.
    eexists. split; [reflexivity |]. simpl. apply length_imap.
Qed.


End HitAndMiss.


(** * The rotated versions of an interval (src/binary/sup_inf_generator.cpp)

    [Interval::GenerateRotatedVersions]: which rotation of the interval
    ends up at which place of the array it returns. *)

Module RotatedVersions.
Import Outcome Buffer Images Interval.
Local Open Scope Z_scope.

(** [Image()], a raw image (image.h), and [Interval{}]. *)
Definition raw_image : Image :=
  {| forged := false; sizes := []; tensorElements := 1; dataType := DT_SFLOAT;
     samples := [] |}.
Definition empty_interval : Interval := {| hit_ := raw_image; miss_ := raw_image |}.

(** Modelled from the spec: [Interval::HatMissSamples()].  The
    constructors strip the miss image when it has no sample set, so the
    interval has miss samples when that image is forged. *)
Definition HatMissSamples (interval : Interval) : bool := IsForged (miss_ interval).

Definition uint (v : Z) : Z := v mod 2 ^ 64.

Section Rotations.

(** [RotateBy45Degrees] of this file, on the images of this module, and
    [Image::Rotation90( n )], which image.h declares. *)
Variable RotateBy45Degrees : Image -> outcome Image.
Variable Rotation90 : Z -> Image -> Image.

(** [output[ next ] = output[ cur ]; output[ next ].hit_.Rotation90( n );
     if( HatMissSamples() ) { output[ next ].miss_.Rotation90( n ); }] *)
Definition rotated90 (hat : bool) (n : Z) (interval : Interval) : Interval :=
  {| hit_ := Rotation90 n (hit_ interval);
     miss_ := if hat then Rotation90 n (miss_ interval) else miss_ interval |}.

Definition copy_rotated (hat : bool) (n : Z) (output : list Interval) (cur next : Z)
  : outcome (list Interval) :=
  v ← load output cur; store output next (rotated90 hat n v).

(** [for( dip::uint ii = 0; ii < 3; ++ii ) { dip::uint next = ...;
     ...; cur = next; }]; [count] turns are left. *)
Fixpoint quarter_turns (count : nat) (hat : bool) (next_of : Z -> Z) (cur : Z)
    (output : list Interval) : outcome (list Interval) :=
  match count with
  | O => Returns output
  | S count =>
      let next := next_of cur in
      output ← copy_rotated hat 1 output cur next;
      quarter_turns count hat next_of next output
  end.

(** [Interval tmp = output[ a ]; output[ a ] = output[ b ];
     output[ b ] = output[ c ]; output[ c ] = tmp;] *)
Definition swap3 (output : list Interval) (a b c : Z) : outcome (list Interval) :=
  tmp ← load output a;
  vb ← load output b; output ← store output a vb;
  vc ← load output c; output ← store output b vc;
  store output c tmp.

(** [std::swap( output[ a ], output[ b ] )] *)
Definition swap (output : list Interval) (a b : Z) : outcome (list Interval) :=
  va ← load output a; vb ← load output b;
  output ← store output a vb; store output b va.

(** The step in the array of eight rotations, from the angle. *)
Definition read_angle (rotationAngle : Z) : outcome Z :=
  if rotationAngle =? 45 then Returns 1
  else if rotationAngle =? 90 then Returns 2
  else if rotationAngle =? 180 then Returns 4
  else Throws INVALID_FLAG.

(** [interleaved] and [clockwise], from the direction. *)
Definition read_direction (rotationDirection : string) : outcome (bool * bool) :=
  if String.eqb rotationDirection "interleaved clockwise" then Returns (true, true)
  else if String.eqb rotationDirection "interleaved counter-clockwise"
       then Returns (true, false)
  else if String.eqb rotationDirection "clockwise" then Returns (false, true)
  else if String.eqb rotationDirection "counter-clockwise" then Returns (false, false)
  else Throws INVALID_FLAG.

(** The end of the function: the rotations are put in the interleaved
    order when that is asked for. *)
Definition interleave (interleaved : bool) (step : Z) (output : list Interval)
  : outcome (list Interval) :=
  if interleaved then
    if step =? 1 then
      output ← swap3 output 1 4 2;
      swap3 output 3 5 6
    else if step =? 2 then swap output 1 2
    else Returns output
  else Returns output.

(** The body of the function, once its arguments are read. *)
Definition rotations (this : Interval) (step : Z) (interleaved clockwise : bool)
  : outcome (list Interval) :=
  let hat := HatMissSamples this in
  let N := 8 / step in
  let output := replicate (Z.to_nat N) empty_interval in
  output ← store output 0 this;
  output ←
    (if step =? 1 then
       (* 45 degrees + ( 0, 90, 180, 270 ) *)
       let cur := if clockwise then 1 else 7 in
       hit ← RotateBy45Degrees (hit_ this);
       miss ← (if hat then RotateBy45Degrees (miss_ this) else Returns raw_image);
       output ← store output cur {| hit_ := hit; miss_ := miss |};
       quarter_turns 3 hat (fun cur => if clockwise then uint (cur + 2) else uint (cur - 2))
         cur output
     else Returns output);
  output ←
    (if negb (step =? 4) then
       (* 90, 180, 270 *)
       quarter_turns 3 hat
         (fun cur => if clockwise then uint (cur + (3 - step))
                     else uint ((if cur =? 0 then N else cur) - (3 - step)))
         0 output
     else
       (* 180 *)
       copy_rotated hat 2 output 0 1);
  interleave interleaved step output.

Definition GenerateRotatedVersions (this : Interval) (rotationAngle : Z)
    (rotationDirection : string) : outcome (list Interval) :=
  DIP_THROW_IF (negb (length (sizes (hit_ this)) =? 2)%nat) DIMENSIONALITY_NOT_SUPPORTED;;
  step ← read_angle rotationAngle;
  direction ← read_direction rotationDirection;
  rotations this step (fst direction) (snd direction).

(** ** Properties *)

(** The interval after the step of 45 degrees. *)
Definition eighth (this : Interval) (hit45 miss45 : Image) : Interval :=
  {| hit_ := hit45; miss_ := if HatMissSamples this then miss45 else raw_image |}.

(** The interval turned by [e] eighths of a turn the way the function
    makes it: by the step of 45 degrees when [e] is odd, and then by
    quarter turns. *)
Definition turned (this : Interval) (hit45 miss45 : Image) (e : nat) : Interval :=
  Nat.iter (e / 2) (rotated90 (HatMissSamples this) 1)
    (if Nat.odd e then eighth this hit45 miss45 else this).

(** The interval turned by [q] quarter turns. *)
Definition quarter_turned (this : Interval) (q : nat) : Interval :=
  Nat.iter q (rotated90 (HatMissSamples this) 1) this.

(** How many steps of the rotation in the direction of
    [RotateBy45Degrees] the interval at a place has made, when the array
    of [N] places is not interleaved: the places count the rotations in
    the direction that was asked for. *)
Definition steps_at (N : nat) (clockwise : bool) (place : nat) : nat :=
  if clockwise then place else ((N - place) mod N)%nat.

(** In an interleaved array a rotation is followed by the one 180
    degrees further: the place in the array that is not interleaved of
    what the interleaved array holds at a place. *)
Definition place_of (N : nat) (interleaved : bool) (place : nat) : nat :=
  if interleaved then (place / 2 + (if Nat.odd place then N / 2 else 0))%nat else place.

Definition directions : list (string * (bool * bool)) :=
  [ ("interleaved clockwise"%string, (true, true));
    ("interleaved counter-clockwise"%string, (true, false));
    ("clockwise"%string, (false, true));
    ("counter-clockwise"%string, (false, false)) ].

Lemma direction_cases (dir : string) (interleaved clockwise : bool) :
  (dir, (interleaved, clockwise)) ∈ directions ->
  read_direction dir = Returns (interleaved, clockwise) /\
  ((interleaved = true /\ clockwise = true) \/ (interleaved = true /\ clockwise = false) \/
   (interleaved = false /\ clockwise = true) \/ (interleaved = false /\ clockwise = false)).
Proof.
  unfold directions. intros H.
  repeat (apply elem_of_cons in H; destruct H as [[= -> -> ->] | H];
          [split; [reflexivity | tauto] |]).
  apply elem_of_nil in H. contradiction.
Qed.

(** What the function refuses. *)
Lemma GenerateRotatedVersions_refuses (this : Interval) (rotationAngle : Z)
    (rotationDirection : string) :
  (length (sizes (hit_ this)) <> 2%nat ->
   GenerateRotatedVersions this rotationAngle rotationDirection
     = Throws DIMENSIONALITY_NOT_SUPPORTED) /\
  (length (sizes (hit_ this)) = 2%nat ->
   rotationAngle <> 45 -> rotationAngle <> 90 -> rotationAngle <> 180 ->
   GenerateRotatedVersions this rotationAngle rotationDirection = Throws INVALID_FLAG).
Proof.
  unfold GenerateRotatedVersions, read_angle. split.
  - intros Hd. apply Nat.eqb_neq in Hd. rewrite Hd. reflexivity.
  - intros -> H45 H90 H180.
    apply Z.eqb_neq in H45, H90, H180. rewrite H45, H90, H180. reflexivity.
Qed.

(** X19. For a 2-D interval and each of the four directions,
    [GenerateRotatedVersions] returns 8, 4 or 2 intervals for the angles
    45, 90 and 180.  The array that is not interleaved holds the
    rotations in the order of the direction asked for (place 1 of a
    counter-clockwise array holds what place [N - 1] of a clockwise one
    holds), the interleaved array has every rotation followed by the one
    180 degrees further, place 0 holds the interval itself, and a
    rotation by an odd number of steps of 45 degrees is made by
    [RotateBy45Degrees] followed by quarter turns.  For 180 degrees the
    second interval is made by [Rotation90( 2 )]. *)
Theorem rotated_versions_are_in_order (this : Interval) (dir : string)
    (interleaved clockwise : bool) :
  length (sizes (hit_ this)) = 2%nat ->
  (dir, (interleaved, clockwise)) ∈ directions ->
  (forall hit45 miss45,
     RotateBy45Degrees (hit_ this) = Returns hit45 ->
     (HatMissSamples this = true -> RotateBy45Degrees (miss_ this) = Returns miss45) ->
     exists output,
       GenerateRotatedVersions this 45 dir = Returns output /\
       length output = 8%nat /\
       forall place, (place < 8)%nat ->
         output !! place =
         Some (turned this hit45 miss45 (steps_at 8 clockwise (place_of 8 interleaved place)))) /\
  (exists output,
     GenerateRotatedVersions this 90 dir = Returns output /\
     length output = 4%nat /\
     forall place, (place < 4)%nat ->
       output !! place =
       Some (quarter_turned this (steps_at 4 clockwise (place_of 4 interleaved place)))) /\
  GenerateRotatedVersions this 180 dir =
    Returns [this; rotated90 (HatMissSamples this) 2 this].
Proof.
  intros Hdims Hdir. destruct (direction_cases _ _ _ Hdir) as [Hread Hcases].
  unfold GenerateRotatedVersions. rewrite Hdims, Hread. cbn [Nat.eqb negb DIP_THROW_IF].
  change (read_angle 45) with (Returns 1 : outcome Z).
  change (read_angle 90) with (Returns 2 : outcome Z).
  change (read_angle 180) with (Returns 4 : outcome Z).
  cbn [mbind outcome_bind bind fst snd]. unfold rotations.
  destruct Hcases as [[-> ->] | [[-> ->] | [[-> ->] | [-> ->]]]].
  all: split; [| split].
  all: try (eexists; split; [reflexivity | split; [reflexivity |]];
            intros place Hplace;
            (do 4 (destruct place as [| place]; [reflexivity |])); lia).
  all: try reflexivity.
  all: intros hit45 miss45 Hhit Hmiss;
    assert (Hm : (if HatMissSamples this then RotateBy45Degrees (miss_ this)
                  else Returns raw_image) =
                 Returns (if HatMissSamples this then miss45 else raw_image))
      by (destruct (HatMissSamples this); [apply Hmiss |]; reflexivity);
    change (8 / 1) with 8; change (1 =? 1) with true; change (1 =? 4) with false;
    cbv iota; rewrite Hhit, Hm;
    eexists; (split; [reflexivity | split; [reflexivity |]]);
    intros place Hplace;
    (do 8 (destruct place as [| place]; [reflexivity |])); lia.
Qed.

End Rotations.

(** [RotateBy45Degrees] as embedded in [Rotate45], on the images of this
    module: a 2-D binary image with normal strides goes there and back.
    The intervals of the examples are square, so nothing is padded. *)
Definition as_Image2D (img : Image) : Rotate45.Image2D :=
  {| Rotate45.size0 := nth 0 (sizes img) 0; Rotate45.size1 := nth 1 (sizes img) 0;
     Rotate45.stride0 := 1; Rotate45.stride1 := nth 0 (sizes img) 0;
     Rotate45.origin := 0;
     Rotate45.data := map (fun v => negb (v =? 0)) (samples img) |}.

Definition of_Image2D (img : Image) (rotated : Rotate45.Image2D) : Image :=
  {| forged := forged img;
     sizes := [Rotate45.size0 rotated; Rotate45.size1 rotated];
     tensorElements := tensorElements img; dataType := dataType img;
     samples := map (fun b : bool => if b then 1 else 0) (Rotate45.data rotated) |}.

Definition rotate45 (img : Image) : outcome Image :=
  rotated ← Rotate45.RotateBy45Degrees Rotate45.no_Pad (as_Image2D img);
  mret (of_Image2D img rotated).

(** Modelled from the spec: [Image::Rotation90( n )], which image.h
    declares, on a 3x3 image with normal strides.  The pixels are those
    of the image after [n] quarter turns in the direction of
    [RotateBy45Degrees]; the eight pixels around the centre move two
    places on for each. *)
Definition turn_3x3 (img : Image) : Image :=
  match samples img with
  | [a; b; c; d; e; f; g; h; i] =>
      {| forged := forged img; sizes := sizes img; tensorElements := tensorElements img;
         dataType := dataType img; samples := [g; d; a; h; e; b; i; f; c] |}
  | _ => img
  end.

Definition rotation90_3x3 (n : Z) (img : Image) : Image :=
  Nat.iter (Z.to_nat n) turn_3x3 img.

(** The interval of [BoundaryPixelInterval2D]. *)
Definition boundary_pixel : Interval :=
  {| hit_ := binary_image [3; 3] [0; 0; 0; 0; 1; 0; 0; 0; 0];
     miss_ := binary_image [3; 3] [0; 0; 0; 0; 0; 1; 0; 0; 0] |}.

Example boundary_pixel_by_eighths :
  map (fun interval => samples (miss_ interval))
    <$> GenerateRotatedVersions rotate45 rotation90_3x3 boundary_pixel 45 "clockwise"
  = Returns [ [0; 0; 0; 0; 0; 1; 0; 0; 0]; [0; 0; 0; 0; 0; 0; 0; 0; 1];
              [0; 0; 0; 0; 0; 0; 0; 1; 0]; [0; 0; 0; 0; 0; 0; 1; 0; 0];
              [0; 0; 0; 1; 0; 0; 0; 0; 0]; [1; 0; 0; 0; 0; 0; 0; 0; 0];
              [0; 1; 0; 0; 0; 0; 0; 0; 0]; [0; 0; 1; 0; 0; 0; 0; 0; 0] ].
Proof. vm_compute. reflexivity. Qed.

Example boundary_pixel_interleaved :
  map (fun interval => samples (miss_ interval))
    <$> GenerateRotatedVersions rotate45 rotation90_3x3 boundary_pixel 90
          "interleaved counter-clockwise"
  = Returns [ [0; 0; 0; 0; 0; 1; 0; 0; 0]; [0; 0; 0; 1; 0; 0; 0; 0; 0];
              [0; 1; 0; 0; 0; 0; 0; 0; 0]; [0; 0; 0; 0; 0; 0; 0; 1; 0] ].
Proof. vm_compute. reflexivity. Qed.

Example a_direction_is_refused :
  GenerateRotatedVersions rotate45 rotation90_3x3 boundary_pixel 90 "anticlockwise"
  = Throws INVALID_FLAG.
Proof. vm_compute. reflexivity. Qed.

(** The theorem for the half turn of the boundary pixel interval. *)
Lemma rotated_versions_are_in_order_witness :
  GenerateRotatedVersions rotate45 rotation90_3x3 boundary_pixel 180 "clockwise" =
  Returns [boundary_pixel;
           rotated90 rotation90_3x3 (HatMissSamples boundary_pixel) 2 boundary_pixel].
Proof.
  apply (rotated_versions_are_in_order rotate45 rotation90_3x3 boundary_pixel
           "clockwise" false true).
  - reflexivity.
  - unfold directions. do 2 apply list_elem_of_further. apply list_elem_of_here.
Defined.

End RotatedVersions.


(** * The interval of a single pixel (src/binary/sup_inf_generator.cpp)

    [SinglePixelInterval], which makes its image with the constructor
    and the pixel access of image.h and hands it to the constructor of
    [Interval]. *)

Module SinglePixel.
Import Outcome Buffer Images Interval.
Local Open Scope Z_scope.

(** Modelled from the spec: the strides that [Forge()] gives a new image,
    whose first dimension has stride 1 and each other dimension the
    stride of the dimension before it times that dimension's size. *)
Fixpoint normal_strides (stride : Z) (sizes : list Z) : list Z :=
  match sizes with
  | [] => []
  | s :: sizes => stride :: normal_strides (stride * s) sizes
  end.

(** [Image in( sizes, 1, DT_UINT8 ); in.Fill( 0 );] with its layout.
    Modelled from the spec: [Forge()] gives the image a sample for each
    pixel, and [Fill] sets each of them to the value. *)
Definition filled (sizes : list Z) (value : Z) : Image * ImageIndexing.Layout :=
  ({| forged := true; sizes := sizes; tensorElements := 1; dataType := DT_UINT8;
      samples := replicate (Z.to_nat (ImageIndexing.product sizes)) value |},
   {| ImageIndexing.forged := true; ImageIndexing.sizes_ := sizes;
      ImageIndexing.strides_ := normal_strides 1 sizes |}).

(** [in.At( coords ) = value]: the sample that [At] points at gets the
    value. *)
Definition assign_at (img : Image * ImageIndexing.Layout) (coords : list Z) (value : Z)
  : outcome Image :=
  pointer ← ImageIndexing.At (snd img) coords;
  data ← store (samples (fst img)) pointer value;
  mret {| forged := forged (fst img); sizes := sizes (fst img);
          tensorElements := tensorElements (fst img); dataType := dataType (fst img);
          samples := data |}.

Definition SinglePixelInterval (nDims : Z) : outcome Interval :=
  DIP_THROW_IF (nDims <? 1) DIMENSIONALITY_NOT_SUPPORTED;;
  let sizes := replicate (Z.to_nat nDims) 3 in
  let in_ := filled sizes 0 in
  (* reuse `sizes` for the index to the center pixel *)
  let sizes := replicate (Z.to_nat nDims) 1 in
  in_ ← assign_at in_ sizes 1;
  Interval_of_image in_.

Example SinglePixelInterval_2D :
  SinglePixelInterval 2 =
  Returns {| hit_ := binary_image [3; 3] [0; 0; 0; 0; 1; 0; 0; 0; 0];
             miss_ := binary_image [3; 3] [1; 1; 1; 1; 0; 1; 1; 1; 1] |}.
Proof. vm_compute. reflexivity. Qed.

Example SinglePixelInterval_0D : SinglePixelInterval 0 = Throws DIMENSIONALITY_NOT_SUPPORTED.
Proof. reflexivity. Qed.

(** ** Properties *)

(** The linear index of the centre of a cube of side 3. *)
Definition centre (nDims : nat) : Z := (3 ^ Z.of_nat nDims - 1) / 2.

Lemma product_cube (n : nat) : ImageIndexing.product (replicate n 3) = 3 ^ Z.of_nat n.
Proof.
  induction n as [| n IH]; [reflexivity |].
  cbn [replicate ImageIndexing.product fold_right] in *.
  unfold ImageIndexing.product in IH. rewrite IH, Nat2Z.inj_succ, Z.pow_succ_r by lia.
  reflexivity.
Qed.

Lemma pow3_odd (n : nat) : 3 ^ Z.of_nat n = 2 * centre n + 1.
Proof.
  unfold centre. induction n as [| n IH]; [reflexivity |].
  rewrite Nat2Z.inj_succ, Z.pow_succ_r by lia.
  generalize dependent (3 ^ Z.of_nat n). intros x IH.
  Z.div_mod_to_equations. lia.
Qed.

Lemma centre_step (n : nat) : centre (S n) = 1 + 3 * centre n.
Proof.
  pose proof (pow3_odd n) as H. pose proof (pow3_odd (S n)) as HS.
  rewrite Nat2Z.inj_succ, Z.pow_succ_r in HS by lia. lia.
Qed.

Lemma centre_nonneg (n : nat) : 0 <= centre n.
Proof. unfold centre. apply Z.div_pos; [| lia]. pose proof (Z.pow_pos_nonneg 3 (Z.of_nat n)). lia. Qed.

(** The offset of the centre with the strides of a new image. *)
Lemma dot_centre (n : nat) : forall stride,
  ImageIndexing.dot (replicate n 1) (normal_strides stride (replicate n 3))
  = stride * centre n.
Proof.
  induction n as [| n IH]; intros stride.
  - cbn [replicate normal_strides ImageIndexing.dot]. change (centre 0) with 0. lia.
  - cbn [replicate normal_strides ImageIndexing.dot]. rewrite IH, centre_step. lia.
Qed.

Lemma extent_cube (n : nat) : forall stride, 0 <= stride ->
  ImageIndexing.extent (replicate n 3) (normal_strides stride (replicate n 3))
  = stride * (3 ^ Z.of_nat n - 1).
Proof.
  induction n as [| n IH]; intros stride Hs.
  - simpl. lia.
  - cbn [replicate normal_strides ImageIndexing.extent].
    rewrite IH by lia. rewrite Nat2Z.inj_succ, Z.pow_succ_r by lia.
    rewrite Z.abs_eq by lia. lia.
Qed.

Lemma length_normal_strides (sizes : list Z) : forall stride,
  length (normal_strides stride sizes) = length sizes.
Proof. induction sizes as [| s sizes IH]; intros stride; simpl; auto. Qed.

Lemma check_odd_cube (n : nat) : check_odd (replicate n 3) = Returns tt.
Proof. induction n as [| n IH]; [reflexivity |]. simpl. exact IH. Qed.

Lemma Any_sample (img : Image) (i : nat) (v : Z) :
  samples img !! i = Some v -> v <> 0 -> Any img = true.
Proof.
  intros Hi Hv. unfold Any. apply existsb_exists. exists v. split.
  - apply list_elem_of_In. apply list_elem_of_lookup. eauto.
  - destruct (Z.eqb_spec v 0); [contradiction | reflexivity].
Qed.

(** X20. For a number of dimensions of at least 1 (and a cube of side 3
    that can be addressed with [dip::sint] offsets),
    [SinglePixelInterval] returns the interval on the cube of side 3
    whose hit image has the centre pixel set and no other, and whose miss
    image has every pixel set but the centre. *)
Theorem single_pixel_interval_is_the_centre (nDims : Z) :
  1 <= nDims -> 3 ^ nDims < 2 ^ 63 ->
  let n := Z.to_nat nDims in
  let pixels := Z.to_nat (3 ^ nDims) in
  let c := Z.to_nat (centre n) in
  (c < pixels)%nat /\
  SinglePixelInterval nDims =
  Returns {| hit_ := binary_image (replicate n 3) (<[c := 1]> (replicate pixels 0));
             miss_ := binary_image (replicate n 3) (<[c := 0]> (replicate pixels 1)) |}.
Proof.
  intros Hn Hfit n pixels c.
  assert (Hpow : 3 ^ nDims = 3 ^ Z.of_nat n) by (unfold n; rewrite Z2Nat.id by lia; reflexivity).
  pose proof (pow3_odd n) as Hodd. pose proof (centre_nonneg n) as Hc0.
  assert (Hc1 : 1 <= centre n).
  { destruct n as [| n'] eqn:En; [unfold n in En; lia |].
    rewrite centre_step. pose proof (centre_nonneg n'). lia. }
  assert (Hc : (c < pixels)%nat) by (unfold c, pixels; lia).
  split; [exact Hc |].
  unfold SinglePixelInterval.
  replace (nDims <? 1) with false by (symmetry; apply Z.ltb_ge; lia).
  cbn [DIP_THROW_IF mbind outcome_bind bind]. fold n.
  (* the pointer of the centre *)
  assert (Hat : ImageIndexing.At (snd (filled (replicate n 3) 0)) (replicate n 1)
                = Returns (centre n)).
  { unfold ImageIndexing.At, ImageIndexing.Pointer_at, filled.
    cbn [snd ImageIndexing.sizes_]. rewrite !length_replicate, Nat.eqb_refl.
    cbn [negb DIP_THROW_IF mbind outcome_bind bind].
    assert (Hoff : ImageIndexing.Offset
                     {| ImageIndexing.forged := true;
                        ImageIndexing.sizes_ := replicate n 3;
                        ImageIndexing.strides_ := normal_strides 1 (replicate n 3) |}
                     (replicate n 1) = Returns (centre n)).
    { unfold ImageIndexing.Offset.
      cbn [ImageIndexing.forged ImageIndexing.sizes_ ImageIndexing.strides_].
      rewrite !length_replicate, Nat.eqb_refl.
      cbn [negb DIP_THROW_IF mbind outcome_bind bind].
      assert (Hin : ImageIndexing.inside (replicate n 3) (replicate n 1)).
      { unfold ImageIndexing.inside. clear. induction n as [| n IH]; simpl;
          constructor; [lia | exact IH]. }
      assert (Hsz : Forall (fun s => 0 < s <= 2 ^ 63) (replicate n 3)).
      { apply Forall_forall. intros s Hs. apply elem_of_replicate in Hs.
        destruct Hs as [-> _]. lia. }
      rewrite (ImageIndexing.Offset_loop_inside _ _ _ 0 Hin Hsz).
      rewrite ImageIndexing.Offset_signed_loop_reach.
      - rewrite dot_centre. f_equal. lia.
      - rewrite !length_replicate. reflexivity.
      - rewrite length_normal_strides. reflexivity.
      - pose proof (ImageIndexing.reach_inside _ _ Hin (normal_strides 1 (replicate n 3))).
        rewrite extent_cube in H by lia. simpl. lia. }
    rewrite Hoff. reflexivity. }
  unfold assign_at. rewrite Hat. cbn [mbind outcome_bind bind].
  unfold filled. cbn [fst samples forged sizes tensorElements dataType].
  rewrite product_cube, <- Hpow. fold pixels.
  unfold store. rewrite length_replicate.
  replace ((0 <=? centre n) && (centre n <? Z.of_nat pixels)) with true
    by (symmetry; apply andb_true_intro; split; [apply Z.leb_le | apply Z.ltb_lt];
        unfold pixels; lia).
  cbn [mbind outcome_bind bind mret outcome_ret]. fold c.
  (* the constructor of the interval *)
  unfold Interval_of_image, IsForged, IsScalar, IsComplex.
  cbn [forged sizes tensorElements dataType samples negb Z.eqb Pos.eqb DIP_THROW_IF
       mbind outcome_bind bind].
  rewrite check_odd_cube. cbn [mbind outcome_bind bind].
  set (image := {| forged := true; sizes := replicate n 3; tensorElements := 1;
                   dataType := DT_UINT8; samples := <[c := 1]> (replicate pixels 0) |}).
  assert (Hhit : equal_to image 1 =
                 binary_image (replicate n 3) (<[c := 1]> (replicate pixels 0))).
  { unfold equal_to, binary_image, image. cbn [sizes tensorElements samples]. f_equal.
    change (map ?f ?l) with (f <$> l). rewrite list_fmap_insert, fmap_replicate.
    reflexivity. }
  assert (Hmiss : equal_to image 0 =
                  binary_image (replicate n 3) (<[c := 0]> (replicate pixels 1))).
  { unfold equal_to, binary_image, image. cbn [sizes tensorElements samples]. f_equal.
    change (map ?f ?l) with (f <$> l). rewrite list_fmap_insert, fmap_replicate.
    reflexivity. }
  rewrite Hhit, Hmiss.
  rewrite (Any_sample (binary_image (replicate n 3) (<[c := 1]> (replicate pixels 0)))
             c 1); [| | lia].
  2: { simpl. apply list_lookup_insert_eq. rewrite length_replicate. exact Hc. }
  cbn [negb DIP_THROW_IF mbind outcome_bind bind].
  rewrite (Any_sample (binary_image (replicate n 3) (<[c := 0]> (replicate pixels 1)))
             0%nat 1); [reflexivity | | lia].
  simpl. rewrite list_lookup_insert_ne by (unfold c; lia).
  apply lookup_replicate_2. lia.
Qed.

(** The theorem in three dimensions. *)
Lemma single_pixel_interval_is_the_centre_witness :
  (13 < 27)%nat /\
  SinglePixelInterval 3 =
  Returns {| hit_ := binary_image [3; 3; 3] (<[13%nat := 1]> (replicate 27 0));
             miss_ := binary_image [3; 3; 3] (<[13%nat := 0]> (replicate 27 1)) |}.
Proof. apply (single_pixel_interval_is_the_centre 3); [lia | reflexivity]. Defined.

End SinglePixel.


(** * A pixel table from a mask, and back (src/library/pixel_table.cpp)

    The constructor [PixelTable( mask, origin, procDim )] for a mask of
    one dimension, whose image iterator visits the one line of the
    image, and [PixelTable::AsImage] for a table without weights. *)

Module MaskRuns.
Import Outcome Buffer Images.
Local Open Scope Z_scope.

(** Modelled from the spec: the error constants of diplib/library/error.h
    that the constructor names; each stands for its name. *)
Definition MASK_NOT_SCALAR : Error := Message "E::MASK_NOT_SCALAR".
Definition MASK_NOT_BINARY : Error := Message "E::MASK_NOT_BINARY".

Record PixelTable : Set := {
  sizes_ : list Z;
  origin_ : list Z;
  procDim_ : Z;
  runs_ : list RectangularRuns.PixelRun;
  nPixels_ : Z
}.

Definition uint (v : Z) : Z := v mod 2 ^ 64.

(** [if( length ) {
       position[ procDim ] = start + static_cast< dip::sint >( data.Coordinate() - length );
       runs_.emplace_back( position, length );
       nPixels_ += length; }]
    The state is [runs_] and [nPixels_]. *)
Definition save_run (position : list Z) (procDim start coordinate length : Z)
    (table : list RectangularRuns.PixelRun * Z) : list RectangularRuns.PixelRun * Z :=
  if length =? 0 then table
  else
    let position :=
      <[Z.to_nat procDim := start + PixelTable.sint_of_uint (uint (coordinate - length))]>
        position in
    (fst table ++ [RectangularRuns.Build_PixelRun position length],
     uint (snd table + length)).

(** The loop over the samples of a line,
    [do { if( *data ) { ++length; } else { ...; length = 0; } } while( ++data );]
    and the run that is saved after it.  Modelled from the spec: the line
    iterator of diplib/iterators.h, whose [Coordinate()] is the index of
    the sample it points at, and the number of samples of the line once
    it is past the last. *)
Fixpoint scan_line (position : list Z) (procDim start : Z) (data : list Z)
    (coordinate length : Z) (table : list RectangularRuns.PixelRun * Z) : list RectangularRuns.PixelRun * Z :=
  match data with
  | [] => save_run position procDim start coordinate length table
  | sample :: data =>
      if negb (sample =? 0) then
        scan_line position procDim start data (coordinate + 1) (uint (length + 1)) table
      else
        scan_line position procDim start data (coordinate + 1) 0
          (save_run position procDim start coordinate length table)
  end.

(** The constructor, for a mask of one dimension.  Modelled from the
    spec: the image iterator of diplib/iterators.h visits the one line of
    such a mask, at the coordinates [{ 0 }]. *)
Definition PixelTable_of_mask (mask : Image) (origin : list Z) (procDim : Z)
  : outcome PixelTable :=
  DIP_THROW_IF (negb (IsForged mask)) IMAGE_NOT_FORGED;;
  DIP_THROW_IF (negb (tensorElements mask =? 1)) MASK_NOT_SCALAR;;
  DIP_THROW_IF (negb (IsBinary (dataType mask))) MASK_NOT_BINARY;;
  let nDims := Z.of_nat (length (sizes mask)) in
  DIP_THROW_IF (nDims <? 1) DIMENSIONALITY_NOT_SUPPORTED;;
  DIP_THROW_IF (nDims <=? procDim) PARAMETER_OUT_OF_RANGE;;
  origin_ ←
    (if bool_decide (origin = []) then Returns (map PixelTable.origin_of_size (sizes mask))
     else
       DIP_THROW_IF (negb (Z.of_nat (length origin) =? nDims))
         ImageIndexing.ARRAY_ILLEGAL_SIZE;;
       Returns (map Z.opp origin));
  let position := zip_with Z.add origin_ (replicate (length (sizes mask)) 0) in
  start ← load position procDim;
  let table := scan_line position procDim start (samples mask) 0 0 ([], 0) in
  mret {| sizes_ := sizes mask; origin_ := origin_; procDim_ := procDim;
          runs_ := fst table; nPixels_ := snd table |}.

(** [for( dip::uint ii = 0; ii < run.length; ++ii ) { *data = true; data += stride; }] *)
Fixpoint set_run (out : list Z) (data stride : Z) (count : nat) : outcome (list Z) :=
  match count with
  | O => Returns out
  | S count => out ← store out data 1; set_run out (data + stride) stride count
  end.

(** [Image::Pointer( IntegerArray const& coords )] *)
Definition Pointer (layout : ImageIndexing.Layout) (coords : list Z) : outcome Z :=
  offset ← ImageIndexing.Offset_signed layout coords;
  ImageIndexing.Pointer layout offset.

(** [for( auto& run : runs_ ) { ... }] in [AsImage] *)
Fixpoint set_runs (layout : ImageIndexing.Layout) (origin : list Z) (stride : Z)
    (runs : list RectangularRuns.PixelRun) (out : list Z) : outcome (list Z) :=
  match runs with
  | [] => Returns out
  | run :: runs =>
      let position := zip_with Z.sub (RectangularRuns.coordinates run) origin in
      data ← Pointer layout position;
      out ← set_run out data stride (Z.to_nat (RectangularRuns.length run));
      set_runs layout origin stride runs out
  end.

(** [PixelTable::AsImage], for a table without weights.  Modelled from
    the spec: [ReForge] followed by [Fill( false )] leaves a binary image
    of the sizes [sizes_] with normal strides and no sample set. *)
Definition AsImage (pt : PixelTable) : outcome Image :=
  let layout :=
    {| ImageIndexing.forged := true; ImageIndexing.sizes_ := sizes_ pt;
       ImageIndexing.strides_ := SinglePixel.normal_strides 1 (sizes_ pt) |} in
  let out := replicate (Z.to_nat (ImageIndexing.product (sizes_ pt))) 0 in
  stride ← load (ImageIndexing.strides_ layout) (procDim_ pt);
  out ← set_runs layout (origin_ pt) stride (runs_ pt) out;
  mret {| forged := true; sizes := sizes_ pt; tensorElements := 1; dataType := DT_BIN;
          samples := out |}.

Definition a_mask : Image :=
  {| forged := true; sizes := [8]; tensorElements := 1; dataType := DT_BIN;
     samples := [1; 1; 0; 1; 0; 0; 1; 1] |}.

Example runs_of_a_mask :
  PixelTable_of_mask a_mask [] 0 =
  Returns {| sizes_ := [8]; origin_ := [-4]; procDim_ := 0;
             runs_ := [ RectangularRuns.Build_PixelRun [-4] 2;
                        RectangularRuns.Build_PixelRun [-1] 1;
                        RectangularRuns.Build_PixelRun [2] 2 ];
             nPixels_ := 5 |}.
Proof. vm_compute. reflexivity. Qed.

Example a_mask_and_back :
  (PixelTable_of_mask a_mask [3] 0 ≫= AsImage) = Returns a_mask.
Proof. vm_compute. reflexivity. Qed.

Example origin_of_wrong_size :
  PixelTable_of_mask a_mask [3; 3] 0 = Throws ImageIndexing.ARRAY_ILLEGAL_SIZE.
Proof. vm_compute. reflexivity. Qed.

(** ** Properties *)

(** The number of samples of a line that are set. *)
Fixpoint count_set (data : list Z) : Z :=
  match data with
  | [] => 0
  | sample :: data => (if sample =? 0 then 0 else 1) + count_set data
  end.

(** The number of pixels of the runs. *)
Fixpoint total_length (runs : list RectangularRuns.PixelRun) : Z :=
  match runs with
  | [] => 0
  | run :: runs => RectangularRuns.length run + total_length runs
  end.

Lemma total_length_app (runs runs' : list RectangularRuns.PixelRun) :
  total_length (runs ++ runs') = total_length runs + total_length runs'.
Proof. induction runs as [| run runs IH]; simpl; lia. Qed.

(** The run holds the pixel at index [p] of the line, when the line
    starts at [start]. *)
Definition covers (start p : Z) (run : RectangularRuns.PixelRun) : bool :=
  match RectangularRuns.coordinates run with
  | [c] => (c - start <=? p) && (p <? c - start + RectangularRuns.length run)
  | _ => false
  end.

(** The run lies on the line between two indices. *)
Definition between (start lo hi : Z) (run : RectangularRuns.PixelRun) : Prop :=
  exists c, RectangularRuns.coordinates run = [c] /\
            lo <= c - start /\ 1 <= RectangularRuns.length run /\
            c - start + RectangularRuns.length run <= hi.

Lemma count_set_range (data : list Z) : 0 <= count_set data <= Z.of_nat (length data).
Proof.
  induction data as [| d data IH]; simpl; [lia |]. destruct (d =? 0); lia.
Qed.

Lemma save_run_spec (start k L : Z) (table : list RectangularRuns.PixelRun * Z) :
  0 <= L <= k -> k < 2 ^ 63 -> 0 <= snd table -> snd table + L < 2 ^ 64 ->
  save_run [start] 0 start k L table =
  (fst table ++ (if L =? 0 then []
                 else [RectangularRuns.Build_PixelRun [start + (k - L)] L]),
   snd table + L).
Proof.
  intros HL Hk H0 Hfit. unfold save_run. destruct (Z.eqb_spec L 0) as [-> | Hne].
  - rewrite app_nil_r, Z.add_0_r. destruct table; reflexivity.
  - unfold uint. rewrite !Z.mod_small by lia.
    unfold PixelTable.sint_of_uint. rewrite Z.mod_small by lia.
    replace (k - L + 2 ^ 63 - 2 ^ 63) with (k - L) by lia. reflexivity.
Qed.

(** The run that is saved holds the [L] samples before index [k]. *)
Lemma saved_run (start k L p : Z) :
  0 <= L <= k ->
  existsb (covers start p)
    (if L =? 0 then [] else [RectangularRuns.Build_PixelRun [start + (k - L)] L]) = true
  <-> k - L <= p < k.
Proof.
  intros HL. destruct (Z.eqb_spec L 0) as [-> | Hne]; simpl; [split; [discriminate | lia] |].
  unfold covers. simpl. rewrite orb_false_r, andb_true_iff, Z.leb_le, Z.ltb_lt. lia.
Qed.

Lemma saved_run_between (start k L hi : Z) :
  0 <= L <= k -> k <= hi ->
  Forall (between start (k - L) hi)
    (if L =? 0 then [] else [RectangularRuns.Build_PixelRun [start + (k - L)] L]).
Proof.
  intros HL Hhi. destruct (Z.eqb_spec L 0); constructor; [| constructor].
  exists (start + (k - L)). simpl. split; [reflexivity | lia].
Qed.

Lemma saved_run_length (start k L : Z) :
  total_length
    (if L =? 0 then [] else [RectangularRuns.Build_PixelRun [start + (k - L)] L]) = L.
Proof. destruct (Z.eqb_spec L 0); simpl; lia. Qed.

(** The loop over a line, from index [k] on with [L] set samples just
    before it: the runs it adds hold those samples and the set samples
    that are left, and no other. *)
Lemma scan_line_spec (start : Z) (data : list Z) :
  forall (k L : Z) (table : list RectangularRuns.PixelRun * Z),
  0 <= L <= k -> k + Z.of_nat (length data) < 2 ^ 63 ->
  0 <= snd table -> snd table + L + Z.of_nat (length data) < 2 ^ 64 ->
  exists new,
    scan_line [start] 0 start data k L table =
      (fst table ++ new, snd table + L + count_set data) /\
    Forall (between start (k - L) (k + Z.of_nat (length data))) new /\
    total_length new = L + count_set data /\
    forall p, existsb (covers start p) new = true <->
              (k - L <= p < k) \/
              (exists i d, data !! i = Some d /\ d <> 0 /\ p = k + Z.of_nat i).
Proof.
  induction data as [| d data IH]; intros k L table HL Hk H0 Hfit.
  - simpl in *. rewrite save_run_spec by lia. eexists. split; [| split; [| split]].
    + rewrite Z.add_0_r. reflexivity.
    + apply saved_run_between; lia.
    + rewrite saved_run_length. lia.
    + intros p. rewrite saved_run by lia. split; [tauto |].
      intros [H | (i & d & Hi & _)]; [exact H | discriminate].
  - cbn [scan_line length] in *. rewrite Nat2Z.inj_succ in *.
    pose proof (count_set_range data) as Hcount.
    destruct (Z.eqb_spec d 0) as [-> | Hd]; cbn [negb].
    + rewrite save_run_spec by lia.
      destruct (IH (k + 1) 0 (fst table ++ (if L =? 0 then []
                   else [RectangularRuns.Build_PixelRun [start + (k - L)] L]),
                   snd table + L)) as (new & Hrun & Hnew & Htotal & Hcov);
        cbn [fst snd]; try lia.
      rewrite Hrun. cbn [fst snd count_set]. rewrite <- app_assoc.
      eexists. split; [| split; [| split]].
      * f_equal. simpl. lia.
      * apply Forall_app. split; [apply saved_run_between; lia |].
        eapply Forall_impl; [exact Hnew |].
        intros run (c & Hc & Hlo & Hlen & Hhi). exists c. split; [exact Hc | lia].
      * rewrite total_length_app, saved_run_length, Htotal. simpl. lia.
      * intros p. rewrite existsb_app, orb_true_iff, Hcov, saved_run by lia. split.
        -- intros [H | [H | (i & d & Hi & Hd & ->)]]; [left; exact H | lia |].
           right. exists (S i), d. simpl. split; [exact Hi | split; [exact Hd | lia]].
        -- intros [H | (i & d & Hi & Hd & ->)]; [left; exact H |].
           destruct i as [| i]; simpl in Hi.
           ++ injection Hi as <-. contradiction.
           ++ right. right. exists i, d. split; [exact Hi | split; [exact Hd | lia]].
    + unfold uint at 1. rewrite Z.mod_small by lia.
      destruct (IH (k + 1) (L + 1) table) as (new & Hrun & Hnew & Htotal & Hcov);
        try lia.
      rewrite Hrun. cbn [count_set].
      replace (d =? 0) with false by (symmetry; apply Z.eqb_neq; exact Hd).
      exists new. split; [| split; [| split]].
      * f_equal. lia.
      * eapply Forall_impl; [exact Hnew |].
        intros run (c & Hc & Hlo & Hlen & Hhi). exists c. split; [exact Hc | lia].
      * lia.
      * intros p. rewrite Hcov. split.
        -- intros [H | (i & d' & Hi & Hd' & ->)].
           ++ destruct (Z.eq_dec p k) as [-> | Hne]; [| left; lia].
              right. exists 0%nat, d. simpl. split; [reflexivity | split; [exact Hd | lia]].
           ++ right. exists (S i), d'. simpl. split; [exact Hi | split; [exact Hd' | lia]].
        -- intros [H | (i & d' & Hi & Hd' & ->)]; [left; lia |].
           destruct i as [| i]; simpl in Hi; [left; lia |].
           right. exists i, d'. split; [exact Hi | split; [exact Hd' | lia]].
Qed.

(** Setting the samples of a run. *)
Lemma set_run_spec (count : nat) :
  forall (out : list Z) (data : Z),
  0 <= data -> data + Z.of_nat count <= Z.of_nat (length out) ->
  exists out',
    set_run out data 1 count = Returns out' /\ length out' = length out /\
    forall p, get out' p =
              if (data <=? p) && (p <? data + Z.of_nat count) then Some 1 else get out p.
Proof.
  induction count as [| count IH]; intros out data H0 Hhi.
  - exists out. split; [reflexivity | split; [reflexivity |]].
    intros p. destruct (Z.leb_spec data p), (Z.ltb_spec p (data + Z.of_nat 0));
      try reflexivity; lia.
  - cbn [set_run]. rewrite Nat2Z.inj_succ in *.
    destruct (store_in_bounds out data 1 ltac:(lia)) as [out1 Hstore].
    rewrite Hstore. cbn [mbind outcome_bind bind].
    pose proof (store_length _ _ _ _ Hstore) as Hlen1.
    destruct (IH out1 (data + 1)) as (out' & -> & Hlen' & Hget); [lia | lia |].
    exists out'. split; [reflexivity | split; [congruence |]].
    intros p. rewrite Hget.
    destruct (Z.leb_spec (data + 1) p), (Z.ltb_spec p (data + 1 + Z.of_nat count)),
      (Z.leb_spec data p), (Z.ltb_spec p (data + Z.succ (Z.of_nat count)));
      cbn [andb]; try reflexivity; try lia;
      first [ eapply get_store_ne; [eassumption | lia]
            | assert (p = data) by lia; subst p; eapply get_store_eq; eassumption ].
Qed.

Definition line_layout (n : Z) : ImageIndexing.Layout :=
  {| ImageIndexing.forged := true; ImageIndexing.sizes_ := [n];
     ImageIndexing.strides_ := [1] |}.

Lemma Pointer_on_line (n x : Z) :
  - 2 ^ 63 < x < 2 ^ 63 -> Pointer (line_layout n) [x] = Returns x.
Proof.
  intros Hx. unfold Pointer, ImageIndexing.Offset_signed, line_layout.
  cbn [ImageIndexing.forged ImageIndexing.sizes_ ImageIndexing.strides_ length Nat.eqb
       negb DIP_THROW_IF mbind outcome_bind bind ImageIndexing.Offset_signed_loop].
  rewrite (ImageIndexing.sint_fits (x * 1)) by lia. cbn [mbind outcome_bind bind].
  rewrite (ImageIndexing.sint_fits (0 + x * 1)) by lia. cbn [mbind outcome_bind bind].
  unfold ImageIndexing.Pointer. cbn [ImageIndexing.forged negb DIP_THROW_IF mbind
    outcome_bind bind mret outcome_ret]. f_equal. lia.
Qed.

(** Setting the samples of the runs of a line. *)
Lemma set_runs_spec (n start : Z) (runs : list RectangularRuns.PixelRun) :
  n < 2 ^ 63 ->
  Forall (between start 0 n) runs ->
  forall out : list Z, Z.of_nat (length out) = n ->
  exists out',
    set_runs (line_layout n) [start] 1 runs out = Returns out' /\
    length out' = length out /\
    forall p, get out' p = if existsb (covers start p) runs then Some 1 else get out p.
Proof.
  intros Hn Hruns. induction Hruns as [| run runs (c & Hc & Hlo & Hlen & Hhi) _ IH];
    intros out Hout.
  - exists out. split; [reflexivity | split; [reflexivity |]]. reflexivity.
  - cbn [set_runs]. rewrite Hc. cbn [zip_with].
    rewrite Pointer_on_line by lia. cbn [mbind outcome_bind bind].
    destruct (set_run_spec (Z.to_nat (RectangularRuns.length run)) out (c - start))
      as (out1 & -> & Hlen1 & Hget1); [lia | lia |].
    cbn [mbind outcome_bind bind].
    destruct (IH out1) as (out' & -> & Hlen' & Hget'); [lia |].
    exists out'. split; [reflexivity | split; [congruence |]].
    intros p. rewrite Hget', Hget1. cbn [existsb]. unfold covers at 2. rewrite Hc.
    rewrite Z2Nat.id by lia.
    destruct (existsb (covers start p) runs); [rewrite orb_true_r; reflexivity |].
    rewrite orb_false_r. reflexivity.
Qed.

(** A forged scalar binary image of one dimension, with a sample of 0
    or 1 for each of its pixels. *)
Definition line_mask (mask : Image) (n : Z) : Prop :=
  IsForged mask = true /\ tensorElements mask = 1 /\ dataType mask = DT_BIN /\
  sizes mask = [n] /\ Z.of_nat (length (samples mask)) = n /\
  Forall (fun v => v = 0 \/ v = 1) (samples mask).



End MaskRuns.


(** * Protected images (include/diplib/library/image.h)

    [Image::Protect], [Image::IsProtected], [Image::IsForged] and
    [Image::Strip], on the members they read and write. *)

Module Protection.
Import Outcome.
Local Open Scope Z_scope.

(** The members: the data block and the origin are pointers, null when
    the image is raw. *)
Record Image : Set := {
  dataBlock_ : option Z;
  origin_ : option Z;
  externalData_ : bool;
  protect_ : bool
}.

(** [return origin_ != nullptr;] *)
Definition IsForged (img : Image) : bool :=
  match origin_ img with Some _ => true | None => false end.

Definition IsProtected (img : Image) : bool := protect_ img.

(** [bool old = protect_; protect_ = set; return old;]: the image after
    the call, and the value returned. *)
Definition Protect (img : Image) (set : bool) : Image * bool :=
  ({| dataBlock_ := dataBlock_ img; origin_ := origin_ img;
      externalData_ := externalData_ img; protect_ := set |},
   protect_ img).

Definition Strip (img : Image) : outcome Image :=
  if IsForged img then
    DIP_THROW_IF (IsProtected img) (Message "Image is protected");;
    mret {| dataBlock_ := None; origin_ := None; externalData_ := false;
            protect_ := protect_ img |}
  else mret img.

(** X22. While an image is protected, as between
    [bool wasProtected = img.Protect();] and
    [img.Protect( wasProtected );], [Strip] does not release the data
    of a forged image: it throws, and the second call of [Protect] gives
    the image back as it was.  Without protection [Strip] leaves a raw
    image with the same flag, and stripping that again changes
    nothing. *)
Theorem protection_holds_the_data (img : Image) :
  let '(protected, wasProtected) := Protect img true in
  (IsForged img = true -> Strip protected = Throws (Message "Image is protected")) /\
  fst (Protect protected wasProtected) = img /\
  (IsForged img = false -> Strip protected = Returns protected) /\
  forall stripped, Strip img = Returns stripped ->
    IsForged stripped = false /\ IsProtected stripped = IsProtected img /\
    Strip stripped = Returns stripped /\
    (IsForged img = true -> IsProtected img = false).
Proof.
  destruct img as [block [origin |] external [|]]; cbn.
  all: split; [| split; [| split]]; try discriminate; try reflexivity.
  all: intros stripped Hs; try discriminate Hs; injection Hs as <-.
  all: split; [| split; [| split]]; try reflexivity; discriminate.
Qed.

End Protection.


(** * Pixel tables with offsets (src/library/pixel_table.cpp)

    The constructor [PixelTableOffsets( pt, image )], which turns the
    coordinates of every run into an offset in an image.  The weights,
    which the constructor copies as they are, are left out, as they are
    in the pixel table. *)

Module PixelOffsets.
Import Outcome.
Local Open Scope Z_scope.

(** [PixelTableOffsets::PixelRun] *)
Record PixelRun : Set := {
  offset : Z;   (* dip::sint *)
  length : Z    (* dip::uint *)
}.

Record PixelTableOffsets : Set := {
  sizes_ : list Z;
  origin_ : list Z;
  nPixels_ : Z;
  procDim_ : Z;
  stride_ : Z;
  runs_ : list PixelRun
}.

(** [image.Stride( procDim_ )]: [strides_[ dim ]] *)
Definition Stride (image : ImageIndexing.Layout) (dim : Z) : outcome Z :=
  Buffer.load (ImageIndexing.strides_ image) dim.

(** [runs_[ ii ].offset = image.Offset( inRuns[ ii ].coordinates );
     runs_[ ii ].length = inRuns[ ii ].length;] *)
Definition with_offset (image : ImageIndexing.Layout) (run : RectangularRuns.PixelRun)
  : outcome PixelRun :=
  offset ← ImageIndexing.Offset_signed image (RectangularRuns.coordinates run);
  mret {| offset := offset; length := RectangularRuns.length run |}.

Definition PixelTableOffsets_of (pt : MaskRuns.PixelTable) (image : ImageIndexing.Layout)
  : outcome PixelTableOffsets :=
  stride ← Stride image (MaskRuns.procDim_ pt);
  runs ← for_each (with_offset image) (MaskRuns.runs_ pt);
  mret {| sizes_ := MaskRuns.sizes_ pt; origin_ := MaskRuns.origin_ pt;
          nPixels_ := MaskRuns.nPixels_ pt; procDim_ := MaskRuns.procDim_ pt;
          stride_ := stride; runs_ := runs |}.

(** ** Properties *)

(** The coordinates of pixel [k] of a run along dimension [procDim]. *)
Definition pixel (procDim : nat) (run : RectangularRuns.PixelRun) (k : Z) : list Z :=
  match RectangularRuns.coordinates run !! procDim with
  | Some c => <[procDim := c + k]> (RectangularRuns.coordinates run)
  | None => RectangularRuns.coordinates run
  end.

(** The pixels of the run have as many coordinates as the image has
    dimensions, and their offsets fit [dip::sint]. *)
Definition reachable (image : ImageIndexing.Layout) (procDim : nat)
    (run : RectangularRuns.PixelRun) : Prop :=
  List.length (RectangularRuns.coordinates run) = List.length (ImageIndexing.sizes_ image) /\
  forall k, 0 <= k < Z.max 1 (RectangularRuns.length run) ->
    ImageIndexing.reach (pixel procDim run k) (ImageIndexing.strides_ image) < 2 ^ 63.

Lemma for_each_returns {A B : Type} (f : A -> outcome B) (l : list A) :
  Forall (fun a => exists b, f a = Returns b) l ->
  exists bs, for_each f l = Returns bs.
Proof.
  induction 1 as [| a l [b Hb] _ [bs Hbs]]; simpl; [eauto |].
  rewrite Hb. simpl. rewrite Hbs. simpl. eauto.
Qed.

Lemma dot_insert (coords : list Z) :
  forall (strides : list Z) (i : nat) (c st k : Z),
  coords !! i = Some c -> strides !! i = Some st ->
  ImageIndexing.dot (<[i := c + k]> coords) strides
  = ImageIndexing.dot coords strides + k * st.
Proof.
  induction coords as [| c0 coords IH]; intros strides i c st k Hc Hst; [discriminate |].
  destruct strides as [| st0 strides]; [discriminate |].
  destruct i as [| i]; simpl in *.
  - injection Hc as ->. injection Hst as ->. lia.
  - rewrite (IH strides i c st k Hc Hst). lia.
Qed.

Lemma Offset_signed_reach (image : ImageIndexing.Layout) (coords : list Z) :
  ImageIndexing.forged image = true ->
  List.length (ImageIndexing.strides_ image) = List.length (ImageIndexing.sizes_ image) ->
  List.length coords = List.length (ImageIndexing.sizes_ image) ->
  ImageIndexing.reach coords (ImageIndexing.strides_ image) < 2 ^ 63 ->
  ImageIndexing.Offset_signed image coords
  = Returns (ImageIndexing.dot coords (ImageIndexing.strides_ image)).
Proof.
  intros Hf Hs Hc Hr. unfold ImageIndexing.Offset_signed.
  rewrite Hf, Hc, Nat.eqb_refl. cbn [negb DIP_THROW_IF mbind outcome_bind bind].
  apply (ImageIndexing.Offset_signed_loop_reach _ _ _ 0 Hc Hs). simpl. lia.
Qed.

(** X23. For a forged image and a pixel table whose runs have pixels
    that the image can address, along a processing dimension of the
    image, the constructor returns a table with the number of pixels of
    the pixel table and one run for each of its runs, of the same
    length, whose offset is [Offset] of the coordinates of the run; and
    the offset of pixel [k] of the run is then that offset plus [k]
    times [stride_]. *)
Theorem offsets_follow_the_runs (pt : MaskRuns.PixelTable) (image : ImageIndexing.Layout)
    (procDim : nat) :
  ImageIndexing.forged image = true ->
  List.length (ImageIndexing.strides_ image) = List.length (ImageIndexing.sizes_ image) ->
  MaskRuns.procDim_ pt = Z.of_nat procDim ->
  (procDim < List.length (ImageIndexing.sizes_ image))%nat ->
  Forall (reachable image procDim) (MaskRuns.runs_ pt) ->
  exists pto,
    PixelTableOffsets_of pt image = Returns pto /\
    nPixels_ pto = MaskRuns.nPixels_ pt /\
    ImageIndexing.strides_ image !! procDim = Some (stride_ pto) /\
    List.length (runs_ pto) = List.length (MaskRuns.runs_ pt) /\
    forall i run, MaskRuns.runs_ pt !! i = Some run ->
    exists r,
      runs_ pto !! i = Some r /\
      length r = RectangularRuns.length run /\
      ImageIndexing.Offset_signed image (RectangularRuns.coordinates run)
        = Returns (offset r) /\
      forall k, 0 <= k < RectangularRuns.length run ->
        ImageIndexing.Offset_signed image (pixel procDim run k)
        = Returns (offset r + k * stride_ pto).
Proof.
  intros Hf Hs Hp Hdim Hruns.
  destruct (lookup_lt_is_Some_2 (ImageIndexing.strides_ image) procDim ltac:(lia))
    as [stride Hstride].
  assert (Hbase : forall run, reachable image procDim run ->
            ImageIndexing.Offset_signed image (RectangularRuns.coordinates run)
            = Returns (ImageIndexing.dot (RectangularRuns.coordinates run)
                         (ImageIndexing.strides_ image))).
  { intros run [Hlen Hreach]. apply Offset_signed_reach; try assumption.
    specialize (Hreach 0 ltac:(lia)). unfold pixel in Hreach.
    destruct (RectangularRuns.coordinates run !! procDim) as [c |] eqn:Hc;
      [| exact Hreach].
    rewrite Z.add_0_r, list_insert_id in Hreach by exact Hc. exact Hreach. }
  destruct (for_each_returns (with_offset image) (MaskRuns.runs_ pt)) as [runs Hrun].
  { eapply Forall_impl; [exact Hruns |]. intros run Hr. unfold with_offset.
    rewrite (Hbase run Hr). simpl. eauto. }
  eexists. split; [| split; [| split; [| split]]].
  - unfold PixelTableOffsets_of, Stride, Buffer.load, Buffer.get. rewrite Hp.
    replace (0 <=? Z.of_nat procDim) with true by (symmetry; apply Z.leb_le; lia).
    rewrite Nat2Z.id, Hstride. cbn [defined mbind outcome_bind bind].
    rewrite Hrun. reflexivity.
  - reflexivity.
  - exact Hstride.
  - cbn [runs_]. eapply for_each_length; eauto.
  - intros i run Hi. cbn [runs_ stride_].
    destruct (for_each_lookup _ _ _ _ _ Hrun Hi) as (r & Hr & Hlook).
    rewrite Forall_forall in Hruns.
    assert (Hreach : reachable image procDim run)
      by (apply Hruns; apply list_elem_of_lookup; eauto).
    unfold with_offset in Hr. rewrite (Hbase run Hreach) in Hr. simpl in Hr.
    injection Hr as <-. eexists. split; [exact Hlook |]. cbn [length offset].
    split; [reflexivity | split; [apply Hbase; exact Hreach |]].
    intros k Hk. destruct Hreach as [Hlen Hreach].
    destruct (lookup_lt_is_Some_2 (RectangularRuns.coordinates run) procDim ltac:(lia))
      as [c Hc].
    specialize (Hreach k ltac:(lia)).
    rewrite Offset_signed_reach; try assumption.
    + unfold pixel. rewrite Hc. f_equal. apply dot_insert; assumption.
    + unfold pixel. rewrite Hc, length_insert. exact Hlen.
Qed.

(** The theorem for the table of the mask of the examples in a line of
    eight pixels. *)
Definition a_table : MaskRuns.PixelTable :=
  {| MaskRuns.sizes_ := [8]; MaskRuns.origin_ := [0]; MaskRuns.procDim_ := 0;
     MaskRuns.runs_ := [ RectangularRuns.Build_PixelRun [0] 2;
                         RectangularRuns.Build_PixelRun [3] 1 ];
     MaskRuns.nPixels_ := 3 |}.

Lemma offsets_follow_the_runs_witness :
  exists pto,
    PixelTableOffsets_of a_table (MaskRuns.line_layout 8) = Returns pto /\
    nPixels_ pto = 3 /\
    [1] !! 0%nat = Some (stride_ pto) /\
    List.length (runs_ pto) = 2%nat /\
    forall i run, MaskRuns.runs_ a_table !! i = Some run ->
    exists r,
      runs_ pto !! i = Some r /\
      length r = RectangularRuns.length run /\
      ImageIndexing.Offset_signed (MaskRuns.line_layout 8) (RectangularRuns.coordinates run)
        = Returns (offset r) /\
      forall k, 0 <= k < RectangularRuns.length run ->
        ImageIndexing.Offset_signed (MaskRuns.line_layout 8) (pixel 0 run k)
        = Returns (offset r + k * stride_ pto).
Proof.
  apply (offsets_follow_the_runs a_table (MaskRuns.line_layout 8) 0).
  - reflexivity.
  - reflexivity.
  - reflexivity.
  - simpl. lia.
  - repeat constructor; simpl; intros k Hk; unfold pixel; simpl; lia.
Defined.

End PixelOffsets.
